(** * git-backup: scope resolution, tree synchronisation, snapshots, restore

    A shallow embedding of the Go sources of the PlainID git-backup tool
    (packages [config], [plainid], [repository] and [cmd]) together with the
    properties of its versioning and scope-resolution engine.

    Layout of the development: the definitions come first, one module per Go
    package or command; the lemmas and theorems follow. *)

From Stdlib Require Import List String Ascii Bool Arith ZArith Lia.
From Stdlib Require Import Permutation Sorted DecimalString.
Import ListNotations.

Local Open Scope string_scope.
Local Open Scope list_scope.
Local Open Scope nat_scope.

(* ================================================================= *)
(** ** Go's [strings] package, as far as the commands use it *)

Module Strings.

(** [strings.HasPrefix(s, prefix)]. *)
Definition HasPrefix (s prefix : string) : bool := String.prefix prefix s.

(** [strings.Contains(s, substr)]: some suffix of [s] starts with
    [substr]. *)
Fixpoint Contains (s substr : string) : bool :=
  String.prefix substr s ||
  match s with
  | EmptyString => false
  | String _ s' => Contains s' substr
  end.

(** [strings.HasSuffix(s, suffix)]. *)
Definition HasSuffix (s suffix : string) : bool :=
  (String.length suffix <=? String.length s) &&
  String.eqb
    (String.substring (String.length s - String.length suffix)
                      (String.length suffix) s)
    suffix.

(** [strings.TrimPrefix(s, prefix)]. *)
Definition TrimPrefix (s prefix : string) : string :=
  if HasPrefix s prefix
  then String.substring (String.length prefix)
                        (String.length s - String.length prefix) s
  else s.

(** [strings.Split(s, sep)] for a separator of one byte. *)
Fixpoint SplitByte (sep : ascii) (s : string) : list string :=
  match s with
  | EmptyString => [EmptyString]
  | String c s' =>
      if Ascii.eqb c sep then EmptyString :: SplitByte sep s'
      else match SplitByte sep s' with
           | [] => [String c EmptyString]
           | w :: ws => String c w :: ws
           end
  end.

(** [strings.Join(elems, sep)]. *)
Definition Join (elems : list string) (sep : string) : string :=
  String.concat sep elems.

End Strings.

(* ================================================================= *)
(** ** Go's [time] package: the layout ["20060102-150405"] *)

Module Time.

Local Open Scope N_scope.

(** The civil-time fields of a [time.Time], as [Date()], [Clock()] and
    [Nanosecond()] return them. *)
Record t : Type := mk {
  year : N; month : N; day : N;
  hour : N; minute : N; second : N;
  nsec : N
}.

Definition isLeap (y : N) : bool :=
  (y mod 4 =? 0) && (negb (y mod 100 =? 0) || (y mod 400 =? 0)).

Definition daysIn (m y : N) : N :=
  match m with
  | 2 => if isLeap y then 29 else 28
  | 4 | 6 | 9 | 11 => 30
  | _ => 31
  end.

(** The field ranges every [time.Time] within the years 0..9999
    satisfies. *)
Definition valid (x : t) : Prop :=
  year x <= 9999 /\
  1 <= month x <= 12 /\
  1 <= day x <= daysIn (month x) (year x) /\
  hour x < 24 /\ minute x < 60 /\ second x < 60 /\
  nsec x < 1000000000.

(** [Truncate(time.Second)] on the fields. *)
Definition truncSecond (x : t) : t :=
  mk (year x) (month x) (day x) (hour x) (minute x) (second x) 0.

Definition digit (d : N) : ascii := ascii_of_N (48 + d).

Definition isDigit (c : ascii) : bool :=
  let n := N_of_ascii c in (48 <=? n) && (n <=? 57).

Definition digitVal (c : ascii) : N := N_of_ascii c - 48.

(** [appendInt(b, x, 2)] and [appendInt(b, x, 4)] for the values the
    fields of a valid time take. *)
Definition pad2 (n : N) (k : string) : string :=
  String (digit (n / 10 mod 10)) (String (digit (n mod 10)) k).

Definition pad4 (n : N) (k : string) : string :=
  String (digit (n / 1000 mod 10))
    (String (digit (n / 100 mod 10)) (pad2 n k)).

(** [t.Format("20060102-150405")]. *)
Definition Format (x : t) : string :=
  pad4 (year x)
    (pad2 (month x)
       (pad2 (day x)
          (String "-"
             (pad2 (hour x) (pad2 (minute x) (pad2 (second x) "")))))).

(** [getnum(s, fixed)]: one or two leading digits. *)
Definition getnum (s : string) (fixed : bool) : option (N * string) :=
  match s with
  | String c0 rest =>
      if isDigit c0 then
        match rest with
        | String c1 rest' =>
            if isDigit c1
            then Some (digitVal c0 * 10 + digitVal c1, rest')
            else if fixed then None else Some (digitVal c0, rest)
        | EmptyString =>
            if fixed then None else Some (digitVal c0, rest)
        end
      else None
  | EmptyString => None
  end.

(** The year chunk ["2006"]: four digits. *)
Definition getyear (s : string) : option (N * string) :=
  match s with
  | String a (String b (String c (String d rest))) =>
      if isDigit a && isDigit b && isDigit c && isDigit d
      then Some (((digitVal a * 10 + digitVal b) * 10 + digitVal c) * 10
                 + digitVal d, rest)
      else None
  | _ => None
  end.

(** The digits of a fractional second that follow the separator;
    returns them with the rest of the input. *)
Fixpoint spanDigits (s : string) : list N * string :=
  match s with
  | String c rest =>
      if isDigit c
      then let (ds, r) := spanDigits rest in (digitVal c :: ds, r)
      else ([], s)
  | EmptyString => ([], s)
  end.

(** [parseNanoseconds]: at most nine digits count, scaled to
    nanoseconds. *)
Fixpoint nanosOf (width : nat) (ds : list N) : N :=
  match width with
  | O => 0
  | S w =>
      match ds with
      | [] => 0
      | d :: ds' => d * 10 ^ N.of_nat w + nanosOf w ds'
      end
  end.

Definition commaOrPeriod (c : ascii) : bool :=
  Ascii.eqb c "." || Ascii.eqb c ",".

(** A fractional second in the input although the layout has none. *)
Definition fracSecond (s : string) : N * string :=
  match s with
  | String c0 (String c1 rest) =>
      if commaOrPeriod c0 && isDigit c1
      then let (ds, r) := spanDigits (String c1 rest) in (nanosOf 9 ds, r)
      else (0, s)
  | _ => (0, s)
  end.

(** [time.Parse("20060102-150405", value)]; [None] stands for every
    parse error. *)
Definition Parse (value : string) : option t :=
  match getyear value with
  | None => None
  | Some (y, v1) =>
  match getnum v1 true with
  | None => None
  | Some (mo, v2) =>
  if (mo =? 0) || (12 <? mo) then None else
  match getnum v2 true with
  | None => None
  | Some (d, v3) =>
  match v3 with
  | String "-" v4 =>
  match getnum v4 false with
  | None => None
  | Some (h, v5) =>
  if 24 <=? h then None else
  match getnum v5 true with
  | None => None
  | Some (mi, v6) =>
  if 60 <=? mi then None else
  match getnum v6 true with
  | None => None
  | Some (s, v7) =>
  if 60 <=? s then None else
  let (ns, v8) := fracSecond v7 in
  match v8 with
  | EmptyString =>
      if (d <? 1) || (daysIn mo y <? d) then None
      else Some (mk y mo d h mi s ns)
  | String _ _ => None
  end end end end
  | _ => None
  end end end end.

(** Comparison of the civil-time fields, which is what [Before] and
    [After] decide between two times of one location and offset, such
    as the times in UTC that [Parse] returns. *)
Definition lexc (c : comparison) (k : comparison) : comparison :=
  match c with Eq => k | _ => c end.

Definition compare (a b : t) : comparison :=
  lexc (year a ?= year b)
 (lexc (month a ?= month b)
 (lexc (day a ?= day b)
 (lexc (hour a ?= hour b)
 (lexc (minute a ?= minute b)
 (lexc (second a ?= second b)
       (nsec a ?= nsec b)))))).

(** [t.After(u)]. *)
Definition After (a u : t) : bool :=
  match compare a u with Gt => true | _ => false end.

Definition yearLength (y : N) : N := if isLeap y then 366 else 365.

(** The days from 1 January of year 0 to 1 January of year [y], in the
    proleptic Gregorian calendar in which a [time.Time] counts. *)
Definition daysBeforeYear (y : N) : N :=
  N.recursion 0 (fun k acc => acc + yearLength k) y.

(** The days of year [y] before the first of month [m]. *)
Definition daysBeforeMonth (m y : N) : N :=
  let l := if isLeap y then 1 else 0 in
  match m with
  | 1 => 0
  | 2 => 31
  | 3 => 59 + l
  | 4 => 90 + l
  | 5 => 120 + l
  | 6 => 151 + l
  | 7 => 181 + l
  | 8 => 212 + l
  | 9 => 243 + l
  | 10 => 273 + l
  | 11 => 304 + l
  | _ => 334 + l
  end.

Definition dayNumber (x : t) : N :=
  daysBeforeYear (year x) + daysBeforeMonth (month x) (year x)
  + (day x - 1).

(** The instant of a [time.Time] whose wall clock shows the fields [x]
    in a zone [off] seconds east of UTC, in seconds since
    0000-01-01 00:00:00 UTC.  [time.Now()] is such a pair of a wall
    clock and the offset of the local zone; [Format] prints the wall
    clock, and [Before] and [After] compare instants. *)
Definition instant (off : Z) (x : t) : Z :=
  (Z.of_N (dayNumber x * 86400 + hour x * 3600 + minute x * 60 + second x)
   - off)%Z.

End Time.

(* ================================================================= *)
(** ** Errors *)

(** A Go [(T, error)] pair: either the value or the error's message. *)
Inductive result (A : Type) : Type :=
| Ok (a : A)
| Err (msg : string).
Arguments Ok {A} a.
Arguments Err {A} msg.

(** [fmt.Errorf("<ctx>: %w", err)]. *)
Definition wrap (ctx : string) (msg : string) : string :=
  String.append ctx (String.append ": " msg).

(* ================================================================= *)
(** ** The file system the commands work on *)

Module FS.

(** A file with its content, or a directory with its entries.  The
    entries are kept in the order of their names, the order in which
    [os.ReadDir] lists them.  File modes are not modelled. *)
Inductive node : Type :=
| File (data : string)
| Dir (entries : list (string * node)).

(** A path is the list of its components below a root. *)
Definition path : Type := list string.

Definition isDir (n : node) : bool :=
  match n with Dir _ => true | File _ => false end.

Fixpoint assoc (k : string) (es : list (string * node)) : option node :=
  match es with
  | [] => None
  | (k', v) :: r => if String.eqb k k' then Some v else assoc k r
  end.

(** Replaces the first entry named [k]. *)
Fixpoint replace (k : string) (v : node) (es : list (string * node))
  : list (string * node) :=
  match es with
  | [] => []
  | (k', v') :: r =>
      if String.eqb k k' then (k, v) :: r else (k', v') :: replace k v r
  end.

(** Inserts a new entry at its place in the name order. *)
Fixpoint insert (k : string) (v : node) (es : list (string * node))
  : list (string * node) :=
  match es with
  | [] => [(k, v)]
  | (k', v') :: r =>
      if String.ltb k k' then (k, v) :: es else (k', v') :: insert k v r
  end.

(** Adds or replaces the entry [k]. *)
Definition put (k : string) (v : node) (es : list (string * node))
  : list (string * node) :=
  match assoc k es with
  | Some _ => replace k v es
  | None => insert k v es
  end.

(** Removes the entries named [k]. *)
Definition del (k : string) (es : list (string * node))
  : list (string * node) :=
  filter (fun e => negb (String.eqb k (fst e))) es.

Fixpoint lookup (p : path) (n : node) : option node :=
  match p with
  | [] => Some n
  | x :: p' =>
      match n with
      | Dir es =>
          match assoc x es with
          | Some c => lookup p' c
          | None => None
          end
      | File _ => None
      end
  end.

(** [os.MkdirAll]: creates the missing directories of [p]; fails when a
    component is an existing file. *)
Fixpoint mkdirAll (p : path) (n : node) : option node :=
  match n with
  | File _ => None
  | Dir es =>
      match p with
      | [] => Some n
      | x :: p' =>
          let c := match assoc x es with Some c => c | None => Dir [] end in
          match mkdirAll p' c with
          | Some c' => Some (Dir (put x c' es))
          | None => None
          end
      end
  end.

(** [os.WriteFile] and [os.Create]: the parent must be an existing
    directory and the name must not be a directory. *)
Fixpoint writeFile (p : path) (data : string) (n : node) : option node :=
  match p, n with
  | [], _ => None
  | _, File _ => None
  | [x], Dir es =>
      match assoc x es with
      | Some (Dir _) => None
      | _ => Some (Dir (put x (File data) es))
      end
  | x :: p', Dir es =>
      match assoc x es with
      | Some c =>
          match writeFile p' data c with
          | Some c' => Some (Dir (put x c' es))
          | None => None
          end
      | None => None
      end
  end.

(** [os.Remove]: removes a file or an empty directory. *)
Fixpoint remove (p : path) (n : node) : option node :=
  match p, n with
  | [], _ => None
  | _, File _ => None
  | [x], Dir es =>
      match assoc x es with
      | Some (Dir (_ :: _)) => None
      | Some _ => Some (Dir (del x es))
      | None => None
      end
  | x :: p', Dir es =>
      match assoc x es with
      | Some c =>
          match remove p' c with
          | Some c' => Some (Dir (put x c' es))
          | None => None
          end
      | None => None
      end
  end.

(** [os.RemoveAll]: removes [p] with everything below it; a path that
    does not exist is no error, a file in the place of a parent
    directory is one.  Removing the root empties it. *)
Fixpoint removeAll (p : path) (n : node) : option node :=
  match p, n with
  | [], _ => Some (Dir [])
  | _, File _ => None
  | [x], Dir es => Some (Dir (del x es))
  | x :: p', Dir es =>
      match assoc x es with
      | Some c =>
          match removeAll p' c with
          | Some c' => Some (Dir (put x c' es))
          | None => None
          end
      | None => Some n
      end
  end.

(** [os.ReadDir]. *)
Definition readDir (p : path) (n : node)
  : option (list (string * node)) :=
  match lookup p n with
  | Some (Dir es) => Some es
  | _ => None
  end.

Definition readFile (p : path) (n : node) : option string :=
  match lookup p n with
  | Some (File d) => Some d
  | _ => None
  end.

(** The height of a tree bounds the depth of every recursive walk. *)
Fixpoint height (n : node) : nat :=
  match n with
  | File _ => 0
  | Dir es => S (list_max (map (fun e => height (snd e)) es))
  end.

Fixpoint nodupb (l : list string) : bool :=
  match l with
  | [] => true
  | x :: r => negb (existsb (String.eqb x) r) && nodupb r
  end.

(** Names are unique within every directory. *)
Fixpoint wfb (n : node) : bool :=
  match n with
  | File _ => true
  | Dir es => nodupb (map fst es) && forallb (fun e => wfb (snd e)) es
  end.

(** [p] is [q] or lies above it. *)
Fixpoint isPrefix (p q : path) : bool :=
  match p, q with
  | [], _ => true
  | x :: p', y :: q' => String.eqb x y && isPrefix p' q'
  | _ :: _, [] => false
  end.

End FS.

(* ================================================================= *)
(** ** Package [config] *)

Module Config.

(** [config.Workspace]. *)
Record Workspace : Type := mkWorkspace {
  WsID : string;
  WsName : string
}.

(** [config.Environment].  The [Identities] field is the one
    [cmd/root.go] and [cmd/backup.go] read and write. *)
Record Environment : Type := mkEnvironment {
  ID : string;
  Name : string;
  Workspaces : list Workspace;
  Identities : list string
}.

(** [Environment.HasWildcardWorkspace]. *)
Definition HasWildcardWorkspace (e : Environment) : bool :=
  existsb (fun w => String.eqb (WsID w) "*") (Workspaces e).

(** Modelled from the spec: [Environment.HasWildcardIdentities], which
    [cmd/root.go] calls and whose declaration is not among the sources:
    the identity selector contains the wildcard token. *)
Definition HasWildcardIdentities (e : Environment) : bool :=
  existsb (fun i => String.eqb i "*") (Identities e).

(** [Environment.IsWildcard]. *)
Definition IsWildcard (e : Environment) : bool := String.eqb (ID e) "*".

(** [config.GitConfig]; the token plays no role in the model. *)
Record GitConfig : Type := mkGitConfig {
  Repo : string;
  Branch : string;
  DeleteTempOnSuccess : bool
}.

(** [config.PlainIDConfig] and [config.Config], flattened. *)
Record Config : Type := mkConfig {
  Git : GitConfig;
  Envs : list Environment;
  DryRun : bool
}.

Definition withEnvs (c : Config) (envs : list Environment) : Config :=
  mkConfig (Git c) envs (DryRun c).

(** [PlainIDConfig.HasWildcardEnvironment]. *)
Definition HasWildcardEnvironment (c : Config) : bool :=
  existsb IsWildcard (Envs c).

(** [PlainIDConfig.FindEnvironment]: the exact match first, the
    wildcard environment otherwise. *)
Definition FindEnvironment (c : Config) (envID : string)
  : option Environment :=
  match find (fun e => String.eqb (ID e) envID) (Envs c) with
  | Some e => Some e
  | None =>
      if HasWildcardEnvironment c then find IsWildcard (Envs c)
      else None
  end.

(** [Environment.ContainsWorkspace]. *)
Definition ContainsWorkspace (e : Environment) (workspaceID : string)
  : bool :=
  existsb (fun w => String.eqb (WsID w) workspaceID
                    || String.eqb (WsID w) "*")
          (Workspaces e).

(** [PlainIDConfig.ContainsEnvironment]. *)
Definition ContainsEnvironment (c : Config) (envID : string) : bool :=
  if HasWildcardEnvironment c then true
  else existsb (fun e => String.eqb (ID e) envID) (Envs c).

End Config.

(* ================================================================= *)
(** ** Package [plainid]: the data the service returns *)

Module Plainid.

Record Environment : Type := mkEnvironment {
  EnvID : string;
  EnvName : string
}.

Record Workspace : Type := mkWorkspace {
  WsID : string;
  WsName : string
}.

(** [TemplateID] is the field [cmd/root.go] reads from an identity. *)
Record Identity : Type := mkIdentity {
  IdentID : string;
  IdentName : string;
  TemplateID : string
}.

Record Policy : Type := mkPolicy {
  PolID : string;
  PolName : string;
  PolState : string;
  PolAccessType : string
}.

Record Meta : Type := mkMeta {
  MetaTotal : Z;
  MetaLimit : Z;
  MetaOffset : Z
}.

Record PolicyResponse : Type := mkPolicyResponse {
  PolData : list Policy;
  PolMeta : Meta
}.

(** [Application]; the descriptive fields are kept as one value. *)
Record Application : Type := mkApplication {
  AppWSID : string;
  AppID : string;
  AppName : string;
  AppDetails : string
}.

(** The local types [AppInfo] and [AppInfoResponse] of
    [Service.Applications]. *)
Record AppInfo : Type := mkAppInfo {
  InfoID : string;
  InfoName : string;
  InfoWSID : string
}.

Record AppInfoResponse : Type := mkAppInfoResponse {
  Data : list AppInfo;
  Total : Z;
  Limit : Z;
  Offset : Z
}.

(** [PAAGroup]; sources and views are kept in their serialised form. *)
Record PAAGroup : Type := mkPAAGroup {
  GroupID : string;
  GroupDetails : string;
  Views : list string;
  Sources : list string
}.

(** The requests the service sends; every one of them is a GET. *)
Inductive Request : Type :=
| ReqEnvironments
| ReqWorkspaces (envID : string)
| ReqIdentities (envID : string)
| ReqAppPage (envID : string) (limit offset : Z)
| ReqApp (envID appID : string)
| ReqPolicyList (envID appID : string)
| ReqPolicy (envID wsID polID : string)
| ReqApiMapper (envID appID : string)
| ReqAssetTemplateIDs (wsID : string)
| ReqAssetTemplate (envID templateID : string)
| ReqIdentityTemplate (envID identityID : string)
| ReqPAAGroups (envID : string)
| ReqPAAGroupSources (envID groupID : string)
| ReqPAAGroupViews (envID groupID : string).

(** The identity-management system as the requests see it.  An [Err]
    answer stands for a transport failure or a status other than 200,
    and for a body that does not unmarshal where the service checks
    the decoding at once.  [AppPolicies] returns the decoding error of
    the policy list only after its loop: for [getPolicyList] an [Err]
    is one of the first two. *)
Record Api : Type := mkApi {
  getEnvironments : result (list Environment);
  getWorkspaces : string -> result (list Workspace);
  getIdentities : string -> result (list Identity);
  getAppPage : string -> Z -> Z -> result AppInfoResponse;
  getApp : string -> string -> result Application;
  getPolicyList : string -> string -> result PolicyResponse;
  getPolicy : string -> string -> string -> result string;
  getApiMapper : string -> string -> result string;
  getAssetTemplateIDs : string -> result (list string);
  getAssetTemplate : string -> string -> result string;
  getIdentityTemplate : string -> string -> result string;
  getPAAGroups : string -> result (list PAAGroup);
  getPAAGroupSources : string -> string -> result (list string);
  getPAAGroupViews : string -> string -> result (list string);
  (** [json.Marshal] of an application and of a PAA group *)
  marshalApp : Application -> result string;
  marshalPAAGroup : PAAGroup -> result string
}.

End Plainid.

(* ================================================================= *)
(** ** The world around a command: events, host, state *)

Inductive root : Type := Scratch | Disk.

(** The operations on the file system.  [Scratch] is the directory
    [repository.CreateTempDir] returns, created by [os.MkdirTemp] under a
    fresh name; [Disk] is the rest of the file system, where the target
    directory of a restore lies. *)
Inductive FsOp : Type :=
| OpMkdirTemp
| OpMkdirAll (r : root) (p : FS.path)
| OpRemoveAll (r : root) (p : FS.path)
| OpRemove (r : root) (p : FS.path)
| OpWriteFile (r : root) (p : FS.path)
| OpReadDir (r : root) (p : FS.path)
| OpStat (r : root) (p : FS.path)
| OpReadFile (r : root) (p : FS.path).

(** The operations of the version-control library. *)
Inductive GitOp : Type :=
| GitClone
| GitInit
| GitWorktree
| GitAdd
| GitCommit (msg : string)
| GitSetBranch (branch : string)
| GitCreateTag (name msg : string)
| GitPush (refspecs : list string) (force : bool)
| GitFetchTags
| GitTags
| GitCheckout (tag : string).

(** What a run does to the outside, with the success of each step. *)
Inductive Event : Type :=
| EvGet (r : Plainid.Request) (ok : bool)
| EvFs (op : FsOp) (ok : bool)
| EvGit (op : GitOp) (ok : bool).

(** A tag of the remote with the message of its tag object, when it has
    one that can be read. *)
Record TagRef : Type := mkTagRef {
  tagName : string;
  tagMessage : option string
}.

(** Everything a run reads and cannot change. *)
Record Host : Type := mkHost {
  api : Plainid.Api;
  (** operations the operating system refuses (permissions, full disk) *)
  fsFails : FsOp -> bool;
  (** operations the version-control library fails *)
  gitFails : GitOp -> bool;
  (** the tree of the branch on the remote; [None] for an empty remote *)
  remoteBranch : option FS.node;
  remoteTags : list TagRef;
  (** the tree a tag of the remote points to *)
  remoteSnapshot : string -> option FS.node;
  (** [time.Now()], as the wall clock of the local zone shows it *)
  now : Time.t;
  (** how many pages a pagination loop is followed *)
  pageBudget : nat
}.

(** The mutable store: the two file-system trees and the events so far,
    oldest first.  The global [cfg] is assigned once, by
    [PersistentPreRunE], and only read afterwards: it is passed as a
    value. *)
Record State : Type := mkState {
  scratch : FS.node;
  disk : FS.node;
  trace : list Event
}.

(** How a computation ends: with a value, with a Go error, or not within
    the page budget. *)
Inductive outcome (A : Type) : Type :=
| Done (a : A)
| Fail (msg : string)
| Fuel.
Arguments Done {A} a.
Arguments Fail {A} msg.
Arguments Fuel {A}.

Definition M (A : Type) : Type := State -> State * outcome A.

Definition ret {A} (a : A) : M A := fun s => (s, Done a).

Definition fail {A} (msg : string) : M A := fun s => (s, Fail msg).

Definition outOfFuel {A} : M A := fun s => (s, Fuel).

Definition bind {A B} (m : M A) (k : A -> M B) : M B :=
  fun s =>
    match m s with
    | (s', Done a) => k a s'
    | (s', Fail msg) => (s', Fail msg)
    | (s', Fuel) => (s', Fuel)
    end.

Notation "x <- m ;; k" := (bind m (fun x => k))
  (at level 61, m at next level, right associativity).
Notation "m ;;; k" := (bind m (fun _ => k))
  (at level 61, right associativity).

(** [if err != nil { return fmt.Errorf("<ctx>: %w", err) }]. *)
Definition wrapErr {A} (ctx : string) (m : M A) : M A :=
  fun s =>
    match m s with
    | (s', Fail msg) => (s', Fail (wrap ctx msg))
    | r => r
    end.

Definition log (e : Event) : M unit :=
  fun s => (mkState (scratch s) (disk s) (trace s ++ [e]), Done tt).

Definition getState : M State := fun s => (s, Done s).

Definition tree (r : root) (s : State) : FS.node :=
  match r with Scratch => scratch s | Disk => disk s end.

Definition setTree (r : root) (n : FS.node) : M unit :=
  fun s =>
    match r with
    | Scratch => (mkState n (disk s) (trace s), Done tt)
    | Disk => (mkState (scratch s) n (trace s), Done tt)
    end.

(** [for _, x := range xs { ... }] with an early return on error. *)
Fixpoint forEach {A} (xs : list A) (body : A -> M unit) : M unit :=
  match xs with
  | [] => ret tt
  | x :: xs' => body x ;;; forEach xs' body
  end.

(** [for i, x := range xs { ... }], counting from [i]. *)
Fixpoint forEachIdx {A} (i : nat) (xs : list A) (body : nat -> A -> M unit)
  : M unit :=
  match xs with
  | [] => ret tt
  | x :: xs' => body i x ;;; forEachIdx (S i) xs' body
  end.

(** A loop that appends to a slice. *)
Fixpoint collect {A B} (xs : list A) (body : A -> M (list B)) : M (list B) :=
  match xs with
  | [] => ret []
  | x :: xs' =>
      ys <- body x ;;
      zs <- collect xs' body ;;
      ret (ys ++ zs)
  end.

(** [defer cleanup()]: the cleanup runs when the body has returned,
    whatever it returned. *)
Definition defer {A} (cleanup : M unit) (body : M A) : M A :=
  fun s =>
    match body s with
    | (s', r) => (fst (cleanup s'), r)
    end.

(* ================================================================= *)
(** ** Package [os] and package [repository] *)

Module OS.
Section WithHost.

Variable h : Host.

(** An operation that changes one tree. *)
Definition update (op : FsOp) (r : root)
           (f : FS.node -> option FS.node) (errmsg : string) : M unit :=
  s <- getState ;;
  if fsFails h op then log (EvFs op false) ;;; fail errmsg
  else match f (tree r s) with
       | Some n' => setTree r n' ;;; log (EvFs op true)
       | None => log (EvFs op false) ;;; fail errmsg
       end.

Definition MkdirAll (r : root) (p : FS.path) : M unit :=
  update (OpMkdirAll r p) r (FS.mkdirAll p) "mkdir".

Definition RemoveAll (r : root) (p : FS.path) : M unit :=
  update (OpRemoveAll r p) r (FS.removeAll p) "unlinkat".

Definition Remove (r : root) (p : FS.path) : M unit :=
  update (OpRemove r p) r (FS.remove p) "remove".

Definition WriteFile (r : root) (p : FS.path) (data : string) : M unit :=
  update (OpWriteFile r p) r (FS.writeFile p data) "open".

(** What [os.ReadDir] returns, with [os.IsNotExist] told apart. *)
Inductive listing : Type :=
| Entries (es : list (string * FS.node))
| NotExist
| Refused.

Definition ReadDirE (r : root) (p : FS.path) : M listing :=
  s <- getState ;;
  if fsFails h (OpReadDir r p)
  then log (EvFs (OpReadDir r p) false) ;;; ret Refused
  else match FS.lookup p (tree r s) with
       | Some (FS.Dir es) => log (EvFs (OpReadDir r p) true) ;;; ret (Entries es)
       | Some (FS.File _) => log (EvFs (OpReadDir r p) false) ;;; ret Refused
       | None => log (EvFs (OpReadDir r p) false) ;;; ret NotExist
       end.

Definition ReadDir (r : root) (p : FS.path)
  : M (list (string * FS.node)) :=
  l <- ReadDirE r p ;;
  match l with
  | Entries es => ret es
  | NotExist => fail "no such file or directory"
  | Refused => fail "readdir"
  end.

Definition Stat (r : root) (p : FS.path) : M unit :=
  s <- getState ;;
  if fsFails h (OpStat r p) then log (EvFs (OpStat r p) false) ;;; fail "stat"
  else match FS.lookup p (tree r s) with
       | Some _ => log (EvFs (OpStat r p) true)
       | None => log (EvFs (OpStat r p) false) ;;; fail "stat"
       end.

(** [os.Open] of a file followed by reading it to its end. *)
Definition ReadFile (r : root) (p : FS.path) : M string :=
  s <- getState ;;
  if fsFails h (OpReadFile r p)
  then log (EvFs (OpReadFile r p) false) ;;; fail "open"
  else match FS.readFile p (tree r s) with
       | Some d => log (EvFs (OpReadFile r p) true) ;;; ret d
       | None => log (EvFs (OpReadFile r p) false) ;;; fail "open"
       end.

(** [repository.CreateTempDir]: the scratch directory, empty. *)
Definition CreateTempDir : M unit :=
  wrapErr "failed to create temporary directory"
    (if fsFails h OpMkdirTemp
     then log (EvFs OpMkdirTemp false) ;;; fail "mkdtemp"
     else setTree Scratch (FS.Dir []) ;;; log (EvFs OpMkdirTemp true)).

(** [repository.CleanupTempDir]: a failure is only logged. *)
Definition CleanupTempDir : M unit :=
  if fsFails h (OpRemoveAll Scratch [])
  then log (EvFs (OpRemoveAll Scratch []) false)
  else setTree Scratch (FS.Dir []) ;;;
       log (EvFs (OpRemoveAll Scratch []) true).

(** One operation of the version-control library. *)
Definition git (op : GitOp) : M unit :=
  if gitFails h op then log (EvGit op false) ;;; fail "git"
  else log (EvGit op true).

(** [repository.CloneRemote]: the scratch directory is fresh, so there
    is no local repository to open; the branch is cloned, and an empty
    remote is answered by [initializeRepository].  Returns whether the
    repository is new, which is what [repo.Head()] tells the caller. *)
Definition CloneRemote : M bool :=
  if gitFails h GitClone
  then log (EvGit GitClone false) ;;;
       fail "failed to clone repository"
  else match remoteBranch h with
       | Some t =>
           setTree Scratch t ;;; log (EvGit GitClone true) ;;; ret false
       | None =>
           log (EvGit GitClone false) ;;;
           wrapErr "failed to create directory" (MkdirAll Scratch []) ;;;
           wrapErr "failed to initialize repository" (git GitInit) ;;;
           ret true
       end.

End WithHost.
End OS.

(* ================================================================= *)
(** ** Package [plainid]: the service *)

Module Service.
Section WithHost.

Variable h : Host.

Import Plainid.

(** One GET request with its answer. *)
Definition get {A} (r : Request) (ans : result A) : M A :=
  match ans with
  | Ok a => log (EvGet r true) ;;; ret a
  | Err msg => log (EvGet r false) ;;; fail msg
  end.

(** Go's [int] on the 64-bit targets of the Makefile. *)
Definition wrapInt (z : Z) : Z :=
  ((z + 2 ^ 63) mod 2 ^ 64 - 2 ^ 63)%Z.

Definition Environments : M (list Environment) :=
  get ReqEnvironments (getEnvironments (api h)).

Definition Workspaces (envID : string) : M (list Workspace) :=
  get (ReqWorkspaces envID) (getWorkspaces (api h) envID).

Definition Identities (envID : string) : M (list Identity) :=
  get (ReqIdentities envID) (getIdentities (api h) envID).

Definition limit : Z := 50%Z.

(** The test that ends the page loop: the page is shorter than the
    limit, or the offset with the length of the page reaches the
    reported total. *)
Definition stops (offset : Z) (appResp : AppInfoResponse) : bool :=
  let n := Z.of_nat (List.length (Data appResp)) in
  (n <? limit)%Z || (wrapInt (offset + n) >=? Total appResp)%Z.

(** The page loop of [Service.Applications]; [fuel] bounds the number
    of pages requested. *)
Fixpoint appInfoPages (fuel : nat) (envID wsID : string) (offset : Z)
         (appInfos : list AppInfo) : M (list AppInfo) :=
  match fuel with
  | O => outOfFuel
  | S fuel' =>
      appResp <- get (ReqAppPage envID limit offset)
                     (getAppPage (api h) envID limit offset) ;;
      let appInfos' :=
        appInfos ++
        filter (fun app => String.eqb (InfoWSID app) wsID) (Data appResp) in
      if stops offset appResp
      then ret appInfos'
      else appInfoPages fuel' envID wsID (wrapInt (offset + limit)) appInfos'
  end.

(** [Service.Applications]. *)
Definition Applications (envID wsID : string) : M (list Application) :=
  appInfos <- appInfoPages (pageBudget h) envID wsID 0%Z [] ;;
  collect appInfos (fun appInfo =>
    app <- get (ReqApp envID (InfoID appInfo))
               (getApp (api h) envID (InfoID appInfo)) ;;
    ret [mkApplication (InfoWSID appInfo) (AppID app) (AppName app)
                       (AppDetails app)]).

(** [Service.AppPolicies]: one list request, then one request per
    policy that is not inactive. *)
Definition AppPolicies (envID wsID appID : string) : M (list string) :=
  pols <- get (ReqPolicyList envID appID)
              (getPolicyList (api h) envID appID) ;;
  collect (PolData pols) (fun pol =>
    if String.eqb (PolState pol) "Inactive" then ret []
    else
      body <- get (ReqPolicy envID wsID (PolID pol))
                  (getPolicy (api h) envID wsID (PolID pol)) ;;
      ret [body]).

Definition AppAPIMapper (envID appID : string) : M string :=
  get (ReqApiMapper envID appID) (getApiMapper (api h) envID appID).

Definition AssetTemplateIDs (wsID : string) : M (list string) :=
  get (ReqAssetTemplateIDs wsID) (getAssetTemplateIDs (api h) wsID).

Definition AssetTemplate (envID assetTemplateID : string) : M string :=
  get (ReqAssetTemplate envID assetTemplateID)
      (getAssetTemplate (api h) envID assetTemplateID).

Definition IdentityTemplates (envID identityID : string) : M string :=
  get (ReqIdentityTemplate envID identityID)
      (getIdentityTemplate (api h) envID identityID).

(** [Service.PAAGroups]: the groups, then the sources and the views of
    each. *)
Definition PAAGroups (envID : string) : M (list PAAGroup) :=
  groups <- wrapErr (String.append "failed to fetch PAA groups for " envID)
              (get (ReqPAAGroups envID) (getPAAGroups (api h) envID)) ;;
  collect groups (fun g =>
    sources <-
      wrapErr (String.append "failed to fetch PAA group sources for "
                             (GroupID g))
        (get (ReqPAAGroupSources envID (GroupID g))
             (getPAAGroupSources (api h) envID (GroupID g))) ;;
    views <-
      wrapErr (String.append "failed to fetch PAA group views for "
                             (GroupID g))
        (get (ReqPAAGroupViews envID (GroupID g))
             (getPAAGroupViews (api h) envID (GroupID g))) ;;
    ret [mkPAAGroup (GroupID g) (GroupDetails g) views sources]).

(** [Application.AsJSON] and [PAAGroup.ToJSON]. *)
Definition AsJSON (a : Application) : M string :=
  match marshalApp (api h) a with
  | Ok s => ret s
  | Err msg => fail msg
  end.

Definition ToJSON (g : PAAGroup) : M string :=
  match marshalPAAGroup (api h) g with
  | Ok s => ret s
  | Err msg => fail (wrap "failed to marshal PAAGroup to JSON" msg)
  end.

End WithHost.
End Service.

(* ================================================================= *)
(** ** [cmd/root.go]: the resolution of the configured scope *)

Module Root.
Section WithHost.

Variable h : Host.

Import Config.

Definition setName (e : Environment) (name : string) : Environment :=
  mkEnvironment (ID e) name (Workspaces e) (Identities e).

Definition setWorkspaces (e : Environment) (wss : list Workspace)
  : Environment :=
  mkEnvironment (ID e) (Name e) wss (Identities e).

Definition setIdentities (e : Environment) (ids : list string)
  : Environment :=
  mkEnvironment (ID e) (Name e) (Workspaces e) ids.

(** The first loop: the environments of the scope. *)
Definition resolveEnvironments (c : Config)
           (envs : list Plainid.Environment) : list Environment :=
  if HasWildcardEnvironment c then
    map (fun env =>
           mkEnvironment (Plainid.EnvID env) (Plainid.EnvName env)
                         [mkWorkspace "*" ""] ["*"])
        envs
  else
    flat_map
      (fun configEnv =>
         match find (fun apiEnv =>
                       String.eqb (ID configEnv) (Plainid.EnvID apiEnv))
                    envs with
         | Some apiEnv => [setName configEnv (Plainid.EnvName apiEnv)]
         | None => []
         end)
      (Envs c).

(** The workspaces of one environment. *)
Definition resolveWorkspacesOf (e : Environment)
           (wss : list Plainid.Workspace) : list Workspace :=
  if HasWildcardWorkspace e then
    map (fun ws => mkWorkspace (Plainid.WsID ws) (Plainid.WsName ws)) wss
  else
    flat_map
      (fun configWs =>
         match find (fun apiWs =>
                       String.eqb (WsID configWs) (Plainid.WsID apiWs))
                    wss with
         | Some apiWs => [mkWorkspace (WsID configWs) (Plainid.WsName apiWs)]
         | None => []
         end)
      (Workspaces e).

(** The second loop: [for i := range cfgEnvs], workspaces. *)
Fixpoint resolveWorkspaces (cfgEnvs : list Environment)
  : M (list Environment) :=
  match cfgEnvs with
  | [] => ret []
  | e :: rest =>
      wss <- wrapErr (String.append
                        "failed to get workspaces for environment " (ID e))
               (Service.Workspaces h (ID e)) ;;
      rest' <- resolveWorkspaces rest ;;
      ret (setWorkspaces e (resolveWorkspacesOf e wss) :: rest')
  end.

(** The third loop: [for i := range cfgEnvs], identities. *)
Fixpoint resolveIdentities (cfgEnvs : list Environment)
  : M (list Environment) :=
  match cfgEnvs with
  | [] => ret []
  | e :: rest =>
      identities <-
        wrapErr (String.append
                   "failed to get identities for environment " (ID e))
          (Service.Identities h (ID e)) ;;
      let e' :=
        if HasWildcardIdentities e
        then setIdentities e (map Plainid.TemplateID identities)
        else e in
      rest' <- resolveIdentities rest ;;
      ret (e' :: rest')
  end.

(** [rootCmd.PersistentPreRunE], from the loaded configuration [c] on;
    the value is the configuration the commands then read. *)
Definition PersistentPreRunE (c : Config) : M Config :=
  envs <- wrapErr "failed to get environments for whildcard setup"
            (Service.Environments h) ;;
  cfgEnvs <- resolveWorkspaces (resolveEnvironments c envs) ;;
  cfgEnvs' <- resolveIdentities cfgEnvs ;;
  ret (withEnvs c cfgEnvs').

End WithHost.

(** The scope a wildcard environment selector stands for: every live
    environment with all its live workspaces and all its live
    identity-template ids. *)
Definition liveScope (envs : list Plainid.Environment)
           (wsOf : string -> list Plainid.Workspace)
           (idOf : string -> list Plainid.Identity)
  : list Config.Environment :=
  map (fun env =>
         Config.mkEnvironment (Plainid.EnvID env) (Plainid.EnvName env)
           (map (fun ws => Config.mkWorkspace (Plainid.WsID ws)
                                              (Plainid.WsName ws))
                (wsOf (Plainid.EnvID env)))
           (map Plainid.TemplateID (idOf (Plainid.EnvID env))))
      envs.

(** No wildcard token is left in a scope. *)
Definition concrete (envs : list Config.Environment) : Prop :=
  forall e, In e envs ->
    Config.IsWildcard e = false /\
    Config.HasWildcardWorkspace e = false /\
    Config.HasWildcardIdentities e = false.

End Root.

(* ================================================================= *)
(** ** [cmd/backup.go] *)

Module Backup.
Section WithHost.

Variable h : Host.
(** the global [cfg], as [PersistentPreRunE] has left it *)
Variable c : Config.Config.

Import Config.

(** [%d] of a loop index. *)
Definition itoa (n : nat) : string :=
  DecimalString.NilZero.string_of_uint (Nat.to_uint n).

Definition cat (ss : list string) : string := String.concat "" ss.

(** [removeFilesOnly]: removes the files of [dir] and of its
    subdirectories and keeps the directories.  [fuel] bounds the depth
    of the walk. *)
Fixpoint removeFilesOnlyF (fuel : nat) (dir : FS.path) : M unit :=
  match fuel with
  | O => outOfFuel
  | S fuel' =>
      l <- OS.ReadDirE h Scratch dir ;;
      match l with
      | OS.NotExist => ret tt
      | OS.Refused => fail "readdir"
      | OS.Entries entries =>
          forEach entries (fun entry =>
            let path := dir ++ [fst entry] in
            if FS.isDir (snd entry)
            then removeFilesOnlyF fuel' path
            else OS.Remove h Scratch path)
      end
  end.

Definition removeFilesOnly (dir : FS.path) : M unit :=
  fun s => removeFilesOnlyF (S (FS.height (scratch s))) dir s.

(** [fetchPlainIDEnvStuff]. *)
Definition fetchPlainIDEnvStuff (envDir : FS.path) (envID : string)
  : M unit :=
  match FindEnvironment c envID with
  | None =>
      fail (cat ["environment "; envID; " not found in configuration"])
  | Some env =>
      forEach (Identities env) (fun identity =>
        identityTemplates <-
          wrapErr "failed to fetch app identity templates"
            (Service.IdentityTemplates h envID identity) ;;
        wrapErr "failed to write identity template"
          (OS.WriteFile h Scratch
             (envDir ++ [cat ["identity-template-"; identity; ".json"]])
             identityTemplates)) ;;;
      paaGroups <- wrapErr "failed to fetch PAA groups"
                     (Service.PAAGroups h envID) ;;
      forEach paaGroups (fun paaGroup =>
        paaGroupJSON <- wrapErr "failed to convert PAA group to JSON"
                          (Service.ToJSON h paaGroup) ;;
        wrapErr "failed to write identity template"
          (OS.WriteFile h Scratch
             (envDir ++ [cat ["paa-group_"; Plainid.GroupID paaGroup;
                              ".json"]])
             paaGroupJSON))
  end.

(** [fetchPlainIDWSStuff]. *)
Definition fetchPlainIDWSStuff (wsDir : FS.path) (envID wsID : string)
  : M unit :=
  apps <- wrapErr "failed to fetch apps"
            (Service.Applications h envID wsID) ;;
  assetTemplatesIDs <- wrapErr "failed to fetch asset template IDs"
                         (Service.AssetTemplateIDs h wsID) ;;
  forEachIdx 0 assetTemplatesIDs (fun i assetTemplateID =>
    assetTemplate <-
      wrapErr (cat ["failed to fetch asset template "; assetTemplateID; " "])
        (Service.AssetTemplate h envID assetTemplateID) ;;
    wrapErr (cat ["failed to write asset template "; assetTemplateID])
      (OS.WriteFile h Scratch
         (wsDir ++ [cat ["asset-template_"; itoa i; ".json"]])
         assetTemplate)) ;;;
  match FindEnvironment c envID with
  | None =>
      fail (cat ["environment "; envID; " not found in configuration"])
  | Some _ =>
      forEach apps (fun app =>
        let appDir := wsDir ++ [Plainid.AppName app] in
        wrapErr "failed to create application directory"
          (OS.MkdirAll h Scratch appDir) ;;;
        appJSON <- wrapErr "failed to convert app to JSON"
                     (Service.AsJSON h app) ;;
        wrapErr "failed to write app"
          (OS.WriteFile h Scratch (appDir ++ ["application.json"])
                        appJSON) ;;;
        policies <- wrapErr "failed to fetch app policies"
                      (Service.AppPolicies h envID wsID
                                           (Plainid.AppID app)) ;;
        forEachIdx 0 policies (fun i policy =>
          wrapErr "failed to write policy"
            (OS.WriteFile h Scratch
               (appDir ++ [cat ["policy_"; itoa i; ".srego"]]) policy)) ;;;
        apiMapperSet <- wrapErr "failed to fetch app api mapper"
                          (Service.AppAPIMapper h envID
                                                (Plainid.AppID app)) ;;
        wrapErr "failed to write policy"
          (OS.WriteFile h Scratch (appDir ++ ["api-mapper-set.json"])
                        apiMapperSet))
  end.

(** [fmt.Sprintf("%s/%s_%s", tempDir, envName, envID)], below the
    scratch directory; a name is taken as one path component. *)
Definition envDirOf (env : Environment) : FS.path :=
  [cat [Name env; "_"; ID env]].

Definition wsDirOf (envDir : FS.path) (ws : Workspace) : FS.path :=
  envDir ++ [WsName ws].

(** The clearing of a workspace directory that precedes its fetch. *)
Definition clearWorkspace (wsDir : FS.path) : M unit :=
  wrapErr "failed to remove workspace directory"
    (OS.RemoveAll h Scratch wsDir) ;;;
  wrapErr "failed to create workspace directory"
    (OS.MkdirAll h Scratch wsDir).

(** The clearing of an environment directory that precedes its
    fetch. *)
Definition clearEnvironment (envDir : FS.path) : M unit :=
  wrapErr "failed to create environment directory"
    (OS.MkdirAll h Scratch envDir) ;;;
  wrapErr "failed to remove files from env directory"
    (removeFilesOnly envDir).

(** The inner loop of [backupCmd], over the workspaces of one
    environment; it extends the commit message. *)
Fixpoint processWorkspaces (envDir : FS.path) (envID : string)
         (wss : list Workspace) (commitMsg : string) : M string :=
  match wss with
  | [] => ret commitMsg
  | ws :: rest =>
      let wsDir := wsDirOf envDir ws in
      clearWorkspace wsDir ;;;
      wrapErr (cat ["failed to fetch PlainID WS configuration for env:";
                    envID; " ws:"; WsID ws])
        (fetchPlainIDWSStuff wsDir envID (WsID ws)) ;;;
      processWorkspaces envDir envID rest
        (cat [commitMsg; " env:"; envID; " ws:"; WsID ws])
  end.

(** The body of the outer loop, for one environment. *)
Definition processEnvironment (env : Environment) (commitMsg : string)
  : M string :=
  let envDir := envDirOf env in
  clearEnvironment envDir ;;;
  wrapErr (cat ["failed to fetch PlainID Env configuration for env:";
                ID env])
    (fetchPlainIDEnvStuff envDir (ID env)) ;;;
  processWorkspaces envDir (ID env) (Workspaces env) commitMsg.

(** The outer loop of [backupCmd]. *)
Fixpoint processEnvironments (envs : list Environment)
         (commitMsg : string) : M string :=
  match envs with
  | [] => ret commitMsg
  | env :: rest =>
      commitMsg' <- processEnvironment env commitMsg ;;
      processEnvironments rest commitMsg'
  end.

(** The deferred function of [backupCmd]. *)
Definition cleanupOnSuccess {A} (body : M A) : M A :=
  fun s =>
    match body s with
    | (s', Done a) =>
        if DeleteTempOnSuccess (Git c)
        then (fst (OS.CleanupTempDir h s'), Done a)
        else (s', Done a)
    | r => r
    end.

(** The first part of [backupCmd.RunE] after the scratch directory
    exists: the clone and the loop over the environments.  Its value
    is whether the repository is new, with the commit message. *)
Definition synchronize : M (bool * string) :=
  isNewRepo <- OS.CloneRemote h ;;
  wrapErr "failed to get worktree" (OS.git h GitWorktree) ;;;
  commitMsg <- processEnvironments (Envs c)
                 "Backup PlainID configuration for:" ;;
  ret (isNewRepo, commitMsg).

(** The second part: staging, commit, branch, tag and push.
    [timestamp] is taken before the loop over the environments. *)
Definition record (timestamp : string) (isNewRepo : bool)
           (commitMsg : string) : M unit :=
  wrapErr "failed to get worktree" (OS.git h GitWorktree) ;;;
  wrapErr "failed to add all files to worktree" (OS.git h GitAdd) ;;;
  wrapErr "failed to commit changes" (OS.git h (GitCommit commitMsg)) ;;;
  (if isNewRepo
   then wrapErr "failed to set branch reference"
          (OS.git h (GitSetBranch (Branch (Git c))))
   else ret tt) ;;;
  wrapErr "failed to create tag"
    (OS.git h (GitCreateTag timestamp
                 (String.append "Backup tag for " commitMsg))) ;;;
  if DryRun c then ret tt
  else
    wrapErr "failed to push changes"
      (OS.git h
         (GitPush
            [cat ["refs/heads/"; Branch (Git c); ":refs/heads/";
                  Branch (Git c)];
             cat ["refs/tags/"; timestamp; ":refs/tags/"; timestamp]]
            isNewRepo)).

(** [backupCmd.RunE]. *)
Definition RunE : M unit :=
  OS.CreateTempDir h ;;;
  cleanupOnSuccess (
    r <- synchronize ;;
    record (Time.Format (now h)) (fst r) (snd r)).

End WithHost.

(** The command as cobra runs it. *)
Definition Command (h : Host) (c : Config.Config) : M unit :=
  c' <- Root.PersistentPreRunE h c ;;
  RunE h c'.

(** The pairs of environment id and workspace id of a scope, in the
    order of the scope. *)
Definition scopePairs (envs : list Config.Environment)
  : list (string * string) :=
  flat_map (fun env =>
              map (fun ws => (Config.ID env, Config.WsID ws))
                  (Config.Workspaces env))
           envs.

(** The commit message as the specification words it: the fixed
    prefix, then one [" env:<id> ws:<id>"] per pair. *)
Definition expectedMessage (envs : list Config.Environment) : string :=
  String.append "Backup PlainID configuration for:"
    (String.concat ""
       (map (fun p =>
               String.append " env:"
                 (String.append (fst p) (String.append " ws:" (snd p))))
            (scopePairs envs))).

End Backup.

(* ================================================================= *)
(** ** [cmd/restore.go] *)

Module Restore.

(** The flags of the command. *)
Record Flags : Type := mkFlags {
  restoreTag : string;
  restoreTargetDir : string;
  restoreEnvID : string;
  restoreWsID : string
}.

(** The components of a path given as a string. *)
Definition pathOf (s : string) : FS.path :=
  filter (fun c => negb (String.eqb c "")) (Strings.SplitByte "/" s).

(** [findWorkspaceByNameOrID]. *)
Definition findWorkspaceByNameOrID (c : Config.Config)
           (envID wsID wsName : string) : option Config.Workspace :=
  match Config.FindEnvironment c envID with
  | None => None
  | Some env =>
      match find (fun ws =>
                    String.eqb (Config.WsID ws) wsID
                    || String.eqb (Config.WsID ws) "*"
                    || (String.eqb (Config.WsName ws) wsName
                        && (String.eqb wsID ""
                            || String.eqb (Config.WsID ws) wsID)))
                 (Config.Workspaces env) with
      | Some ws => Some ws
      | None =>
          if Config.HasWildcardWorkspace env
          then Some (Config.mkWorkspace wsID wsName)
          else None
      end
  end.

Section WithHost.

Variable h : Host.
Variable flags : Flags.
(** the global [cfg], as [PersistentPreRunE] has left it *)
Variable c : Config.Config.

Definition target : FS.path := pathOf (restoreTargetDir flags).

(** [restoreCmd.PreRunE]. *)
Definition PreRunE : M unit :=
if negb (String.eqb (restoreTag flags) "")
   && String.eqb (restoreTargetDir flags) ""
then fail "target-dir is required when tag is specified (non-interactive mode)"
else if Config.DryRun c
        && (String.eqb (restoreTag flags) ""
            || String.eqb (restoreTargetDir flags) "")
then fail "both tag and target-dir parameters are required when using dry-run with restore"
else if (negb (String.eqb (restoreEnvID flags) "")
         && String.eqb (restoreWsID flags) "")
        || (String.eqb (restoreEnvID flags) ""
            && negb (String.eqb (restoreWsID flags) ""))
then fail "both env-id and ws-id must be provided together if one is specified"
else ret tt.

(** [copyFile]: from the scratch directory to the disk.  File modes
  are not part of the trees: of the last two calls, [os.Stat] is
  kept and [os.Chmod] has nothing to change. *)
Definition copyFile (src dst : FS.path) : M unit :=
data <- OS.ReadFile h Scratch src ;;
OS.MkdirAll h Disk (removelast dst) ;;;
OS.WriteFile h Disk dst data ;;;
OS.Stat h Scratch src.

(** [copyDir]: from the scratch directory to the disk.  [fuel] bounds
  the depth of the walk. *)
Fixpoint copyDirF (fuel : nat) (src dst : FS.path) : M unit :=
match fuel with
| O => outOfFuel
| S fuel' =>
    OS.Stat h Scratch src ;;;
    OS.MkdirAll h Disk dst ;;;
    entries <- OS.ReadDir h Scratch src ;;
    forEach entries (fun entry =>
      let srcPath := src ++ [fst entry] in
      let dstPath := dst ++ [fst entry] in
      if FS.isDir (snd entry)
      then copyDirF fuel' srcPath dstPath
      else copyFile srcPath dstPath)
end.

Definition copyDir (src dst : FS.path) : M unit :=
fun s => copyDirF (S (FS.height (scratch s))) src dst s.

(** The loop over the entries of one environment directory: the first
  directory that [findWorkspaceByNameOrID] accepts is copied. *)
Fixpoint scanWorkspaces (envDir : FS.path)
       (wsEntries : list (string * FS.node)) : M bool :=
match wsEntries with
| [] => ret false
| wsEntry :: rest =>
    if FS.isDir (snd wsEntry) then
      match findWorkspaceByNameOrID c (restoreEnvID flags)
              (restoreWsID flags) (fst wsEntry) with
      | Some _ =>
          wrapErr "failed to copy workspace directory"
            (copyDir (envDir ++ [fst wsEntry]) target) ;;;
          ret true
      | None => scanWorkspaces envDir rest
      end
    else scanWorkspaces envDir rest
end.

(** The files directly under the environment directory. *)
Definition copyEnvFiles (envDir : FS.path) : M unit :=
envFiles <- wrapErr "failed to read environment directory files"
              (OS.ReadDir h Scratch envDir) ;;
forEach envFiles (fun file =>
  if negb (FS.isDir (snd file))
  then wrapErr "failed to copy environment file"
         (copyFile (envDir ++ [fst file]) (target ++ [fst file]))
  else ret tt).

(** The loop over the entries of the scratch directory. *)
Fixpoint scanEnvironments (entries : list (string * FS.node)) : M bool :=
match entries with
| [] => ret false
| entry :: rest =>
    if FS.isDir (snd entry)
       && Strings.HasSuffix (fst entry)
            (String.append "_" (restoreEnvID flags))
    then
      let envDir := [fst entry] in
      wsEntries <- wrapErr "failed to read environment directory"
                     (OS.ReadDir h Scratch envDir) ;;
      found <- scanWorkspaces envDir wsEntries ;;
      if found then copyEnvFiles envDir ;;; ret true
      else scanEnvironments rest
    else scanEnvironments rest
end.

(** The branch of [RunE] for a restore filtered by environment and
  workspace. *)
Definition filteredCopy : M unit :=
entries <- wrapErr "failed to read temp directory"
             (OS.ReadDir h Scratch []) ;;
found <- scanEnvironments entries ;;
if found then ret tt
else fail (Backup.cat
             ["could not find configuration for environment '";
              restoreEnvID flags; "' and workspace '";
              restoreWsID flags; "' in tag '"; restoreTag flags; "'"]).

(** What [RunE] does once the scratch directory exists. *)
Definition copyOut : M unit :=
if negb (String.eqb (restoreEnvID flags) "")
   && negb (String.eqb (restoreWsID flags) "")
then filteredCopy
else wrapErr "failed to copy configuration" (copyDir [] target).

(** [restoreCmd.RunE].  Nothing follows the copy, in dry-run mode or
  not. *)
Definition RunE : M unit :=
if negb (String.eqb (restoreTag flags) "") then
  wrapErr "failed to create target directory"
    (OS.MkdirAll h Disk target) ;;;
  OS.CreateTempDir h ;;;
  defer (OS.CleanupTempDir h) copyOut
else fail "interactive mode is not yet implemented".

(** [cloneAndCheckoutTag]; no command calls it. *)
Definition cloneAndCheckoutTag (tag : string) : M unit :=
wrapErr "failed to clone repository" (OS.git h GitClone) ;;;
wrapErr "failed to get worktree" (OS.git h GitWorktree) ;;;
match remoteSnapshot h tag with
| Some snapshot =>
    wrapErr "failed to checkout tag" (OS.git h (GitCheckout tag)) ;;;
    setTree Scratch snapshot
| None =>
    log (EvGit (GitCheckout tag) false) ;;;
    fail (wrap "failed to checkout tag" "reference not found")
end.

End WithHost.

(** The command as cobra runs it. *)
Definition Command (h : Host) (flags : Flags) (c : Config.Config)
  : M unit :=
  c' <- Root.PersistentPreRunE h c ;;
  PreRunE flags c' ;;;
  RunE h flags c'.

End Restore.

(* ================================================================= *)
(** ** [cmd/list.go] *)

Module List_.

(** [listOptions]. *)
Record listOptions : Type := mkListOptions {
  envID : string;
  wsID : string
}.

(** [tagInfo]. *)
Record tagInfo : Type := mkTagInfo {
  Name : string;
  EnvID : string;
  WsID : string;
  Timestamp : string;
  Time_ : Time.t;
  Message : string
}.

(** The loop over the parts of a message that collects the ids. *)
Fixpoint scanParts (msgParts : list string) (envIDs wsIDs : list string)
  : list string * list string :=
  match msgParts with
  | [] => (envIDs, wsIDs)
  | part :: rest =>
      if Strings.HasPrefix part "env:"
      then scanParts rest (envIDs ++ [Strings.TrimPrefix part "env:"]) wsIDs
      else if Strings.HasPrefix part "ws:"
      then scanParts rest envIDs (wsIDs ++ [Strings.TrimPrefix part "ws:"])
      else scanParts rest envIDs wsIDs
  end.

Definition filterOn (opts : listOptions) : bool :=
  negb (String.eqb (envID opts) "") && negb (String.eqb (wsID opts) "").

(** Whether the filter keeps a message. *)
Definition keeps (opts : listOptions) (message : string) : bool :=
  if filterOn opts then
    Strings.Contains message (String.append "env:" (envID opts))
    && Strings.Contains message (String.append "ws:" (wsID opts))
  else true.

(** The message of a tag; empty when the tag object cannot be read. *)
Definition messageOf (ref : TagRef) : string :=
  match tagMessage ref with Some m => m | None => "" end.

(** The function given to [tagsIter.ForEach], for one tag. *)
Definition visitTag (opts : listOptions) (ref : TagRef)
           (filteredTags : list tagInfo) : list tagInfo :=
  match Time.Parse (tagName ref) with
  | None => filteredTags
  | Some parsedTime =>
      let message := messageOf ref in
      if negb (keeps opts message) then filteredTags
      else
        let (envIDs, wsIDs) :=
          scanParts (Strings.SplitByte " " message) [] [] in
        filteredTags ++
        [mkTagInfo (tagName ref) (Strings.Join envIDs ",")
                   (Strings.Join wsIDs ",") (tagName ref) parsedTime
                   message]
  end.

Definition visitTags (opts : listOptions) (refs : list TagRef)
  : list tagInfo :=
  fold_left (fun acc ref => visitTag opts ref acc) refs [].

(** [sort.Slice] with [less(i, j) = Time[i].After(Time[j])], as an
    insertion sort; the order among tags of one time is not fixed by
    [sort.Slice]. *)
Fixpoint insertTag (x : tagInfo) (l : list tagInfo) : list tagInfo :=
  match l with
  | [] => [x]
  | y :: l' =>
      if Time.After (Time_ y) (Time_ x) then y :: insertTag x l'
      else x :: l
  end.

Definition sortTags (l : list tagInfo) : list tagInfo :=
  fold_right insertTag [] l.

(** The tags the command prints: the ten most recent of the kept
    ones. *)
Definition shown (opts : listOptions) (refs : list TagRef)
  : list tagInfo :=
  firstn 10 (sortTags (visitTags opts refs)).

(** The words of a message, as the command splits it. *)
Definition tokens (message : string) : list string :=
  Strings.SplitByte " " message.

Section WithHost.

Variable h : Host.
Variable listOpts : listOptions.

(** [listCmd.RunE]; the value is the list of the tags it prints. *)
Definition RunE : M (list tagInfo) :=
OS.CreateTempDir h ;;;
defer (OS.CleanupTempDir h) (
  wrapErr "failed to access repository" (OS.CloneRemote h) ;;;
  (fun s => (fst (OS.git h GitFetchTags s), Done tt)) ;;;
  wrapErr "failed to list tags" (OS.git h GitTags) ;;;
  ret (shown listOpts (remoteTags h))).

Definition Command (c : Config.Config) : M (list tagInfo) :=
Root.PersistentPreRunE h c ;;; RunE.

End WithHost.
End List_.

(* ================================================================= *)
(** ** Package [config]: the loaded configuration and its validation *)

Module ConfigFile.

(** [config.GitConfig], [config.PlainIDConfig] and [config.Config] as
    [LoadConfig] unmarshals them. *)
Record GitConfig : Type := mkGitConfig {
  Repo : string;
  Token : string;
  Branch : string
}.

Record PlainIDConfig : Type := mkPlainIDConfig {
  BaseURL : string;
  ClientID : string;
  ClientSecret : string;
  Envs : list Config.Environment;
  Identities : list string
}.

Record Config : Type := mkConfig {
  Git : GitConfig;
  PlainID : PlainIDConfig;
  DryRun : bool
}.

(** [if field == "" { missingFields = append(missingFields, name) }]
    for a field whose key is [name]. *)
Definition required (field name : string) : list string :=
  if String.eqb field "" then [name] else [].

(** The body of the loop of [validateConfig] over the environments,
    for the environment at index [i]. *)
Definition envMissing (i : nat) (env : Config.Environment) : list string :=
  (if String.eqb (Config.ID env) ""
   then [Backup.cat ["plainid.envs["; Backup.itoa i; "].id"]] else []) ++
  (if (List.length (Config.Workspaces env) =? 0)
      && negb (Config.IsWildcard env)
   then [Backup.cat ["plainid.envs["; Backup.itoa i; "].workspaces"]]
   else []).

Fixpoint envsMissing (i : nat) (envs : list Config.Environment)
  : list string :=
  match envs with
  | [] => []
  | env :: rest => envMissing i env ++ envsMissing (S i) rest
  end.

(** The slice [missingFields] when [validateConfig] has filled it. *)
Definition missingFields (cfg : Config) : list string :=
  required (Repo (Git cfg)) "git.repo" ++
  required (Token (Git cfg)) "git.token" ++
  required (Branch (Git cfg)) "git.branch" ++
  required (BaseURL (PlainID cfg)) "plainid.base-url" ++
  required (ClientID (PlainID cfg)) "plainid.client-id" ++
  required (ClientSecret (PlainID cfg)) "plainid.client-secret" ++
  (if List.length (Envs (PlainID cfg)) =? 0 then ["plainid.envs"]
   else envsMissing 0 (Envs (PlainID cfg))) ++
  (if List.length (Identities (PlainID cfg)) =? 0
   then ["plainid.identities"] else []).

(** [validateConfig]: [None] is the nil error. *)
Definition validateConfig (cfg : Config) : option string :=
  if 0 <? List.length (missingFields cfg)
  then Some (String.append "missing required configuration: "
               (Strings.Join (missingFields cfg) ", "))
  else None.

End ConfigFile.

(* ================================================================= *)
(** ** Properties of runs *)

(** The events of an artifact fetch and of a file write. *)
Definition isFetchOrWrite (e : Event) : bool :=
  match e with
  | EvGet _ _ => true
  | EvFs (OpWriteFile _ _) _ => true
  | _ => false
  end.

Definition succeeded (e : Event) : bool :=
  match e with
  | EvGet _ ok => ok
  | EvFs _ ok => ok
  | EvGit _ ok => ok
  end.

(** The steps that stage, commit, reference, tag and push. *)
Definition isRecord (e : Event) : bool :=
  match e with
  | EvGit GitAdd _ => true
  | EvGit (GitCommit _) _ => true
  | EvGit (GitSetBranch _) _ => true
  | EvGit (GitCreateTag _ _) _ => true
  | EvGit (GitPush _ _) _ => true
  | _ => false
  end.

Definition isPush (e : Event) : bool :=
  match e with
  | EvGit (GitPush _ _) _ => true
  | _ => false
  end.

Definition isGit (e : Event) : bool :=
  match e with
  | EvGit _ _ => true
  | _ => false
  end.

(** An event that is no failed fetch and no failed write. *)
Definition okE (e : Event) : Prop :=
  isFetchOrWrite e = true -> succeeded e = true.

Definition isFail {A} (r : outcome A) : Prop := exists msg, r = Fail msg.

(** A run that a failed fetch or write ended: the failed step is the last
    event, everything before it went well, and the run returned an
    error. *)
Definition aborted {A} (d : list Event) (r : outcome A) : Prop :=
  isFail r /\
  exists pre e, d = pre ++ [e] /\ Forall okE pre /\
                isFetchOrWrite e = true /\ succeeded e = false.

(** [emits P m]: a run of [m] only adds events to the trace, and every
    added event satisfies [P]. *)
Definition emits {A} (P : Event -> Prop) (m : M A) : Prop :=
  forall s s' r, m s = (s', r) ->
    exists d, trace s' = trace s ++ d /\ Forall P d.

(** [obeys P m]: moreover no fetch and no write failed, or the first
    that did ended the run. *)
Definition obeys {A} (P : Event -> Prop) (m : M A) : Prop :=
  forall s s' r, m s = (s', r) ->
    exists d, trace s' = trace s ++ d /\ Forall P d /\
              (Forall okE d \/ aborted d r).

(** [heeds P m]: no fetch and no write failed, or the first that did
    ended the run and every event of the run satisfies [P]. *)
Definition heeds {A} (P : Event -> Prop) (m : M A) : Prop :=
  forall s s' r, m s = (s', r) ->
    exists d, trace s' = trace s ++ d /\
              (Forall okE d \/ (aborted d r /\ Forall P d)).

(** [preserves R m]: every run of [m] takes a state to one that [R]
    relates to it. *)
Definition preserves {A} (R : State -> State -> Prop) (m : M A) : Prop :=
  forall s s' o, m s = (s', o) -> R s s'.

(** The relations [preserves] composes: preorders on states that do not
    look at the trace. *)
Class Steady (R : State -> State -> Prop) : Prop := {
  steady_refl : forall s, R s s;
  steady_trans : forall s1 s2 s3, R s1 s2 -> R s2 s3 -> R s1 s3;
  steady_log : forall s t, R s (mkState (scratch s) (disk s) t)
}.

(** The events that stay on the machine or only read the inventory. *)
Definition isLocalOrInventory (e : Event) : bool :=
  match e with
  | EvFs _ _ => true
  | EvGet Plainid.ReqEnvironments _ => true
  | EvGet (Plainid.ReqWorkspaces _) _ => true
  | EvGet (Plainid.ReqIdentities _) _ => true
  | _ => false
  end.

(** The class of events each layer produces. *)
Definition anyFs (P : Event -> Prop) : Prop := forall op ok, P (EvFs op ok).
Definition anyGet (P : Event -> Prop) : Prop := forall r ok, P (EvGet r ok).
Definition anyGit (P : Event -> Prop) : Prop := forall op ok, P (EvGit op ok).

(* ================================================================= *)
(** * Relations between the states of a run *)

(** The text that one workspace adds to the commit message. *)
Definition pairText (p : string * string) : string :=
  String.append " env:"
    (String.append (fst p) (String.append " ws:" (snd p))).

(** The scratch tree gains no file and the disk does not change. *)
Definition noNewFiles (s s' : State) : Prop :=
  disk s' = disk s /\
  forall q d, FS.lookup q (scratch s') = Some (FS.File d) ->
              FS.lookup q (scratch s) = Some (FS.File d).

(** Every directory of the scratch tree is still a directory. *)
Definition keepsDirs (s s' : State) : Prop :=
  forall q es, FS.lookup q (scratch s) = Some (FS.Dir es) ->
               exists es', FS.lookup q (scratch s') = Some (FS.Dir es').

(** Two paths of which none lies above the other. *)
Definition diverge (p q : FS.path) : Prop :=
  FS.isPrefix p q = false /\ FS.isPrefix q p = false.

(** What lies beside [dir] in the scratch tree is untouched. *)
Definition besides (dir : FS.path) (s s' : State) : Prop :=
  disk s' = disk s /\
  forall q, diverge q dir ->
            FS.lookup q (scratch s') = FS.lookup q (scratch s).

(** The scratch tree is not changed and the files of the disk that do
    not lie under [dst] stay what they are. *)
Definition outside (dst : FS.path) (s s' : State) : Prop :=
  scratch s' = scratch s /\
  forall q d, FS.isPrefix dst q = false ->
              FS.lookup q (disk s) = Some (FS.File d) ->
              FS.lookup q (disk s') = Some (FS.File d).

(** The scratch tree is not changed and the file [q] of the disk, if
    there is one, stays what it is. *)
Definition keepsAt (q : FS.path) (s s' : State) : Prop :=
  scratch s' = scratch s /\
  forall d, FS.lookup q (disk s) = Some (FS.File d) ->
            FS.lookup q (disk s') = Some (FS.File d).

(** Neither tree has changed. *)
Definition sameTrees (s s' : State) : Prop :=
  scratch s' = scratch s /\ disk s' = disk s.

(** The three requests of the scope resolution. *)
Definition isInventoryGet (e : Event) : bool :=
  match e with
  | EvGet Plainid.ReqEnvironments _ => true
  | EvGet (Plainid.ReqWorkspaces _) _ => true
  | EvGet (Plainid.ReqIdentities _) _ => true
  | _ => false
  end.

(** The removal of the scratch directory. *)
Definition isCleanup (e : Event) : bool :=
  match e with
  | EvFs (OpRemoveAll Scratch []) _ => true
  | _ => false
  end.

(** The computation ends within its fuel, from every state. *)
Definition ends {A} (m : M A) : Prop := forall s, snd (m s) <> Fuel.

(** From the scratch tree [n0], which stays, every file that the disk
    gains is one that [Q] describes. *)
Definition copies (n0 : FS.node) (Q : FS.path -> string -> Prop)
           (s s' : State) : Prop :=
  scratch s = n0 ->
  scratch s' = n0 /\
  forall q d, FS.lookup q (disk s') = Some (FS.File d) ->
              FS.lookup q (disk s) = Some (FS.File d) \/ Q q d.

(* ================================================================= *)
(** ** A small installation, for running the commands *)

Module Demo.

Definition api : Plainid.Api :=
  Plainid.mkApi
    (Ok [Plainid.mkEnvironment "e1" "prod"])
    (fun envID =>
       if String.eqb envID "e1"
       then Ok [Plainid.mkWorkspace "w1" "main"] else Ok [])
    (fun _ => Ok [Plainid.mkIdentity "i1" "User" "User"])
    (fun _ _ _ =>
       Ok (Plainid.mkAppInfoResponse
             [Plainid.mkAppInfo "a1" "shop" "w1"] 1%Z 50%Z 0%Z))
    (fun _ appID => Ok (Plainid.mkApplication "" appID "shop" "{}"))
    (fun _ _ =>
       Ok (Plainid.mkPolicyResponse
             [Plainid.mkPolicy "p1" "first" "Active" "Allow";
              Plainid.mkPolicy "p2" "second" "Active" "Allow"]
             (Plainid.mkMeta 5%Z 2%Z 0%Z)))
    (fun _ _ polID => Ok (String.append "package " polID))
    (fun _ _ => Ok "{}")
    (fun _ => Ok ["t1"])
    (fun _ _ => Ok "{}")
    (fun _ _ => Ok "{}")
    (fun _ => Ok [Plainid.mkPAAGroup "g1" "{}" [] []])
    (fun _ _ => Ok [])
    (fun _ _ => Ok [])
    (fun a => Ok (Plainid.AppDetails a))
    (fun g => Ok (Plainid.GroupDetails g)).

(** The same system with an API-mapper endpoint that answers 500. *)
Definition apiDown : Plainid.Api :=
  Plainid.mkApi
    (Plainid.getEnvironments api) (Plainid.getWorkspaces api)
    (Plainid.getIdentities api) (Plainid.getAppPage api)
    (Plainid.getApp api) (Plainid.getPolicyList api)
    (Plainid.getPolicy api)
    (fun _ _ => Err "500 Internal Server Error")
    (Plainid.getAssetTemplateIDs api) (Plainid.getAssetTemplate api)
    (Plainid.getIdentityTemplate api) (Plainid.getPAAGroups api)
    (Plainid.getPAAGroupSources api) (Plainid.getPAAGroupViews api)
    (Plainid.marshalApp api) (Plainid.marshalPAAGroup api).

(** The tree of a snapshot: one environment with one workspace. *)
Definition snapshot : FS.node :=
  FS.Dir
    [("prod_e1",
      FS.Dir [("identity-template-User.json", FS.File "{}");
              ("main",
               FS.Dir [("asset-template_0.json", FS.File "{}");
                       ("shop",
                        FS.Dir [("application.json", FS.File "{}")])])])].

Definition tags : list TagRef :=
  [mkTagRef "20230115-120000"
     (Some "Backup tag for Backup PlainID configuration for: env:e10 ws:w1");
   mkTagRef "20230116-120000"
     (Some "Backup tag for Backup PlainID configuration for: env:e1 ws:w1");
   mkTagRef "v1.0" None].

Definition host : Host :=
  mkHost api (fun _ => false) (fun _ => false) None tags
         (fun tag =>
            if String.eqb tag "20230115-120000" then Some snapshot
            else None)
         (Time.mk 2023 1 15 12 0 0 0) 4.

Definition hostDown : Host :=
  mkHost apiDown (fun _ => false) (fun _ => false) None tags
         (remoteSnapshot host) (now host) 4.

(** A system whose environment lists the applications of two
    workspaces and whose application has an inactive policy. *)
Definition apiMixed : Plainid.Api :=
  Plainid.mkApi
    (Plainid.getEnvironments api) (Plainid.getWorkspaces api)
    (Plainid.getIdentities api)
    (fun _ _ _ =>
       Ok (Plainid.mkAppInfoResponse
             [Plainid.mkAppInfo "a1" "shop" "w1";
              Plainid.mkAppInfo "a2" "bank" "w2";
              Plainid.mkAppInfo "a3" "desk" "w1"] 3%Z 50%Z 0%Z))
    (Plainid.getApp api)
    (fun _ _ =>
       Ok (Plainid.mkPolicyResponse
             [Plainid.mkPolicy "p1" "first" "Active" "Allow";
              Plainid.mkPolicy "p2" "second" "Inactive" "Allow";
              Plainid.mkPolicy "p3" "third" "Draft" "Allow"]
             (Plainid.mkMeta 3%Z 3%Z 0%Z)))
    (Plainid.getPolicy api) (Plainid.getApiMapper api)
    (Plainid.getAssetTemplateIDs api) (Plainid.getAssetTemplate api)
    (Plainid.getIdentityTemplate api) (Plainid.getPAAGroups api)
    (Plainid.getPAAGroupSources api) (Plainid.getPAAGroupViews api)
    (Plainid.marshalApp api) (Plainid.marshalPAAGroup api).

(** A system that answers every page request with a full page of the
    applications of another workspace and reports a total that no
    offset reaches. *)
Definition apiEndless : Plainid.Api :=
  Plainid.mkApi
    (Plainid.getEnvironments api) (Plainid.getWorkspaces api)
    (Plainid.getIdentities api)
    (fun _ _ offset =>
       Ok (Plainid.mkAppInfoResponse
             (repeat (Plainid.mkAppInfo "a9" "desk" "w9") 50)
             (2 ^ 63 - 1)%Z 50%Z offset))
    (Plainid.getApp api) (Plainid.getPolicyList api)
    (Plainid.getPolicy api) (Plainid.getApiMapper api)
    (Plainid.getAssetTemplateIDs api) (Plainid.getAssetTemplate api)
    (Plainid.getIdentityTemplate api) (Plainid.getPAAGroups api)
    (Plainid.getPAAGroupSources api) (Plainid.getPAAGroupViews api)
    (Plainid.marshalApp api) (Plainid.marshalPAAGroup api).

Definition hostEndless (budget : nat) : Host :=
  mkHost apiEndless (fun _ => false) (fun _ => false) None tags
         (remoteSnapshot host) (now host) budget.

Definition hostMixed : Host :=
  mkHost apiMixed (fun _ => false) (fun _ => false) None tags
         (remoteSnapshot host) (now host) 4.

(** A configuration with the wildcard environment. *)
Definition config (dryRun : bool) : Config.Config :=
  Config.mkConfig (Config.mkGitConfig "https://git.example/repo.git" "main"
                                      false)
                  [Config.mkEnvironment "*" "" [] []] dryRun.

(** The configuration after the resolution of its scope. *)
Definition resolved (dryRun : bool) : Config.Config :=
  Config.mkConfig (Config.Git (config dryRun))
                  [Config.mkEnvironment "e1" "prod"
                     [Config.mkWorkspace "w1" "main"] ["User"]]
                  dryRun.

(** Before a command: no scratch directory yet, an empty disk. *)
Definition start : State := mkState (FS.Dir []) (FS.Dir []) [].

Definition flags : Restore.Flags :=
  Restore.mkFlags "20230115-120000" "out" "" "".

Definition flagsFiltered : Restore.Flags :=
  Restore.mkFlags "20230115-120000" "out" "e1" "w1".

End Demo.

(* ================================================================= *)
(** * Properties *)

Local Open Scope string_scope.
Local Open Scope list_scope.

Ltac Zify.zify_post_hook ::= Z.to_euclidean_division_equations.

Section TimeFacts.
Local Open Scope N_scope.

Lemma digit_cases (d : N) : d < 10 ->
  d = 0 \/ d = 1 \/ d = 2 \/ d = 3 \/ d = 4 \/ d = 5 \/ d = 6 \/ d = 7 \/ d = 8 \/ d = 9.
Proof. lia. Qed.

Lemma isDigit_digit d : d < 10 -> Time.isDigit (Time.digit d) = true.
Proof.
  intros H. destruct (digit_cases d H) as [E|[E|[E|[E|[E|[E|[E|[E|[E|E]]]]]]]]];
    subst; reflexivity.
Qed.

Lemma digitVal_digit d : d < 10 -> Time.digitVal (Time.digit d) = d.
Proof.
  intros H. destruct (digit_cases d H) as [E|[E|[E|[E|[E|[E|[E|[E|[E|E]]]]]]]]];
    subst; reflexivity.
Qed.

Lemma compare_digit a b : a < 10 -> b < 10 ->
  Ascii.compare (Time.digit a) (Time.digit b) = (a ?= b).
Proof.
  intros Ha Hb. unfold Ascii.compare, Time.digit.
  rewrite !N_ascii_embedding by lia.
  destruct (N.compare_spec (48 + a) (48 + b));
    destruct (N.compare_spec a b); try reflexivity; exfalso; lia.
Qed.

Lemma getnum_pad2 n k fixed : n < 100 ->
  Time.getnum (Time.pad2 n k) fixed = Some (n, k).
Proof.
  intros H. unfold Time.getnum, Time.pad2.
  rewrite !isDigit_digit by lia.
  rewrite !digitVal_digit by lia.
  f_equal. f_equal. lia.
Qed.

Lemma getyear_pad4 y k : y <= 9999 ->
  Time.getyear (Time.pad4 y k) = Some (y, k).
Proof.
  intros H. unfold Time.getyear, Time.pad4, Time.pad2.
  rewrite !isDigit_digit by lia. simpl.
  rewrite !digitVal_digit by lia.
  f_equal. f_equal. lia.
Qed.

Lemma daysIn_le m y : Time.daysIn m y <= 31.
Proof.
  unfold Time.daysIn.
  repeat match goal with
         | |- context [match ?x with _ => _ end] => destruct x
         end; lia.
Qed.

Lemma Parse_Format x : Time.valid x ->
  Time.Parse (Time.Format x) = Some (Time.truncSecond x).
Proof.
  intros (Hy & Hm & Hd & Hh & Hmi & Hs & _).
  pose proof (daysIn_le (Time.month x) (Time.year x)) as Hd31.
  unfold Time.Parse, Time.Format.
  rewrite getyear_pad4 by lia.
  rewrite getnum_pad2 by lia.
  replace ((Time.month x =? 0) || (12 <? Time.month x)) with false
    by (symmetry; apply orb_false_iff; split;
        [apply N.eqb_neq | apply N.ltb_ge]; lia).
  rewrite getnum_pad2 by lia.
  rewrite getnum_pad2 by lia.
  replace (24 <=? Time.hour x) with false by (symmetry; apply N.leb_gt; lia).
  rewrite getnum_pad2 by lia.
  replace (60 <=? Time.minute x) with false by (symmetry; apply N.leb_gt; lia).
  rewrite getnum_pad2 by lia.
  replace (60 <=? Time.second x) with false by (symmetry; apply N.leb_gt; lia).
  simpl Time.fracSecond. cbv iota beta.
  replace ((Time.day x <? 1) || (Time.daysIn (Time.month x) (Time.year x) <? Time.day x))
    with false
    by (symmetry; apply orb_false_iff; split; apply N.ltb_ge; lia).
  reflexivity.
Qed.

Lemma lexc_compare2 a b k : a < 100 -> b < 100 ->
  Time.lexc (a / 10 mod 10 ?= b / 10 mod 10)
            (Time.lexc (a mod 10 ?= b mod 10) k)
  = Time.lexc (a ?= b) k.
Proof.
  intros Ha Hb.
  destruct (N.compare_spec (a / 10 mod 10) (b / 10 mod 10)) as [E|E|E];
  destruct (N.compare_spec (a mod 10) (b mod 10)) as [E'|E'|E'];
  destruct (N.compare_spec a b) as [E''|E''|E'']; simpl; try reflexivity;
  exfalso; lia.
Qed.

Lemma compare_pad2 a b k1 k2 : a < 100 -> b < 100 ->
  String.compare (Time.pad2 a k1) (Time.pad2 b k2)
  = Time.lexc (a ?= b) (String.compare k1 k2).
Proof.
  intros Ha Hb. unfold Time.pad2. simpl.
  rewrite !compare_digit by lia.
  rewrite <- (lexc_compare2 a b) by lia.
  unfold Time.lexc.
  destruct (a / 10 mod 10 ?= b / 10 mod 10); try reflexivity.
  destruct (a mod 10 ?= b mod 10); reflexivity.
Qed.

Lemma pad4_pad2 y k :
  Time.pad4 y k = Time.pad2 (y / 100) (Time.pad2 (y mod 100) k).
Proof.
  unfold Time.pad4, Time.pad2.
  replace (y / 100 / 10 mod 10) with (y / 1000 mod 10) by lia.
  replace (y mod 100 / 10 mod 10) with (y / 10 mod 10) by lia.
  replace (y mod 100 mod 10) with (y mod 10) by lia.
  reflexivity.
Qed.

Lemma lexc_compare_100 a b k :
  Time.lexc (a / 100 ?= b / 100) (Time.lexc (a mod 100 ?= b mod 100) k)
  = Time.lexc (a ?= b) k.
Proof.
  destruct (N.compare_spec (a / 100) (b / 100)) as [E|E|E];
  destruct (N.compare_spec (a mod 100) (b mod 100)) as [E'|E'|E'];
  destruct (N.compare_spec a b) as [E''|E''|E'']; simpl; try reflexivity;
  exfalso; lia.
Qed.

Lemma compare_pad4 a b k1 k2 : a <= 9999 -> b <= 9999 ->
  String.compare (Time.pad4 a k1) (Time.pad4 b k2)
  = Time.lexc (a ?= b) (String.compare k1 k2).
Proof.
  intros Ha Hb. rewrite !pad4_pad2.
  rewrite compare_pad2 by lia.
  rewrite compare_pad2 by lia.
  apply lexc_compare_100.
Qed.

Lemma compare_Format x y : Time.valid x -> Time.valid y ->
  String.compare (Time.Format x) (Time.Format y)
  = Time.compare (Time.truncSecond x) (Time.truncSecond y).
Proof.
  intros (Hy & Hm & Hd & Hh & Hmi & Hs & _) (Hy' & Hm' & Hd' & Hh' & Hmi' & Hs' & _).
  pose proof (daysIn_le (Time.month x) (Time.year x)).
  pose proof (daysIn_le (Time.month y) (Time.year y)).
  unfold Time.Format, Time.compare, Time.truncSecond. cbn [Time.year Time.month Time.day Time.hour Time.minute Time.second Time.nsec].
  rewrite compare_pad4 by lia.
  rewrite !compare_pad2 by lia.
  f_equal. f_equal. f_equal.
  change (String.compare (String "-" ?a) (String "-" ?b)) with (String.compare a b).
  cbn [String.compare]. 
  rewrite !compare_pad2 by lia.
  reflexivity.
Qed.
End TimeFacts.

(* ================================================================= *)
(** ** Wall clocks and instants *)

Section Instants.
Local Open Scope N_scope.

Lemma daysBeforeYear_succ y :
  Time.daysBeforeYear (N.succ y)
  = Time.daysBeforeYear y + Time.yearLength y.
Proof.
  unfold Time.daysBeforeYear.
  rewrite N.recursion_succ; [reflexivity|reflexivity|].
  intros a b -> c d ->. reflexivity.
Qed.

Lemma daysBeforeYear_add y k :
  Time.daysBeforeYear y <= Time.daysBeforeYear (y + k).
Proof.
  induction k as [|k IH] using N.peano_ind.
  - rewrite N.add_0_r. lia.
  - rewrite N.add_succ_r, daysBeforeYear_succ. lia.
Qed.

Lemma daysBeforeYear_next a b :
  a < b ->
  Time.daysBeforeYear a + Time.yearLength a <= Time.daysBeforeYear b.
Proof.
  intros H. rewrite <- daysBeforeYear_succ.
  replace b with (N.succ a + (b - N.succ a)) by lia.
  apply daysBeforeYear_add.
Qed.

Lemma month_cases m : 1 <= m <= 12 ->
  m = 1 \/ m = 2 \/ m = 3 \/ m = 4 \/ m = 5 \/ m = 6 \/ m = 7 \/ m = 8 \/
  m = 9 \/ m = 10 \/ m = 11 \/ m = 12.
Proof. lia. Qed.

Ltac months H :=
  apply month_cases in H;
  repeat (destruct H as [H|H]); subst.

(** A day of a year lies before the end of the year. *)
Lemma day_in_year m y d :
  1 <= m <= 12 -> 1 <= d <= Time.daysIn m y ->
  Time.daysBeforeMonth m y + (d - 1) < Time.yearLength y.
Proof.
  intros Hm Hd. months Hm;
    unfold Time.daysIn, Time.daysBeforeMonth, Time.yearLength in *;
    destruct (Time.isLeap y); lia.
Qed.

(** A day of a month lies before the first of every later month. *)
Lemma day_in_month m m' y d :
  1 <= m <= 12 -> 1 <= m' <= 12 -> m < m' ->
  1 <= d <= Time.daysIn m y ->
  Time.daysBeforeMonth m y + (d - 1) < Time.daysBeforeMonth m' y.
Proof.
  intros Hm Hm' Hlt Hd. months Hm; months Hm'; try lia;
    unfold Time.daysIn, Time.daysBeforeMonth in *;
    destruct (Time.isLeap y); lia.
Qed.

Lemma dayNumber_lt a b :
  Time.valid a -> Time.valid b ->
  Time.year a < Time.year b \/
  (Time.year a = Time.year b /\
   (Time.month a < Time.month b \/
    (Time.month a = Time.month b /\ Time.day a < Time.day b))) ->
  Time.dayNumber a < Time.dayNumber b.
Proof.
  intros (_ & Hm & Hd & _) (_ & Hm' & Hd' & _) H. unfold Time.dayNumber.
  destruct H as [Hy|[Ey [Hmo|[Em Hda]]]].
  - pose proof (daysBeforeYear_next _ _ Hy).
    pose proof (day_in_year _ _ _ Hm Hd). lia.
  - rewrite Ey in *.
    pose proof (day_in_month _ _ _ _ Hm Hm' Hmo Hd). lia.
  - rewrite Ey, Em. lia.
Qed.

Lemma instant_trunc off x :
  Time.instant off (Time.truncSecond x) = Time.instant off x.
Proof. reflexivity. Qed.

Lemma instant_lt off a b :
  Time.valid a -> Time.valid b ->
  Time.compare (Time.truncSecond a) (Time.truncSecond b) = Lt ->
  (Time.instant off a < Time.instant off b)%Z.
Proof.
  intros Va Vb. pose proof Va as (_ & _ & _ & Hh & Hmi & Hs & _).
  pose proof Vb as (_ & _ & _ & Hh' & Hmi' & Hs' & _).
  unfold Time.compare, Time.truncSecond.
  cbn [Time.year Time.month Time.day Time.hour Time.minute Time.second
       Time.nsec].
  destruct (N.compare_spec (Time.year a) (Time.year b)) as [Ey|Hy|Hy];
    cbn [Time.lexc]; try discriminate.
  2:{ intros _. pose proof (dayNumber_lt a b Va Vb (or_introl Hy)).
      unfold Time.instant. lia. }
  destruct (N.compare_spec (Time.month a) (Time.month b)) as [Em|Hm|Hm];
    cbn [Time.lexc]; try discriminate.
  2:{ intros _.
      pose proof (dayNumber_lt a b Va Vb
                    (or_intror (conj Ey (or_introl Hm)))).
      unfold Time.instant. lia. }
  destruct (N.compare_spec (Time.day a) (Time.day b)) as [Ed|Hd|Hd];
    cbn [Time.lexc]; try discriminate.
  2:{ intros _.
      pose proof (dayNumber_lt a b Va Vb
                    (or_intror (conj Ey (or_intror (conj Em Hd))))).
      unfold Time.instant. lia. }
  assert (En : Time.dayNumber a = Time.dayNumber b)
    by (unfold Time.dayNumber; rewrite Ey, Em, Ed; reflexivity).
  unfold Time.instant. rewrite En.
  destruct (N.compare_spec (Time.hour a) (Time.hour b));
    cbn [Time.lexc]; try discriminate; [|intros _; lia].
  destruct (N.compare_spec (Time.minute a) (Time.minute b));
    cbn [Time.lexc]; try discriminate; [|intros _; lia].
  destruct (N.compare_spec (Time.second a) (Time.second b));
    cbn [Time.lexc]; try discriminate; intros _; lia.
Qed.

Lemma compare_trunc_swap a b :
  Time.compare (Time.truncSecond a) (Time.truncSecond b) = Gt ->
  Time.compare (Time.truncSecond b) (Time.truncSecond a) = Lt.
Proof.
  unfold Time.compare, Time.truncSecond.
  cbn [Time.year Time.month Time.day Time.hour Time.minute Time.second
       Time.nsec].
  rewrite (N.compare_antisym (Time.year a)),
          (N.compare_antisym (Time.month a)),
          (N.compare_antisym (Time.day a)),
          (N.compare_antisym (Time.hour a)),
          (N.compare_antisym (Time.minute a)),
          (N.compare_antisym (Time.second a)).
  destruct (Time.year a ?= Time.year b); cbn; try congruence.
  destruct (Time.month a ?= Time.month b); cbn; try congruence.
  destruct (Time.day a ?= Time.day b); cbn; try congruence.
  destruct (Time.hour a ?= Time.hour b); cbn; try congruence.
  destruct (Time.minute a ?= Time.minute b); cbn; try congruence.
  destruct (Time.second a ?= Time.second b); cbn; congruence.
Qed.

Lemma compare_trunc_eq off a b :
  Time.compare (Time.truncSecond a) (Time.truncSecond b) = Eq ->
  Time.instant off a = Time.instant off b.
Proof.
  unfold Time.compare, Time.truncSecond.
  cbn [Time.year Time.month Time.day Time.hour Time.minute Time.second
       Time.nsec].
  destruct (N.compare_spec (Time.year a) (Time.year b)) as [Ey| |];
    cbn [Time.lexc]; try discriminate.
  destruct (N.compare_spec (Time.month a) (Time.month b)) as [Em| |];
    cbn [Time.lexc]; try discriminate.
  destruct (N.compare_spec (Time.day a) (Time.day b)) as [Ed| |];
    cbn [Time.lexc]; try discriminate.
  destruct (N.compare_spec (Time.hour a) (Time.hour b)) as [Eh| |];
    cbn [Time.lexc]; try discriminate.
  destruct (N.compare_spec (Time.minute a) (Time.minute b)) as [Emi| |];
    cbn [Time.lexc]; try discriminate.
  destruct (N.compare_spec (Time.second a) (Time.second b)) as [Es| |];
    cbn [Time.lexc]; try discriminate.
  intros _. unfold Time.instant, Time.dayNumber.
  rewrite Ey, Em, Ed, Eh, Emi, Es. reflexivity.
Qed.

(** Between two wall clocks of one offset, the order of the fields is
    the order of the instants. *)
Lemma compare_instant off a b :
  Time.valid a -> Time.valid b ->
  Time.compare (Time.truncSecond a) (Time.truncSecond b)
  = Z.compare (Time.instant off a) (Time.instant off b).
Proof.
  intros Va Vb.
  destruct (Time.compare (Time.truncSecond a) (Time.truncSecond b)) eqn:C;
    symmetry.
  - apply Z.compare_eq_iff. apply compare_trunc_eq. exact C.
  - apply Z.compare_lt_iff. apply instant_lt; assumption.
  - apply Z.compare_gt_iff. apply instant_lt; try assumption.
    apply compare_trunc_swap. exact C.
Qed.
End Instants.

Lemma okE_not_fw e : isFetchOrWrite e = false -> okE e.
Proof. unfold okE. intros H H'. congruence. Qed.

Lemma okE_succeeded e : succeeded e = true -> okE e.
Proof. unfold okE. auto. Qed.

Lemma okE_dec e : okE e \/ (isFetchOrWrite e = true /\ succeeded e = false).
Proof.
  unfold okE. destruct (isFetchOrWrite e), (succeeded e); auto.
Qed.

Lemma obeys_emits {A} P (m : M A) : obeys P m -> emits P m.
Proof.
  intros H s s' r E. destruct (H _ _ _ E) as (d & T & F & _). eauto.
Qed.

Lemma emits_weaken {A} (P Q : Event -> Prop) (m : M A) :
  (forall e, P e -> Q e) -> emits P m -> emits Q m.
Proof.
  intros HPQ Hm s s' r E. destruct (Hm _ _ _ E) as (d & T & F).
  exists d. split; [assumption|]. eapply Forall_impl; eauto.
Qed.

Lemma emits_bind {A B} P (m : M A) (k : A -> M B) :
  emits P m -> (forall a, emits P (k a)) -> emits P (bind m k).
Proof.
  intros Hm Hk s s' r E. unfold bind in E.
  destruct (m s) as [s1 [a|msg|]] eqn:Em;
    destruct (Hm _ _ _ Em) as (d1 & T1 & F1).
  - destruct (Hk a _ _ _ E) as (d2 & T2 & F2).
    exists (d1 ++ d2). rewrite T2, T1, app_assoc.
    split; [reflexivity|apply Forall_app; auto].
  - inversion E; subst. eauto.
  - inversion E; subst. eauto.
Qed.

Lemma emits_defer {A} P (cleanup : M unit) (body : M A) :
  emits P cleanup -> emits P body -> emits P (defer cleanup body).
Proof.
  intros Hc Hb s s' r E. unfold defer in E.
  destruct (body s) as [s1 r1] eqn:Eb. inversion E; subst; clear E.
  destruct (Hb _ _ _ Eb) as (d1 & T1 & F1).
  destruct (cleanup s1) as [s2 r2] eqn:Ec.
  destruct (Hc _ _ _ Ec) as (d2 & T2 & F2).
  exists (d1 ++ d2). simpl. rewrite T2, T1, app_assoc.
  split; [reflexivity|apply Forall_app; auto].
Qed.

Lemma obeys_weaken {A} (P Q : Event -> Prop) (m : M A) :
  (forall e, P e -> Q e) -> obeys P m -> obeys Q m.
Proof.
  intros HPQ Hm s s' r E. destruct (Hm _ _ _ E) as (d & T & F & O).
  exists d. split; [assumption|]. split; [|assumption].
  eapply Forall_impl; eauto.
Qed.

Lemma obeys_ret {A} P (a : A) : obeys P (ret a).
Proof.
  intros s s' r E. inversion E; subst. exists []. rewrite app_nil_r. auto.
Qed.

Lemma obeys_fail {A} P msg : obeys P (@fail A msg).
Proof.
  intros s s' r E. inversion E; subst. exists []. rewrite app_nil_r. auto.
Qed.

Lemma obeys_outOfFuel {A} P : obeys P (@outOfFuel A).
Proof.
  intros s s' r E. inversion E; subst. exists []. rewrite app_nil_r. auto.
Qed.

Lemma obeys_getState P : obeys P getState.
Proof.
  intros s s' r E. inversion E; subst. exists []. rewrite app_nil_r. auto.
Qed.

Lemma obeys_setTree P r n : obeys P (setTree r n).
Proof.
  intros s s' o E. destruct r; inversion E; subst; exists [];
    simpl; rewrite app_nil_r; auto.
Qed.

Lemma obeys_log (P : Event -> Prop) e : P e -> okE e -> obeys P (log e).
Proof.
  intros HP Hok s s' r E. inversion E; subst. exists [e]. simpl. auto.
Qed.

Lemma obeys_log_fail {A} (P : Event -> Prop) e msg :
  P e -> obeys P (log e ;;; @fail A msg).
Proof.
  intros HP s s' r E. inversion E; subst. exists [e]. simpl.
  split; [reflexivity|]. split; [auto|].
  destruct (okE_dec e) as [H|[H1 H2]]; [left; auto|right].
  split; [eexists; reflexivity|]. exists [], e. auto.
Qed.

Lemma aborted_app {A} d1 d2 (r : outcome A) :
  Forall okE d1 -> aborted d2 r -> aborted (d1 ++ d2) r.
Proof.
  intros H1 (Hf & pre & e & -> & Hp & Hfw & Hs). split; [assumption|].
  exists (d1 ++ pre), e. rewrite app_assoc. split; [reflexivity|].
  split; [apply Forall_app; auto|auto].
Qed.

Lemma aborted_Fail {A B} d msg :
  @aborted A d (Fail msg) -> @aborted B d (Fail msg).
Proof.
  intros (_ & H). split; [eexists; reflexivity|exact H].
Qed.

Lemma aborted_isFail {A} d (r : outcome A) : aborted d r -> isFail r.
Proof. intros [H _]; exact H. Qed.

(** The continuation need only obey for the values the first part can
    return. *)
Lemma obeys_bind_val {A B} P (m : M A) (k : A -> M B) :
  obeys P m ->
  (forall a, (exists s s1, m s = (s1, Done a)) -> obeys P (k a)) ->
  obeys P (bind m k).
Proof.
  intros Hm Hk s s' r E. unfold bind in E.
  destruct (m s) as [s1 [a|msg|]] eqn:Em.
  - destruct (Hm _ _ _ Em) as (d1 & T1 & F1 & [O1|O1]);
      [|destruct (aborted_isFail _ _ O1); discriminate].
    destruct (Hk a (ex_intro _ s (ex_intro _ s1 Em)) _ _ _ E)
      as (d2 & T2 & F2 & O2).
    exists (d1 ++ d2). rewrite T2, T1, app_assoc.
    split; [reflexivity|]. split; [apply Forall_app; auto|].
    destruct O2; [left; apply Forall_app; auto|right; apply aborted_app; auto].
  - inversion E; subst. destruct (Hm _ _ _ Em) as (d1 & T1 & F1 & O1).
    exists d1. split; [assumption|]. split; [assumption|].
    destruct O1; [left; assumption|right; eapply aborted_Fail; eauto].
  - inversion E; subst.
    destruct (Hm _ _ _ Em) as (d1 & T1 & F1 & [O1|O1]);
      [|destruct (aborted_isFail _ _ O1); discriminate].
    exists d1. auto.
Qed.

Lemma obeys_bind {A B} P (m : M A) (k : A -> M B) :
  obeys P m -> (forall a, obeys P (k a)) -> obeys P (bind m k).
Proof. intros Hm Hk. apply obeys_bind_val; auto. Qed.

Lemma obeys_wrapErr {A} P ctx (m : M A) : obeys P m -> obeys P (wrapErr ctx m).
Proof.
  intros Hm s s' r E. unfold wrapErr in E.
  destruct (m s) as [s1 [a|msg|]] eqn:Em; inversion E; subst;
    destruct (Hm _ _ _ Em) as (d1 & T1 & F1 & O1); exists d1;
    (split; [assumption|]); (split; [assumption|]); auto.
  destruct O1 as [O1|(_ & O1)]; [left; assumption|right].
  split; [eexists; reflexivity|exact O1].
Qed.

Lemma obeys_forEach {A} P (xs : list A) body :
  (forall x, obeys P (body x)) -> obeys P (forEach xs body).
Proof.
  intros Hb. induction xs as [|x xs IH]; simpl.
  - apply obeys_ret.
  - apply obeys_bind; auto.
Qed.

Lemma obeys_forEachIdx {A} P (xs : list A) body : forall i,
  (forall i x, obeys P (body i x)) -> obeys P (forEachIdx i xs body).
Proof.
  induction xs as [|x xs IH]; intros i Hb; simpl.
  - apply obeys_ret.
  - apply obeys_bind; auto.
Qed.

Lemma obeys_collect {A B} P (xs : list A) (body : A -> M (list B)) :
  (forall x, obeys P (body x)) -> obeys P (collect xs body).
Proof.
  intros Hb. induction xs as [|x xs IH]; simpl.
  - apply obeys_ret.
  - apply obeys_bind; auto. intros ys. apply obeys_bind; auto.
    intros zs. apply obeys_ret.
Qed.

Ltac obeys_step :=
  match goal with
  | |- obeys _ (ret _) => apply obeys_ret
  | |- obeys _ (fail _) => apply obeys_fail
  | |- obeys _ outOfFuel => apply obeys_outOfFuel
  | |- obeys _ getState => apply obeys_getState
  | |- obeys _ (setTree _ _) => apply obeys_setTree
  | |- obeys _ (bind (log _) (fun _ => fail _)) => apply obeys_log_fail
  | |- obeys _ (bind _ _) => apply obeys_bind; [|intro]
  | |- obeys _ (wrapErr _ _) => apply obeys_wrapErr
  | |- obeys _ (forEach _ _) => apply obeys_forEach; intro
  | |- obeys _ (forEachIdx _ _ _) => apply obeys_forEachIdx; intros
  | |- obeys _ (collect _ _) => apply obeys_collect; intro
  | |- obeys _ (log _) => apply obeys_log
  | |- obeys _ (if ?b then _ else _) => destruct b
  | |- obeys _ (match ?x with _ => _ end) => destruct x
  end.

Section Prims.
Variable h : Host.
Variable P : Event -> Prop.

Lemma obeys_update op r f msg :
  (forall ok, P (EvFs op ok)) -> obeys P (OS.update h op r f msg).
Proof.
  intros HP. unfold OS.update.
  apply obeys_bind; [apply obeys_getState|intro s0].
  destruct (fsFails h op); [apply obeys_log_fail; auto|].
  destruct (f (tree r s0)); [|apply obeys_log_fail; auto].
  apply obeys_bind; [apply obeys_setTree|intro].
  apply obeys_log; [auto|apply okE_succeeded; reflexivity].
Qed.

Lemma obeys_CleanupTempDir_at :
  (forall ok, P (EvFs (OpRemoveAll Scratch []) ok)) ->
  obeys P (OS.CleanupTempDir h).
Proof.
  intros HP. unfold OS.CleanupTempDir.
  repeat obeys_step; try apply HP; try (apply okE_not_fw; reflexivity).
Qed.

Hypothesis HFs : anyFs P.

Lemma obeys_MkdirAll r p : obeys P (OS.MkdirAll h r p).
Proof. apply obeys_update. intros; apply HFs. Qed.
Lemma obeys_RemoveAll r p : obeys P (OS.RemoveAll h r p).
Proof. apply obeys_update. intros; apply HFs. Qed.
Lemma obeys_Remove r p : obeys P (OS.Remove h r p).
Proof. apply obeys_update. intros; apply HFs. Qed.
Lemma obeys_WriteFile r p d : obeys P (OS.WriteFile h r p d).
Proof. apply obeys_update. intros; apply HFs. Qed.

Lemma obeys_ReadDirE r p : obeys P (OS.ReadDirE h r p).
Proof.
  unfold OS.ReadDirE. apply obeys_bind; [apply obeys_getState|intro s0].
  repeat obeys_step; try apply HFs; try (apply okE_not_fw; reflexivity).
Qed.

Lemma obeys_ReadDir r p : obeys P (OS.ReadDir h r p).
Proof.
  unfold OS.ReadDir. apply obeys_bind; [apply obeys_ReadDirE|intro l].
  repeat obeys_step.
Qed.

Lemma obeys_Stat r p : obeys P (OS.Stat h r p).
Proof.
  unfold OS.Stat. repeat obeys_step; try apply HFs;
    try (apply okE_not_fw; reflexivity).
Qed.

Lemma obeys_ReadFile r p : obeys P (OS.ReadFile h r p).
Proof.
  unfold OS.ReadFile. repeat obeys_step; try apply HFs;
    try (apply okE_not_fw; reflexivity).
Qed.

Lemma obeys_CreateTempDir : obeys P (OS.CreateTempDir h).
Proof.
  unfold OS.CreateTempDir. repeat obeys_step; try apply HFs;
    try (apply okE_not_fw; reflexivity).
Qed.

Lemma obeys_CleanupTempDir : obeys P (OS.CleanupTempDir h).
Proof. apply obeys_CleanupTempDir_at. intros; apply HFs. Qed.
End Prims.

Section Prims2.
Variable h : Host.
Variable P : Event -> Prop.

Lemma obeys_git op : (forall ok, P (EvGit op ok)) -> obeys P (OS.git h op).
Proof.
  intros HP. unfold OS.git. repeat obeys_step; auto.
  apply okE_not_fw; reflexivity.
Qed.

Lemma obeys_CloneRemote :
  anyFs P -> (forall ok, P (EvGit GitClone ok)) ->
  (forall ok, P (EvGit GitInit ok)) -> obeys P (OS.CloneRemote h).
Proof.
  intros HFs HC HI. unfold OS.CloneRemote.
  repeat obeys_step; auto; try (apply okE_not_fw; reflexivity).
  - apply obeys_MkdirAll; auto.
  - apply obeys_git; auto.
Qed.

Lemma obeys_get_at {A} r (ans : result A) :
  (forall ok, P (EvGet r ok)) -> obeys P (Service.get r ans).
Proof.
  intros HP. unfold Service.get. repeat obeys_step; auto.
  apply okE_succeeded; reflexivity.
Qed.

Section Inventory.
Hypothesis HE : forall ok, P (EvGet Plainid.ReqEnvironments ok).
Hypothesis HW : forall id ok, P (EvGet (Plainid.ReqWorkspaces id) ok).
Hypothesis HI : forall id ok, P (EvGet (Plainid.ReqIdentities id) ok).

Lemma obeys_resolveWorkspaces envs :
  obeys P (Root.resolveWorkspaces h envs).
Proof.
  induction envs as [|e rest IH]; simpl; [apply obeys_ret|].
  apply obeys_bind; [apply obeys_wrapErr, obeys_get_at; auto|intro].
  apply obeys_bind; [apply IH|intro; apply obeys_ret].
Qed.

Lemma obeys_resolveIdentities envs :
  obeys P (Root.resolveIdentities h envs).
Proof.
  induction envs as [|e rest IH]; simpl; [apply obeys_ret|].
  apply obeys_bind; [apply obeys_wrapErr, obeys_get_at; auto|intro].
  apply obeys_bind; [apply IH|intro; apply obeys_ret].
Qed.

Lemma obeys_PersistentPreRunE c : obeys P (Root.PersistentPreRunE h c).
Proof.
  unfold Root.PersistentPreRunE.
  apply obeys_bind; [apply obeys_wrapErr, obeys_get_at; auto|intro].
  apply obeys_bind; [apply obeys_resolveWorkspaces|intro].
  apply obeys_bind; [apply obeys_resolveIdentities|intro].
  apply obeys_ret.
Qed.
End Inventory.

Hypothesis HGet : anyGet P.

Lemma obeys_get {A} r (ans : result A) : obeys P (Service.get r ans).
Proof. apply obeys_get_at. intros; apply HGet. Qed.

Lemma obeys_appInfoPages fuel envID wsID : forall offset acc,
  obeys P (Service.appInfoPages h fuel envID wsID offset acc).
Proof.
  induction fuel as [|fuel IH]; intros offset acc; simpl.
  - apply obeys_outOfFuel.
  - apply obeys_bind; [apply obeys_get|intro resp].
    destruct (Service.stops _ _); [apply obeys_ret|apply IH].
Qed.

Lemma obeys_Applications envID wsID :
  obeys P (Service.Applications h envID wsID).
Proof.
  unfold Service.Applications.
  apply obeys_bind; [apply obeys_appInfoPages|intro].
  repeat obeys_step; apply obeys_get.
Qed.

Lemma obeys_AppPolicies envID wsID appID :
  obeys P (Service.AppPolicies h envID wsID appID).
Proof.
  unfold Service.AppPolicies.
  apply obeys_bind; [apply obeys_get|intro].
  apply obeys_collect; intro. destruct (String.eqb _ _); [apply obeys_ret|].
  apply obeys_bind; [apply obeys_get|intro; apply obeys_ret].
Qed.

Lemma obeys_PAAGroups envID : obeys P (Service.PAAGroups h envID).
Proof.
  unfold Service.PAAGroups.
  apply obeys_bind; [apply obeys_wrapErr, obeys_get|intro].
  apply obeys_collect; intro.
  apply obeys_bind; [apply obeys_wrapErr, obeys_get|intro].
  apply obeys_bind; [apply obeys_wrapErr, obeys_get|intro].
  apply obeys_ret.
Qed.

Lemma obeys_AsJSON a : obeys P (Service.AsJSON h a).
Proof. unfold Service.AsJSON. repeat obeys_step. Qed.

Lemma obeys_ToJSON g : obeys P (Service.ToJSON h g).
Proof. unfold Service.ToJSON. repeat obeys_step. Qed.

Hypothesis HFs : anyFs P.

Lemma obeys_removeFilesOnlyF fuel : forall dir,
  obeys P (Backup.removeFilesOnlyF h fuel dir).
Proof.
  induction fuel as [|fuel IH]; intros dir; simpl.
  - apply obeys_outOfFuel.
  - apply obeys_bind; [apply obeys_ReadDirE; auto|intros l].
    destruct l; try apply obeys_ret; try apply obeys_fail.
    apply obeys_forEach. intros entry.
    destruct (FS.isDir _); [apply IH|apply obeys_Remove; auto].
Qed.

Lemma obeys_removeFilesOnly dir : obeys P (Backup.removeFilesOnly h dir).
Proof.
  unfold Backup.removeFilesOnly. intros s s' r E.
  eapply obeys_removeFilesOnlyF; exact E.
Qed.

Lemma obeys_fetchPlainIDEnvStuff c envDir envID :
  obeys P (Backup.fetchPlainIDEnvStuff h c envDir envID).
Proof.
  unfold Backup.fetchPlainIDEnvStuff.
  destruct (Config.FindEnvironment c envID); [|apply obeys_fail].
  apply obeys_bind.
  { apply obeys_forEach; intro.
    apply obeys_bind; [apply obeys_wrapErr, obeys_get|intro].
    apply obeys_wrapErr, obeys_WriteFile; auto. }
  intros _. apply obeys_bind; [apply obeys_wrapErr, obeys_PAAGroups|intro].
  apply obeys_forEach; intro.
  apply obeys_bind; [apply obeys_wrapErr, obeys_ToJSON|intro].
  apply obeys_wrapErr, obeys_WriteFile; auto.
Qed.

Lemma obeys_fetchPlainIDWSStuff c wsDir envID wsID :
  obeys P (Backup.fetchPlainIDWSStuff h c wsDir envID wsID).
Proof.
  unfold Backup.fetchPlainIDWSStuff.
  apply obeys_bind; [apply obeys_wrapErr, obeys_Applications|intro apps].
  apply obeys_bind; [apply obeys_wrapErr, obeys_get|intro ids].
  apply obeys_bind.
  { apply obeys_forEachIdx; intros.
    apply obeys_bind; [apply obeys_wrapErr, obeys_get|intro].
    apply obeys_wrapErr, obeys_WriteFile; auto. }
  intros _. destruct (Config.FindEnvironment c envID); [|apply obeys_fail].
  apply obeys_forEach; intro app.
  apply obeys_bind; [apply obeys_wrapErr, obeys_MkdirAll; auto|intros _].
  apply obeys_bind; [apply obeys_wrapErr, obeys_AsJSON|intro].
  apply obeys_bind; [apply obeys_wrapErr, obeys_WriteFile; auto|intros _].
  apply obeys_bind; [apply obeys_wrapErr, obeys_AppPolicies|intro].
  apply obeys_bind.
  { apply obeys_forEachIdx; intros.
    apply obeys_wrapErr, obeys_WriteFile; auto. }
  intros _.
  apply obeys_bind; [apply obeys_wrapErr, obeys_get|intro].
  apply obeys_wrapErr, obeys_WriteFile; auto.
Qed.

Lemma obeys_clearWorkspace wsDir : obeys P (Backup.clearWorkspace h wsDir).
Proof.
  unfold Backup.clearWorkspace.
  apply obeys_bind; [apply obeys_wrapErr, obeys_RemoveAll; auto|intros _].
  apply obeys_wrapErr, obeys_MkdirAll; auto.
Qed.

Lemma obeys_clearEnvironment envDir :
  obeys P (Backup.clearEnvironment h envDir).
Proof.
  unfold Backup.clearEnvironment.
  apply obeys_bind; [apply obeys_wrapErr, obeys_MkdirAll; auto|intros _].
  apply obeys_wrapErr, obeys_removeFilesOnly.
Qed.

Lemma obeys_processWorkspaces c envDir envID wss : forall msg,
  obeys P (Backup.processWorkspaces h c envDir envID wss msg).
Proof.
  induction wss as [|ws rest IH]; intros msg; simpl; [apply obeys_ret|].
  apply obeys_bind; [apply obeys_clearWorkspace|intros _].
  apply obeys_bind; [apply obeys_wrapErr, obeys_fetchPlainIDWSStuff|intros _].
  apply IH.
Qed.

Lemma obeys_processEnvironment c env msg :
  obeys P (Backup.processEnvironment h c env msg).
Proof.
  unfold Backup.processEnvironment.
  apply obeys_bind; [apply obeys_clearEnvironment|intros _].
  apply obeys_bind; [apply obeys_wrapErr, obeys_fetchPlainIDEnvStuff|intros _].
  apply obeys_processWorkspaces.
Qed.

Lemma obeys_processEnvironments c envs : forall msg,
  obeys P (Backup.processEnvironments h c envs msg).
Proof.
  induction envs as [|env rest IH]; intros msg; simpl; [apply obeys_ret|].
  apply obeys_bind; [apply obeys_processEnvironment|intro; apply IH].
Qed.

(** Restore *)
Lemma obeys_copyFile src dst : obeys P (Restore.copyFile h src dst).
Proof.
  unfold Restore.copyFile.
  apply obeys_bind; [apply obeys_ReadFile; auto|intro].
  apply obeys_bind; [apply obeys_MkdirAll; auto|intros _].
  apply obeys_bind; [apply obeys_WriteFile; auto|intros _].
  apply obeys_Stat; auto.
Qed.

Lemma obeys_copyDirF fuel : forall src dst,
  obeys P (Restore.copyDirF h fuel src dst).
Proof.
  induction fuel as [|fuel IH]; intros src dst; simpl.
  - apply obeys_outOfFuel.
  - apply obeys_bind; [apply obeys_Stat; auto|intros _].
    apply obeys_bind; [apply obeys_MkdirAll; auto|intros _].
    apply obeys_bind; [apply obeys_ReadDir; auto|intros es].
    apply obeys_forEach; intro entry.
    destruct (FS.isDir _); [apply IH|apply obeys_copyFile].
Qed.

Lemma obeys_copyDir src dst : obeys P (Restore.copyDir h src dst).
Proof.
  unfold Restore.copyDir. intros s s' r E.
  eapply obeys_copyDirF; exact E.
Qed.

Lemma obeys_scanWorkspaces flags c envDir es :
  obeys P (Restore.scanWorkspaces h flags c envDir es).
Proof.
  induction es as [|e rest IH]; simpl; [apply obeys_ret|].
  destruct (FS.isDir _); [|apply IH].
  destruct (Restore.findWorkspaceByNameOrID _ _ _ _); [|apply IH].
  apply obeys_bind; [apply obeys_wrapErr, obeys_copyDir|intros _].
  apply obeys_ret.
Qed.

Lemma obeys_copyEnvFiles flags envDir :
  obeys P (Restore.copyEnvFiles h flags envDir).
Proof.
  unfold Restore.copyEnvFiles.
  apply obeys_bind; [apply obeys_wrapErr, obeys_ReadDir; auto|intros es].
  apply obeys_forEach; intro.
  destruct (negb _); [|apply obeys_ret].
  apply obeys_wrapErr. apply obeys_copyFile.
Qed.

Lemma obeys_scanEnvironments flags c es :
  obeys P (Restore.scanEnvironments h flags c es).
Proof.
  induction es as [|e rest IH]; simpl; [apply obeys_ret|].
  destruct (_ && _); [|apply IH].
  apply obeys_bind; [apply obeys_wrapErr, obeys_ReadDir; auto|intros wsE].
  apply obeys_bind; [apply obeys_scanWorkspaces|intros found].
  destruct found; [|apply IH].
  apply obeys_bind; [apply obeys_copyEnvFiles|intros _; apply obeys_ret].
Qed.

Lemma obeys_copyOut flags c : obeys P (Restore.copyOut h flags c).
Proof.
  unfold Restore.copyOut, Restore.filteredCopy.
  destruct (_ && _); [|apply obeys_wrapErr, obeys_copyDir].
  apply obeys_bind; [apply obeys_wrapErr, obeys_ReadDir; auto|intros es].
  apply obeys_bind; [apply obeys_scanEnvironments|intros found].
  destruct found; [apply obeys_ret|apply obeys_fail].
Qed.

Lemma obeys_Restore_PreRunE flags c : obeys P (Restore.PreRunE flags c).
Proof. unfold Restore.PreRunE. repeat obeys_step. Qed.

Lemma emits_Restore_RunE flags c : emits P (Restore.RunE h flags c).
Proof.
  unfold Restore.RunE. destruct (negb _);
    [|apply obeys_emits, obeys_fail].
  apply emits_bind;
    [apply obeys_emits, obeys_wrapErr, obeys_MkdirAll; auto|intros _].
  apply emits_bind; [apply obeys_emits, obeys_CreateTempDir; auto|intros _].
  apply emits_defer; apply obeys_emits;
    [apply obeys_CleanupTempDir; auto|apply obeys_copyOut].
Qed.

End Prims2.

Import List_.
Lemma visitTag_spec opts ref acc :
  List_.visitTag opts ref acc = acc \/
  exists t eids wids,
    Time.Parse (tagName ref) = Some t /\
    List_.keeps opts (messageOf ref) = true /\
    List_.visitTag opts ref acc =
      acc ++ [List_.mkTagInfo (tagName ref) eids wids (tagName ref) t
                              (messageOf ref)].
Proof.
  unfold List_.visitTag.
  destruct (Time.Parse (tagName ref)) as [t|]; [|left; reflexivity].
  destruct (List_.keeps opts _) eqn:K; simpl; [|left; reflexivity].
  destruct (List_.scanParts _ _ _) as [eids wids].
  right. exists t, (Strings.Join eids ","), (Strings.Join wids ",").
  auto.
Qed.

Lemma visitTags_sound opts refs : forall acc ti,
  In ti (fold_left (fun acc ref => List_.visitTag opts ref acc) refs acc) ->
  In ti acc \/
  exists ref, In ref refs /\ List_.Name ti = tagName ref /\
              List_.Message ti = messageOf ref /\
              Time.Parse (tagName ref) = Some (List_.Time_ ti) /\
              List_.keeps opts (messageOf ref) = true.
Proof.
  induction refs as [|ref refs IH]; intros acc ti H; simpl in *.
  - left; assumption.
  - destruct (IH _ _ H) as [Hin|(r & Hr & Hrest)].
    + destruct (visitTag_spec opts ref acc) as [E|(t & eids & wids & Pt & K & E)];
        rewrite E in Hin.
      * left; assumption.
      * apply in_app_or in Hin. destruct Hin as [Hin|[Hin|[]]].
        -- left; assumption.
        -- right. exists ref. subst ti. simpl. auto.
    + right. exists r. split; [right; assumption|assumption].
Qed.

Lemma visitTag_incl opts ref acc x : In x acc -> In x (List_.visitTag opts ref acc).
Proof.
  intros H. destruct (visitTag_spec opts ref acc) as [E|(t & e & w & _ & _ & E)];
    rewrite E; auto. apply in_or_app; auto.
Qed.

Lemma visitTags_acc opts refs : forall acc x,
  In x acc -> In x (fold_left (fun acc ref => List_.visitTag opts ref acc) refs acc).
Proof.
  induction refs as [|ref refs IH]; intros acc x H; simpl; auto.
  apply IH. apply visitTag_incl; assumption.
Qed.

Lemma visitTags_complete opts refs : forall acc ref t,
  In ref refs -> Time.Parse (tagName ref) = Some t ->
  List_.keeps opts (messageOf ref) = true ->
  exists ti, In ti (fold_left (fun acc ref => List_.visitTag opts ref acc) refs acc)
             /\ List_.Name ti = tagName ref /\ List_.Message ti = messageOf ref
             /\ List_.Time_ ti = t.
Proof.
  induction refs as [|r refs IH]; intros acc ref t Hin Pt K; [destruct Hin|].
  simpl. destruct Hin as [->|Hin]; [|eapply IH; eauto].
  destruct (visitTag_spec opts ref acc) as [E|(t' & e & w & Pt' & _ & E)].
  - exfalso. unfold List_.visitTag in E. rewrite Pt in E.
    fold (messageOf ref) in E. rewrite K in E. simpl in E.
    destruct (List_.scanParts _ _ _) in E.
    apply (f_equal (@List.length _)) in E. rewrite length_app in E. simpl in E. lia.
  - eexists. split.
    + apply visitTags_acc. rewrite E. apply in_or_app. right. left. reflexivity.
    + simpl. rewrite Pt in Pt'. inversion Pt'. auto.
Qed.

Lemma insertTag_In x l y : In y (List_.insertTag x l) <-> y = x \/ In y l.
Proof.
  induction l as [|z l IH]; simpl.
  - intuition.
  - destruct (Time.After _ _); simpl; rewrite ?IH; intuition.
Qed.

Lemma sortTags_In l y : In y (List_.sortTags l) <-> In y l.
Proof.
  induction l as [|x l IH]; simpl; [tauto|].
  rewrite insertTag_In, IH. intuition.
Qed.

Lemma firstn_In {A} n (l : list A) x : In x (firstn n l) -> In x l.
Proof.
  revert l. induction n as [|n IH]; intros [|y l] H; simpl in *;
    try contradiction.
  destruct H as [H|H]; [left; assumption|right; apply IH; assumption].
Qed.

Section Resolution.
Variable h : Host.

Lemma get_Ok {A} r (a : A) s :
  Service.get r (Ok a) s
  = (mkState (scratch s) (disk s) (trace s ++ [EvGet r true]), Done a).
Proof. reflexivity. Qed.

Lemma resolveWorkspaces_Ok (wsOf : string -> list Plainid.Workspace) envs :
  (forall e, In e envs ->
     Plainid.getWorkspaces (api h) (Config.ID e) = Ok (wsOf (Config.ID e))) ->
  forall s, exists s',
    Root.resolveWorkspaces h envs s
    = (s', Done (map (fun e => Root.setWorkspaces e
                      (Root.resolveWorkspacesOf e (wsOf (Config.ID e)))) envs)).
Proof.
  induction envs as [|e rest IH]; intros H s; simpl.
  - eexists; reflexivity.
  - unfold bind at 1. unfold wrapErr, Service.Workspaces.
    rewrite (H e) by (left; reflexivity). rewrite get_Ok.
    destruct (IH (fun e' He' => H e' (or_intror He'))
                 (mkState (scratch s) (disk s)
                    (trace s ++ [EvGet (Plainid.ReqWorkspaces (Config.ID e)) true])))
      as (s' & E).
    unfold bind. rewrite E. eexists; reflexivity.
Qed.

Lemma resolveIdentities_Ok (idOf : string -> list Plainid.Identity) envs :
  (forall e, In e envs ->
     Plainid.getIdentities (api h) (Config.ID e) = Ok (idOf (Config.ID e))) ->
  forall s, exists s',
    Root.resolveIdentities h envs s
    = (s', Done (map (fun e =>
                        if Config.HasWildcardIdentities e
                        then Root.setIdentities e
                               (map Plainid.TemplateID (idOf (Config.ID e)))
                        else e) envs)).
Proof.
  induction envs as [|e rest IH]; intros H s; simpl.
  - eexists; reflexivity.
  - unfold bind at 1. unfold wrapErr, Service.Identities.
    rewrite (H e) by (left; reflexivity). rewrite get_Ok.
    destruct (IH (fun e' He' => H e' (or_intror He'))
                 (mkState (scratch s) (disk s)
                    (trace s ++ [EvGet (Plainid.ReqIdentities (Config.ID e)) true])))
      as (s' & E).
    unfold bind. rewrite E. eexists; reflexivity.
Qed.

Lemma existsb_map_false {A B} (f : B -> bool) (g : A -> B) l :
  (forall x, In x l -> f (g x) = false) -> existsb f (map g l) = false.
Proof.
  induction l as [|x l IH]; intros H; simpl; [reflexivity|].
  rewrite H by (left; reflexivity). apply IH. intros; apply H; right; auto.
Qed.

Lemma liveScope_concrete envs wsOf idOf :
  (forall e, In e envs -> Plainid.EnvID e <> "*") ->
  (forall e w, In e envs -> In w (wsOf (Plainid.EnvID e)) ->
               Plainid.WsID w <> "*") ->
  (forall e i, In e envs -> In i (idOf (Plainid.EnvID e)) ->
               Plainid.TemplateID i <> "*") ->
  Root.concrete (Root.liveScope envs wsOf idOf).
Proof.
  intros He Hw Hi e Hin. unfold Root.liveScope in Hin.
  apply in_map_iff in Hin. destruct Hin as (env & <- & Hin).
  unfold Config.IsWildcard, Config.HasWildcardWorkspace,
    Config.HasWildcardIdentities. simpl.
  split; [apply String.eqb_neq; auto|]. split.
  - apply existsb_map_false. intros w Hwin. simpl.
    apply String.eqb_neq. eauto.
  - apply existsb_map_false. intros i Hiin.
    apply String.eqb_neq. eauto.
Qed.

Lemma wildcard_resolution c s envs wsOf idOf :
  Config.HasWildcardEnvironment c = true ->
  Plainid.getEnvironments (api h) = Ok envs ->
  (forall e, In e envs ->
     Plainid.getWorkspaces (api h) (Plainid.EnvID e) = Ok (wsOf (Plainid.EnvID e))) ->
  (forall e, In e envs ->
     Plainid.getIdentities (api h) (Plainid.EnvID e) = Ok (idOf (Plainid.EnvID e))) ->
  exists s',
    Root.PersistentPreRunE h c s
    = (s', Done (Config.withEnvs c (Root.liveScope envs wsOf idOf))).
Proof.
  intros HW HE HWs HIs.
  unfold Root.PersistentPreRunE, bind, wrapErr, Service.Environments.
  rewrite HE, get_Ok.
  unfold Root.resolveEnvironments. rewrite HW.
  match goal with
  | |- context [Root.resolveWorkspaces h ?l ?s0] =>
      set (l0 := l);
      assert (H1 : forall e, In e l0 ->
                Plainid.getWorkspaces (api h) (Config.ID e)
                = Ok (wsOf (Config.ID e)));
      [|destruct (resolveWorkspaces_Ok wsOf l0 H1 s0) as (s1 & E1);
        rewrite E1]
  end.
  { intros e Hin. unfold l0 in Hin. apply in_map_iff in Hin.
    destruct Hin as (env & <- & Hin). simpl. auto. }
  match goal with
  | |- context [Root.resolveIdentities h ?l ?s0] =>
      set (l1 := l);
      assert (H2 : forall e, In e l1 ->
                Plainid.getIdentities (api h) (Config.ID e)
                = Ok (idOf (Config.ID e)));
      [|destruct (resolveIdentities_Ok idOf l1 H2 s0) as (s2 & E2);
        rewrite E2]
  end.
  { intros e Hin. unfold l1 in Hin. apply in_map_iff in Hin.
    destruct Hin as (e0 & <- & Hin). unfold l0 in Hin.
    apply in_map_iff in Hin. destruct Hin as (env & <- & Hin). simpl. auto. }
  exists s2. unfold ret. f_equal. f_equal. f_equal.
  unfold l1, l0, Root.liveScope. rewrite !map_map. apply map_ext. intros env.
  reflexivity.
Qed.
End Resolution.

Section Pagination.
Variable h : Host.
Local Open Scope Z_scope.

Lemma wrapInt_small z : 0 <= z < 2 ^ 63 -> Service.wrapInt z = z.
Proof.
  intros H. unfold Service.wrapInt.
  rewrite Z.mod_small; lia.
Qed.

Lemma get_Err {A} r msg s :
  @Service.get A r (Err msg) s
  = (mkState (scratch s) (disk s) (trace s ++ [EvGet r false]), Fail msg).
Proof. reflexivity. Qed.

(** One turn of the page loop. *)
Lemma appInfoPages_step fuel envID wsID offset acc s :
  Service.appInfoPages h (S fuel) envID wsID offset acc s =
  let s1 ok := mkState (scratch s) (disk s)
                 (trace s ++ [EvGet (Plainid.ReqAppPage envID Service.limit offset) ok]) in
  match Plainid.getAppPage (api h) envID Service.limit offset with
  | Err msg => (s1 false, Fail msg)
  | Ok resp =>
      let acc' := acc ++ filter (fun app => String.eqb (Plainid.InfoWSID app) wsID)
                                (Plainid.Data resp) in
      if Service.stops offset resp then (s1 true, Done acc')
      else Service.appInfoPages h fuel envID wsID
             (Service.wrapInt (offset + Service.limit)) acc' (s1 true)
  end.
Proof.
  simpl. unfold bind.
  destruct (Plainid.getAppPage (api h) envID Service.limit offset) as [resp|msg].
  - rewrite get_Ok. destruct (Service.stops offset resp); reflexivity.
  - rewrite get_Err. reflexivity.
Qed.

Lemma appInfoPages_terminates B L envID wsID :
  0 <= B -> B + L < 2 ^ 63 ->
  (forall off resp,
      Plainid.getAppPage (api h) envID Service.limit off = Ok resp ->
      Plainid.Total resp <= B /\
      Z.of_nat (List.length (Plainid.Data resp)) <= L) ->
  forall fuel offset acc s,
    0 <= offset <= B -> B - offset < 50 * Z.of_nat fuel ->
    snd (Service.appInfoPages h fuel envID wsID offset acc s) <> Fuel.
Proof.
  intros HB HBL Hpage. induction fuel as [|fuel IH]; intros offset acc s Ho Hf.
  - exfalso. simpl in Hf. lia.
  - rewrite appInfoPages_step. cbv zeta.
    destruct (Plainid.getAppPage (api h) envID Service.limit offset)
      as [resp|msg] eqn:E; [|simpl; discriminate].
    destruct (Service.stops offset resp) eqn:St; [simpl; discriminate|].
    destruct (Hpage _ _ E) as [HT HL].
    unfold Service.stops in St. apply orb_false_iff in St.
    destruct St as [S1 S2]. unfold Service.limit in *.
    apply Z.ltb_ge in S1. rewrite Z.geb_leb in S2. apply Z.leb_gt in S2.
    rewrite wrapInt_small in S2 by lia.
    rewrite wrapInt_small by lia.
    apply IH; lia.
Qed.

(** [Service.AppPolicies] sends one list request, whatever the page
    reports, and then only requests for single policies. *)
Lemma AppPolicies_requests envID wsID appID s s' r :
  Service.AppPolicies h envID wsID appID s = (s', r) ->
  exists ok d,
    trace s' = trace s ++ EvGet (Plainid.ReqPolicyList envID appID) ok :: d /\
    Forall (fun e => exists polID ok',
                       e = EvGet (Plainid.ReqPolicy envID wsID polID) ok') d.
Proof.
  unfold Service.AppPolicies, bind. intros E.
  destruct (Plainid.getPolicyList (api h) envID appID) as [pols|msg].
  - rewrite get_Ok in E. cbv beta iota in E.
    match type of E with
    | collect ?xs ?body ?s0 = _ =>
        assert (Hc : obeys (fun e => exists polID ok',
                      e = EvGet (Plainid.ReqPolicy envID wsID polID) ok')
                      (collect xs body))
    end.
    { apply obeys_collect. intros pol.
      destruct (String.eqb _ _); [apply obeys_ret|].
      apply obeys_bind; [|intro; apply obeys_ret].
      unfold Service.get.
      destruct (Plainid.getPolicy _ _ _ _).
      - apply obeys_bind; [|intro; apply obeys_ret].
        apply obeys_log; [eauto|apply okE_succeeded; reflexivity].
      - apply obeys_log_fail. eauto. }
    destruct (Hc _ _ _ E) as (d & T & F & _). simpl in T.
    exists true, d. split; [|exact F].
    rewrite <- app_assoc in T. exact T.
  - rewrite get_Err in E. inversion E; subst. simpl.
    exists false, []. split; [reflexivity|constructor].
Qed.
End Pagination.

Section StopRule.
Variable h : Host.
Local Open Scope Z_scope.

(** The test of the page loop, on the numbers. *)
Lemma stops_rule offset resp :
  Service.stops offset resp = true <->
  (Z.of_nat (List.length (Plainid.Data resp)) < 50 \/
   (offset + Z.of_nat (List.length (Plainid.Data resp)) + 2 ^ 63)
     mod 2 ^ 64 - 2 ^ 63 >= Plainid.Total resp).
Proof.
  unfold Service.stops, Service.wrapInt, Service.limit.
  rewrite orb_true_iff, Z.ltb_lt, Z.geb_le. lia.
Qed.

Lemma appInfoPages_stop fuel envID wsID offset acc s resp :
  Plainid.getAppPage (api h) envID 50 offset = Ok resp ->
  Z.of_nat (List.length (Plainid.Data resp)) < 50 \/
  (offset + Z.of_nat (List.length (Plainid.Data resp)) + 2 ^ 63)
    mod 2 ^ 64 - 2 ^ 63 >= Plainid.Total resp ->
  Service.appInfoPages h (S fuel) envID wsID offset acc s
  = (mkState (scratch s) (disk s)
       (trace s ++ [EvGet (Plainid.ReqAppPage envID 50 offset) true]),
     Done (acc ++ filter (fun app => String.eqb (Plainid.InfoWSID app) wsID)
                         (Plainid.Data resp))).
Proof.
  intros E R. apply stops_rule in R.
  rewrite appInfoPages_step. cbv zeta.
  change Service.limit with 50. rewrite E, R. reflexivity.
Qed.

Lemma appInfoPages_next fuel envID wsID offset acc s resp :
  Plainid.getAppPage (api h) envID 50 offset = Ok resp ->
  50 <= Z.of_nat (List.length (Plainid.Data resp)) ->
  (offset + Z.of_nat (List.length (Plainid.Data resp)) + 2 ^ 63)
    mod 2 ^ 64 - 2 ^ 63 < Plainid.Total resp ->
  Service.appInfoPages h (S fuel) envID wsID offset acc s
  = Service.appInfoPages h fuel envID wsID
      ((offset + 50 + 2 ^ 63) mod 2 ^ 64 - 2 ^ 63)
      (acc ++ filter (fun app => String.eqb (Plainid.InfoWSID app) wsID)
                     (Plainid.Data resp))
      (mkState (scratch s) (disk s)
         (trace s ++ [EvGet (Plainid.ReqAppPage envID 50 offset) true])).
Proof.
  intros E R1 R2.
  assert (R : Service.stops offset resp = false).
  { apply not_true_is_false. intros C. apply stops_rule in C. lia. }
  rewrite appInfoPages_step. cbv zeta.
  change Service.limit with 50. rewrite E, R. reflexivity.
Qed.

Lemma appInfoPages_fail fuel envID wsID offset acc s msg :
  Plainid.getAppPage (api h) envID 50 offset = Err msg ->
  Service.appInfoPages h (S fuel) envID wsID offset acc s
  = (mkState (scratch s) (disk s)
       (trace s ++ [EvGet (Plainid.ReqAppPage envID 50 offset) false]),
     Fail msg).
Proof.
  intros E. rewrite appInfoPages_step. cbv zeta.
  change Service.limit with 50. rewrite E. reflexivity.
Qed.
End StopRule.

Section Endless.
Local Open Scope Z_scope.

(** Against full pages and a total of [2 ^ 63 - 1] the offset stays
    even, so that the offset with the length of the page never is the
    total, and the loop asks for one more page, whatever the
    budget. *)
Lemma endless_pages budget envID wsID fuel : forall offset acc s,
  offset mod 2 = 0 ->
  snd (Service.appInfoPages (Demo.hostEndless budget) fuel envID wsID
         offset acc s) = Fuel.
Proof.
  induction fuel as [|fuel IH]; intros offset acc s Hev; [reflexivity|].
  rewrite (appInfoPages_next (Demo.hostEndless budget) fuel envID wsID
             offset acc s
             (Plainid.mkAppInfoResponse
                (repeat (Plainid.mkAppInfo "a9" "desk" "w9") 50)
                (2 ^ 63 - 1) 50 offset)).
  - apply IH. lia.
  - reflexivity.
  - cbn [Plainid.Data]. rewrite repeat_length. lia.
  - cbn [Plainid.Data Plainid.Total]. rewrite repeat_length. lia.
Qed.

Lemma endless_Applications budget envID wsID s :
  snd (Service.Applications (Demo.hostEndless budget) envID wsID s)
  = Fuel.
Proof.
  unfold Service.Applications, bind.
  pose proof (endless_pages budget envID wsID
                (pageBudget (Demo.hostEndless budget)) 0 [] s eq_refl) as E.
  destruct (Service.appInfoPages _ _ _ _ _ _ s) as [s1 r1].
  cbn [snd] in E. subst r1. reflexivity.
Qed.
End Endless.

Lemma append_nil_r s : String.append s "" = s.
Proof. induction s as [|c s IH]; simpl; [reflexivity|rewrite IH; reflexivity]. Qed.

Lemma append_assoc a b c :
  String.append (String.append a b) c = String.append a (String.append b c).
Proof. induction a as [|x a IH]; simpl; [reflexivity|rewrite IH; reflexivity]. Qed.

Lemma concat_empty_cons x l :
  String.concat "" (x :: l) = String.append x (String.concat "" l).
Proof.
  destruct l as [|y l]; simpl; [rewrite append_nil_r|]; reflexivity.
Qed.

Lemma concat_empty_app l1 l2 :
  String.concat "" (l1 ++ l2)
  = String.append (String.concat "" l1) (String.concat "" l2).
Proof.
  induction l1 as [|x l1 IH]; [reflexivity|].
  rewrite <- app_comm_cons, !concat_empty_cons, IH, append_assoc. reflexivity.
Qed.

Lemma cat_cons x l : Backup.cat (x :: l) = String.append x (Backup.cat l).
Proof. apply concat_empty_cons. Qed.

Lemma cat_nil : Backup.cat [] = "".
Proof. reflexivity. Qed.

Section BackupMessage.
Variable h : Host.
Variable c : Config.Config.

Lemma processWorkspaces_msg envDir envID wss : forall msg s s' m,
  Backup.processWorkspaces h c envDir envID wss msg s = (s', Done m) ->
  m = String.append msg
        (String.concat ""
           (map (fun ws => pairText (envID, Config.WsID ws)) wss)).
Proof.
  induction wss as [|ws rest IH]; intros msg s s' m E; simpl in E.
  - inversion E. rewrite append_nil_r. reflexivity.
  - unfold bind in E.
    destruct (Backup.clearWorkspace h _ s) as [s1 [[]| |]]; try discriminate.
    destruct (wrapErr _ _ s1) as [s2 [[]| |]]; try discriminate.
    apply IH in E. subst m. cbn [map]. rewrite concat_empty_cons.
    unfold pairText. cbn [fst snd].
    rewrite !cat_cons, cat_nil, append_nil_r, !append_assoc. reflexivity.
Qed.

Lemma processEnvironments_msg envs : forall msg s s' m,
  Backup.processEnvironments h c envs msg s = (s', Done m) ->
  m = String.append msg
        (String.concat "" (map pairText (Backup.scopePairs envs))).
Proof.
  induction envs as [|env rest IH]; intros msg s s' m E; simpl in E.
  - inversion E. rewrite append_nil_r. reflexivity.
  - unfold bind in E.
    destruct (Backup.processEnvironment h c env msg s) as [s1 [m1| |]] eqn:E1;
      try discriminate.
    apply IH in E. subst m.
    unfold Backup.processEnvironment, bind in E1.
    destruct (Backup.clearEnvironment h _ s) as [s2 [[]| |]]; try discriminate.
    destruct (wrapErr _ _ s2) as [s3 [[]| |]]; try discriminate.
    apply processWorkspaces_msg in E1. subst m1.
    cbn [Backup.scopePairs flat_map]. rewrite map_app, concat_empty_app.
    rewrite map_map, append_assoc. reflexivity.
Qed.

Lemma synchronize_msg s s' isNew m :
  Backup.synchronize h c s = (s', Done (isNew, m)) ->
  m = Backup.expectedMessage (Config.Envs c).
Proof.
  unfold Backup.synchronize, bind. intros E.
  destruct (OS.CloneRemote h s) as [s1 [b| |]]; try discriminate.
  destruct (wrapErr _ _ s1) as [s2 [[]| |]]; try discriminate.
  destruct (Backup.processEnvironments h c _ _ s2) as [s3 [m3| |]] eqn:E3;
    try discriminate.
  inversion E; subst. apply processEnvironments_msg in E3. exact E3.
Qed.
End BackupMessage.

Section BackupRuns.
Variable h : Host.
Variable c : Config.Config.

Lemma obeys_synchronize (P : Event -> Prop) :
  anyFs P -> anyGet P ->
  (forall ok, P (EvGit GitClone ok)) ->
  (forall ok, P (EvGit GitInit ok)) ->
  (forall ok, P (EvGit GitWorktree ok)) ->
  obeys P (Backup.synchronize h c).
Proof.
  intros HFs HGet HC HI HW. unfold Backup.synchronize.
  apply obeys_bind; [apply obeys_CloneRemote; auto|intro].
  apply obeys_bind; [apply obeys_wrapErr, obeys_git; auto|intros _].
  apply obeys_bind; [apply obeys_processEnvironments; auto|intro].
  apply obeys_ret.
Qed.

Lemma obeys_record (P : Event -> Prop) ts isNew msg :
  (forall ok, P (EvGit GitWorktree ok)) ->
  (forall ok, P (EvGit GitAdd ok)) ->
  (forall ok, P (EvGit (GitCommit msg) ok)) ->
  (forall b ok, P (EvGit (GitSetBranch b) ok)) ->
  (forall m ok, P (EvGit (GitCreateTag ts m) ok)) ->
  (Config.DryRun c = false -> forall r f ok, P (EvGit (GitPush r f) ok)) ->
  obeys P (Backup.record h c ts isNew msg).
Proof.
  intros HW HA HC HB HT HP. unfold Backup.record.
  apply obeys_bind; [apply obeys_wrapErr, obeys_git; auto|intros _].
  apply obeys_bind; [apply obeys_wrapErr, obeys_git; auto|intros _].
  apply obeys_bind; [apply obeys_wrapErr, obeys_git; auto|intros _].
  apply obeys_bind.
  { destruct isNew; [apply obeys_wrapErr, obeys_git; auto|apply obeys_ret]. }
  intros _.
  apply obeys_bind; [apply obeys_wrapErr, obeys_git; auto|intros _].
  destruct (Config.DryRun c) eqn:D; [apply obeys_ret|].
  apply obeys_wrapErr, obeys_git; auto.
Qed.

Lemma git_Done op s s' :
  OS.git h op s = (s', Done tt) -> trace s' = trace s ++ [EvGit op true].
Proof.
  unfold OS.git. destruct (gitFails h op); intros E; inversion E.
  reflexivity.
Qed.

Lemma wrapErr_Done {A} ctx (m : M A) s s' a :
  wrapErr ctx m s = (s', Done a) -> m s = (s', Done a).
Proof.
  unfold wrapErr. destruct (m s) as [s1 [a1|msg|]]; intros E; inversion E.
  reflexivity.
Qed.

(** A record phase that succeeds has committed and tagged, and has
    pushed unless the run is dry. *)
Lemma record_Done ts isNew msg s s' :
  Backup.record h c ts isNew msg s = (s', Done tt) ->
  exists d, trace s' = trace s ++ d /\
    In (EvGit GitAdd true) d /\
    In (EvGit (GitCommit msg) true) d /\
    In (EvGit (GitCreateTag ts (String.append "Backup tag for " msg)) true) d /\
    (Config.DryRun c = false ->
     exists refs, In (EvGit (GitPush refs isNew) true) d).
Proof.
  unfold Backup.record, bind. intros E.
  destruct (wrapErr _ (OS.git h GitWorktree) s) as [s1 [[]| |]] eqn:E1;
    try discriminate.
  destruct (wrapErr _ (OS.git h GitAdd) s1) as [s2 [[]| |]] eqn:E2;
    try discriminate.
  destruct (wrapErr _ (OS.git h (GitCommit msg)) s2) as [s3 [[]| |]] eqn:E3;
    try discriminate.
  apply wrapErr_Done, git_Done in E1, E2, E3.
  match type of E with
  | match ?m s3 with _ => _ end = _ =>
      destruct (m s3) as [s4 [[]| |]] eqn:E4; try discriminate;
      assert (T4 : exists d4, trace s4 = trace s3 ++ d4)
  end.
  { destruct isNew.
    - apply wrapErr_Done, git_Done in E4. eauto.
    - inversion E4; subst. exists []. rewrite app_nil_r. reflexivity. }
  destruct T4 as (d4 & T4).
  destruct (wrapErr _ (OS.git h (GitCreateTag _ _)) s4) as [s5 [[]| |]] eqn:E5;
    try discriminate.
  apply wrapErr_Done, git_Done in E5.
  destruct (Config.DryRun c) eqn:D.
  - inversion E; subst s'. eexists. split.
    + rewrite E5, T4, E3, E2, E1. rewrite <- !app_assoc. reflexivity.
    + simpl. repeat split; try discriminate;
        rewrite ?in_app_iff; simpl; auto 10.
  - apply wrapErr_Done, git_Done in E. eexists. split.
    + rewrite E, E5, T4, E3, E2, E1. rewrite <- !app_assoc. reflexivity.
    + simpl. repeat split; rewrite ?in_app_iff; simpl; auto 10.
      intros _. eexists. right. right. right. apply in_or_app. right.
      simpl. right. left. reflexivity.
Qed.

Lemma obeys_cleanupOnSuccess {A} P (body : M A) :
  anyFs P -> obeys P body -> obeys P (Backup.cleanupOnSuccess h c body).
Proof.
  intros HFs Hb s s' r E. unfold Backup.cleanupOnSuccess in E.
  destruct (body s) as [s1 r1] eqn:Eb.
  destruct (Hb _ _ _ Eb) as (d1 & T1 & F1 & O1).
  destruct r1 as [a|msg|]; try (inversion E; subst; eauto).
  destruct (Config.DeleteTempOnSuccess _); inversion E; subst; eauto.
  destruct (OS.CleanupTempDir h s1) as [s2 r2] eqn:Ec.
  destruct (obeys_CleanupTempDir_at h
              (fun e => P e /\ isFetchOrWrite e = false)) with (s := s1) (s' := s2) (r := r2)
    as (d2 & T2 & F2 & _); [| exact Ec |].
  { intros ok. split; [apply HFs|reflexivity]. }
  exists (d1 ++ d2). simpl. rewrite T2, T1, app_assoc.
  split; [reflexivity|]. split.
  - apply Forall_app; split; [assumption|].
    eapply Forall_impl; [|exact F2]. intros e [H _]; exact H.
  - destruct O1 as [O1|O1];
      [|destruct (aborted_isFail _ _ O1); discriminate].
    left. apply Forall_app; split; [assumption|].
    eapply Forall_impl; [|exact F2]. intros e [_ H]. apply okE_not_fw, H.
Qed.

(** [RunE] obeys every property of events that the steps of a backup
    of this configuration satisfy. *)
Lemma obeys_Backup_RunE (P : Event -> Prop) :
  anyFs P -> anyGet P ->
  (forall ok, P (EvGit GitClone ok)) ->
  (forall ok, P (EvGit GitInit ok)) ->
  (forall ok, P (EvGit GitWorktree ok)) ->
  (forall ok, P (EvGit GitAdd ok)) ->
  (forall ok, P (EvGit (GitCommit (Backup.expectedMessage (Config.Envs c))) ok)) ->
  (forall b ok, P (EvGit (GitSetBranch b) ok)) ->
  (forall m ok, P (EvGit (GitCreateTag (Time.Format (now h)) m) ok)) ->
  (Config.DryRun c = false -> forall r f ok, P (EvGit (GitPush r f) ok)) ->
  obeys P (Backup.RunE h c).
Proof.
  intros HFs HGet HC HI HW HA HM HB HT HP. unfold Backup.RunE.
  apply obeys_bind; [apply obeys_CreateTempDir; auto|intros _].
  apply obeys_cleanupOnSuccess; [assumption|].
  apply obeys_bind_val; [apply obeys_synchronize; auto|].
  intros [isNew msg] (s & s1 & E). apply synchronize_msg in E. subst msg.
  apply obeys_record; auto.
Qed.

Lemma RunE_Done_inv s s' :
  Backup.RunE h c s = (s', Done tt) ->
  exists s1 s2 s3 isNew msg,
    OS.CreateTempDir h s = (s1, Done tt) /\
    Backup.synchronize h c s1 = (s2, Done (isNew, msg)) /\
    Backup.record h c (Time.Format (now h)) isNew msg s2 = (s3, Done tt) /\
    (s' = s3 \/ s' = fst (OS.CleanupTempDir h s3)).
Proof.
  unfold Backup.RunE, bind, Backup.cleanupOnSuccess. intros E.
  destruct (OS.CreateTempDir h s) as [s1 [[]| |]] eqn:E1; try discriminate.
  destruct (Backup.synchronize h c s1) as [s2 [[isNew msg]| |]] eqn:E2;
    try discriminate.
  simpl in E.
  destruct (Backup.record h c _ isNew msg s2) as [s3 [[]| |]] eqn:E3;
    try discriminate.
  exists s1, s2, s3, isNew, msg. repeat split; auto.
  destruct (Config.DeleteTempOnSuccess _); inversion E; auto.
Qed.

Lemma trace_ext {A} P (m : M A) s s' r :
  obeys P m -> m s = (s', r) -> exists d, trace s' = trace s ++ d.
Proof. intros H E. destruct (H _ _ _ E) as (d & T & _). eauto. Qed.

(** A successful run has staged, committed with the message of the
    scope, tagged with the formatted time, and pushed unless dry. *)
Lemma RunE_Done s s' :
  Backup.RunE h c s = (s', Done tt) ->
  exists d, trace s' = trace s ++ d /\
    In (EvGit (GitCommit (Backup.expectedMessage (Config.Envs c))) true) d /\
    In (EvGit (GitCreateTag (Time.Format (now h))
                 (String.append "Backup tag for "
                    (Backup.expectedMessage (Config.Envs c)))) true) d /\
    (Config.DryRun c = false ->
     exists refs force, In (EvGit (GitPush refs force) true) d).
Proof.
  intros E. destruct (RunE_Done_inv _ _ E)
    as (s1 & s2 & s3 & isNew & msg & E1 & E2 & E3 & E4).
  pose proof (synchronize_msg _ _ _ _ _ _ E2) as ->.
  destruct (trace_ext (fun _ => True) _ _ _ _
              (obeys_CreateTempDir h _ (fun _ _ => I)) E1) as (d1 & T1).
  destruct (trace_ext (fun _ => True) _ _ _ _
              (obeys_synchronize _ (fun _ _ => I) (fun _ _ => I)
                 (fun _ => I) (fun _ => I) (fun _ => I)) E2) as (d2 & T2).
  destruct (record_Done _ _ _ _ _ E3) as (d3 & T3 & _ & I1 & I2 & I3).
  assert (T4 : exists d4, trace s' = trace s3 ++ d4).
  { destruct E4 as [->| ->]; [exists []; rewrite app_nil_r; reflexivity|].
    destruct (OS.CleanupTempDir h s3) as [s4 r4] eqn:Ec.
    exact (trace_ext (fun _ => True) _ _ _ _
             (obeys_CleanupTempDir h _ (fun _ _ => I)) Ec). }
  destruct T4 as (d4 & T4).
  exists (d1 ++ d2 ++ d3 ++ d4). split.
  { rewrite T4, T3, T2, T1, <- !app_assoc. reflexivity. }
  rewrite !in_app_iff. repeat split; auto.
  intros D. destruct (I3 D) as (refs & Hin). exists refs, isNew.
  rewrite !in_app_iff. auto.
Qed.
End BackupRuns.

Lemma obeys_heeds {A} P (m : M A) : obeys P m -> heeds P m.
Proof.
  intros H s s' r E. destruct (H _ _ _ E) as (d & T & F & O).
  exists d. split; [assumption|]. destruct O; auto.
Qed.

Lemma quiet_heeds {A} (P Q : Event -> Prop) (m : M A) :
  (forall e, Q e -> isFetchOrWrite e = false) -> obeys Q m -> heeds P m.
Proof.
  intros HQ H s s' r E. destruct (H _ _ _ E) as (d & T & F & _).
  exists d. split; [assumption|]. left.
  eapply Forall_impl; [|exact F]. intros e He. apply okE_not_fw, HQ, He.
Qed.

Lemma heeds_bind {A B} P (m : M A) (k : A -> M B) :
  obeys P m -> (forall a, heeds P (k a)) -> heeds P (bind m k).
Proof.
  intros Hm Hk s s' r E. unfold bind in E.
  destruct (m s) as [s1 [a|msg|]] eqn:Em;
    destruct (Hm _ _ _ Em) as (d1 & T1 & F1 & O1).
  - destruct O1 as [O1|O1]; [|destruct (aborted_isFail _ _ O1); discriminate].
    destruct (Hk a _ _ _ E) as (d2 & T2 & O2).
    exists (d1 ++ d2). rewrite T2, T1, app_assoc. split; [reflexivity|].
    destruct O2 as [O2|[O2 F2]].
    + left. apply Forall_app; auto.
    + right. split; [apply aborted_app; auto|apply Forall_app; auto].
  - inversion E; subst. exists d1. split; [assumption|].
    destruct O1; [left; assumption|right].
    split; [eapply aborted_Fail; eauto|assumption].
  - inversion E; subst. exists d1. split; [assumption|].
    destruct O1 as [O1|O1]; [auto|destruct (aborted_isFail _ _ O1); discriminate].
Qed.


Section BackupAbort.
Variable h : Host.

Lemma heeds_cleanupOnSuccess {A} P c (body : M A) :
  heeds P body -> heeds P (Backup.cleanupOnSuccess h c body).
Proof.
  intros Hb s s' r E. unfold Backup.cleanupOnSuccess in E.
  destruct (body s) as [s1 r1] eqn:Eb.
  destruct (Hb _ _ _ Eb) as (d1 & T1 & O1).
  destruct r1 as [a|msg|]; try (inversion E; subst; eauto).
  destruct (Config.DeleteTempOnSuccess _); inversion E; subst; eauto.
  destruct (OS.CleanupTempDir h s1) as [s2 r2] eqn:Ec.
  destruct (obeys_CleanupTempDir_at h
              (fun e => isFetchOrWrite e = false)) with (s := s1) (s' := s2) (r := r2)
    as (d2 & T2 & F2 & _); [reflexivity| exact Ec |].
  exists (d1 ++ d2). simpl. rewrite T2, T1, app_assoc.
  split; [reflexivity|].
  destruct O1 as [O1|[O1 _]];
    [|destruct (aborted_isFail _ _ O1); discriminate].
  left. apply Forall_app; split; [assumption|].
  eapply Forall_impl; [|exact F2]. intros e H. apply okE_not_fw, H.
Qed.

Lemma heeds_Backup_RunE c : heeds (fun e => isRecord e = false) (Backup.RunE h c).
Proof.
  unfold Backup.RunE.
  apply heeds_bind.
  { apply obeys_CreateTempDir. intros op ok; reflexivity. }
  intros _. apply heeds_cleanupOnSuccess.
  apply heeds_bind.
  { apply obeys_synchronize; unfold anyFs, anyGet; intros; reflexivity. }
  intros [isNew msg].
  apply quiet_heeds with (Q := fun e => isFetchOrWrite e = false); [auto|].
  apply obeys_record; intros; reflexivity.
Qed.

Lemma heeds_Backup_Command c : heeds (fun e => isRecord e = false) (Backup.Command h c).
Proof.
  unfold Backup.Command. apply heeds_bind.
  - apply obeys_PersistentPreRunE; intros; reflexivity.
  - intros c'. apply heeds_Backup_RunE.
Qed.

Lemma PersistentPreRunE_cfg c s s' c' :
  Root.PersistentPreRunE h c s = (s', Done c') ->
  exists envs, c' = Config.withEnvs c envs.
Proof.
  unfold Root.PersistentPreRunE, bind. intros E.
  destruct (wrapErr _ _ s) as [s1 [envs| |]]; try discriminate.
  destruct (Root.resolveWorkspaces h _ s1) as [s2 [e2| |]]; try discriminate.
  destruct (Root.resolveIdentities h _ s2) as [s3 [e3| |]]; try discriminate.
  inversion E. eauto.
Qed.


Lemma obeys_dry_Command c :
  Config.DryRun c = true -> obeys (fun e => isPush e = false) (Backup.Command h c).
Proof.
  intros D. unfold Backup.Command. apply obeys_bind_val.
  - apply obeys_PersistentPreRunE; intros; reflexivity.
  - intros c' (s & s1 & E). apply PersistentPreRunE_cfg in E.
    destruct E as (envs & ->).
    apply obeys_Backup_RunE; unfold anyFs, anyGet; intros;
      try reflexivity.
    simpl in *. congruence.
Qed.
End BackupAbort.

(* ================================================================= *)
(** ** The file system *)

Section FSFacts.
Import FS.

Lemma assoc_In k es v : assoc k es = Some v -> In (k, v) es.
Proof.
  induction es as [|[k' v'] r IH]; simpl; [discriminate|].
  destruct (String.eqb_spec k k') as [->|N]; intros H.
  - inversion H; subst. left; reflexivity.
  - right; auto.
Qed.

Lemma assoc_del_same k es : assoc k (del k es) = None.
Proof.
  unfold del. induction es as [|[k' v'] r IH]; simpl; [reflexivity|].
  destruct (String.eqb_spec k k') as [->|N]; simpl; [exact IH|].
  destruct (String.eqb_spec k k'); [contradiction|exact IH].
Qed.

Lemma assoc_del_other k k' es : k <> k' -> assoc k' (del k es) = assoc k' es.
Proof.
  intros N. unfold del. induction es as [|[k0 v0] r IH]; simpl; [reflexivity|].
  destruct (String.eqb_spec k k0) as [->|N0]; simpl.
  - destruct (String.eqb_spec k' k0); [congruence|exact IH].
  - rewrite IH. reflexivity.
Qed.

Lemma assoc_replace_same k v es :
  assoc k es <> None -> assoc k (replace k v es) = Some v.
Proof.
  induction es as [|[k' v'] r IH]; simpl; [congruence|].
  destruct (String.eqb_spec k k') as [->|N]; simpl.
  - rewrite String.eqb_refl. reflexivity.
  - destruct (String.eqb_spec k k'); [contradiction|exact IH].
Qed.

Lemma assoc_replace_other k k' v es :
  k <> k' -> assoc k' (replace k v es) = assoc k' es.
Proof.
  intros N. induction es as [|[k0 v0] r IH]; simpl; [reflexivity|].
  destruct (String.eqb_spec k k0) as [->|N0]; simpl.
  - destruct (String.eqb_spec k' k0); [congruence|reflexivity].
  - rewrite IH. reflexivity.
Qed.

Lemma assoc_insert_same k v es :
  assoc k es = None -> assoc k (insert k v es) = Some v.
Proof.
  induction es as [|[k' v'] r IH]; simpl.
  - rewrite String.eqb_refl. reflexivity.
  - destruct (String.eqb_spec k k') as [->|N]; [discriminate|].
    intros H. destruct (String.ltb k k'); simpl.
    + rewrite String.eqb_refl. reflexivity.
    + destruct (String.eqb_spec k k'); [contradiction|auto].
Qed.

Lemma assoc_insert_other k k' v es :
  k <> k' -> assoc k' (insert k v es) = assoc k' es.
Proof.
  intros N. induction es as [|[k0 v0] r IH]; simpl.
  - destruct (String.eqb_spec k' k); [congruence|reflexivity].
  - destruct (String.ltb k k0); simpl.
    + destruct (String.eqb_spec k' k); [congruence|reflexivity].
    + rewrite IH. reflexivity.
Qed.

Lemma assoc_put_same k v es : assoc k (put k v es) = Some v.
Proof.
  unfold put. destruct (assoc k es) eqn:E.
  - apply assoc_replace_same. congruence.
  - apply assoc_insert_same. exact E.
Qed.

Lemma assoc_put_other k k' v es :
  k <> k' -> assoc k' (put k v es) = assoc k' es.
Proof.
  intros N. unfold put. destruct (assoc k es).
  - apply assoc_replace_other; exact N.
  - apply assoc_insert_other; exact N.
Qed.

Lemma writeFile_deep x y p d es :
  writeFile (x :: y :: p) d (Dir es) =
  match assoc x es with
  | Some c =>
      match writeFile (y :: p) d c with
      | Some c' => Some (Dir (put x c' es))
      | None => None
      end
  | None => None
  end.
Proof. reflexivity. Qed.

Lemma remove_deep x y p es :
  remove (x :: y :: p) (Dir es) =
  match assoc x es with
  | Some c =>
      match remove (y :: p) c with
      | Some c' => Some (Dir (put x c' es))
      | None => None
      end
  | None => None
  end.
Proof. reflexivity. Qed.

Lemma removeAll_deep x y p es :
  removeAll (x :: y :: p) (Dir es) =
  match assoc x es with
  | Some c =>
      match removeAll (y :: p) c with
      | Some c' => Some (Dir (put x c' es))
      | None => None
      end
  | None => Some (Dir es)
  end.
Proof. reflexivity. Qed.

Lemma mkdirAll_cons x p es :
  mkdirAll (x :: p) (Dir es) =
  match mkdirAll p (match assoc x es with Some c => c | None => Dir [] end) with
  | Some c' => Some (Dir (put x c' es))
  | None => None
  end.
Proof. reflexivity. Qed.

Lemma lookup_cons x p es :
  lookup (x :: p) (Dir es) =
  match assoc x es with Some c => lookup p c | None => None end.
Proof. reflexivity. Qed.

Lemma lookup_app p q n :
  lookup (p ++ q) n =
  match lookup p n with Some m => lookup q m | None => None end.
Proof.
  revert n. induction p as [|x p IH]; intros n; simpl; [reflexivity|].
  destruct n as [d|es]; [reflexivity|].
  destruct (assoc x es); [apply IH|reflexivity].
Qed.

Lemma lookup_File_nil p d q :
  lookup p (File d) = Some q -> p = [].
Proof. destruct p; simpl; [reflexivity|discriminate]. Qed.

(** Creating directories leaves every file where it is. *)
Lemma mkdirAll_keeps_files p : forall n n' q d,
  mkdirAll p n = Some n' ->
  lookup q n = Some (File d) -> lookup q n' = Some (File d).
Proof.
  induction p as [|x p IH]; intros n n' q d E L.
  - destruct n; simpl in E; inversion E; subst; exact L.
  - destruct n as [d0|es]; [discriminate|]. simpl in E.
    destruct (mkdirAll p _) as [c'|] eqn:Ec; [|discriminate].
    inversion E; subst n'; clear E.
    destruct q as [|y q]; [discriminate|]. simpl in L |- *.
    destruct (String.eqb_spec x y) as [<-|N].
    + rewrite assoc_put_same.
      destruct (assoc x es) as [c|] eqn:Ea; [|discriminate].
      eapply IH; eauto.
    + rewrite assoc_put_other by exact N. exact L.
Qed.

Lemma mkdirAll_is_dir p : forall n n',
  mkdirAll p n = Some n' -> exists es, lookup p n' = Some (Dir es).
Proof.
  induction p as [|x p IH]; intros n n' E.
  - destruct n; simpl in E; inversion E; subst. simpl. eauto.
  - destruct n as [d0|es]; [discriminate|]. simpl in E.
    destruct (mkdirAll p _) as [c'|] eqn:Ec; [|discriminate].
    inversion E; subst n'. simpl. rewrite assoc_put_same. eauto.
Qed.

Lemma mkdirAll_fresh p : forall n',
  mkdirAll p (Dir []) = Some n' -> lookup p n' = Some (Dir []).
Proof.
  induction p as [|x p IH]; intros n' E; simpl in E.
  - inversion E; reflexivity.
  - destruct (mkdirAll p (Dir [])) as [c'|] eqn:Ec; [|discriminate].
    inversion E; subst n'. simpl. rewrite String.eqb_refl. auto.
Qed.

Lemma writeFile_lookup p : forall d n n',
  writeFile p d n = Some n' -> lookup p n' = Some (File d).
Proof.
  induction p as [|x p IH]; intros d n n' E; [discriminate|].
  destruct n as [d0|es]; [destruct p; simpl in E; discriminate|].
  destruct p as [|y p].
  - simpl in E.
    assert (n' = Dir (put x (File d) es)) as ->
      by (destruct (assoc x es) as [[]|]; inversion E; reflexivity).
    simpl. rewrite assoc_put_same. reflexivity.
  - rewrite writeFile_deep in E.
    destruct (assoc x es) as [c|] eqn:Ea; [|discriminate].
    destruct (writeFile (y :: p) d c) as [c'|] eqn:Ec; [|discriminate].
    inversion E; subst n'. cbn [lookup]. rewrite assoc_put_same.
    eapply IH; eauto.
Qed.

(** Writing a file leaves every other file where it is. *)
Lemma writeFile_keeps p : forall d n n' q d',
  writeFile p d n = Some n' -> q <> p ->
  lookup q n = Some (File d') -> lookup q n' = Some (File d').
Proof.
  induction p as [|x p IH]; intros d n n' q d' E N L; [discriminate|].
  destruct n as [d0|es]; [destruct p; simpl in E; discriminate|].
  destruct q as [|z q]; [discriminate|]. cbn [lookup] in L.
  destruct p as [|y p].
  - simpl in E.
    assert (Hn : n' = Dir (put x (File d) es) /\
                 forall es', assoc x es <> Some (Dir es')).
    { destruct (assoc x es) as [[]|]; inversion E; split; congruence. }
    destruct Hn as [-> Hx]. cbn [lookup].
    destruct (String.eqb_spec x z) as [<-|Nz].
    + destruct (assoc x es) as [[d1|es1]|] eqn:Ea; try discriminate.
      apply lookup_File_nil in L. subst q. congruence.
    + rewrite assoc_put_other by exact Nz. exact L.
  - rewrite writeFile_deep in E.
    destruct (assoc x es) as [c|] eqn:Ea; [|discriminate].
    destruct (writeFile (y :: p) d c) as [c'|] eqn:Ec; [|discriminate].
    inversion E; subst n'. cbn [lookup].
    destruct (String.eqb_spec x z) as [<-|Nz].
    + rewrite assoc_put_same. rewrite Ea in L.
      eapply IH; eauto. congruence.
    + rewrite assoc_put_other by exact Nz. exact L.
Qed.

(** What [remove] removes is gone. *)
Lemma remove_gone p : forall n n' q,
  remove p n = Some n' -> lookup (p ++ q) n' = None.
Proof.
  induction p as [|x p IH]; intros n n' q E; [discriminate|].
  destruct n as [d0|es]; [destruct p; simpl in E; discriminate|].
  destruct p as [|y p].
  - simpl in E.
    assert (n' = Dir (del x es)) as ->
      by (destruct (assoc x es) as [[|[]]|]; inversion E; reflexivity).
    simpl. rewrite assoc_del_same. reflexivity.
  - rewrite remove_deep in E.
    destruct (assoc x es) as [c|] eqn:Ea; [|discriminate].
    destruct (remove (y :: p) c) as [c'|] eqn:Ec; [|discriminate].
    inversion E; subst n'. cbn [app lookup]. rewrite assoc_put_same.
    eapply (IH c c' q); eauto.
Qed.

(** [remove] creates no file. *)
Lemma remove_no_new_file p : forall n n' q d,
  remove p n = Some n' ->
  lookup q n' = Some (File d) -> lookup q n = Some (File d).
Proof.
  induction p as [|x p IH]; intros n n' q d E L; [discriminate|].
  destruct n as [d0|es]; [destruct p; simpl in E; discriminate|].
  destruct q as [|z q].
  { destruct p as [|y p].
    - simpl in E.
      destruct (assoc x es) as [[|[]]|]; inversion E; subst; discriminate.
    - rewrite remove_deep in E. destruct (assoc x es) as [c|]; [|discriminate].
      destruct (remove (y :: p) c); inversion E; subst; discriminate. }
  destruct p as [|y p].
  - simpl in E.
    assert (n' = Dir (del x es)) as ->
      by (destruct (assoc x es) as [[|[]]|]; inversion E; reflexivity).
    cbn [lookup] in L |- *.
    destruct (String.eqb_spec x z) as [<-|Nz].
    + rewrite assoc_del_same in L. discriminate.
    + rewrite assoc_del_other in L by exact Nz. exact L.
  - rewrite remove_deep in E.
    destruct (assoc x es) as [c|] eqn:Ea; [|discriminate].
    destruct (remove (y :: p) c) as [c'|] eqn:Ec; [|discriminate].
    inversion E; subst n'. cbn [lookup] in L |- *.
    destruct (String.eqb_spec x z) as [<-|Nz].
    + rewrite assoc_put_same in L. rewrite Ea. eapply IH; eauto.
    + rewrite assoc_put_other in L by exact Nz. exact L.
Qed.

(** A directory removed with all it holds and created again is
    empty. *)
Lemma removeAll_mkdirAll p : forall n n1 n2,
  p <> [] -> removeAll p n = Some n1 -> mkdirAll p n1 = Some n2 ->
  lookup p n2 = Some (Dir []).
Proof.
  induction p as [|x p IH]; intros n n1 n2 Np E1 E2; [congruence|].
  destruct n as [d0|es]; [destruct p; simpl in E1; discriminate|].
  destruct p as [|y p].
  - simpl in E1. inversion E1; subst n1. simpl in E2.
    rewrite assoc_del_same in E2. inversion E2; subst n2.
    simpl. rewrite assoc_put_same. reflexivity.
  - rewrite removeAll_deep in E1.
    destruct (assoc x es) as [c|] eqn:Ea.
    + destruct (removeAll (y :: p) c) as [c'|] eqn:Ec; [|discriminate].
      inversion E1; subst n1. rewrite mkdirAll_cons in E2.
      rewrite assoc_put_same in E2.
      destruct (mkdirAll (y :: p) c') as [c''|] eqn:Ec'; [|discriminate].
      inversion E2; subst n2.
      rewrite lookup_cons.
      rewrite assoc_put_same. eapply IH; eauto. discriminate.
    + inversion E1; subst n1. rewrite mkdirAll_cons in E2. rewrite Ea in E2.
      destruct (mkdirAll (y :: p) (Dir [])) as [c''|] eqn:Ec'; [|discriminate].
      inversion E2; subst n2.
      rewrite lookup_cons.
      rewrite assoc_put_same. apply mkdirAll_fresh. exact Ec'.
Qed.
End FSFacts.

(* ================================================================= *)
(** ** What a run does to the two trees *)

Section Preserves.
Context (R : State -> State -> Prop) `{HR : Steady R}.

Let Rrefl := @steady_refl R HR.
Let Rtrans := @steady_trans R HR.
Let Rlog := @steady_log R HR.

Lemma preserves_ret {A} (a : A) : preserves R (ret a).
Proof. intros s s' o E. inversion E; subst. apply Rrefl. Qed.

Lemma preserves_fail {A} msg : preserves R (@fail A msg).
Proof. intros s s' o E. inversion E; subst. apply Rrefl. Qed.

Lemma preserves_outOfFuel {A} : preserves R (@outOfFuel A).
Proof. intros s s' o E. inversion E; subst. apply Rrefl. Qed.

Lemma preserves_getState : preserves R getState.
Proof. intros s s' o E. inversion E; subst. apply Rrefl. Qed.

Lemma preserves_log e : preserves R (log e).
Proof. intros s s' o E. inversion E; subst. apply Rlog. Qed.

Lemma preserves_bind {A B} (m : M A) (k : A -> M B) :
  preserves R m -> (forall a, preserves R (k a)) -> preserves R (bind m k).
Proof.
  intros Hm Hk s s' o E. unfold bind in E.
  destruct (m s) as [s1 [a|msg|]] eqn:Em.
  - eapply Rtrans; [eapply Hm; eauto|eapply Hk; eauto].
  - inversion E; subst. eapply Hm; eauto.
  - inversion E; subst. eapply Hm; eauto.
Qed.

Lemma preserves_wrapErr {A} ctx (m : M A) :
  preserves R m -> preserves R (wrapErr ctx m).
Proof.
  intros Hm s s' o E. unfold wrapErr in E.
  destruct (m s) as [s1 [a|msg|]] eqn:Em; inversion E; subst;
    eapply Hm; eauto.
Qed.

Lemma preserves_forEach {A} (xs : list A) body :
  (forall x, In x xs -> preserves R (body x)) ->
  preserves R (forEach xs body).
Proof.
  induction xs as [|x xs IH]; intros Hb; simpl.
  - apply preserves_ret.
  - apply preserves_bind; [apply Hb; left; reflexivity|].
    intros _. apply IH. intros y Hy. apply Hb. right; exact Hy.
Qed.

Variable h : Host.

Lemma preserves_update op r f msg :
  (forall s n', f (tree r s) = Some n' ->
     R s (match r with
          | Scratch => mkState n' (disk s) (trace s)
          | Disk => mkState (scratch s) n' (trace s)
          end)) ->
  preserves R (OS.update h op r f msg).
Proof.
  intros Hf s s' o E. unfold OS.update, bind, getState in E.
  destruct (fsFails h op); [inversion E; subst; apply Rlog|].
  destruct (f (tree r s)) as [n'|] eqn:Ef;
    [|inversion E; subst; apply Rlog].
  specialize (Hf s n' Ef).
  destruct r; inversion E; subst;
    (eapply Rtrans; [exact Hf|apply (Rlog (mkState _ _ _))]).
Qed.

Lemma preserves_ReadDirE r p : preserves R (OS.ReadDirE h r p).
Proof.
  unfold OS.ReadDirE.
  apply preserves_bind; [apply preserves_getState|intros s0].
  destruct (fsFails h _).
  - apply preserves_bind; [apply preserves_log|intros; apply preserves_ret].
  - destruct (FS.lookup p (tree r s0)) as [[]|];
      (apply preserves_bind; [apply preserves_log|intros; apply preserves_ret]).
Qed.

Lemma preserves_ReadDir r p : preserves R (OS.ReadDir h r p).
Proof.
  unfold OS.ReadDir.
  apply preserves_bind; [apply preserves_ReadDirE|intros []];
    [apply preserves_ret|apply preserves_fail|apply preserves_fail].
Qed.

Lemma preserves_Stat r p : preserves R (OS.Stat h r p).
Proof.
  unfold OS.Stat.
  apply preserves_bind; [apply preserves_getState|intros s0].
  destruct (fsFails h _).
  - apply preserves_bind; [apply preserves_log|intros; apply preserves_fail].
  - destruct (FS.lookup p (tree r s0)); [apply preserves_log|].
    apply preserves_bind; [apply preserves_log|intros; apply preserves_fail].
Qed.

Lemma preserves_ReadFile r p : preserves R (OS.ReadFile h r p).
Proof.
  unfold OS.ReadFile.
  apply preserves_bind; [apply preserves_getState|intros s0].
  destruct (fsFails h _).
  - apply preserves_bind; [apply preserves_log|intros; apply preserves_fail].
  - destruct (FS.readFile p (tree r s0));
      (apply preserves_bind; [apply preserves_log|intros]);
      [apply preserves_ret|apply preserves_fail].
Qed.
End Preserves.

Section Inversions.
Variable h : Host.

Lemma update_Done op r f msg s s' :
  OS.update h op r f msg s = (s', Done tt) ->
  f (tree r s) = Some (tree r s') /\
  match r with
  | Scratch => disk s' = disk s
  | Disk => scratch s' = scratch s
  end.
Proof.
  unfold OS.update, bind, getState. intros E.
  destruct (fsFails h op); [discriminate|].
  destruct (f (tree r s)) as [n'|]; [|discriminate].
  destruct r; inversion E; subst; simpl; auto.
Qed.

Lemma ReadDirE_Done r p s s' l :
  OS.ReadDirE h r p s = (s', Done l) ->
  scratch s' = scratch s /\ disk s' = disk s /\
  match l with
  | OS.Entries es => FS.lookup p (tree r s) = Some (FS.Dir es)
  | OS.NotExist => FS.lookup p (tree r s) = None
  | OS.Refused => True
  end.
Proof.
  unfold OS.ReadDirE, bind, getState. intros E.
  destruct (fsFails h _); [inversion E; subst; simpl; auto|].
  destruct (FS.lookup p (tree r s)) as [[d|es]|];
    inversion E; subst; simpl; auto.
Qed.

Lemma ReadDir_Done r p s s' es :
  OS.ReadDir h r p s = (s', Done es) ->
  scratch s' = scratch s /\ disk s' = disk s /\
  FS.lookup p (tree r s) = Some (FS.Dir es).
Proof.
  unfold OS.ReadDir, bind. intros E.
  destruct (OS.ReadDirE h r p s) as [s1 [l| |]] eqn:E1; try discriminate.
  destruct l; inversion E; subst.
  apply ReadDirE_Done in E1. exact E1.
Qed.

Lemma ReadFile_Done r p s s' d :
  OS.ReadFile h r p s = (s', Done d) ->
  scratch s' = scratch s /\ disk s' = disk s /\
  FS.lookup p (tree r s) = Some (FS.File d).
Proof.
  unfold OS.ReadFile, bind, getState, FS.readFile. intros E.
  destruct (fsFails h _); [discriminate|].
  destruct (FS.lookup p (tree r s)) as [[d0|es]|];
    inversion E; subst; simpl; auto.
Qed.

Lemma wrapErr_Done' {A} ctx (m : M A) s s' a :
  wrapErr ctx m s = (s', Done a) -> m s = (s', Done a).
Proof.
  unfold wrapErr. destruct (m s) as [s1 [a1|msg|]]; intros E; inversion E.
  reflexivity.
Qed.
End Inversions.

(* ================================================================= *)
(** ** The clearing that precedes a fetch *)

#[global] Instance noNewFiles_steady : Steady noNewFiles.
Proof.
  split.
  - intros s. split; auto.
  - intros s1 s2 s3 [D1 F1] [D2 F2]. split; [congruence|auto].
  - intros s t. split; auto.
Qed.

Section Clearing.
Variable h : Host.

Lemma preserves_Remove p : preserves noNewFiles (OS.Remove h Scratch p).
Proof.
  apply preserves_update; [exact _|].
  intros s n' E. split; [reflexivity|]. simpl. intros q d L.
  eapply remove_no_new_file; eauto.
Qed.

Lemma preserves_removeFilesOnlyF fuel : forall dir,
  preserves noNewFiles (Backup.removeFilesOnlyF h fuel dir).
Proof.
  induction fuel as [|fuel IH]; intros dir; simpl.
  - apply preserves_outOfFuel; exact _.
  - apply preserves_bind; [exact _|apply preserves_ReadDirE; exact _|].
    intros [es| |];
      [|apply preserves_ret; exact _|apply preserves_fail; exact _].
    apply preserves_forEach; [exact _|].
    intros entry _. destruct (FS.isDir _); [apply IH|apply preserves_Remove].
Qed.

Lemma lookup_under_None p q n :
  FS.lookup p n = None -> FS.lookup (p ++ q) n = None.
Proof. intros H. rewrite lookup_app, H. reflexivity. Qed.

(** After [removeFilesOnly] no path under the directory is a file. *)
Lemma removeFilesOnlyF_clean fuel : forall dir s s',
  Backup.removeFilesOnlyF h fuel dir s = (s', Done tt) ->
  forall q d, FS.lookup (dir ++ q) (scratch s') <> Some (FS.File d).
Proof.
  induction fuel as [|fuel IH]; intros dir s s' E q d; [discriminate|].
  simpl in E. unfold bind in E.
  destruct (OS.ReadDirE h Scratch dir s) as [s0 [l| |]] eqn:E0;
    try discriminate.
  apply ReadDirE_Done in E0. destruct E0 as (Hs & _ & Hl).
  destruct l as [es| |]; [| |discriminate].
  - (* the loop over the entries *)
    assert (Hloop : forall l s1 s2,
      forEach l (fun entry =>
        if FS.isDir (snd entry)
        then Backup.removeFilesOnlyF h fuel (dir ++ [fst entry])
        else OS.Remove h Scratch (dir ++ [fst entry])) s1 = (s2, Done tt) ->
      forall name, In name (map fst l) ->
      forall q d, FS.lookup (dir ++ name :: q) (scratch s2)
                  <> Some (FS.File d)).
    { induction l as [|e l IHl]; intros s1 s2 El name Hin q' d';
        [destruct Hin|].
      simpl in El. unfold bind in El.
      match type of El with
      | match ?m s1 with _ => _ end = _ =>
          destruct (m s1) as [s3 [[]| |]] eqn:Eb; try discriminate
      end.
      destruct Hin as [<-|Hin]; [|eapply IHl; eauto].
      intros L.
      assert (Hk : preserves noNewFiles
                (forEach l (fun entry =>
                   if FS.isDir (snd entry)
                   then Backup.removeFilesOnlyF h fuel (dir ++ [fst entry])
                   else OS.Remove h Scratch (dir ++ [fst entry])))).
      { apply preserves_forEach; [exact _|].
        intros entry _. destruct (FS.isDir (snd entry));
          [apply preserves_removeFilesOnlyF|apply preserves_Remove]. }
      destruct (Hk _ _ _ El) as [_ Hf]. apply Hf in L.
      replace (dir ++ fst e :: q') with ((dir ++ [fst e]) ++ q') in L
        by (rewrite <- app_assoc; reflexivity).
      destruct (FS.isDir (snd e)).
      - exact (IH _ _ _ Eb _ _ L).
      - apply update_Done in Eb. destruct Eb as [Er _]. simpl in Er.
        rewrite (remove_gone _ _ _ q' Er) in L. discriminate. }
    intros L.
    pose proof (preserves_forEach noNewFiles
                  es _ (fun entry _ =>
                    match FS.isDir (snd entry) as b
                      return preserves noNewFiles
                               (if b then Backup.removeFilesOnlyF h fuel (dir ++ [fst entry])
                                else OS.Remove h Scratch (dir ++ [fst entry]))
                    with
                    | true => preserves_removeFilesOnlyF fuel _
                    | false => preserves_Remove _
                    end) _ _ _ E) as [_ Hf].
    pose proof (Hf _ _ L) as L0. rewrite Hs in L0. simpl in Hl.
    rewrite lookup_app, Hl in L0.
    destruct q as [|name q']; [discriminate|].
    rewrite lookup_cons in L0.
    destruct (FS.assoc name es) as [c|] eqn:Ea; [|discriminate].
    apply assoc_In in Ea.
    eapply (Hloop es s0 s' E name); [|exact L].
    apply in_map_iff. exists (name, c). auto.
  - inversion E; subst s'. rewrite Hs. simpl in Hl.
    rewrite lookup_under_None by exact Hl. discriminate.
Qed.

Lemma removeFilesOnly_clean dir s s' :
  Backup.removeFilesOnly h dir s = (s', Done tt) ->
  forall q d, FS.lookup (dir ++ q) (scratch s') <> Some (FS.File d).
Proof. unfold Backup.removeFilesOnly. apply removeFilesOnlyF_clean. Qed.

Lemma bind_Done {A B} (m : M A) (k : A -> M B) s s' b :
  bind m k s = (s', Done b) ->
  exists s1 a, m s = (s1, Done a) /\ k a s1 = (s', Done b).
Proof.
  unfold bind. destruct (m s) as [s1 [a|msg|]]; intros E; try discriminate.
  eauto.
Qed.

Lemma clearEnvironment_clean envDir s s' :
  Backup.clearEnvironment h envDir s = (s', Done tt) ->
  forall q d, FS.lookup (envDir ++ q) (scratch s') <> Some (FS.File d).
Proof.
  unfold Backup.clearEnvironment. intros E.
  apply bind_Done in E. destruct E as (s1 & [] & _ & E).
  apply wrapErr_Done' in E. eapply removeFilesOnly_clean; eauto.
Qed.

Lemma clearWorkspace_empty wsDir s s' :
  wsDir <> [] ->
  Backup.clearWorkspace h wsDir s = (s', Done tt) ->
  FS.lookup wsDir (scratch s') = Some (FS.Dir []).
Proof.
  unfold Backup.clearWorkspace. intros N E.
  apply bind_Done in E. destruct E as (s1 & [] & E1 & E2).
  apply wrapErr_Done', update_Done in E1, E2. simpl in E1, E2.
  destruct E1 as [E1 _], E2 as [E2 _].
  eapply removeAll_mkdirAll; eauto.
Qed.
End Clearing.

Section WellFormed.
Import FS.

Lemma assoc_None_notin k es : assoc k es = None <-> ~ In k (map fst es).
Proof.
  induction es as [|[k' v'] r IH]; simpl; [tauto|].
  destruct (String.eqb_spec k k') as [->|N].
  - split; [discriminate|]. intros H. exfalso. apply H. left; reflexivity.
  - rewrite IH. split; [intros H [E|E]; [congruence|auto]|tauto].
Qed.

Lemma existsb_eqb_In k l : existsb (String.eqb k) l = true <-> In k l.
Proof.
  rewrite existsb_exists. split.
  - intros (x & Hx & E). apply String.eqb_eq in E. subst; exact Hx.
  - intros H. exists k. split; [exact H|apply String.eqb_refl].
Qed.

Lemma nodupb_cons k l :
  nodupb (k :: l) = true <-> ~ In k l /\ nodupb l = true.
Proof.
  simpl. rewrite andb_true_iff, negb_true_iff.
  rewrite <- existsb_eqb_In. destruct (existsb _ l); intuition congruence.
Qed.

Lemma nodupb_In_assoc es k v :
  nodupb (map fst es) = true -> In (k, v) es -> assoc k es = Some v.
Proof.
  induction es as [|[k' v'] r IH]; intros N Hin; [destruct Hin|].
  simpl map in N. apply nodupb_cons in N. destruct N as [Nk Nr].
  simpl. destruct Hin as [E|Hin].
  - inversion E; subst. rewrite String.eqb_refl. reflexivity.
  - destruct (String.eqb_spec k k') as [->|Nkk]; [|auto].
    exfalso. apply Nk. apply in_map_iff. exists (k', v). auto.
Qed.

Lemma wfb_Dir es :
  wfb (Dir es) = true ->
  nodupb (map fst es) = true /\
  forall k c, In (k, c) es -> wfb c = true.
Proof.
  simpl. rewrite andb_true_iff, forallb_forall. intros [N F].
  split; [exact N|]. intros k c Hin. exact (F _ Hin).
Qed.

Lemma wfb_lookup p : forall n m,
  wfb n = true -> lookup p n = Some m -> wfb m = true.
Proof.
  induction p as [|x p IH]; intros n m W L.
  - inversion L; subst; exact W.
  - destruct n as [d|es]; [discriminate|]. rewrite lookup_cons in L.
    destruct (assoc x es) as [c|] eqn:Ea; [|discriminate].
    apply wfb_Dir in W. destruct W as [_ F].
    eapply IH; [|exact L]. eapply F. apply assoc_In. exact Ea.
Qed.

Lemma map_fst_replace k v es :
  map fst (replace k v es) = map fst es.
Proof.
  induction es as [|[k' v'] r IH]; simpl; [reflexivity|].
  destruct (String.eqb_spec k k') as [->|N]; simpl; [reflexivity|].
  rewrite IH. reflexivity.
Qed.

Lemma In_insert k v es e :
  In e (insert k v es) <-> e = (k, v) \/ In e es.
Proof.
  induction es as [|[k' v'] r IH]; simpl; [intuition|].
  destruct (String.ltb k k'); simpl; [intuition|]. rewrite IH. intuition.
Qed.

Lemma In_replace k v es e :
  In e (replace k v es) -> e = (k, v) \/ In e es.
Proof.
  induction es as [|[k' v'] r IH]; simpl; [tauto|].
  destruct (String.eqb_spec k k') as [->|N]; simpl; intuition.
Qed.

Lemma nodupb_insert k v es :
  ~ In k (map fst es) -> nodupb (map fst es) = true ->
  nodupb (map fst (insert k v es)) = true.
Proof.
  induction es as [|[k' v'] r IH]; intros Nk N; simpl.
  - reflexivity.
  - simpl map in N. apply nodupb_cons in N. destruct N as [Nk' Nr].
    destruct (String.ltb k k').
    + change (nodupb (k :: k' :: map fst r) = true).
      apply nodupb_cons. split; [exact Nk|].
      apply nodupb_cons. auto.
    + change (nodupb (k' :: map fst (insert k v r)) = true).
      apply nodupb_cons. split.
      * intros Hin. apply in_map_iff in Hin.
        destruct Hin as (e & Ee & Hin). apply In_insert in Hin.
        destruct Hin as [->|Hin].
        -- simpl in Ee. apply Nk. simpl. left. congruence.
        -- apply Nk'. apply in_map_iff. eauto.
      * apply IH; [|exact Nr]. intros H. apply Nk. right. exact H.
Qed.

Lemma wfb_put k v es :
  wfb (Dir es) = true -> wfb v = true -> wfb (Dir (put k v es)) = true.
Proof.
  intros W Wv. apply wfb_Dir in W. destruct W as [N F].
  simpl. apply andb_true_iff. unfold put.
  destruct (assoc k es) as [c|] eqn:Ea.
  - rewrite map_fst_replace. split; [exact N|].
    apply forallb_forall. intros [k' c'] Hin.
    apply In_replace in Hin. destruct Hin as [E|Hin].
    + inversion E; subst. exact Wv.
    + simpl. eapply F; eauto.
  - split.
    + apply nodupb_insert; [|exact N]. apply assoc_None_notin. exact Ea.
    + apply forallb_forall. intros [k' c'] Hin.
      apply In_insert in Hin. destruct Hin as [E|Hin].
      * inversion E; subst. exact Wv.
      * simpl. eapply F; eauto.
Qed.

(** Creating directories keeps the names unique. *)
Lemma mkdirAll_wfb p : forall n n',
  mkdirAll p n = Some n' -> wfb n = true -> wfb n' = true.
Proof.
  induction p as [|x p IH]; intros n n' E W.
  - destruct n; simpl in E; inversion E; subst; exact W.
  - destruct n as [d|es]; [discriminate|]. rewrite mkdirAll_cons in E.
    destruct (mkdirAll p _) as [c'|] eqn:Ec; [|discriminate].
    inversion E; subst n'. apply wfb_put; [exact W|].
    eapply IH; [exact Ec|].
    destruct (assoc x es) as [c|] eqn:Ea; [|reflexivity].
    apply wfb_Dir in W. destruct W as [_ F]. eapply F.
    apply assoc_In. exact Ea.
Qed.

(** Creating directories removes no directory. *)
Lemma mkdirAll_keeps_dirs p : forall n n' q es,
  mkdirAll p n = Some n' -> lookup q n = Some (Dir es) ->
  exists es', lookup q n' = Some (Dir es').
Proof.
  induction p as [|x p IH]; intros n n' q es E L.
  - destruct n; simpl in E; inversion E; subst; eauto.
  - destruct n as [d0|es0]; [discriminate|]. rewrite mkdirAll_cons in E.
    destruct (mkdirAll p _) as [c'|] eqn:Ec; [|discriminate].
    inversion E; subst n'; clear E.
    destruct q as [|y q]; [simpl; eauto|]. rewrite lookup_cons in L |- *.
    destruct (String.eqb_spec x y) as [<-|N].
    + rewrite assoc_put_same.
      destruct (assoc x es0) as [c|] eqn:Ea; [|discriminate].
      eapply IH; eauto.
    + rewrite assoc_put_other by exact N.
      destruct (assoc y es0); [eauto|discriminate].
Qed.

Lemma height_child k c es : In (k, c) es -> height c < height (Dir es).
Proof.
  intros Hin. simpl. apply Nat.lt_succ_r.
  assert (H : In (height c) (map (fun e => height (snd e)) es)).
  { apply in_map_iff. exists (k, c). auto. }
  revert H. generalize (map (fun e => height (snd e)) es). intros l.
  induction l as [|x l IH]; simpl; [tauto|].
  intros [->|H]; [lia|]. specialize (IH H). lia.
Qed.

Lemma height_lookup p : forall n m,
  lookup p n = Some m -> height m <= height n.
Proof.
  induction p as [|x p IH]; intros n m L.
  - inversion L; subst; lia.
  - destruct n as [d|es]; [discriminate|]. rewrite lookup_cons in L.
    destruct (assoc x es) as [c|] eqn:Ea; [|discriminate].
    apply IH in L. apply assoc_In, height_child in Ea. lia.
Qed.

Lemma isPrefix_app p r : isPrefix p (p ++ r) = true.
Proof.
  induction p as [|x p IH]; simpl; [reflexivity|].
  rewrite String.eqb_refl. exact IH.
Qed.

Lemma diverge_siblings dir a b :
  a <> b -> diverge (dir ++ [a]) (dir ++ [b]).
Proof.
  intros N. unfold diverge. induction dir as [|x dir IH]; simpl.
  - destruct (String.eqb_spec a b), (String.eqb_spec b a);
      try congruence; auto.
  - rewrite String.eqb_refl. exact IH.
Qed.

Lemma diverge_under q dir r : diverge q dir -> diverge q (dir ++ r).
Proof.
  unfold diverge. revert q. induction dir as [|x dir IH]; intros q [H1 H2].
  - destruct q; discriminate.
  - destruct q as [|y q]; [discriminate|]. simpl in *.
    rewrite (String.eqb_sym x y) in *.
    destruct (String.eqb y x); simpl in *; [|auto].
    apply IH. split; assumption.
Qed.

Lemma isPrefix_cons x p y q :
  isPrefix (x :: p) (y :: q) = String.eqb x y && isPrefix p q.
Proof. reflexivity. Qed.

(** [remove] leaves alone what lies beside the removed path. *)
Lemma remove_frame p : forall n n' q,
  remove p n = Some n' -> diverge q p -> lookup q n' = lookup q n.
Proof.
  induction p as [|x p IH]; intros n n' q E [D1 D2]; [discriminate|].
  destruct n as [d0|es]; [destruct p; simpl in E; discriminate|].
  destruct q as [|z q]; [discriminate|].
  rewrite isPrefix_cons in D1, D2.
  destruct p as [|y p].
  - simpl in E.
    assert (n' = Dir (del x es)) as ->
      by (destruct (assoc x es) as [[|[]]|]; inversion E; reflexivity).
    rewrite !lookup_cons.
    destruct (String.eqb_spec x z) as [<-|Nz].
    + simpl in D2. discriminate.
    + rewrite assoc_del_other by exact Nz. reflexivity.
  - rewrite remove_deep in E.
    destruct (assoc x es) as [c|] eqn:Ea; [|discriminate].
    destruct (remove (y :: p) c) as [c'|] eqn:Ec; [|discriminate].
    inversion E; subst n'. rewrite !lookup_cons.
    destruct (String.eqb_spec x z) as [<-|Nz].
    + rewrite assoc_put_same, Ea. rewrite String.eqb_refl in D1.
      eapply IH; [exact Ec|]. split; assumption.
    + rewrite assoc_put_other by exact Nz. reflexivity.
Qed.

(** Removing a file removes no directory. *)
Lemma remove_file_keeps_dirs p : forall n n' d q es,
  remove p n = Some n' -> lookup p n = Some (File d) ->
  lookup q n = Some (Dir es) -> exists es', lookup q n' = Some (Dir es').
Proof.
  induction p as [|x p IH]; intros n n' d q es E Lp Lq; [discriminate|].
  destruct n as [d0|es0]; [destruct p; simpl in E; discriminate|].
  destruct q as [|z q]; [simpl; destruct n'; [|eauto]|].
  { destruct p as [|y p].
    - simpl in E. destruct (assoc x es0) as [[|[]]|]; inversion E.
    - rewrite remove_deep in E. destruct (assoc x es0); [|discriminate].
      destruct (remove (y :: p) n); inversion E. }
  rewrite lookup_cons in Lp, Lq.
  destruct p as [|y p].
  - simpl in E.
    assert (n' = Dir (del x es0)) as ->
      by (destruct (assoc x es0) as [[|[]]|]; inversion E; reflexivity).
    rewrite lookup_cons.
    destruct (String.eqb_spec x z) as [<-|Nz].
    + destruct (assoc x es0) as [c|]; [|discriminate].
      simpl in Lp. inversion Lp; subst c.
      apply lookup_File_nil in Lq as Hq. subst q. discriminate.
    + rewrite assoc_del_other by exact Nz.
      destruct (assoc z es0); [eauto|discriminate].
  - rewrite remove_deep in E.
    destruct (assoc x es0) as [c|] eqn:Ea; [|discriminate].
    destruct (remove (y :: p) c) as [c'|] eqn:Ec; [|discriminate].
    inversion E; subst n'. rewrite lookup_cons.
    destruct (String.eqb_spec x z) as [<-|Nz].
    + rewrite assoc_put_same. rewrite Ea in Lq. eapply IH; eauto.
    + rewrite assoc_put_other by exact Nz.
      destruct (assoc z es0); [eauto|discriminate].
Qed.
End WellFormed.

#[global] Instance keepsDirs_steady : Steady keepsDirs.
Proof.
  split.
  - intros s q es L. eauto.
  - intros s1 s2 s3 H1 H2 q es L.
    destruct (H1 _ _ L) as [es' L']. exact (H2 _ _ L').
  - intros s t q es L. simpl. eauto.
Qed.

#[global] Instance besides_steady dir : Steady (besides dir).
Proof.
  split.
  - intros s. split; auto.
  - intros s1 s2 s3 [D1 F1] [D2 F2]. split; [congruence|].
    intros q Dq. rewrite F2, F1 by exact Dq. reflexivity.
  - intros s t. split; auto.
Qed.

Section Persist.
Variable h : Host.

Lemma preserves_weaken {A} (R R' : State -> State -> Prop) (m : M A) :
  (forall s s', R s s' -> R' s s') -> preserves R m -> preserves R' m.
Proof. intros W H s s' o E. apply W. exact (H _ _ _ E). Qed.

Lemma besides_under dir r s s' : besides (dir ++ r) s s' -> besides dir s s'.
Proof.
  intros [D F]. split; [exact D|]. intros q Dq. apply F.
  apply diverge_under. exact Dq.
Qed.

Lemma preserves_Remove_besides p :
  preserves (besides p) (OS.Remove h Scratch p).
Proof.
  apply preserves_update; [exact _|].
  intros s n' E. split; [reflexivity|]. simpl. intros q Dq.
  eapply remove_frame; eauto.
Qed.

Lemma preserves_removeFilesOnlyF_besides fuel : forall dir,
  preserves (besides dir) (Backup.removeFilesOnlyF h fuel dir).
Proof.
  induction fuel as [|fuel IH]; intros dir; simpl.
  - apply preserves_outOfFuel; exact _.
  - apply preserves_bind; [exact _|apply preserves_ReadDirE; exact _|].
    intros [es| |];
      [|apply preserves_ret; exact _|apply preserves_fail; exact _].
    apply preserves_forEach; [exact _|].
    intros entry _. destruct (FS.isDir (snd entry)).
    + eapply preserves_weaken; [|apply IH]. intros s s'.
      apply besides_under.
    + eapply preserves_weaken; [|apply preserves_Remove_besides].
      intros s s'. apply besides_under.
Qed.

Lemma ReadDirE_total r p s :
  exists s' l, OS.ReadDirE h r p s = (s', Done l).
Proof.
  unfold OS.ReadDirE, bind, getState, log, ret.
  destruct (fsFails h _); [eauto|].
  destruct (FS.lookup p (tree r s)) as [[d|es]|]; eauto.
Qed.

Lemma Remove_file p s s' o d :
  OS.Remove h Scratch p s = (s', o) ->
  FS.lookup p (scratch s) = Some (FS.File d) ->
  o <> Fuel /\ keepsDirs s s'.
Proof.
  unfold OS.Remove, OS.update, bind, getState, log, fail, setTree.
  intros E L. simpl in E.
  destruct (fsFails h _).
  - inversion E; subst. split; [discriminate|]. intros q es Lq. simpl. eauto.
  - destruct (FS.remove p (scratch s)) as [n'|] eqn:Er;
      inversion E; subst; (split; [discriminate|]); intros q es Lq; simpl.
    + eapply remove_file_keeps_dirs; eauto.
    + eauto.
Qed.

(** On a tree with unique names [removeFilesOnly] ends within its
    fuel and removes no directory. *)
Lemma removeFilesOnlyF_keeps_dirs fuel : forall dir s s' o,
  Backup.removeFilesOnlyF h fuel dir s = (s', o) ->
  0 < fuel ->
  (forall n, FS.lookup dir (scratch s) = Some n ->
             FS.wfb n = true /\ FS.height n < fuel) ->
  o <> Fuel /\ keepsDirs s s'.
Proof.
  induction fuel as [|fuel IH]; intros dir s s' o E Hpos Hn; [lia|].
  clear Hpos. simpl in E. unfold bind in E.
  destruct (ReadDirE_total Scratch dir s) as (s0 & l & E0).
  rewrite E0 in E. apply ReadDirE_Done in E0.
  destruct E0 as (Hs & _ & Hl). simpl in Hl.
  assert (K0 : keepsDirs s s0) by (intros q es L; rewrite Hs; eauto).
  destruct l as [es| |].
  - destruct (Hn _ Hl) as [W Hh]. apply wfb_Dir in W.
    destruct W as [Nd Wc].
    set (body := fun entry : string * FS.node =>
           if FS.isDir (snd entry)
           then Backup.removeFilesOnlyF h fuel (dir ++ [fst entry])
           else OS.Remove h Scratch (dir ++ [fst entry])) in *.
    assert (Hloop : forall l s1 s2 o',
      forEach l body s1 = (s2, o') ->
      FS.nodupb (map fst l) = true ->
      (forall k c, In (k, c) l ->
         FS.lookup (dir ++ [k]) (scratch s1) = Some c /\
         FS.wfb c = true /\ FS.height c < FS.height (FS.Dir es)) ->
      o' <> Fuel /\ keepsDirs s1 s2).
    { induction l as [|[k c] l IHl]; intros s1 s2 o' El Nl Hl1.
      - inversion El; subst. split; [discriminate|apply steady_refl].
      - simpl in El. unfold bind in El.
        destruct (body (k, c) s1) as [s3 o3] eqn:Eb.
        simpl map in Nl. apply nodupb_cons in Nl. destruct Nl as [Nk Nl].
        destruct (Hl1 k c (or_introl eq_refl)) as (Lk & Wk & Hk).
        assert (A : (o3 <> Fuel /\ keepsDirs s1 s3) /\
                    besides (dir ++ [k]) s1 s3).
        { unfold body in Eb. simpl in Eb.
          destruct c as [d|es1]; simpl in Eb; split.
          - eapply Remove_file; eauto.
          - exact (preserves_Remove_besides _ _ _ _ Eb).
          - eapply IH; [exact Eb|lia|]. intros n Ln.
            rewrite Lk in Ln. inversion Ln; subst n.
            split; [exact Wk|simpl in Hh, Hk |- *; lia].
          - exact (preserves_removeFilesOnlyF_besides _ _ _ _ _ Eb). }
        destruct A as [[F3 K3] [_ B3]].
        destruct o3 as [[]|msg|]; [|inversion El; subst|congruence].
        + destruct (IHl _ _ _ El Nl) as [F2 K2].
          * intros k' c' Hin.
            destruct (Hl1 k' c' (or_intror Hin)) as (Lk' & Wk' & Hk').
            split; [|auto]. rewrite B3; [exact Lk'|].
            apply diverge_siblings. intros ->. apply Nk.
            apply in_map_iff. exists (k, c'). auto.
          * split; [exact F2|]. eapply steady_trans; eauto.
        + split; [discriminate|exact K3]. }
    destruct (Hloop es s0 s' o E Nd) as [F1 K1].
    + intros k c Hin. split; [|split].
      * rewrite Hs, lookup_app, Hl. simpl.
        rewrite (nodupb_In_assoc _ _ _ Nd Hin). reflexivity.
      * eapply Wc; eauto.
      * apply (height_child _ _ _ Hin).
    + split; [exact F1|]. eapply steady_trans; eauto.
  - inversion E; subst. split; [discriminate|exact K0].
  - inversion E; subst. split; [discriminate|exact K0].
Qed.

Lemma removeFilesOnly_keeps_dirs dir s s' o :
  Backup.removeFilesOnly h dir s = (s', o) ->
  FS.wfb (scratch s) = true ->
  o <> Fuel /\ keepsDirs s s'.
Proof.
  unfold Backup.removeFilesOnly. intros E W.
  eapply removeFilesOnlyF_keeps_dirs; [exact E|lia|].
  intros n L. split; [eapply wfb_lookup; eauto|].
  apply height_lookup in L. lia.
Qed.

Lemma wrapErr_any {A} ctx (m : M A) s s' o :
  wrapErr ctx m s = (s', o) ->
  exists o0, m s = (s', o0) /\ (o = Fuel <-> o0 = Fuel) /\
             (forall a, o = Done a <-> o0 = Done a).
Proof.
  unfold wrapErr. destruct (m s) as [s1 [a1|msg|]]; intros E;
    inversion E; subst; eexists; (split; [reflexivity|]);
    split; intros; split; congruence.
Qed.

Lemma MkdirAll_any p s s' o :
  OS.MkdirAll h Scratch p s = (s', o) ->
  o <> Fuel /\
  (FS.wfb (scratch s) = true -> FS.wfb (scratch s') = true) /\
  keepsDirs s s'.
Proof.
  unfold OS.MkdirAll, OS.update, bind, getState, log, fail, setTree.
  intros E. simpl in E.
  destruct (fsFails h _).
  - inversion E; subst. simpl. split; [discriminate|]. split; [auto|].
    intros q es L. eauto.
  - destruct (FS.mkdirAll p (scratch s)) as [n'|] eqn:Em;
      inversion E; subst; simpl; (split; [discriminate|]); split; auto.
    + intros W. eapply mkdirAll_wfb; eauto.
    + intros q es L. simpl. eapply mkdirAll_keeps_dirs; eauto.
    + intros q es L. simpl. eauto.
Qed.

(** The clearing of an environment directory ends within its fuel and
    removes no directory. *)
Lemma clearEnvironment_keeps_dirs envDir s s' o :
  Backup.clearEnvironment h envDir s = (s', o) ->
  FS.wfb (scratch s) = true ->
  o <> Fuel /\ keepsDirs s s'.
Proof.
  unfold Backup.clearEnvironment, bind. intros E W.
  destruct (wrapErr _ (OS.MkdirAll h Scratch envDir) s) as [s1 o1] eqn:E1.
  apply wrapErr_any in E1. destruct E1 as (o0 & E1 & Hf & Hd).
  apply MkdirAll_any in E1. destruct E1 as (F0 & W1 & K1).
  destruct o1 as [[]|msg|].
  - apply wrapErr_any in E. destruct E as (o2 & E & Hf2 & _).
    apply removeFilesOnly_keeps_dirs in E; [|auto].
    destruct E as [F2 K2]. split; [tauto|].
    eapply steady_trans; eauto.
  - inversion E; subst. split; [discriminate|exact K1].
  - exfalso. apply F0. apply Hf. reflexivity.
Qed.
End Persist.

#[global] Instance outside_steady dst : Steady (outside dst).
Proof.
  split.
  - intros s. split; auto.
  - intros s1 s2 s3 [D1 F1] [D2 F2]. split; [congruence|]. eauto.
  - intros s t. split; auto.
Qed.

#[global] Instance keepsAt_steady q : Steady (keepsAt q).
Proof.
  split.
  - intros s. split; auto.
  - intros s1 s2 s3 [D1 F1] [D2 F2]. split; [congruence|]. eauto.
  - intros s t. split; auto.
Qed.

Section Copy.
Variable h : Host.

Lemma isPrefix_refl p : FS.isPrefix p p = true.
Proof.
  induction p as [|x p IH]; simpl; [reflexivity|].
  rewrite String.eqb_refl. exact IH.
Qed.

Lemma isPrefix_app_false p r q :
  FS.isPrefix p q = false -> FS.isPrefix (p ++ r) q = false.
Proof.
  revert q. induction p as [|x p IH]; intros q H; [discriminate|].
  destruct q as [|y q]; [reflexivity|]. simpl in *.
  destruct (String.eqb x y); [simpl in *; auto|reflexivity].
Qed.

Lemma isPrefix_sibling p a b r :
  a <> b -> FS.isPrefix (p ++ [a]) (p ++ b :: r) = false.
Proof.
  intros N. induction p as [|x p IH]; simpl.
  - destruct (String.eqb_spec a b); [contradiction|reflexivity].
  - rewrite String.eqb_refl. exact IH.
Qed.

Lemma outside_under dst r s s' : outside (dst ++ r) s s' -> outside dst s s'.
Proof.
  intros [D F]. split; [exact D|]. intros q d Hq. apply F.
  apply isPrefix_app_false. exact Hq.
Qed.

Lemma outside_keepsAt dst q s s' :
  FS.isPrefix dst q = false -> outside dst s s' -> keepsAt q s s'.
Proof. intros Hq [D F]. split; [exact D|]. intros d. apply F. exact Hq. Qed.

Lemma preserves_MkdirAll_outside dst p :
  preserves (outside dst) (OS.MkdirAll h Disk p).
Proof.
  apply preserves_update; [exact _|].
  intros s n' E. split; [reflexivity|]. simpl. intros q d _ L.
  eapply mkdirAll_keeps_files; eauto.
Qed.

Lemma preserves_WriteFile_outside dst data :
  preserves (outside dst) (OS.WriteFile h Disk dst data).
Proof.
  apply preserves_update; [exact _|].
  intros s n' E. split; [reflexivity|]. simpl. intros q d Hq L.
  eapply writeFile_keeps; eauto. intros ->.
  rewrite isPrefix_refl in Hq. discriminate.
Qed.

Lemma preserves_copyFile_outside src dst :
  preserves (outside dst) (Restore.copyFile h src dst).
Proof.
  unfold Restore.copyFile.
  apply preserves_bind; [exact _|apply preserves_ReadFile; exact _|].
  intros data.
  apply preserves_bind; [exact _|apply preserves_MkdirAll_outside|].
  intros _.
  apply preserves_bind; [exact _|apply preserves_WriteFile_outside|].
  intros _. apply preserves_Stat; exact _.
Qed.

Lemma preserves_copyDirF_outside fuel : forall src dst,
  preserves (outside dst) (Restore.copyDirF h fuel src dst).
Proof.
  induction fuel as [|fuel IH]; intros src dst; simpl.
  - apply preserves_outOfFuel; exact _.
  - apply preserves_bind; [exact _|apply preserves_Stat; exact _|].
    intros _.
    apply preserves_bind; [exact _|apply preserves_MkdirAll_outside|].
    intros _.
    apply preserves_bind; [exact _|apply preserves_ReadDir; exact _|].
    intros es. apply preserves_forEach; [exact _|].
    intros entry _.
    apply (preserves_weaken (outside (dst ++ [fst entry])));
      [intros s s'; apply outside_under|].
    destruct (FS.isDir (snd entry));
      [apply IH|apply preserves_copyFile_outside].
Qed.

Lemma Stat_Done r p s s' :
  OS.Stat h r p s = (s', Done tt) ->
  scratch s' = scratch s /\ disk s' = disk s.
Proof.
  unfold OS.Stat, bind, getState, log, fail. intros E.
  destruct (fsFails h _); [discriminate|].
  destruct (FS.lookup p (tree r s)); inversion E; subst; simpl; auto.
Qed.

(** [copyFile] puts the content of [src] at [dst]. *)
Lemma copyFile_Done src dst s s' :
  Restore.copyFile h src dst s = (s', Done tt) ->
  exists d, FS.lookup src (scratch s) = Some (FS.File d) /\
            FS.lookup dst (disk s') = Some (FS.File d).
Proof.
  unfold Restore.copyFile. intros E.
  apply bind_Done in E. destruct E as (s1 & d & E1 & E).
  apply bind_Done in E. destruct E as (s2 & [] & E2 & E).
  apply bind_Done in E. destruct E as (s3 & [] & E3 & E4).
  apply ReadFile_Done in E1. destruct E1 as (_ & _ & L).
  apply update_Done in E3. destruct E3 as [W _]. simpl in W.
  apply Stat_Done in E4. destruct E4 as [_ D4].
  exists d. split; [exact L|]. rewrite D4.
  eapply writeFile_lookup; eauto.
Qed.

(** [copyDir] puts every file below [src] at the same place below
    [dst]. *)
Lemma copyDirF_Done fuel : forall src dst s s',
  Restore.copyDirF h fuel src dst s = (s', Done tt) ->
  FS.wfb (scratch s) = true ->
  forall p d, FS.lookup (src ++ p) (scratch s) = Some (FS.File d) ->
              FS.lookup (dst ++ p) (disk s') = Some (FS.File d).
Proof.
  induction fuel as [|fuel IH]; intros src dst s s' E W p d L;
    [discriminate|].
  simpl in E.
  apply bind_Done in E. destruct E as (s1 & [] & E1 & E).
  apply bind_Done in E. destruct E as (s2 & [] & E2 & E).
  apply bind_Done in E. destruct E as (s3 & es & E3 & E).
  apply Stat_Done in E1. destruct E1 as [S1 _].
  apply update_Done in E2. destruct E2 as [_ S2]. simpl in S2.
  apply ReadDir_Done in E3. destruct E3 as (S3 & _ & Les). simpl in Les.
  assert (Ss : scratch s3 = scratch s) by congruence.
  rewrite S2, S1 in Les.
  pose proof (wfb_lookup _ _ _ W Les) as Wes. apply wfb_Dir in Wes.
  destruct Wes as [Nd Wc].
  set (body := fun entry : string * FS.node =>
         if FS.isDir (snd entry)
         then Restore.copyDirF h fuel (src ++ [fst entry])
                (dst ++ [fst entry])
         else Restore.copyFile h (src ++ [fst entry])
                (dst ++ [fst entry])) in *.
  assert (Hbody : forall k c, preserves (outside (dst ++ [k])) (body (k, c))).
  { intros k c. unfold body. simpl. destruct (FS.isDir c);
      [apply preserves_copyDirF_outside|apply preserves_copyFile_outside]. }
  assert (Hloop : forall l s1 s2,
    forEach l body s1 = (s2, Done tt) ->
    scratch s1 = scratch s ->
    FS.nodupb (map fst l) = true ->
    (forall k c, In (k, c) l -> FS.assoc k es = Some c) ->
    forall k c, In (k, c) l ->
    forall p d, FS.lookup p c = Some (FS.File d) ->
                FS.lookup (dst ++ k :: p) (disk s2) = Some (FS.File d)).
  { induction l as [|[k0 c0] l IHl]; intros t1 t2 El St Nl Hl k c Hin p' d' Lc;
      [destruct Hin|].
    simpl in El. apply bind_Done in El. destruct El as (t3 & [] & Eb & El).
    simpl map in Nl. apply nodupb_cons in Nl. destruct Nl as [Nk Nl].
    assert (St3 : scratch t3 = scratch s).
    { destruct (Hbody _ _ _ _ _ Eb) as [S _]. congruence. }
    destruct Hin as [Heq|Hin].
    - inversion Heq; subst k0 c0; clear Heq.
      assert (L3 : FS.lookup (dst ++ k :: p') (disk t3) = Some (FS.File d')).
      { pose proof (Hl k c (or_introl eq_refl)) as Ha.
        assert (Lk : FS.lookup (src ++ [k]) (scratch t1) = Some c).
        { rewrite St, lookup_app, Les. simpl. rewrite Ha. reflexivity. }
        unfold body in Eb. simpl in Eb.
        destruct c as [d0|es0]; simpl in Eb.
        - apply lookup_File_nil in Lc as Hp. subst p'.
          simpl in Lc. inversion Lc; subst d0.
          apply copyFile_Done in Eb. destruct Eb as (d1 & L1 & L2).
          rewrite Lk in L1. inversion L1; subst d1. exact L2.
        - replace (dst ++ k :: p') with ((dst ++ [k]) ++ p')
            by (rewrite <- app_assoc; reflexivity).
          eapply IH; [exact Eb|congruence|].
          rewrite lookup_app, Lk. exact Lc. }
      assert (Hk : preserves (keepsAt (dst ++ k :: p')) (forEach l body)).
      { apply preserves_forEach; [exact _|]. intros [k1 c1] Hin1.
        apply (preserves_weaken (outside (dst ++ [k1]))); [|apply Hbody].
        intros u u'. apply outside_keepsAt. apply isPrefix_sibling. intros ->.
        apply Nk. apply in_map_iff. exists (k, c1). auto. }
      destruct (Hk _ _ _ El) as [_ Hf]. exact (Hf _ L3).
    - eapply (IHl t3 t2 El St3 Nl); [|exact Hin|exact Lc].
      intros k' c' H'. apply Hl. right; exact H'. }
  rewrite lookup_app, Les in L.
  destruct p as [|k p]; [discriminate|]. rewrite lookup_cons in L.
  destruct (FS.assoc k es) as [c|] eqn:Ea; [|discriminate].
  eapply (Hloop es s3 s' E Ss Nd); [|apply assoc_In; exact Ea|exact L].
  intros k' c' Hin. apply nodupb_In_assoc; assumption.
Qed.

Lemma copyDir_Done src dst s s' :
  Restore.copyDir h src dst s = (s', Done tt) ->
  FS.wfb (scratch s) = true ->
  forall p d, FS.lookup (src ++ p) (scratch s) = Some (FS.File d) ->
              FS.lookup (dst ++ p) (disk s') = Some (FS.File d).
Proof. unfold Restore.copyDir. apply copyDirF_Done. Qed.

Lemma preserves_copyDir_outside src dst :
  preserves (outside dst) (Restore.copyDir h src dst).
Proof.
  intros s s' o E. eapply preserves_copyDirF_outside. exact E.
Qed.
End Copy.

Section Scan.
Variable h : Host.
Variable flags : Restore.Flags.
Variable c : Config.Config.

Lemma isDir_Dir n : FS.isDir n = true -> exists es, n = FS.Dir es.
Proof. destruct n; [discriminate|eauto]. Qed.

(** The loop over the workspace directories copies the first one that
    the configuration accepts, and nothing else. *)
Lemma scanWorkspaces_Done envDir : forall wsEntries s s' found,
  Restore.scanWorkspaces h flags c envDir wsEntries s = (s', Done found) ->
  if found
  then exists wsName n,
         In (wsName, n) wsEntries /\ FS.isDir n = true /\
         Restore.findWorkspaceByNameOrID c (Restore.restoreEnvID flags)
           (Restore.restoreWsID flags) wsName <> None /\
         Restore.copyDir h (envDir ++ [wsName]) (Restore.target flags) s
         = (s', Done tt)
  else s' = s.
Proof.
  induction wsEntries as [|[k n] l IH]; intros s s' found E; simpl in E.
  - inversion E; subst. reflexivity.
  - destruct (FS.isDir n) eqn:Ed.
    + destruct (Restore.findWorkspaceByNameOrID c _ _ k) as [ws|] eqn:Ef.
      * apply bind_Done in E. destruct E as (s1 & [] & E1 & E2).
        inversion E2; subst. apply wrapErr_Done' in E1.
        exists k, n. repeat split; auto.
        -- left; reflexivity.
        -- rewrite Ef. discriminate.
      * apply IH in E. destruct found; [|exact E].
        destruct E as (w & m & Hin & R). exists w, m. split; [right|]; auto.
    + apply IH in E. destruct found; [|exact E].
      destruct E as (w & m & Hin & R). exists w, m. split; [right|]; auto.
Qed.

(** The files directly under the environment directory land directly
    under the target. *)
Lemma copyEnvFiles_Done envDir s s' :
  Restore.copyEnvFiles h flags envDir s = (s', Done tt) ->
  FS.wfb (scratch s) = true ->
  (forall f d, FS.lookup (envDir ++ [f]) (scratch s) = Some (FS.File d) ->
               FS.lookup (Restore.target flags ++ [f]) (disk s')
               = Some (FS.File d)) /\
  (forall q d,
     (forall f d', FS.lookup (envDir ++ [f]) (scratch s)
                   = Some (FS.File d') ->
                   FS.isPrefix (Restore.target flags ++ [f]) q = false) ->
     FS.lookup q (disk s) = Some (FS.File d) ->
     FS.lookup q (disk s') = Some (FS.File d)).
Proof.
  unfold Restore.copyEnvFiles. intros E W.
  apply bind_Done in E. destruct E as (s1 & es & E1 & E).
  apply wrapErr_Done', ReadDir_Done in E1.
  destruct E1 as (S1 & D1 & Les). simpl in Les.
  pose proof (wfb_lookup _ _ _ W Les) as Wes. apply wfb_Dir in Wes.
  destruct Wes as [Nd _].
  set (body := fun file : string * FS.node =>
         if negb (FS.isDir (snd file))
         then wrapErr "failed to copy environment file"
                (Restore.copyFile h (envDir ++ [fst file])
                   (Restore.target flags ++ [fst file]))
         else ret tt) in *.
  assert (Hfile : forall k d,
            preserves (outside (Restore.target flags ++ [k]))
                      (body (k, FS.File d))).
  { intros k d. unfold body. simpl. apply preserves_wrapErr; try exact _.
    apply preserves_copyFile_outside. }
  assert (Hany : forall e, preserves (fun t t' => scratch t' = scratch t)
                                     (body e)).
  { intros [k [d|es0]].
    - apply (preserves_weaken (outside (Restore.target flags ++ [k])));
        [|apply Hfile]. intros t t' [S _]. exact S.
    - unfold body. simpl. intros t t' o Et. inversion Et; reflexivity. }
  assert (Hkeep : forall q l,
            (forall k d, In (k, FS.File d) l ->
               FS.isPrefix (Restore.target flags ++ [k]) q = false) ->
            preserves (keepsAt q) (forEach l body)).
  { intros q l Hq. apply preserves_forEach; [exact _|].
    intros [k [d|es0]] Hin.
    - apply (preserves_weaken (outside (Restore.target flags ++ [k])));
        [|apply Hfile]. intros t t'. apply outside_keepsAt. eauto.
    - unfold body. simpl. apply preserves_ret. exact _. }
  assert (Hes : forall k n, In (k, n) es ->
            FS.lookup (envDir ++ [k]) (scratch s) = Some n).
  { intros k n Hin. rewrite lookup_app, Les. simpl.
    rewrite (nodupb_In_assoc _ _ _ Nd Hin). destruct n; reflexivity. }
  split.
  - assert (Hloop : forall l t1 t2,
      forEach l body t1 = (t2, Done tt) ->
      scratch t1 = scratch s ->
      FS.nodupb (map fst l) = true ->
      (forall k n, In (k, n) l -> In (k, n) es) ->
      forall k d, In (k, FS.File d) l ->
        FS.lookup (Restore.target flags ++ [k]) (disk t2)
        = Some (FS.File d)).
    { induction l as [|[k0 n0] l IHl]; intros t1 t2 El St Nl Hl k d Hin;
        [destruct Hin|].
      simpl in El. apply bind_Done in El.
      destruct El as (t3 & [] & Eb & El).
      simpl map in Nl. apply nodupb_cons in Nl. destruct Nl as [Nk Nl].
      assert (St3 : scratch t3 = scratch s).
      { rewrite (Hany _ _ _ _ Eb). exact St. }
      destruct Hin as [Heq|Hin].
      - inversion Heq; subst k0 n0; clear Heq.
        unfold body in Eb. simpl in Eb.
        apply wrapErr_Done', copyFile_Done in Eb.
        destruct Eb as (d1 & L1 & L2).
        rewrite St, (Hes _ _ (Hl _ _ (or_introl eq_refl))) in L1.
        inversion L1; subst d1.
        assert (Hk : preserves (keepsAt (Restore.target flags ++ [k]))
                               (forEach l body)).
        { apply Hkeep. intros k1 d1 Hin1. apply isPrefix_sibling.
          intros ->. apply Nk. apply in_map_iff.
          exists (k, FS.File d1). auto. }
        destruct (Hk _ _ _ El) as [_ Hf]. exact (Hf _ L2).
      - eapply (IHl t3 t2 El St3 Nl); [|exact Hin].
        intros k' n' H'. apply Hl. right; exact H'. }
    intros f d L.
    eapply (Hloop es s1 s' E S1 Nd (fun k n H => H)).
    rewrite lookup_app, Les in L. simpl in L.
    destruct (FS.assoc f es) as [n|] eqn:Ea; [|discriminate].
    apply assoc_In in Ea. destruct n; inversion L; subst. exact Ea.
  - intros q d Hq L.
    assert (Hk : preserves (keepsAt q) (forEach es body)).
    { apply Hkeep. intros k d0 Hin. eapply Hq. apply Hes. exact Hin. }
    destruct (Hk _ _ _ E) as [_ Hf]. apply Hf. rewrite D1. exact L.
Qed.

Lemma preserves_copyEnvFiles_scratch envDir :
  preserves (fun t t' => scratch t' = scratch t)
            (Restore.copyEnvFiles h flags envDir).
Proof.
  assert (HS : Steady (fun t t' : State => scratch t' = scratch t)).
  { split; [reflexivity|intros; congruence|reflexivity]. }
  unfold Restore.copyEnvFiles.
  apply preserves_bind; [exact HS| |].
  - apply preserves_wrapErr; try exact HS. apply preserves_ReadDir; exact HS.
  - intros es. apply preserves_forEach; [exact HS|]. intros e _.
    destruct (negb (FS.isDir (snd e))); [|apply preserves_ret; exact HS].
    apply preserves_wrapErr; try exact HS.
    apply (preserves_weaken
             (outside (Restore.target flags ++ [fst e])));
      [|apply preserves_copyFile_outside]. intros t t' [S _]. exact S.
Qed.

(** The loop over the environment directories: until a workspace is
    found nothing is written; then one workspace directory and the
    files of its environment directory are copied. *)
Lemma scanEnvironments_Done : forall entries s s' found,
  Restore.scanEnvironments h flags c entries s = (s', Done found) ->
  if found
  then exists envName en wsEntries wsName wn s0 s1,
         In (envName, en) entries /\
         Strings.HasSuffix envName
           (String.append "_" (Restore.restoreEnvID flags)) = true /\
         FS.lookup [envName] (scratch s) = Some (FS.Dir wsEntries) /\
         In (wsName, wn) wsEntries /\ FS.isDir wn = true /\
         Restore.findWorkspaceByNameOrID c (Restore.restoreEnvID flags)
           (Restore.restoreWsID flags) wsName <> None /\
         scratch s0 = scratch s /\ disk s0 = disk s /\
         Restore.copyDir h [envName; wsName] (Restore.target flags) s0
         = (s1, Done tt) /\
         Restore.copyEnvFiles h flags [envName] s1 = (s', Done tt)
  else scratch s' = scratch s /\ disk s' = disk s.
Proof.
  induction entries as [|[k n] l IH]; intros s s' found E; simpl in E.
  - inversion E; subst. auto.
  - assert (Hrest : forall t,
      scratch t = scratch s -> disk t = disk s ->
      Restore.scanEnvironments h flags c l t = (s', Done found) ->
      if found
      then exists envName en wsEntries wsName wn s0 s1,
             In (envName, en) ((k, n) :: l) /\
             Strings.HasSuffix envName
               (String.append "_" (Restore.restoreEnvID flags)) = true /\
             FS.lookup [envName] (scratch s) = Some (FS.Dir wsEntries) /\
             In (wsName, wn) wsEntries /\ FS.isDir wn = true /\
             Restore.findWorkspaceByNameOrID c (Restore.restoreEnvID flags)
               (Restore.restoreWsID flags) wsName <> None /\
             scratch s0 = scratch s /\ disk s0 = disk s /\
             Restore.copyDir h [envName; wsName] (Restore.target flags) s0
             = (s1, Done tt) /\
             Restore.copyEnvFiles h flags [envName] s1 = (s', Done tt)
      else scratch s' = scratch s /\ disk s' = disk s).
    { intros t St Dt Et. apply IH in Et. destruct found.
      - destruct Et as (e1 & e2 & e3 & e4 & e5 & s0 & s1 & Hin & Hs & Hl
                        & R1 & R2 & R3 & S0 & D0 & R4).
        exists e1, e2, e3, e4, e5, s0, s1.
        split; [right; exact Hin|]. split; [exact Hs|].
        split; [rewrite <- St; exact Hl|].
        repeat (split; [assumption|]).
        split; [congruence|]. split; [congruence|exact R4].
      - destruct Et; split; congruence. }
    destruct (FS.isDir n && Strings.HasSuffix k _) eqn:Ec;
      [|exact (Hrest s eq_refl eq_refl E)].
    apply andb_true_iff in Ec. destruct Ec as [Ed Es].
    apply bind_Done in E. destruct E as (s1 & wsEntries & E1 & E).
    apply wrapErr_Done', ReadDir_Done in E1.
    destruct E1 as (S1 & D1 & Lw). simpl in Lw.
    apply bind_Done in E. destruct E as (s2 & fnd & E2 & E).
    apply scanWorkspaces_Done in E2. destruct fnd.
    + destruct E2 as (wsName & wn & Hin & Hd & Hf & Hc).
      apply bind_Done in E. destruct E as (s3 & [] & E3 & E4).
      inversion E4; subst.
      exists k, n, wsEntries, wsName, wn, s1, s2.
      split; [left; reflexivity|]. repeat (split; [assumption|]).
      exact E3.
    + rewrite E2 in E. exact (Hrest s1 S1 D1 E).
Qed.
End Scan.

#[global] Instance copies_steady n0 Q : Steady (copies n0 Q).
Proof.
  split.
  - intros s Hs. split; auto.
  - intros s1 s2 s3 H1 H2 Hs. destruct (H1 Hs) as [S2 F1].
    destruct (H2 S2) as [S3 F2]. split; [exact S3|].
    intros q d L. destruct (F2 _ _ L) as [L2|HQ]; auto.
  - intros s t Hs. split; auto.
Qed.

Section Origin.
Import FS.

Lemma mkdirAll_no_new_file p : forall n n' q d,
  mkdirAll p n = Some n' ->
  lookup q n' = Some (File d) -> lookup q n = Some (File d).
Proof.
  induction p as [|x p IH]; intros n n' q d E L.
  - destruct n; simpl in E; inversion E; subst; exact L.
  - destruct n as [d0|es]; [discriminate|]. rewrite mkdirAll_cons in E.
    destruct (mkdirAll p _) as [c'|] eqn:Ec; [|discriminate].
    inversion E; subst n'; clear E.
    destruct q as [|z q]; [discriminate|]. rewrite lookup_cons in L |- *.
    destruct (String.eqb_spec x z) as [<-|N].
    + rewrite assoc_put_same in L.
      pose proof (IH _ _ _ _ Ec L) as L0.
      destruct (assoc x es) as [c0|]; [exact L0|].
      destruct q; simpl in L0; discriminate.
    + rewrite assoc_put_other in L by exact N. exact L.
Qed.

Lemma writeFile_origin p : forall d n n' q d',
  writeFile p d n = Some n' ->
  lookup q n' = Some (File d') ->
  (q = p /\ d' = d) \/ lookup q n = Some (File d').
Proof.
  induction p as [|x p IH]; intros d n n' q d' E L; [discriminate|].
  destruct n as [d0|es]; [destruct p; simpl in E; discriminate|].
  destruct p as [|y p].
  - simpl in E.
    assert (n' = Dir (put x (File d) es)) as ->
      by (destruct (assoc x es) as [[]|]; inversion E; reflexivity).
    destruct q as [|z q]; [discriminate|]. rewrite lookup_cons in L |- *.
    destruct (String.eqb_spec x z) as [<-|N].
    + rewrite assoc_put_same in L.
      apply lookup_File_nil in L as Hq. subst q. simpl in L.
      inversion L; subst. left; auto.
    + rewrite assoc_put_other in L by exact N. right; exact L.
  - rewrite writeFile_deep in E.
    destruct (assoc x es) as [c|] eqn:Ea; [|discriminate].
    destruct (writeFile (y :: p) d c) as [c'|] eqn:Ec; [|discriminate].
    inversion E; subst n'; clear E.
    destruct q as [|z q]; [discriminate|]. rewrite lookup_cons in L |- *.
    destruct (String.eqb_spec x z) as [<-|N].
    + rewrite assoc_put_same in L. rewrite Ea.
      destruct (IH _ _ _ _ _ Ec L) as [[-> ->]|L0]; auto.
    + rewrite assoc_put_other in L by exact N. right; exact L.
Qed.
End Origin.

Section CopyOrigin.
Variable h : Host.
Variable n0 : FS.node.

Lemma copies_weaken (Q Q' : FS.path -> string -> Prop) s s' :
  (forall q d, Q q d -> Q' q d) -> copies n0 Q s s' -> copies n0 Q' s s'.
Proof.
  intros HQ H Hs. destruct (H Hs) as [S F]. split; [exact S|].
  intros q d L. destruct (F _ _ L); auto.
Qed.

Lemma preserves_MkdirAll_copies Q p :
  preserves (copies n0 Q) (OS.MkdirAll h Disk p).
Proof.
  apply preserves_update; [exact _|].
  intros s n' E Hs. split; [exact Hs|]. simpl. intros q d L. left.
  eapply mkdirAll_no_new_file; eauto.
Qed.

Lemma ReadFile_any r p s s' o :
  OS.ReadFile h r p s = (s', o) ->
  scratch s' = scratch s /\ disk s' = disk s /\
  forall d, o = Done d -> FS.lookup p (tree r s) = Some (FS.File d).
Proof.
  unfold OS.ReadFile, bind, getState, log, fail, ret, FS.readFile.
  intros E. destruct (fsFails h _);
    [inversion E; subst; simpl; repeat split; auto; discriminate|].
  destruct (FS.lookup p (tree r s)) as [[d0|es]|];
    inversion E; subst; simpl; repeat split; auto; try discriminate.
  intros d Hd. inversion Hd; reflexivity.
Qed.

Lemma preserves_WriteFile_copies dst data :
  preserves (copies n0 (fun q d => q = dst /\ d = data))
            (OS.WriteFile h Disk dst data).
Proof.
  apply preserves_update; [exact _|].
  intros s n' E Hs. split; [exact Hs|]. simpl. intros q d L.
  destruct (writeFile_origin _ _ _ _ _ _ E L) as [HQ|L0]; auto.
Qed.

Lemma preserves_copyFile_copies src dst :
  preserves
    (copies n0 (fun q d => q = dst /\
                           FS.lookup src n0 = Some (FS.File d)))
    (Restore.copyFile h src dst).
Proof.
  intros s s' o E Hs. unfold Restore.copyFile in E. unfold bind at 1 in E.
  destruct (OS.ReadFile h Scratch src s) as [s1 o1] eqn:E1.
  apply ReadFile_any in E1. destruct E1 as (S1 & D1 & L1). simpl in L1.
  destruct o1 as [data| |];
    [|inversion E; subst; (split; [congruence|]);
      intros q d L; left; congruence..].
  specialize (L1 data eq_refl). rewrite Hs in L1.
  assert (P : preserves (copies n0 (fun q d => q = dst /\ d = data))
                (OS.MkdirAll h Disk (removelast dst) ;;;
                 OS.WriteFile h Disk dst data ;;;
                 OS.Stat h Scratch src)).
  { apply preserves_bind; [exact _|apply preserves_MkdirAll_copies|].
    intros _.
    apply preserves_bind; [exact _|apply preserves_WriteFile_copies|].
    intros _. apply preserves_Stat; exact _. }
  destruct (P _ _ _ E) as [S' F]; [congruence|].
  split; [exact S'|]. intros q d L.
  destruct (F q d L) as [L0|[-> ->]]; [left; congruence|right; auto].
Qed.

Lemma preserves_copyDirF_copies fuel : forall src dst,
  preserves
    (copies n0 (fun q d => exists p, q = dst ++ p /\
                  FS.lookup (src ++ p) n0 = Some (FS.File d)))
    (Restore.copyDirF h fuel src dst).
Proof.
  induction fuel as [|fuel IH]; intros src dst; simpl.
  - apply preserves_outOfFuel; exact _.
  - apply preserves_bind; [exact _|apply preserves_Stat; exact _|].
    intros _.
    apply preserves_bind; [exact _|apply preserves_MkdirAll_copies|].
    intros _.
    apply preserves_bind; [exact _|apply preserves_ReadDir; exact _|].
    intros es. apply preserves_forEach; [exact _|].
    intros [k n] _. simpl. destruct (FS.isDir n).
    + eapply preserves_weaken; [|apply (IH (src ++ [k]) (dst ++ [k]))].
      intros s s'. apply copies_weaken. intros q d (p & -> & L).
      exists (k :: p). rewrite <- !app_assoc in *. auto.
    + eapply preserves_weaken;
        [|apply (preserves_copyFile_copies (src ++ [k]) (dst ++ [k]))].
      intros s s'. apply copies_weaken. intros q d (-> & L).
      exists [k]. auto.
Qed.

Lemma preserves_copyDir_copies src dst :
  preserves
    (copies n0 (fun q d => exists p, q = dst ++ p /\
                  FS.lookup (src ++ p) n0 = Some (FS.File d)))
    (Restore.copyDir h src dst).
Proof.
  intros s s' o E. eapply preserves_copyDirF_copies. exact E.
Qed.

Lemma preserves_copyEnvFiles_copies flags envDir :
  preserves
    (copies n0 (fun q d => exists f, q = Restore.target flags ++ [f] /\
                  FS.lookup (envDir ++ [f]) n0 = Some (FS.File d)))
    (Restore.copyEnvFiles h flags envDir).
Proof.
  unfold Restore.copyEnvFiles.
  apply preserves_bind; [exact _| |].
  - apply preserves_wrapErr; try exact _. apply preserves_ReadDir; exact _.
  - intros es. apply preserves_forEach; [exact _|]. intros [k n] _. simpl.
    destruct (negb (FS.isDir n)); [|apply preserves_ret; exact _].
    apply preserves_wrapErr; try exact _.
    eapply preserves_weaken;
      [|apply (preserves_copyFile_copies (envDir ++ [k])
                 (Restore.target flags ++ [k]))].
    intros s s'. apply copies_weaken. intros q d (-> & L). eauto.
Qed.
End CopyOrigin.

(* ================================================================= *)
(** ** The copy of a restore ends *)

Lemma ends_ret {A} (a : A) : ends (ret a).
Proof. intros s. discriminate. Qed.

Lemma ends_fail {A} msg : ends (@fail A msg).
Proof. intros s. discriminate. Qed.

Lemma ends_log e : ends (log e).
Proof. intros s. discriminate. Qed.

Lemma ends_bind {A B} (m : M A) (k : A -> M B) :
  ends m -> (forall a, ends (k a)) -> ends (bind m k).
Proof.
  intros Hm Hk s. unfold bind. specialize (Hm s).
  destruct (m s) as [s1 [a|msg|]]; simpl in *;
    [apply Hk|discriminate|congruence].
Qed.

Lemma ends_wrapErr {A} ctx (m : M A) : ends m -> ends (wrapErr ctx m).
Proof.
  intros Hm s. unfold wrapErr. specialize (Hm s).
  destruct (m s) as [s1 [a|msg|]]; simpl in *; congruence.
Qed.

Lemma ends_forEach {A} (xs : list A) body :
  (forall x, ends (body x)) -> ends (forEach xs body).
Proof.
  intros Hb. induction xs as [|x xs IH]; simpl; [apply ends_ret|].
  apply ends_bind; [apply Hb|intros _; exact IH].
Qed.

Section Ends.
Variable h : Host.

Lemma ends_update op r f msg : ends (OS.update h op r f msg).
Proof.
  intros s. unfold OS.update, bind, getState, log, fail, setTree.
  destruct (fsFails h op); [discriminate|].
  destruct (f (tree r s)); [destruct r|]; discriminate.
Qed.

Lemma ends_ReadDir r p : ends (OS.ReadDir h r p).
Proof.
  intros s. unfold OS.ReadDir, bind.
  destruct (ReadDirE_total h r p s) as (s' & l & ->).
  destruct l; discriminate.
Qed.

Lemma ends_Stat r p : ends (OS.Stat h r p).
Proof.
  intros s. unfold OS.Stat, bind, getState, log, fail.
  destruct (fsFails h _); [discriminate|].
  destruct (FS.lookup p (tree r s)); discriminate.
Qed.

Lemma ends_ReadFile r p : ends (OS.ReadFile h r p).
Proof.
  intros s. unfold OS.ReadFile, bind, getState, log, fail, ret.
  destruct (fsFails h _); [discriminate|].
  destruct (FS.readFile p (tree r s)); discriminate.
Qed.

Lemma ends_copyFile src dst : ends (Restore.copyFile h src dst).
Proof.
  unfold Restore.copyFile.
  apply ends_bind; [apply ends_ReadFile|intros data].
  apply ends_bind; [apply ends_update|intros _].
  apply ends_bind; [apply ends_update|intros _]. apply ends_Stat.
Qed.

(** The walk of [copyDir] ends when the fuel exceeds the height of
    the tree at [src]. *)
Lemma copyDirF_ends fuel : forall src dst s,
  0 < fuel ->
  (forall n, FS.lookup src (scratch s) = Some n -> FS.height n < fuel) ->
  snd (Restore.copyDirF h fuel src dst s) <> Fuel.
Proof.
  induction fuel as [|fuel IH]; intros src dst s Hpos Hn; [lia|].
  clear Hpos. simpl. unfold bind at 1.
  destruct (OS.Stat h Scratch src s) as [s1 o1] eqn:E1.
  pose proof (ends_Stat Scratch src s) as F1. rewrite E1 in F1.
  destruct o1 as [[]|msg|]; [|discriminate|exact F1].
  apply Stat_Done in E1. destruct E1 as [S1 _].
  unfold bind at 1.
  destruct (OS.MkdirAll h Disk dst s1) as [s2 o2] eqn:E2.
  pose proof (ends_update (OpMkdirAll Disk dst) Disk (FS.mkdirAll dst)
                "mkdir" s1) as F2.
  change (OS.update h (OpMkdirAll Disk dst) Disk (FS.mkdirAll dst) "mkdir")
    with (OS.MkdirAll h Disk dst) in F2. rewrite E2 in F2.
  destruct o2 as [[]|msg|]; [|discriminate|exact F2].
  apply update_Done in E2. destruct E2 as [_ S2]. simpl in S2.
  unfold bind at 1.
  destruct (OS.ReadDir h Scratch src s2) as [s3 o3] eqn:E3.
  pose proof (ends_ReadDir Scratch src s2) as F3. rewrite E3 in F3.
  destruct o3 as [es|msg|]; [|discriminate|exfalso; apply F3; reflexivity].
  apply ReadDir_Done in E3. destruct E3 as (S3 & _ & Les). simpl in Les.
  rewrite S2, S1 in Les. specialize (Hn _ Les).
  assert (Ss : scratch s3 = scratch s) by congruence.
  clear S1 S2 S3 F1 F2 F3.
  set (body := fun entry : string * FS.node =>
         if FS.isDir (snd entry)
         then Restore.copyDirF h fuel (src ++ [fst entry])
                (dst ++ [fst entry])
         else Restore.copyFile h (src ++ [fst entry])
                (dst ++ [fst entry])).
  assert (Hloop : forall l,
            (forall k c, In (k, c) l -> In (k, c) es) ->
            forall t, scratch t = scratch s ->
                      snd (forEach l body t) <> Fuel).
  { induction l as [|[k c] l IHl]; intros Hin t St; [discriminate|].
    simpl forEach. unfold bind at 1.
    destruct (body (k, c) t) as [t1 o] eqn:Eb.
    unfold body in Eb. simpl in Eb.
    assert (A : o <> Fuel /\ scratch t1 = scratch t).
    { destruct c as [d|es1]; simpl in Eb.
      - split.
        + pose proof (ends_copyFile (src ++ [k]) (dst ++ [k]) t) as F.
          rewrite Eb in F. exact F.
        + exact (proj1 (preserves_copyFile_outside h _ _ _ _ _ Eb)).
      - split.
        + assert (F : snd (Restore.copyDirF h fuel (src ++ [k])
                             (dst ++ [k]) t) <> Fuel).
          { pose proof (height_child _ _ _ (Hin _ _ (or_introl eq_refl)))
              as Hc.
            apply IH; [lia|]. intros n Ln.
            rewrite St, lookup_app, Les in Ln. simpl in Ln.
            destruct (FS.assoc k es) as [c0|] eqn:Ea; [|discriminate].
            assert (c0 = n) as -> by (destruct c0; inversion Ln; auto).
            apply assoc_In, height_child in Ea. lia. }
          rewrite Eb in F. exact F.
        + exact (proj1 (preserves_copyDirF_outside h _ _ _ _ _ _ Eb)). }
    destruct A as [Fo So].
    destruct o as [[]|msg|]; [|discriminate|congruence].
    apply IHl; [|congruence].
    intros k' c' H'. apply Hin. right; exact H'. }
  apply Hloop; auto.
Qed.

Lemma ends_copyDir src dst : ends (Restore.copyDir h src dst).
Proof.
  intros s. unfold Restore.copyDir. apply copyDirF_ends; [lia|].
  intros n L. apply height_lookup in L. lia.
Qed.

Variable flags : Restore.Flags.
Variable c : Config.Config.

Lemma ends_scanWorkspaces envDir wsEntries :
  ends (Restore.scanWorkspaces h flags c envDir wsEntries).
Proof.
  induction wsEntries as [|[k n] l IH]; simpl; [apply ends_ret|].
  destruct (FS.isDir n); [|exact IH].
  destruct (Restore.findWorkspaceByNameOrID c _ _ k); [|exact IH].
  apply ends_bind; [|intros; apply ends_ret].
  apply ends_wrapErr, ends_copyDir.
Qed.

Lemma ends_copyEnvFiles envDir :
  ends (Restore.copyEnvFiles h flags envDir).
Proof.
  unfold Restore.copyEnvFiles.
  apply ends_bind; [apply ends_wrapErr, ends_ReadDir|intros es].
  apply ends_forEach. intros [k n]. simpl.
  destruct (negb (FS.isDir n)); [|apply ends_ret].
  apply ends_wrapErr, ends_copyFile.
Qed.

Lemma ends_scanEnvironments entries :
  ends (Restore.scanEnvironments h flags c entries).
Proof.
  induction entries as [|[k n] l IH]; simpl; [apply ends_ret|].
  destruct (FS.isDir n && Strings.HasSuffix k _); [|exact IH].
  apply ends_bind; [apply ends_wrapErr, ends_ReadDir|intros ws].
  apply ends_bind; [apply ends_scanWorkspaces|intros [|]]; [|exact IH].
  apply ends_bind; [apply ends_copyEnvFiles|intros; apply ends_ret].
Qed.

Lemma ends_filteredCopy : ends (Restore.filteredCopy h flags c).
Proof.
  unfold Restore.filteredCopy.
  apply ends_bind; [apply ends_wrapErr, ends_ReadDir|intros es].
  apply ends_bind; [apply ends_scanEnvironments|intros [|]];
    [apply ends_ret|apply ends_fail].
Qed.
End Ends.

(* ================================================================= *)
(** ** The snapshot tag and the catalog *)

Lemma Format_shape t :
  String.length (Time.Format t) = 15 /\
  String.get 8 (Time.Format t) = Some "-"%char.
Proof. split; reflexivity. Qed.

Lemma RunE_tag_name h c :
  obeys (fun e => forall n m ok, e = EvGit (GitCreateTag n m) ok ->
                                 n = Time.Format (now h))
        (Backup.RunE h c).
Proof.
  apply obeys_Backup_RunE; unfold anyFs, anyGet; intros;
    try discriminate;
    match goal with
    | H : EvGit _ _ = EvGit _ _ |- _ => inversion H; subst; reflexivity
    end.
Qed.

(** C4, as the code has it: a backup run that succeeds has created its
    tag, and every tag a backup run creates is named with the current
    time, as the local wall clock shows it, under the layout
    [20060102-150405], that is [YYYYMMDD-HHMMSS] with a hyphen between
    date and clock: fifteen characters that parse back to the time
    truncated to the second.  The lexicographic order of two names is
    the order of the wall clocks they show, which is the order of the
    instants when both are read under one zone offset.  The catalog
    lists a tag exactly when its name parses under that same layout
    (and the filter keeps it). *)
Theorem tag_format_roundtrip_sortable :
  forall (h : Host) (c : Config.Config),
    (forall s, exists d,
        trace (fst (Backup.RunE h c s)) = trace s ++ d /\
        (forall n m ok, In (EvGit (GitCreateTag n m) ok) d ->
                        n = Time.Format (now h)) /\
        (snd (Backup.RunE h c s) = Done tt ->
         exists m,
           In (EvGit (GitCreateTag (Time.Format (now h)) m) true) d)) /\
    (forall t, Time.valid t ->
        String.length (Time.Format t) = 15 /\
        String.get 8 (Time.Format t) = Some "-"%char /\
        Time.Parse (Time.Format t) = Some (Time.truncSecond t)) /\
    (forall t u, Time.valid t -> Time.valid u ->
        String.compare (Time.Format t) (Time.Format u)
        = Time.compare (Time.truncSecond t) (Time.truncSecond u) /\
        forall off : Z,
          String.compare (Time.Format t) (Time.Format u)
          = Z.compare (Time.instant off t) (Time.instant off u)) /\
    (forall opts refs ti, In ti (List_.visitTags opts refs) ->
        exists ref, In ref refs /\ List_.Name ti = tagName ref /\
                    Time.Parse (tagName ref) = Some (List_.Time_ ti)) /\
    (forall opts refs ref t, In ref refs ->
        Time.Parse (tagName ref) = Some t ->
        List_.keeps opts (List_.messageOf ref) = true ->
        exists ti, In ti (List_.visitTags opts refs) /\
                   List_.Name ti = tagName ref /\ List_.Time_ ti = t).
Proof.
  intros h c. split; [|split; [|split; [|split]]].
  - intros s. destruct (Backup.RunE h c s) as [s' r] eqn:E.
    destruct (RunE_tag_name h c _ _ _ E) as (d & T & F & _).
    exists d. split; [exact T|]. split.
    + intros n m ok Hin.
      rewrite Forall_forall in F. exact (F _ Hin n m ok eq_refl).
    + cbn [snd]. intros ->.
      destruct (RunE_Done h c _ _ E) as (d' & T' & _ & Htag & _).
      cbn [fst] in T. rewrite T in T'. apply app_inv_head in T'.
      subst d'. eexists. exact Htag.
  - intros t Ht. destruct (Format_shape t) as [L G].
    split; [exact L|]. split; [exact G|]. apply Parse_Format; exact Ht.
  - intros t u Ht Hu. split; [apply compare_Format; assumption|].
    intros off. rewrite compare_Format by assumption.
    apply compare_instant; assumption.
  - intros opts refs ti Hin. unfold List_.visitTags in Hin.
    destruct (visitTags_sound _ _ _ _ Hin) as [[]|(ref & H1 & H2 & _ & H4 & _)].
    eauto.
  - intros opts refs ref t Hin Pt K.
    destruct (visitTags_complete opts refs [] ref t Hin Pt K)
      as (ti & H1 & H2 & _ & H4).
    exists ti. auto.
Qed.

Lemma tag_format_roundtrip_sortable_witness :
  (exists m,
     In (EvGit (GitCreateTag "20230115-120000" m) true)
        (trace (fst (Backup.RunE Demo.host (Demo.resolved true)
                       Demo.start)))) /\
  Time.Parse (Time.Format (now Demo.host))
  = Some (Time.truncSecond (now Demo.host)).
Proof.
  split.
  - destruct (proj1 (tag_format_roundtrip_sortable Demo.host
                       (Demo.resolved true)) Demo.start)
      as (d & T & _ & Hex).
    destruct Hex as [m Hin]; [vm_compute; reflexivity|].
    exists m. rewrite T. exact Hin.
  - apply (proj1 (proj2 (tag_format_roundtrip_sortable Demo.host
                           (Demo.config true)))).
    unfold Time.valid; simpl; lia.
Defined.

(** C4 as stated fails.  The tag of a run at 2023-01-15 12:00:00 is
    ["20230115-120000"], not the fourteen digits of [YYYYMMDDHHMMSS],
    which the catalog does not recognise.  A run that fails before the
    tagging step creates no tag: here the API-mapper endpoint answers
    500.  And the names sort by wall clock, not by instant, when the
    zone offset changes between two runs: on 2023-10-29 the wall clock
    02:30:00 read at UTC+2 is half an hour before the wall clock
    02:00:00 read at UTC+1, and its name is the greater one. *)
Lemma tag_name_differs_from_claim :
  (Time.Format (Time.mk 2023 1 15 12 0 0 0) <> "20230115120000" /\
   Time.Parse "20230115120000" = None /\
   List_.visitTags (List_.mkListOptions "" "")
                   [mkTagRef "20230115120000" None] = []) /\
  (snd (Backup.RunE Demo.hostDown (Demo.resolved true) Demo.start)
   <> Done tt /\
   existsb (fun e => match e with
                     | EvGit (GitCreateTag _ _) _ => true
                     | _ => false
                     end)
           (trace (fst (Backup.RunE Demo.hostDown (Demo.resolved true)
                          Demo.start))) = false) /\
  ((Time.instant 7200 (Time.mk 2023 10 29 2 30 0 0)
    < Time.instant 3600 (Time.mk 2023 10 29 2 0 0 0))%Z /\
   String.compare (Time.Format (Time.mk 2023 10 29 2 30 0 0))
                  (Time.Format (Time.mk 2023 10 29 2 0 0 0)) = Gt).
Proof.
  split; [|split].
  - split; [|split]; vm_compute; [discriminate|reflexivity|reflexivity].
  - split; vm_compute; [discriminate|reflexivity].
  - split; vm_compute; reflexivity.
Qed.

(* ================================================================= *)
(** ** The filter of the catalog *)

(** C3, as the code has it: with a filter, every listed snapshot comes
    from a tag of the remote whose message contains both [env:E] and
    [ws:W] as substrings, so that no tag whose message lacks either
    substring is listed. *)
Theorem filter_keeps_substring_matches :
  forall opts refs,
    List_.filterOn opts = true ->
    (forall ti, In ti (List_.shown opts refs) ->
       exists ref, In ref refs /\
         List_.Name ti = tagName ref /\
         List_.Message ti = List_.messageOf ref /\
         Strings.Contains (List_.Message ti)
           (String.append "env:" (List_.envID opts)) = true /\
         Strings.Contains (List_.Message ti)
           (String.append "ws:" (List_.wsID opts)) = true) /\
    (forall ref, In ref refs ->
       Strings.Contains (List_.messageOf ref)
         (String.append "env:" (List_.envID opts)) = false \/
       Strings.Contains (List_.messageOf ref)
         (String.append "ws:" (List_.wsID opts)) = false ->
       forall ti, In ti (List_.shown opts refs) ->
         ~ (List_.Name ti = tagName ref /\
            List_.Message ti = List_.messageOf ref)).
Proof.
  intros opts refs Hf.
  assert (H : forall ti, In ti (List_.shown opts refs) ->
       exists ref, In ref refs /\
         List_.Name ti = tagName ref /\
         List_.Message ti = List_.messageOf ref /\
         Strings.Contains (List_.Message ti)
           (String.append "env:" (List_.envID opts)) = true /\
         Strings.Contains (List_.Message ti)
           (String.append "ws:" (List_.wsID opts)) = true).
  { intros ti Hin. unfold List_.shown in Hin.
    apply firstn_In in Hin. apply (proj1 (sortTags_In _ _)) in Hin.
    unfold List_.visitTags in Hin.
    destruct (visitTags_sound _ _ _ _ Hin) as [[]|(ref & H1 & H2 & H3 & _ & K)].
    exists ref. unfold List_.keeps in K. rewrite Hf in K.
    apply andb_true_iff in K. destruct K as [K1 K2].
    rewrite H3. auto. }
  split; [exact H|].
  intros ref Hin Hlack ti Hti [_ Hm].
  destruct (H ti Hti) as (_ & _ & _ & _ & K1 & K2).
  rewrite Hm in K1, K2. destruct Hlack; congruence.
Qed.

Lemma filter_keeps_substring_matches_witness :
  exists ref, In ref Demo.tags /\
    Strings.Contains (List_.messageOf ref) "env:e1" = true /\
    Strings.Contains (List_.messageOf ref) "ws:w1" = true.
Proof.
  destruct (proj1 (filter_keeps_substring_matches
                     (List_.mkListOptions "e1" "w1") Demo.tags eq_refl)
              (List_.mkTagInfo "20230116-120000" "e1" "w1" "20230116-120000"
                 (Time.mk 2023 1 16 12 0 0 0)
                 "Backup tag for Backup PlainID configuration for: env:e1 ws:w1"))
    as (ref & Hin & _ & Hm & K1 & K2).
  - vm_compute. left. reflexivity.
  - exists ref. rewrite <- Hm. auto.
Defined.

(** C3 as stated fails: filtered by [(e1, w1)], the catalog lists a
    snapshot of [env:e10 ws:w1], whose message does not have [env:e1]
    among its tokens. *)
Lemma filter_matches_substring_not_token :
  ~ (forall opts refs ti,
       List_.filterOn opts = true ->
       In ti (List_.shown opts refs) ->
       In (String.append "env:" (List_.envID opts))
          (List_.tokens (List_.Message ti)) /\
       In (String.append "ws:" (List_.wsID opts))
          (List_.tokens (List_.Message ti))).
Proof.
  intros H.
  destruct (H (List_.mkListOptions "e1" "w1") Demo.tags
              (List_.mkTagInfo "20230115-120000" "e10" "w1" "20230115-120000"
                 (Time.mk 2023 1 15 12 0 0 0)
                 "Backup tag for Backup PlainID configuration for: env:e10 ws:w1")
              eq_refl) as [Henv _].
  - vm_compute. right. left. reflexivity.
  - vm_compute in Henv.
    repeat (destruct Henv as [Henv|Henv]; [discriminate|]). exact Henv.
Qed.

(* ================================================================= *)
(** ** The resolution of a wildcard scope *)

(** C5: when the environment list of the configuration holds the
    wildcard and the inventory answers, the resolved scope is exactly
    the list of the environments the inventory returns, each with all
    its live workspaces and all its live identity-template ids; no
    wildcard token is left in it (the ids of the inventory being no
    wildcard tokens themselves). *)
Theorem wildcard_completeness :
  forall (h : Host) (c : Config.Config) (s : State)
         (envs : list Plainid.Environment)
         (wsOf : string -> list Plainid.Workspace)
         (idOf : string -> list Plainid.Identity),
    Config.HasWildcardEnvironment c = true ->
    Plainid.getEnvironments (api h) = Ok envs ->
    (forall e, In e envs ->
       Plainid.getWorkspaces (api h) (Plainid.EnvID e)
       = Ok (wsOf (Plainid.EnvID e))) ->
    (forall e, In e envs ->
       Plainid.getIdentities (api h) (Plainid.EnvID e)
       = Ok (idOf (Plainid.EnvID e))) ->
    (exists s',
       Root.PersistentPreRunE h c s
       = (s', Done (Config.withEnvs c (Root.liveScope envs wsOf idOf)))) /\
    ((forall e, In e envs -> Plainid.EnvID e <> "*") ->
     (forall e w, In e envs -> In w (wsOf (Plainid.EnvID e)) ->
                  Plainid.WsID w <> "*") ->
     (forall e i, In e envs -> In i (idOf (Plainid.EnvID e)) ->
                  Plainid.TemplateID i <> "*") ->
     Root.concrete (Root.liveScope envs wsOf idOf)).
Proof.
  intros h c s envs wsOf idOf HW HE HWs HIs. split.
  - apply wildcard_resolution; assumption.
  - apply liveScope_concrete.
Qed.

Lemma wildcard_completeness_witness :
  exists s',
    Root.PersistentPreRunE Demo.host (Demo.config true) Demo.start
    = (s', Done (Demo.resolved true)).
Proof.
  destruct (wildcard_completeness Demo.host (Demo.config true) Demo.start
              [Plainid.mkEnvironment "e1" "prod"]
              (fun _ => [Plainid.mkWorkspace "w1" "main"])
              (fun _ => [Plainid.mkIdentity "i1" "User" "User"]))
    as [H _].
  - reflexivity.
  - reflexivity.
  - intros e [<-|[]]. reflexivity.
  - intros e _. reflexivity.
  - exact H.
Defined.

(* ================================================================= *)
(** ** Pagination *)

(** C6, as the code has it: [Service.Applications] asks for pages of 50
    at offsets that grow by 50.  A turn of its loop whose request fails
    ends the loop with that error.  A turn that receives a page of [n]
    applications at offset [o] with the reported total [T] ends the
    loop when [n < 50] or when [o + n], as the 64-bit [int] computes
    it, is at least [T]; otherwise, that is when [50 <= n] and [o + n]
    is below [T], the loop asks for the page at [o + 50].  The loop
    ends within the page budget whenever the reported totals stay below
    a bound the budget covers.  [Service.AppPolicies] has no page loop:
    it sends one list request without offset or limit, then one request
    per policy. *)
Theorem application_pages_stop_rule :
  forall (h : Host) (envID wsID : string),
    (forall fuel offset acc s msg,
        Plainid.getAppPage (api h) envID 50 offset = Err msg ->
        Service.appInfoPages h (S fuel) envID wsID offset acc s
        = (mkState (scratch s) (disk s)
             (trace s ++ [EvGet (Plainid.ReqAppPage envID 50 offset) false]),
           Fail msg)) /\
    (forall fuel offset acc s resp,
        Plainid.getAppPage (api h) envID 50 offset = Ok resp ->
        let n := Z.of_nat (List.length (Plainid.Data resp)) in
        let sum := ((offset + n + 2 ^ 63) mod 2 ^ 64 - 2 ^ 63)%Z in
        let s1 :=
          mkState (scratch s) (disk s)
            (trace s ++ [EvGet (Plainid.ReqAppPage envID 50 offset) true]) in
        let acc' :=
          acc ++ filter (fun app => String.eqb (Plainid.InfoWSID app) wsID)
                        (Plainid.Data resp) in
        ((n < 50)%Z \/ (sum >= Plainid.Total resp)%Z ->
         Service.appInfoPages h (S fuel) envID wsID offset acc s
         = (s1, Done acc')) /\
        ((50 <= n)%Z /\ (sum < Plainid.Total resp)%Z ->
         Service.appInfoPages h (S fuel) envID wsID offset acc s
         = Service.appInfoPages h fuel envID wsID
             ((offset + 50 + 2 ^ 63) mod 2 ^ 64 - 2 ^ 63)%Z acc' s1)) /\
    (forall B L : Z,
        (0 <= B)%Z -> (B + L < 2 ^ 63)%Z ->
        (B < 50 * Z.of_nat (pageBudget h))%Z ->
        (forall off resp,
            Plainid.getAppPage (api h) envID Service.limit off = Ok resp ->
            (Plainid.Total resp <= B)%Z /\
            (Z.of_nat (List.length (Plainid.Data resp)) <= L)%Z) ->
        forall acc s,
          snd (Service.appInfoPages h (pageBudget h) envID wsID 0 acc s)
          <> Fuel) /\
    (forall appID s, exists ok d,
        trace (fst (Service.AppPolicies h envID wsID appID s))
        = trace s ++ EvGet (Plainid.ReqPolicyList envID appID) ok :: d /\
        Forall (fun e => exists polID ok',
                           e = EvGet (Plainid.ReqPolicy envID wsID polID) ok')
               d).
Proof.
  intros h envID wsID. split; [|split; [|split]].
  - intros. apply appInfoPages_fail. assumption.
  - intros fuel offset acc s resp E n sum s1 acc'. split.
    + intros R. apply appInfoPages_stop; assumption.
    + intros [R1 R2]. apply appInfoPages_next; assumption.
  - intros B L HB HBL Hfuel Hpage acc s.
    apply (appInfoPages_terminates h B L envID wsID HB HBL Hpage); lia.
  - intros appID s.
    destruct (Service.AppPolicies h envID wsID appID s) as [s' r] eqn:E.
    exact (AppPolicies_requests h _ _ _ _ _ _ E).
Qed.

Lemma application_pages_stop_rule_witness :
  snd (Service.appInfoPages Demo.host (pageBudget Demo.host) "e1" "w1" 0 []
         Demo.start) <> Fuel.
Proof.
  apply (proj1 (proj2 (proj2 (application_pages_stop_rule Demo.host
                                 "e1" "w1")))
           1%Z 50%Z); try (vm_compute; congruence).
  intros off resp E. vm_compute in E. inversion E; subst.
  vm_compute. split; congruence.
Defined.

(** The page the policy listing receives holds 2 policies under a
    limit of 2 and reports a total of 5, so it is neither shorter than
    the limit nor does it reach the total, and yet the listing ends
    after this one list request. *)
Lemma policy_listing_is_not_paginated :
  ~ (forall (h : Host) envID wsID appID s pols,
       Plainid.getPolicyList (api h) envID appID = Ok pols ->
       let run := Service.AppPolicies h envID wsID appID s in
       let n := Z.of_nat (List.length (Plainid.PolData pols)) in
       (exists l, snd run = Done l) ->
       List.length
         (filter (fun e => match e with
                           | EvGet (Plainid.ReqPolicyList _ _) _ => true
                           | _ => false
                           end) (trace (fst run))) = 1 ->
       (n < Plainid.MetaLimit (Plainid.PolMeta pols))%Z \/
       (Plainid.MetaOffset (Plainid.PolMeta pols) + n
        >= Plainid.MetaTotal (Plainid.PolMeta pols))%Z).
Proof.
  intros H.
  specialize (H Demo.host "e1" "w1" "a1" Demo.start _ eq_refl).
  cbv zeta in H.
  destruct H as [H|H].
  - vm_compute. eexists; reflexivity.
  - vm_compute. reflexivity.
  - vm_compute in H. discriminate.
  - vm_compute in H. apply H. reflexivity.
Qed.

(** C6 as stated fails.  The policy listing has no page loop: it ends
    after one list request although the page is not shorter than the
    limit and does not reach the total.  And the loop of the
    application listing does not end on every inconsistent total:
    against a server that answers every request with a full page and
    reports the total [2 ^ 63 - 1], the loop asks for one more page
    whatever the number of pages it is followed for. *)
Lemma pagination_differs_from_claim :
  ~ (forall (h : Host) envID wsID appID s pols,
       Plainid.getPolicyList (api h) envID appID = Ok pols ->
       let run := Service.AppPolicies h envID wsID appID s in
       let n := Z.of_nat (List.length (Plainid.PolData pols)) in
       (exists l, snd run = Done l) ->
       List.length
         (filter (fun e => match e with
                           | EvGet (Plainid.ReqPolicyList _ _) _ => true
                           | _ => false
                           end) (trace (fst run))) = 1 ->
       (n < Plainid.MetaLimit (Plainid.PolMeta pols))%Z \/
       (Plainid.MetaOffset (Plainid.PolMeta pols) + n
        >= Plainid.MetaTotal (Plainid.PolMeta pols))%Z) /\
  (forall budget : nat,
     snd (Service.Applications (Demo.hostEndless budget) "e1" "w1"
            Demo.start) = Fuel).
Proof.
  split; [exact policy_listing_is_not_paginated|].
  intros budget. apply endless_Applications.
Qed.

(* ================================================================= *)
(** ** The commit message *)

Lemma RunE_commit_message h c :
  obeys (fun e => forall m ok, e = EvGit (GitCommit m) ok ->
                               m = Backup.expectedMessage (Config.Envs c))
        (Backup.RunE h c).
Proof.
  apply obeys_Backup_RunE; unfold anyFs, anyGet; intros;
    try discriminate;
    match goal with
    | H : EvGit _ _ = EvGit _ _ |- _ => inversion H; subst; reflexivity
    end.
Qed.

(** C7: a backup run that succeeds commits once, and the message of the
    commit is ["Backup PlainID configuration for:"] followed by one
    [" env:<id> ws:<id>"] per workspace of the resolved scope, in the
    order of processing, the environment id repeated for each of its
    workspaces. *)
Theorem commit_message_enumerates_pairs :
  forall (h : Host) (c : Config.Config) (s s' : State),
    Backup.Command h c s = (s', Done tt) ->
    exists c' s0 d,
      Root.PersistentPreRunE h c s = (s0, Done c') /\
      trace s' = trace s0 ++ d /\
      In (EvGit (GitCommit (Backup.expectedMessage (Config.Envs c'))) true) d /\
      (forall m ok, In (EvGit (GitCommit m) ok) d ->
                    m = Backup.expectedMessage (Config.Envs c')).
Proof.
  intros h c s s' E. unfold Backup.Command, bind in E.
  destruct (Root.PersistentPreRunE h c s) as [s0 [c'| |]] eqn:E0;
    try discriminate.
  destruct (RunE_Done h c' _ _ E) as (d & T & Hc & _).
  exists c', s0, d. repeat split; auto.
  intros m ok Hin.
  destruct (RunE_commit_message h c' _ _ _ E) as (d' & T' & F & _).
  rewrite T in T'. apply app_inv_head in T'. subst d'.
  rewrite Forall_forall in F. exact (F _ Hin m ok eq_refl).
Qed.

Lemma commit_message_enumerates_pairs_witness :
  In (EvGit (GitCommit "Backup PlainID configuration for: env:e1 ws:w1") true)
     (trace (fst (Backup.Command Demo.host (Demo.config false) Demo.start))).
Proof.
  destruct (commit_message_enumerates_pairs Demo.host (Demo.config false)
              Demo.start
              (fst (Backup.Command Demo.host (Demo.config false) Demo.start)))
    as (c' & s0 & d & E0 & T & Hin & _).
  - vm_compute. reflexivity.
  - rewrite T. apply in_or_app. right.
    vm_compute in E0. inversion E0; subst c'. exact Hin.
Defined.

(* ================================================================= *)
(** ** Failures during a backup *)

(** C8: in a run of the backup command, when a fetch or a file write
    fails, the run returns an error, the failed step is the last event
    of the run, and the run has not staged, committed, set the branch,
    tagged or pushed; so a run that reaches one of these steps had every
    fetch and every write succeed. *)
Theorem backup_aborts_on_failed_fetch_or_write :
  forall (h : Host) (c : Config.Config) (s : State),
    exists d,
      trace (fst (Backup.Command h c s)) = trace s ++ d /\
      (forall e, In e d -> isFetchOrWrite e = true -> succeeded e = false ->
         isFail (snd (Backup.Command h c s)) /\
         (exists pre, d = pre ++ [e]) /\
         Forall (fun e' => isRecord e' = false) d) /\
      (forall e, In e d -> isRecord e = true ->
         forall e', In e' d -> isFetchOrWrite e' = true ->
                    succeeded e' = true).
Proof.
  intros h c s. destruct (Backup.Command h c s) as [s' r] eqn:E.
  destruct (heeds_Backup_Command h c _ _ _ E) as (d & T & O).
  exists d. split; [exact T|]. simpl. split.
  - intros e Hin Hfw Hs. destruct O as [O|[(Hf & pre & e' & -> & Hp & _) F]].
    + rewrite Forall_forall in O. specialize (O e Hin Hfw). congruence.
    + split; [exact Hf|]. split; [|exact F].
      apply in_app_or in Hin. destruct Hin as [Hin|[->|[]]]; [|eauto].
      rewrite Forall_forall in Hp. specialize (Hp e Hin Hfw). congruence.
  - intros e Hin Hr e' Hin' Hfw.
    destruct O as [O|[_ F]].
    + rewrite Forall_forall in O. exact (O e' Hin' Hfw).
    + rewrite Forall_forall in F. specialize (F e Hin). simpl in F. congruence.
Qed.

Lemma Forall_existsb_false {A} (f : A -> bool) l :
  Forall (fun x => f x = false) l -> existsb f l = false.
Proof.
  induction 1 as [|x l Hx _ IH]; simpl; [reflexivity|].
  rewrite Hx. exact IH.
Qed.

Lemma backup_aborts_on_failed_fetch_or_write_witness :
  let run := Backup.Command Demo.hostDown (Demo.config false) Demo.start in
  isFail (snd run) /\ existsb isRecord (trace (fst run)) = false.
Proof.
  intros run.
  destruct (backup_aborts_on_failed_fetch_or_write
              Demo.hostDown (Demo.config false) Demo.start)
    as (d & T & Hfail & _).
  fold run in T, Hfail. change (trace Demo.start ++ d) with d in T.
  destruct (Hfail (EvGet (Plainid.ReqApiMapper "e1" "a1") false))
    as (Hf & _ & F).
  - rewrite <- T. vm_compute.
    repeat first [left; reflexivity | right].
  - reflexivity.
  - reflexivity.
  - split; [exact Hf|]. rewrite T. apply Forall_existsb_false. exact F.
Defined.

(* ================================================================= *)
(** ** Dry runs *)

(** A restore only reads the inventory and works on the file system. *)
Lemma emits_Restore_Command h flags c :
  emits (fun e => isLocalOrInventory e = true) (Restore.Command h flags c).
Proof.
  unfold Restore.Command.
  apply emits_bind;
    [apply obeys_emits, obeys_PersistentPreRunE; intros; reflexivity|].
  intros c'. apply emits_bind;
    [apply obeys_emits, obeys_Restore_PreRunE|].
  intros _. apply emits_Restore_RunE. intros op ok; reflexivity.
Qed.

(* ================================================================= *)
(** ** Restore: the scratch directory *)

(** C1 fails on the code: no run of the restore command clones the
    remote or checks out a tag, [cloneAndCheckoutTag] is never called;
    the scratch directory is the empty directory [CreateTempDir] made,
    and the restore of a tag whose snapshot holds files leaves the target
    directory empty. *)
Theorem restore_skips_clone_and_checkout :
  (forall (h : Host) flags c s,
     exists d,
       trace (fst (Restore.Command h flags c s)) = trace s ++ d /\
       Forall (fun e => isGit e = false) d) /\
  (let run := Restore.Command Demo.host Demo.flags (Demo.config false)
                              Demo.start in
   remoteSnapshot Demo.host (Restore.restoreTag Demo.flags)
   = Some Demo.snapshot /\
   snd run = Done tt /\
   FS.lookup ["out"] (disk (fst run)) = Some (FS.Dir [])).
Proof.
  split.
  - intros h flags c s.
    destruct (Restore.Command h flags c s) as [s' r] eqn:E.
    destruct (emits_Restore_Command h flags c _ _ _ E) as (d & T & F).
    exists d. split; [exact T|].
    eapply Forall_impl; [|exact F]. intros [] He; simpl in *; congruence.
  - vm_compute. auto.
Qed.

(** C2: in a backup run the body of the loop over the environments first
    clears the environment directory and only then fetches and writes:
    once the clearing has succeeded, no path under the environment
    directory is a file, while on a tree with unique names every
    directory is still there and the walk ends within its fuel.  The
    body of the loop over the workspaces first deletes the workspace
    directory and creates it again: once that has succeeded the
    workspace directory is an empty directory, and the fetch of the
    applications runs from that state. *)
Theorem clearing_precedes_fetch (h : Host) (c : Config.Config) :
  (forall env msg s s1,
     Backup.clearEnvironment h (Backup.envDirOf env) s = (s1, Done tt) ->
     Backup.processEnvironment h c env msg s =
       (wrapErr (Backup.cat
                   ["failed to fetch PlainID Env configuration for env:";
                    Config.ID env])
          (Backup.fetchPlainIDEnvStuff h c (Backup.envDirOf env)
             (Config.ID env)) ;;;
        Backup.processWorkspaces h c (Backup.envDirOf env) (Config.ID env)
          (Config.Workspaces env) msg) s1 /\
     forall q d,
       FS.lookup (Backup.envDirOf env ++ q) (scratch s1)
       <> Some (FS.File d)) /\
  (forall envDir s s1 o,
     FS.wfb (scratch s) = true ->
     Backup.clearEnvironment h envDir s = (s1, o) ->
     o <> Fuel /\
     forall q es, FS.lookup q (scratch s) = Some (FS.Dir es) ->
                  exists es', FS.lookup q (scratch s1) = Some (FS.Dir es')) /\
  (forall envDir envID ws rest msg s s1,
     Backup.clearWorkspace h (Backup.wsDirOf envDir ws) s = (s1, Done tt) ->
     Backup.processWorkspaces h c envDir envID (ws :: rest) msg s =
       (wrapErr (Backup.cat
                   ["failed to fetch PlainID WS configuration for env:";
                    envID; " ws:"; Config.WsID ws])
          (Backup.fetchPlainIDWSStuff h c (Backup.wsDirOf envDir ws) envID
             (Config.WsID ws)) ;;;
        Backup.processWorkspaces h c envDir envID rest
          (Backup.cat [msg; " env:"; envID; " ws:"; Config.WsID ws])) s1 /\
     FS.lookup (Backup.wsDirOf envDir ws) (scratch s1) = Some (FS.Dir [])).
Proof.
  split; [|split].
  - intros env msg s s1 E. split.
    + unfold Backup.processEnvironment. unfold bind at 1. rewrite E.
      reflexivity.
    + eapply clearEnvironment_clean; eauto.
  - intros envDir s s1 o W E.
    exact (clearEnvironment_keeps_dirs h envDir s s1 o E W).
  - intros envDir envID ws rest msg s s1 E. split.
    + simpl Backup.processWorkspaces. unfold bind at 1. rewrite E.
      reflexivity.
    + eapply clearWorkspace_empty; [|exact E].
      unfold Backup.wsDirOf. destruct envDir; discriminate.
Qed.

Lemma clearing_precedes_fetch_witness :
  let env := Config.mkEnvironment "e1" "prod"
               [Config.mkWorkspace "w1" "main"] ["User"] in
  let ws := Config.mkWorkspace "w1" "main" in
  let s := mkState Demo.snapshot (FS.Dir []) [] in
  let s1 := fst (Backup.clearEnvironment Demo.host (Backup.envDirOf env) s) in
  let s2 := fst (Backup.clearWorkspace Demo.host
                   (Backup.wsDirOf (Backup.envDirOf env) ws) s1) in
  FS.lookup ["prod_e1"; "identity-template-User.json"] (scratch s)
    = Some (FS.File "{}") /\
  FS.lookup ["prod_e1"; "identity-template-User.json"] (scratch s1)
    <> Some (FS.File "{}") /\
  FS.lookup ["prod_e1"; "main"; "shop"; "application.json"] (scratch s1)
    <> Some (FS.File "{}") /\
  (exists es, FS.lookup ["prod_e1"; "main"; "shop"] (scratch s1)
              = Some (FS.Dir es)) /\
  FS.lookup ["prod_e1"; "main"] (scratch s2) = Some (FS.Dir []).
Proof.
  intros env ws s s1 s2.
  destruct (clearing_precedes_fetch Demo.host (Demo.resolved true))
    as (HE & HK & HW).
  assert (E1 : Backup.clearEnvironment Demo.host (Backup.envDirOf env) s
               = (s1, Done tt)) by (vm_compute; reflexivity).
  assert (E2 : Backup.clearWorkspace Demo.host
                 (Backup.wsDirOf (Backup.envDirOf env) ws) s1
               = (s2, Done tt)) by (vm_compute; reflexivity).
  split; [reflexivity|]. split; [|split; [|split]].
  - exact (proj2 (HE env "" s s1 E1) ["identity-template-User.json"] "{}").
  - exact (proj2 (HE env "" s s1 E1) ["main"; "shop"; "application.json"]
             "{}").
  - refine (proj2 (HK (Backup.envDirOf env) s s1 (Done tt) _ E1)
              ["prod_e1"; "main"; "shop"]
              [("application.json", FS.File "{}")] _);
      vm_compute; reflexivity.
  - exact (proj2 (HW (Backup.envDirOf env) "e1" ws [] "" s1 s2 E2)).
Defined.

(** C10: the copy of a restore filtered by environment and workspace
    always ends, and when it succeeds on a scratch tree with unique
    names, there are an environment directory whose name ends in
    [_<env-id>] and a workspace directory in it that the configuration
    accepts, such that every file directly under the environment
    directory lies directly under the target, every file below the
    workspace directory lies at the same relative path below the target
    (unless its first component is the name of an environment-level
    file, which is copied later), and every file that the disk has
    gained is one of these: no path of the result repeats the
    environment or the workspace directory. *)
Theorem filtered_restore_flattens
        (h : Host) (flags : Restore.Flags) (c : Config.Config) :
  ends (Restore.filteredCopy h flags c) /\
  forall s s',
  FS.wfb (scratch s) = true ->
  Restore.filteredCopy h flags c s = (s', Done tt) ->
  exists envName wsName,
    Strings.HasSuffix envName
      (String.append "_" (Restore.restoreEnvID flags)) = true /\
    (exists es, FS.lookup [envName; wsName] (scratch s)
                = Some (FS.Dir es)) /\
    Restore.findWorkspaceByNameOrID c (Restore.restoreEnvID flags)
      (Restore.restoreWsID flags) wsName <> None /\
    (forall f d,
       FS.lookup [envName; f] (scratch s) = Some (FS.File d) ->
       FS.lookup (Restore.target flags ++ [f]) (disk s')
       = Some (FS.File d)) /\
    (forall f p d,
       FS.lookup (envName :: wsName :: f :: p) (scratch s)
       = Some (FS.File d) ->
       (forall d', FS.lookup [envName; f] (scratch s)
                   <> Some (FS.File d')) ->
       FS.lookup (Restore.target flags ++ f :: p) (disk s')
       = Some (FS.File d)) /\
    (forall q d,
       FS.lookup q (disk s') = Some (FS.File d) ->
       FS.lookup q (disk s) = Some (FS.File d) \/
       exists p, q = Restore.target flags ++ p /\
         (FS.lookup (envName :: wsName :: p) (scratch s)
          = Some (FS.File d) \/
          exists f, p = [f] /\
            FS.lookup [envName; f] (scratch s) = Some (FS.File d))).
Proof.
  split; [apply ends_filteredCopy|].
  intros s s' W E. unfold Restore.filteredCopy in E.
  apply bind_Done in E. destruct E as (s1 & entries & E1 & E).
  apply wrapErr_Done', ReadDir_Done in E1. destruct E1 as (S1 & D1 & _).
  apply bind_Done in E. destruct E as (s2 & found & E2 & E).
  destruct found; [|discriminate]. inversion E; subst s2; clear E.
  apply scanEnvironments_Done in E2.
  destruct E2 as (envName & en & wsEntries & wsName & wn & s0 & s3 & _ & Hs
                  & Lenv & Hin & Hd & Hf & S0 & D0 & Ec & Ee).
  rewrite S1 in Lenv, S0.
  assert (W0 : FS.wfb (scratch s0) = true) by congruence.
  pose proof (preserves_copyDir_outside h _ _ _ _ _ Ec) as [S3 _].
  assert (W3 : FS.wfb (scratch s3) = true) by congruence.
  destruct (copyEnvFiles_Done h flags _ _ _ Ee W3) as [Hfiles Hkeep].
  assert (Lws : FS.lookup [envName; wsName] (scratch s) = Some wn).
  { change [envName; wsName] with ([envName] ++ [wsName]).
    rewrite lookup_app, Lenv. simpl.
    pose proof (wfb_lookup _ _ _ W Lenv) as Wd. apply wfb_Dir in Wd.
    rewrite (nodupb_In_assoc _ _ _ (proj1 Wd) Hin). destruct wn; reflexivity. }
  exists envName, wsName. split; [exact Hs|].
  split; [destruct (isDir_Dir _ Hd) as [es ->]; eauto|].
  split; [exact Hf|]. split; [|split].
  - intros f d L. apply Hfiles. simpl. rewrite S3, S0. exact L.
  - intros f p d L Hno. apply Hkeep.
    + intros f' d' L'. apply isPrefix_sibling. intros ->.
      apply (Hno d'). simpl in L'. rewrite S3, S0 in L'. exact L'.
    + apply (copyDir_Done h [envName; wsName] _ _ _ Ec W0 (f :: p)).
      rewrite S0. exact L.
  - intros q d L.
    destruct (preserves_copyEnvFiles_copies h (scratch s) flags [envName]
                _ _ _ Ee) as [_ F2]; [congruence|].
    destruct (preserves_copyDir_copies h (scratch s) [envName; wsName]
                (Restore.target flags) _ _ _ Ec) as [_ F1]; [congruence|].
    destruct (F2 _ _ L) as [L3|(f & -> & Lf)].
    + destruct (F1 _ _ L3) as [L0|(p & -> & Lp)].
      * left. congruence.
      * right. exists p. split; [reflexivity|]. left. exact Lp.
    + right. exists [f]. split; [reflexivity|]. right. eauto.
Qed.

Lemma filtered_restore_flattens_witness :
  let s := mkState Demo.snapshot (FS.Dir []) [] in
  let s' := fst (Restore.filteredCopy Demo.host Demo.flagsFiltered
                   (Demo.resolved true) s) in
  FS.lookup ["out"; "identity-template-User.json"] (disk s')
    = Some (FS.File "{}") /\
  FS.lookup ["out"; "shop"; "application.json"] (disk s')
    = Some (FS.File "{}") /\
  forall d, FS.lookup ["out"; "prod_e1"; "main"; "shop"; "application.json"]
              (disk s') <> Some (FS.File d).
Proof.
  intros s s'.
  destruct (proj2 (filtered_restore_flattens Demo.host Demo.flagsFiltered
                     (Demo.resolved true)) s s')
    as (envName & wsName & _ & [es Lws] & _ & Hfiles & Hws & Honly).
  - reflexivity.
  - vm_compute. reflexivity.
  - assert (He : envName = "prod_e1").
    { cbn in Lws. destruct (String.eqb_spec envName "prod_e1"); [assumption|].
      discriminate. }
    subst envName.
    assert (Hw : wsName = "main").
    { cbn in Lws.
      destruct (String.eqb_spec wsName "identity-template-User.json");
        [discriminate|].
      destruct (String.eqb_spec wsName "main"); [assumption|discriminate]. }
    subst wsName.
    split; [|split].
    + apply (Hfiles "identity-template-User.json" "{}"). reflexivity.
    + apply (Hws "shop" ["application.json"] "{}"); [reflexivity|].
      intros d'. discriminate.
    + intros d L. destruct (Honly _ _ L) as [L0|(p & Hp & Hsrc)].
      * discriminate.
      * change (Restore.target Demo.flagsFiltered) with ["out"] in Hp.
        inversion Hp; subst p.
        destruct Hsrc as [L1|(f & Hf & _)]; discriminate.
Defined.

(* ================================================================= *)
(** ** The validation of the loaded configuration *)

Section Validation.
Import ConfigFile.

Lemma required_nil field name : required field name = [] <-> field <> "".
Proof.
  unfold required. destruct (String.eqb_spec field ""); split;
    intros H; congruence.
Qed.

Lemma length_zero_iff {A} (l : list A) :
  Nat.eqb (List.length l) 0 = true <-> l = [].
Proof. destruct l; simpl; split; intros H; congruence. Qed.

Lemma envMissing_nil i env :
  envMissing i env = [] <->
  Config.ID env <> "" /\
  (Config.Workspaces env <> [] \/ Config.ID env = "*").
Proof.
  unfold envMissing, Config.IsWildcard.
  destruct (String.eqb_spec (Config.ID env) "") as [E|N].
  - split; [discriminate|]. intros [H _]. contradiction.
  - simpl. destruct (Config.Workspaces env) as [|w ws]; simpl.
    + destruct (String.eqb_spec (Config.ID env) "*") as [E|N']; simpl.
      * split; auto.
      * split; [discriminate|]. intros [_ [H|H]]; congruence.
    + split; auto. intros _. split; [exact N|left; discriminate].
Qed.

Lemma envsMissing_nil envs : forall i,
  envsMissing i envs = [] <->
  forall env, In env envs ->
    Config.ID env <> "" /\
    (Config.Workspaces env <> [] \/ Config.ID env = "*").
Proof.
  induction envs as [|e rest IH]; intros i; simpl.
  - split; [intros _ env []|reflexivity].
  - split.
    + intros H. apply app_eq_nil in H. destruct H as [H1 H2].
      intros env [<-|Hin].
      * apply (envMissing_nil i). exact H1.
      * apply (proj1 (IH (S i)) H2). exact Hin.
    + intros H.
      rewrite (proj2 (envMissing_nil i e) (H e (or_introl eq_refl))).
      apply IH. intros env Hin. apply H. right; exact Hin.
Qed.

Lemma validateConfig_None cfg :
  validateConfig cfg = None <-> missingFields cfg = [].
Proof.
  unfold validateConfig. destruct (missingFields cfg); simpl; split;
    intros H; congruence.
Qed.

(** X1: [validateConfig] accepts a configuration exactly when the six
    connection settings are set, there is an environment, every
    environment has an id and, unless it is the wildcard environment, a
    workspace, and the list of identities is not empty. *)
Theorem validateConfig_accepts_iff (cfg : Config) :
  validateConfig cfg = None <->
  Repo (Git cfg) <> "" /\ Token (Git cfg) <> "" /\
  Branch (Git cfg) <> "" /\
  BaseURL (PlainID cfg) <> "" /\ ClientID (PlainID cfg) <> "" /\
  ClientSecret (PlainID cfg) <> "" /\
  Envs (PlainID cfg) <> [] /\
  (forall env, In env (Envs (PlainID cfg)) ->
     Config.ID env <> "" /\
     (Config.Workspaces env <> [] \/ Config.ID env = "*")) /\
  Identities (PlainID cfg) <> [].
Proof.
  rewrite validateConfig_None. unfold missingFields.
  assert (HE : (if Nat.eqb (List.length (Envs (PlainID cfg))) 0
                then ["plainid.envs"]
                else envsMissing 0 (Envs (PlainID cfg))) = [] <->
               Envs (PlainID cfg) <> [] /\
               (forall env, In env (Envs (PlainID cfg)) ->
                  Config.ID env <> "" /\
                  (Config.Workspaces env <> [] \/ Config.ID env = "*"))).
  { destruct (Envs (PlainID cfg)) as [|e rest] eqn:Ee.
    - simpl. split; [discriminate|]. intros [H _]. congruence.
    - change (Nat.eqb (List.length (e :: rest)) 0) with false.
      cbv iota. rewrite envsMissing_nil. split.
      + intros H. split; [discriminate|exact H].
      + intros [_ H]. exact H. }
  assert (HI : (if Nat.eqb (List.length (Identities (PlainID cfg))) 0
                then ["plainid.identities"] else []) = [] <->
               Identities (PlainID cfg) <> []).
  { destruct (Identities (PlainID cfg)); simpl; split; intros H;
      congruence. }
  split.
  - intros H.
    apply app_eq_nil in H. destruct H as [A1 H].
    apply app_eq_nil in H. destruct H as [A2 H].
    apply app_eq_nil in H. destruct H as [A3 H].
    apply app_eq_nil in H. destruct H as [A4 H].
    apply app_eq_nil in H. destruct H as [A5 H].
    apply app_eq_nil in H. destruct H as [A6 H].
    apply app_eq_nil in H. destruct H as [A7 A8].
    apply required_nil in A1, A2, A3, A4, A5, A6.
    apply HE in A7. apply HI in A8. tauto.
  - intros (H1 & H2 & H3 & H4 & H5 & H6 & H7 & H8 & H9).
    rewrite (proj2 (required_nil _ _) H1), (proj2 (required_nil _ _) H2),
      (proj2 (required_nil _ _) H3), (proj2 (required_nil _ _) H4),
      (proj2 (required_nil _ _) H5), (proj2 (required_nil _ _) H6).
    rewrite (proj2 HE (conj H7 H8)), (proj2 HI H9). reflexivity.
Qed.
End Validation.

(* ================================================================= *)
(** ** Looking up environments and workspaces in the configuration *)

Section Lookup.
Import Config.

Lemma find_id_none envID envs :
  find (fun e => String.eqb (ID e) envID) envs = None <->
  forall e, In e envs -> ID e <> envID.
Proof.
  split.
  - intros H e Hin E. pose proof (find_none _ _ H e Hin) as F.
    simpl in F. rewrite E, String.eqb_refl in F. discriminate.
  - intros H. destruct (find _ envs) as [e|] eqn:F; [|reflexivity].
    apply find_some in F. destruct F as [Hin E].
    apply String.eqb_eq in E. exfalso. exact (H e Hin E).
Qed.

Lemma existsb_id envID envs :
  existsb (fun e => String.eqb (ID e) envID) envs = true <->
  exists e, In e envs /\ ID e = envID.
Proof.
  rewrite existsb_exists. split; intros (e & Hin & E); exists e;
    (split; [exact Hin|]); [apply String.eqb_eq; exact E|].
  subst. apply String.eqb_refl.
Qed.

(** The first element that [find] accepts, with what precedes it. *)
Lemma find_first {A} (f : A -> bool) (l : list A) (x : A) :
  find f l = Some x ->
  f x = true /\
  exists before after,
    l = before ++ x :: after /\ forall y, In y before -> f y = false.
Proof.
  induction l as [|a l IH]; [discriminate|]. simpl.
  destruct (f a) eqn:Fa.
  - intros E. inversion E; subst a. split; [exact Fa|].
    exists [], l. split; [reflexivity|]. intros y [].
  - intros E. destruct (IH E) as (Fx & before & after & -> & Hb).
    split; [exact Fx|]. exists (a :: before), after.
    split; [reflexivity|]. intros y [<-|Hy]; [exact Fa|exact (Hb y Hy)].
Qed.

(** X2: [FindEnvironment] returns an environment exactly when
    [ContainsEnvironment] holds.  What it returns is an environment of
    the configuration at its place in the list: the first with the id
    asked for, no environment before it having that id; or, when no
    environment of the configuration has that id, the first wildcard
    environment, no environment before it being a wildcard. *)
Theorem FindEnvironment_agrees_with_ContainsEnvironment
        (c : Config) (envID : string) :
  (FindEnvironment c envID <> None <-> ContainsEnvironment c envID = true) /\
  (forall e, FindEnvironment c envID = Some e ->
     exists before after,
       Envs c = before ++ e :: after /\
       ((ID e = envID /\ forall e', In e' before -> ID e' <> envID) \/
        (ID e = "*" /\
         (forall e', In e' (Envs c) -> ID e' <> envID) /\
         forall e', In e' before -> ID e' <> "*"))).
Proof.
  unfold FindEnvironment, ContainsEnvironment, HasWildcardEnvironment.
  destruct (find (fun e => String.eqb (ID e) envID) (Envs c)) as [e0|] eqn:F.
  - pose proof (find_first _ _ _ F) as (E & before & after & Hs & Hb).
    apply String.eqb_eq in E. split.
    + split; [intros _|discriminate].
      destruct (existsb IsWildcard (Envs c)); [reflexivity|].
      apply existsb_id. exists e0. split; [|exact E].
      rewrite Hs. apply in_or_app. right. left. reflexivity.
    + intros e H. inversion H; subst e. exists before, after.
      split; [exact Hs|]. left. split; [exact E|].
      intros e' He' C. pose proof (Hb e' He') as N.
      rewrite C, String.eqb_refl in N. discriminate.
  - pose proof (proj1 (find_id_none _ _) F) as Hno.
    destruct (existsb IsWildcard (Envs c)) eqn:W.
    + apply existsb_exists in W. destruct W as (w & Hw & Ew).
      destruct (find IsWildcard (Envs c)) as [e1|] eqn:F1.
      * split; [split; [reflexivity|discriminate]|].
        intros e H. inversion H; subst e.
        pose proof (find_first _ _ _ F1) as (E & before & after & Hs & Hb).
        unfold IsWildcard in E. apply String.eqb_eq in E.
        exists before, after. split; [exact Hs|]. right.
        split; [exact E|]. split; [exact Hno|].
        intros e' He' C. pose proof (Hb e' He') as N.
        unfold IsWildcard in N. rewrite C in N. discriminate.
      * pose proof (find_none _ _ F1 w Hw) as C. congruence.
    + split; [|discriminate]. split; [congruence|]. intros H. exfalso.
      apply existsb_id in H. destruct H as (e & Hin & E).
      exact (Hno e Hin E).
Qed.

(** In [findWorkspaceByNameOrID] the loop already returns on a wildcard
    workspace: the workspace made up after the loop is never the
    result. *)
Lemma findWorkspace_loop_None env wsID wsName :
  find (fun ws =>
          String.eqb (WsID ws) wsID || String.eqb (WsID ws) "*"
          || (String.eqb (WsName ws) wsName
              && (String.eqb wsID "" || String.eqb (WsID ws) wsID)))
       (Workspaces env) = None ->
  HasWildcardWorkspace env = false /\ ContainsWorkspace env wsID = false.
Proof.
  intros F. unfold HasWildcardWorkspace, ContainsWorkspace.
  split; apply not_true_is_false; intros H; apply existsb_exists in H;
    destruct H as (w & Hin & E); pose proof (find_none _ _ F w Hin) as N;
    simpl in N; rewrite ?E in N.
  - rewrite orb_true_r in N. discriminate.
  - simpl in N. discriminate.
Qed.

(** X3: [findWorkspaceByNameOrID] returns a workspace of the environment that
    [FindEnvironment] gives, never one it makes up; it returns one
    exactly when that environment contains the workspace id (a wildcard
    workspace included) or, no id being asked for, has a workspace of
    the given name. *)
Theorem findWorkspaceByNameOrID_returns_configured
        (c : Config) (envID wsID wsName : string) :
  (forall ws,
     Restore.findWorkspaceByNameOrID c envID wsID wsName = Some ws ->
     exists env, FindEnvironment c envID = Some env /\
       In ws (Workspaces env) /\
       (WsID ws = wsID \/ WsID ws = "*" \/
        (WsName ws = wsName /\ wsID = ""))) /\
  (Restore.findWorkspaceByNameOrID c envID wsID wsName <> None <->
   exists env, FindEnvironment c envID = Some env /\
     (ContainsWorkspace env wsID = true \/
      (wsID = "" /\
       exists ws, In ws (Workspaces env) /\ WsName ws = wsName))).
Proof.
  unfold Restore.findWorkspaceByNameOrID.
  destruct (FindEnvironment c envID) as [env|];
    [|split; [discriminate|split; [congruence|intros (e & H & _); discriminate]]].
  destruct (find _ (Workspaces env)) as [w|] eqn:F.
  - apply find_some in F. destruct F as [Hin E]. simpl in E.
    assert (D : WsID w = wsID \/ WsID w = "*" \/
                (WsName w = wsName /\ wsID = "")).
    { apply orb_true_iff in E. destruct E as [E|E].
      - apply orb_true_iff in E.
        destruct E as [E|E]; apply String.eqb_eq in E; auto.
      - apply andb_true_iff in E. destruct E as [E1 E2].
        apply String.eqb_eq in E1. apply orb_true_iff in E2.
        destruct E2 as [E2|E2]; apply String.eqb_eq in E2; auto. }
    split.
    + intros ws H. inversion H; subst ws. exists env. auto.
    + split; [intros _|discriminate]. exists env. split; [reflexivity|].
      destruct D as [D|[D|[D1 D2]]].
      * left. apply existsb_exists. exists w. split; [exact Hin|].
        rewrite D, String.eqb_refl. reflexivity.
      * left. apply existsb_exists. exists w. split; [exact Hin|].
        rewrite D. simpl. apply orb_true_r.
      * right. eauto.
  - destruct (findWorkspace_loop_None _ _ _ F) as [HW HC]. rewrite HW.
    split; [discriminate|]. split; [congruence|].
    intros (e & He & [H|(-> & w & Hin & En)]).
    + inversion He; subst e. congruence.
    + inversion He; subst e. pose proof (find_none _ _ F w Hin) as N.
      simpl in N. rewrite En, String.eqb_refl in N. simpl in N.
      rewrite orb_true_r in N. discriminate.
Qed.

(** With a workspace id given, the name of the directory plays no
    role. *)
Lemma findWorkspace_ignores_name c envID wsID n1 n2 :
  wsID <> "" ->
  Restore.findWorkspaceByNameOrID c envID wsID n1 =
  Restore.findWorkspaceByNameOrID c envID wsID n2.
Proof.
  intros N. unfold Restore.findWorkspaceByNameOrID.
  destruct (FindEnvironment c envID) as [env|]; [|reflexivity].
  assert (E : forall n,
    find (fun ws =>
            String.eqb (WsID ws) wsID || String.eqb (WsID ws) "*"
            || (String.eqb (WsName ws) n
                && (String.eqb wsID "" || String.eqb (WsID ws) wsID)))
         (Workspaces env) =
    find (fun ws => String.eqb (WsID ws) wsID || String.eqb (WsID ws) "*")
         (Workspaces env)).
  { intros n. induction (Workspaces env) as [|w l IH]; simpl; [reflexivity|].
    rewrite IH.
    destruct (String.eqb_spec wsID ""); [contradiction|]. simpl.
    destruct (String.eqb (WsID w) wsID); simpl; [reflexivity|].
    destruct (String.eqb (WsID w) "*"); simpl; [reflexivity|].
    rewrite andb_false_r. reflexivity. }
  rewrite (E n1), (E n2).
  destruct (find _ (Workspaces env)) as [w|] eqn:F; [reflexivity|].
  assert (HW : HasWildcardWorkspace env = false).
  { apply not_true_is_false. intros H. unfold HasWildcardWorkspace in H.
    apply existsb_exists in H. destruct H as (w & Hin & Ew).
    pose proof (find_none _ _ F w Hin) as C. simpl in C.
    rewrite Ew, orb_true_r in C. discriminate. }
  rewrite HW. reflexivity.
Qed.
End Lookup.

Section FirstDirectory.
Variable h : Host.
Variable flags : Restore.Flags.
Variable c : Config.Config.

(** X4: In a restore filtered by environment and workspace, the workspace
    directory that is copied is the first directory of the environment
    directory, in the order of the listing: once the configuration
    holds the workspace id, no name is compared. *)
Theorem scanWorkspaces_copies_first_directory
        (envDir : FS.path) (entries : list (string * FS.node))
        (k : string) (n : FS.node) :
  Restore.restoreWsID flags <> "" ->
  Restore.findWorkspaceByNameOrID c (Restore.restoreEnvID flags)
    (Restore.restoreWsID flags) "" <> None ->
  find (fun e => FS.isDir (snd e)) entries = Some (k, n) ->
  Restore.scanWorkspaces h flags c envDir entries =
  (wrapErr "failed to copy workspace directory"
     (Restore.copyDir h (envDir ++ [k]) (Restore.target flags)) ;;;
   ret true).
Proof.
  intros N Hacc. induction entries as [|[k0 n0] l IH]; intros F;
    [discriminate|].
  simpl in F |- *. destruct (FS.isDir n0).
  - inversion F; subst k0 n0.
    rewrite (findWorkspace_ignores_name c _ _ k "" N).
    destruct (Restore.findWorkspaceByNameOrID c _ _ "");
      [reflexivity|congruence].
  - apply IH. exact F.
Qed.
End FirstDirectory.

Lemma scanWorkspaces_copies_first_directory_witness :
  Restore.scanWorkspaces Demo.host Demo.flagsFiltered (Demo.resolved true)
    ["prod_e1"] [("alpha", FS.Dir []); ("main", FS.Dir [])] =
  (wrapErr "failed to copy workspace directory"
     (Restore.copyDir Demo.host (["prod_e1"] ++ ["alpha"])
        (Restore.target Demo.flagsFiltered)) ;;;
   ret true).
Proof.
  apply (scanWorkspaces_copies_first_directory Demo.host Demo.flagsFiltered
           (Demo.resolved true) ["prod_e1"]
           [("alpha", FS.Dir []); ("main", FS.Dir [])] "alpha" (FS.Dir [])).
  - discriminate.
  - vm_compute. discriminate.
  - reflexivity.
Defined.

Lemma FindEnvironment_agrees_with_ContainsEnvironment_witness :
  let first := Config.mkEnvironment "e1" "first" [] [] in
  let second := Config.mkEnvironment "e1" "second" [] [] in
  let star := Config.mkEnvironment "*" "" [] [] in
  let c := Config.mkConfig (Config.mkGitConfig "repo" "main" false)
                           [first; second; star] false in
  Config.FindEnvironment c "e1" = Some first /\
  Config.FindEnvironment c "e2" = Some star /\
  exists after, Config.Envs c = first :: after /\ In second after.
Proof.
  intros first second star c.
  split; [reflexivity|]. split; [reflexivity|].
  destruct (proj2 (FindEnvironment_agrees_with_ContainsEnvironment c "e1")
              first eq_refl) as (before & after & Hs & H).
  destruct H as [[_ Hb]|[C _]]; [|discriminate].
  destruct before as [|x before].
  - exists after. split; [exact Hs|].
    cbn in Hs. inversion Hs. left. reflexivity.
  - exfalso. cbn in Hs. inversion Hs; subst x.
    apply (Hb first); [left; reflexivity|reflexivity].
Defined.

(* ================================================================= *)
(** ** The scope resolution as a run *)

#[global] Instance sameTrees_steady : Steady sameTrees.
Proof.
  split.
  - intros s. split; reflexivity.
  - intros s1 s2 s3 [A1 B1] [A2 B2]. split; congruence.
  - intros s t. split; reflexivity.
Qed.

Section ResolutionRuns.
Variable h : Host.

Lemma ends_get {A} r (ans : result A) : ends (Service.get r ans).
Proof. intros s. destruct ans; discriminate. Qed.

Lemma preserves_get {A} R `{Steady R} r (ans : result A) :
  preserves R (Service.get r ans).
Proof.
  unfold Service.get. destruct ans;
    (apply preserves_bind; [assumption|apply preserves_log; assumption|]);
    intros _; [apply preserves_ret|apply preserves_fail]; assumption.
Qed.

Lemma get_Done {A} r (ans : result A) s s' a :
  Service.get r ans s = (s', Done a) -> ans = Ok a.
Proof. destruct ans; intros E; inversion E; reflexivity. Qed.

Lemma ends_resolveWorkspaces envs : ends (Root.resolveWorkspaces h envs).
Proof.
  induction envs as [|e rest IH]; simpl; [apply ends_ret|].
  apply ends_bind; [apply ends_wrapErr, ends_get|intros wss].
  apply ends_bind; [exact IH|intros; apply ends_ret].
Qed.

Lemma ends_resolveIdentities envs : ends (Root.resolveIdentities h envs).
Proof.
  induction envs as [|e rest IH]; simpl; [apply ends_ret|].
  apply ends_bind; [apply ends_wrapErr, ends_get|intros ids].
  apply ends_bind; [exact IH|intros; apply ends_ret].
Qed.

Lemma ends_PersistentPreRunE c : ends (Root.PersistentPreRunE h c).
Proof.
  unfold Root.PersistentPreRunE.
  apply ends_bind; [apply ends_wrapErr, ends_get|intros envs].
  apply ends_bind; [apply ends_resolveWorkspaces|intros e1].
  apply ends_bind; [apply ends_resolveIdentities|intros; apply ends_ret].
Qed.

Lemma preserves_resolveWorkspaces R `{Steady R} envs :
  preserves R (Root.resolveWorkspaces h envs).
Proof.
  induction envs as [|e rest IH]; simpl; [apply preserves_ret; assumption|].
  apply preserves_bind; [assumption| |intros wss].
  - apply preserves_wrapErr; try assumption. apply preserves_get; assumption.
  - apply preserves_bind; [assumption|exact IH|].
    intros; apply preserves_ret; assumption.
Qed.

Lemma preserves_resolveIdentities R `{Steady R} envs :
  preserves R (Root.resolveIdentities h envs).
Proof.
  induction envs as [|e rest IH]; simpl; [apply preserves_ret; assumption|].
  apply preserves_bind; [assumption| |intros wss].
  - apply preserves_wrapErr; try assumption. apply preserves_get; assumption.
  - apply preserves_bind; [assumption|exact IH|].
    intros; apply preserves_ret; assumption.
Qed.

Lemma preserves_PersistentPreRunE R `{Steady R} c :
  preserves R (Root.PersistentPreRunE h c).
Proof.
  unfold Root.PersistentPreRunE.
  apply preserves_bind; [assumption| |intros envs].
  - apply preserves_wrapErr; try assumption. apply preserves_get; assumption.
  - apply preserves_bind;
      [assumption|apply preserves_resolveWorkspaces; assumption|].
    intros e1. apply preserves_bind;
      [assumption|apply preserves_resolveIdentities; assumption|].
    intros; apply preserves_ret; assumption.
Qed.

Lemma emits_inventory c :
  emits (fun e => isInventoryGet e = true) (Root.PersistentPreRunE h c).
Proof.
  apply obeys_emits, obeys_PersistentPreRunE; intros; reflexivity.
Qed.

(** The validation of the flags and the command proper, for flags that
    do not name a tag and a target directory, or name only one of the
    two filters. *)
Lemma rejected_flags flags c s :
  Restore.restoreTag flags = "" \/ Restore.restoreTargetDir flags = "" \/
  (Restore.restoreEnvID flags = "" /\ Restore.restoreWsID flags <> "") \/
  (Restore.restoreEnvID flags <> "" /\ Restore.restoreWsID flags = "") ->
  exists msg,
    (Restore.PreRunE flags c ;;; Restore.RunE h flags c) s = (s, Fail msg).
Proof.
  intros H. unfold Restore.PreRunE, Restore.RunE, bind, fail, ret.
  destruct (String.eqb_spec (Restore.restoreTag flags) "") as [T|T];
    destruct (String.eqb_spec (Restore.restoreTargetDir flags) "") as [D|D];
    destruct (String.eqb_spec (Restore.restoreEnvID flags) "") as [E|E];
    destruct (String.eqb_spec (Restore.restoreWsID flags) "") as [W|W];
    destruct (Config.DryRun c); simpl;
    try (eexists; reflexivity); exfalso; intuition congruence.
Qed.

(** X5: A restore without a tag or without a target directory, or with only
    one of the two filters, returns an error, changes neither tree and
    has sent nothing but the requests of the scope resolution. *)
Theorem restore_rejects_incomplete_flags
        (flags : Restore.Flags) (c : Config.Config) (s : State) :
  Restore.restoreTag flags = "" \/ Restore.restoreTargetDir flags = "" \/
  (Restore.restoreEnvID flags = "" /\ Restore.restoreWsID flags <> "") \/
  (Restore.restoreEnvID flags <> "" /\ Restore.restoreWsID flags = "") ->
  isFail (snd (Restore.Command h flags c s)) /\
  sameTrees s (fst (Restore.Command h flags c s)) /\
  exists d,
    trace (fst (Restore.Command h flags c s)) = trace s ++ d /\
    Forall (fun e => isInventoryGet e = true) d.
Proof.
  intros H.
  assert (EC : Restore.Command h flags c s =
               match Root.PersistentPreRunE h c s with
               | (s1, Done c') =>
                   (Restore.PreRunE flags c' ;;; Restore.RunE h flags c') s1
               | (s1, Fail msg) => (s1, Fail msg)
               | (s1, Fuel) => (s1, Fuel)
               end) by reflexivity.
  rewrite EC. clear EC.
  destruct (Root.PersistentPreRunE h c s) as [s0 o] eqn:E0.
  pose proof (preserves_PersistentPreRunE sameTrees c _ _ _ E0) as T0.
  pose proof (emits_inventory c _ _ _ E0) as (d & Td & Fd).
  pose proof (ends_PersistentPreRunE c s) as N0. rewrite E0 in N0.
  destruct o as [c'|msg|]; [|simpl|exfalso; apply N0; reflexivity].
  - destruct (rejected_flags flags c' s0 H) as [msg Em].
    rewrite Em. simpl. split; [eexists; reflexivity|]. split; [exact T0|].
    exists d. auto.
  - split; [eexists; reflexivity|]. split; [exact T0|]. exists d. auto.
Qed.

End ResolutionRuns.

Lemma restore_rejects_incomplete_flags_witness :
  isFail (snd (Restore.Command Demo.host
                 (Restore.mkFlags "" "out" "" "") (Demo.config false)
                 Demo.start)).
Proof.
  apply (restore_rejects_incomplete_flags Demo.host
           (Restore.mkFlags "" "out" "" "") (Demo.config false) Demo.start).
  left. reflexivity.
Defined.

(* ================================================================= *)
(** ** The resolved scope and the inventory *)

Section Resolved.
Variable h : Host.
Import Config.

Lemma resolveEnvironments_listed c envs e :
  In e (Root.resolveEnvironments c envs) ->
  exists a, In a envs /\ Plainid.EnvID a = ID e /\ Plainid.EnvName a = Name e.
Proof.
  unfold Root.resolveEnvironments.
  destruct (HasWildcardEnvironment c).
  - intros Hin. apply in_map_iff in Hin. destruct Hin as (a & <- & Ha).
    exists a. auto.
  - intros Hin. apply in_flat_map in Hin. destruct Hin as (ce & Hce & Hin).
    destruct (find _ envs) as [a|] eqn:F; [|destruct Hin].
    destruct Hin as [<-|[]]. apply find_some in F. destruct F as [Ha E].
    apply String.eqb_eq in E. exists a. simpl. auto.
Qed.

Lemma resolveWorkspacesOf_listed e wss w :
  In w (Root.resolveWorkspacesOf e wss) ->
  exists b, In b wss /\ Plainid.WsID b = WsID w /\
            Plainid.WsName b = WsName w.
Proof.
  unfold Root.resolveWorkspacesOf.
  destruct (HasWildcardWorkspace e).
  - intros Hin. apply in_map_iff in Hin. destruct Hin as (b & <- & Hb).
    exists b. auto.
  - intros Hin. apply in_flat_map in Hin. destruct Hin as (cw & Hcw & Hin).
    destruct (find _ wss) as [b|] eqn:F; [|destruct Hin].
    destruct Hin as [<-|[]]. apply find_some in F. destruct F as [Hb E].
    apply String.eqb_eq in E. exists b. simpl. auto.
Qed.

Lemma resolveWorkspaces_Done : forall envs s s' out,
  Root.resolveWorkspaces h envs s = (s', Done out) ->
  Forall2 (fun e e' =>
             exists wss,
               Plainid.getWorkspaces (api h) (ID e) = Ok wss /\
               e' = Root.setWorkspaces e (Root.resolveWorkspacesOf e wss))
          envs out.
Proof.
  induction envs as [|e rest IH]; intros s s' out E; simpl in E.
  - inversion E. constructor.
  - apply bind_Done in E. destruct E as (s1 & wss & E1 & E).
    apply wrapErr_Done', get_Done in E1.
    apply bind_Done in E. destruct E as (s2 & rest' & E2 & E).
    inversion E; subst. constructor; [eauto|]. eapply IH; eauto.
Qed.

Lemma resolveIdentities_Done : forall envs s s' out,
  Root.resolveIdentities h envs s = (s', Done out) ->
  Forall2 (fun e e' => ID e' = ID e /\ Name e' = Name e /\
                       Workspaces e' = Workspaces e)
          envs out.
Proof.
  induction envs as [|e rest IH]; intros s s' out E; simpl in E.
  - inversion E. constructor.
  - apply bind_Done in E. destruct E as (s1 & ids & E1 & E).
    apply bind_Done in E. destruct E as (s2 & rest' & E2 & E).
    inversion E; subst. constructor; [|eapply IH; eauto].
    destruct (HasWildcardIdentities e); simpl; auto.
Qed.

Lemma Forall2_In_r {A B} (R : A -> B -> Prop) l l' y :
  Forall2 R l l' -> In y l' -> exists x, In x l /\ R x y.
Proof.
  induction 1 as [|x y' l l' Hxy _ IH]; intros Hin; [destruct Hin|].
  destruct Hin as [<-|Hin]; [exists x; simpl; auto|].
  destruct (IH Hin) as (x0 & H0 & R0). exists x0. simpl. auto.
Qed.

Lemma PersistentPreRunE_Done c s s' c' :
  Root.PersistentPreRunE h c s = (s', Done c') ->
  exists envs r1 r2,
    Plainid.getEnvironments (api h) = Ok envs /\
    Forall2 (fun e e' =>
               exists wss,
                 Plainid.getWorkspaces (api h) (ID e) = Ok wss /\
                 e' = Root.setWorkspaces e (Root.resolveWorkspacesOf e wss))
            (Root.resolveEnvironments c envs) r1 /\
    Forall2 (fun e e' => ID e' = ID e /\ Name e' = Name e /\
                         Workspaces e' = Workspaces e) r1 r2 /\
    c' = withEnvs c r2.
Proof.
  unfold Root.PersistentPreRunE. intros E.
  apply bind_Done in E. destruct E as (s1 & envs & E1 & E).
  apply wrapErr_Done', get_Done in E1.
  apply bind_Done in E. destruct E as (s2 & r1 & E2 & E).
  apply bind_Done in E. destruct E as (s3 & r2 & E3 & E).
  inversion E; subst. exists envs, r1, r2.
  split; [exact E1|]. split; [eapply resolveWorkspaces_Done; eauto|].
  split; [eapply resolveIdentities_Done; eauto|reflexivity].
Qed.

(** X6: Whatever the configured scope, wildcard or not: every environment
    of the resolved scope is an environment the inventory lists, under
    the name the inventory gives it, and every workspace of it is one
    the inventory lists for that environment, under its name; the git
    settings and the dry-run flag are those of the configuration. *)
Theorem resolved_scope_is_listed
        (c : Config) (s s' : State) (c' : Config) :
  Root.PersistentPreRunE h c s = (s', Done c') ->
  Git c' = Git c /\ DryRun c' = DryRun c /\
  exists envs,
    Plainid.getEnvironments (api h) = Ok envs /\
    forall e, In e (Envs c') ->
      (exists a, In a envs /\ Plainid.EnvID a = ID e /\
                 Plainid.EnvName a = Name e) /\
      exists wss,
        Plainid.getWorkspaces (api h) (ID e) = Ok wss /\
        forall w, In w (Workspaces e) ->
          exists b, In b wss /\ Plainid.WsID b = WsID w /\
                    Plainid.WsName b = WsName w.
Proof.
  intros E.
  destruct (PersistentPreRunE_Done _ _ _ _ E)
    as (envs & r1 & r2 & HE & F1 & F2 & ->).
  split; [reflexivity|]. split; [reflexivity|].
  exists envs. split; [exact HE|]. simpl. intros e Hin.
  destruct (Forall2_In_r _ _ _ _ F2 Hin) as (e1 & H1 & I1 & N1 & W1).
  destruct (Forall2_In_r _ _ _ _ F1 H1) as (e0 & H0 & wss & Hw & ->).
  simpl in I1, N1, W1.
  destruct (resolveEnvironments_listed _ _ _ H0) as (a & Ha & Ia & Na).
  split.
  - exists a. split; [exact Ha|]. split; congruence.
  - exists wss. rewrite I1. split; [exact Hw|]. intros w Hw'.
    rewrite W1 in Hw'. eapply resolveWorkspacesOf_listed; eauto.
Qed.

Lemma Forall2_map_eq {A B C} (f : A -> C) (g : B -> C) R l l' :
  Forall2 R l l' -> (forall x y, R x y -> g y = f x) ->
  map g l' = map f l.
Proof.
  induction 1 as [|x y l l' Hxy _ IH]; intros HR; simpl; [reflexivity|].
  rewrite (HR _ _ Hxy), IH by exact HR. reflexivity.
Qed.

Lemma resolveEnvironments_ids c envs :
  HasWildcardEnvironment c = false ->
  map ID (Root.resolveEnvironments c envs) =
  filter (fun id => existsb (fun a => String.eqb id (Plainid.EnvID a)) envs)
         (map ID (Envs c)).
Proof.
  intros HW. unfold Root.resolveEnvironments. rewrite HW.
  induction (Envs c) as [|ce rest IH]; simpl; [reflexivity|].
  rewrite map_app, IH.
  destruct (find _ envs) as [a|] eqn:F.
  - apply find_some in F. destruct F as [Ha E].
    assert (X : existsb (fun a0 => String.eqb (ID ce) (Plainid.EnvID a0)) envs
                = true) by (apply existsb_exists; eauto).
    rewrite X. reflexivity.
  - assert (X : existsb (fun a0 => String.eqb (ID ce) (Plainid.EnvID a0)) envs
                = false).
    { apply not_true_is_false. intros X. apply existsb_exists in X.
      destruct X as (a & Ha & E). pose proof (find_none _ _ F a Ha) as N.
      simpl in N. congruence. }
    rewrite X. reflexivity.
Qed.

(** X7: With no wildcard environment, the ids of the resolved scope are the
    configured ids that the inventory lists, in the configured order;
    a configured id that the inventory does not list is left out, with
    no error. *)
Theorem explicit_scope_drops_unlisted_ids
        (c : Config) (s s' : State) (c' : Config)
        (envs : list Plainid.Environment) :
  HasWildcardEnvironment c = false ->
  Plainid.getEnvironments (api h) = Ok envs ->
  Root.PersistentPreRunE h c s = (s', Done c') ->
  map ID (Envs c') =
  filter (fun id => existsb (fun a => String.eqb id (Plainid.EnvID a)) envs)
         (map ID (Envs c)).
Proof.
  intros HW HE E.
  destruct (PersistentPreRunE_Done _ _ _ _ E)
    as (envs' & r1 & r2 & HE' & F1 & F2 & ->).
  rewrite HE in HE'. inversion HE'; subst envs'. simpl.
  rewrite (Forall2_map_eq ID ID _ _ _ F2) by (intros x y (I & _); exact I).
  rewrite (Forall2_map_eq ID ID _ _ _ F1)
    by (intros x y (wss & _ & ->); reflexivity).
  apply resolveEnvironments_ids. exact HW.
Qed.
End Resolved.

Lemma resolved_scope_is_listed_witness :
  exists envs,
    Plainid.getEnvironments (api Demo.host) = Ok envs /\
    forall e, In e (Config.Envs (Demo.resolved true)) ->
      (exists a, In a envs /\ Plainid.EnvID a = Config.ID e /\
                 Plainid.EnvName a = Config.Name e) /\
      exists wss,
        Plainid.getWorkspaces (api Demo.host) (Config.ID e) = Ok wss /\
        forall w, In w (Config.Workspaces e) ->
          exists b, In b wss /\ Plainid.WsID b = Config.WsID w /\
                    Plainid.WsName b = Config.WsName w.
Proof.
  apply (resolved_scope_is_listed Demo.host (Demo.config true) Demo.start
           (fst (Root.PersistentPreRunE Demo.host (Demo.config true)
                   Demo.start))
           (Demo.resolved true)).
  vm_compute. reflexivity.
Defined.

Lemma explicit_scope_drops_unlisted_ids_witness :
  let c := Config.mkConfig (Config.Git (Demo.config false))
             [Config.mkEnvironment "e1" "" [Config.mkWorkspace "w1" ""]
                ["User"];
              Config.mkEnvironment "ghost" "" [Config.mkWorkspace "w9" ""]
                ["User"]]
             false in
  let c' := Config.withEnvs c
              [Config.mkEnvironment "e1" "prod"
                 [Config.mkWorkspace "w1" "main"] ["User"]] in
  map Config.ID (Config.Envs c') =
  filter (fun id =>
            existsb (fun a => String.eqb id (Plainid.EnvID a))
                    [Plainid.mkEnvironment "e1" "prod"])
         (map Config.ID (Config.Envs c)).
Proof.
  intros c c'.
  apply (explicit_scope_drops_unlisted_ids Demo.host c Demo.start
           (fst (Root.PersistentPreRunE Demo.host c Demo.start)) c'
           [Plainid.mkEnvironment "e1" "prod"]).
  - reflexivity.
  - reflexivity.
  - vm_compute. reflexivity.
Defined.

(* ================================================================= *)
(** ** The events of a run, operation by operation *)

Lemma emits_ret {A} P (a : A) : emits P (ret a).
Proof. apply obeys_emits, obeys_ret. Qed.

Lemma emits_fail {A} P msg : emits P (@fail A msg).
Proof. apply obeys_emits, obeys_fail. Qed.

Lemma emits_outOfFuel {A} P : emits P (@outOfFuel A).
Proof. apply obeys_emits, obeys_outOfFuel. Qed.

Lemma emits_log (P : Event -> Prop) e : P e -> emits P (log e).
Proof.
  intros HP s s' r E. inversion E; subst. exists [e]. simpl. auto.
Qed.

Lemma emits_setTree P r n : emits P (setTree r n).
Proof. apply obeys_emits, obeys_setTree. Qed.

Lemma emits_wrapErr {A} P ctx (m : M A) : emits P m -> emits P (wrapErr ctx m).
Proof.
  intros Hm s s' r E. unfold wrapErr in E.
  destruct (m s) as [s1 [a|msg|]] eqn:Em; inversion E; subst;
    exact (Hm _ _ _ Em).
Qed.

Lemma emits_forEach {A} P (xs : list A) body :
  (forall x, emits P (body x)) -> emits P (forEach xs body).
Proof.
  intros Hb. induction xs as [|x xs IH]; simpl; [apply emits_ret|].
  apply emits_bind; [apply Hb|intros _; exact IH].
Qed.

Lemma emits_forEachIdx {A} P (xs : list A) body : forall i,
  (forall i x, emits P (body i x)) -> emits P (forEachIdx i xs body).
Proof.
  induction xs as [|x xs IH]; intros i Hb; simpl; [apply emits_ret|].
  apply emits_bind; [apply Hb|intros _; apply IH; exact Hb].
Qed.

Lemma emits_collect {A B} P (xs : list A) (body : A -> M (list B)) :
  (forall x, emits P (body x)) -> emits P (collect xs body).
Proof.
  intros Hb. induction xs as [|x xs IH]; simpl; [apply emits_ret|].
  apply emits_bind; [apply Hb|intros ys].
  apply emits_bind; [exact IH|intros zs; apply emits_ret].
Qed.

Ltac emits_step :=
  match goal with
  | |- emits _ (ret _) => apply emits_ret
  | |- emits _ (fail _) => apply emits_fail
  | |- emits _ outOfFuel => apply emits_outOfFuel
  | |- emits _ (setTree _ _) => apply emits_setTree
  | |- emits _ (bind _ _) => apply emits_bind; [|intro]
  | |- emits _ (wrapErr _ _) => apply emits_wrapErr
  | |- emits _ (forEach _ _) => apply emits_forEach; intro
  | |- emits _ (forEachIdx _ _ _) => apply emits_forEachIdx; intros
  | |- emits _ (collect _ _) => apply emits_collect; intro
  | |- emits _ (log _) => apply emits_log
  | |- emits _ (if ?b then _ else _) => destruct b
  | |- emits _ (match ?x with _ => _ end) => destruct x
  end.

Section Leaves.
Variable h : Host.
Variable P : Event -> Prop.

Lemma emits_update op r f msg :
  (forall ok, P (EvFs op ok)) -> emits P (OS.update h op r f msg).
Proof. intros HP. apply obeys_emits, obeys_update. exact HP. Qed.

Lemma emits_ReadDirE r p :
  (forall ok, P (EvFs (OpReadDir r p) ok)) -> emits P (OS.ReadDirE h r p).
Proof.
  intros HP. unfold OS.ReadDirE.
  apply emits_bind; [apply obeys_emits, obeys_getState|intros s0].
  repeat emits_step; apply HP.
Qed.

Lemma emits_CreateTempDir :
  (forall ok, P (EvFs OpMkdirTemp ok)) -> emits P (OS.CreateTempDir h).
Proof. intros HP. unfold OS.CreateTempDir. repeat emits_step; apply HP. Qed.

Lemma emits_CleanupTempDir :
  (forall ok, P (EvFs (OpRemoveAll Scratch []) ok)) ->
  emits P (OS.CleanupTempDir h).
Proof.
  intros HP. apply obeys_emits, obeys_CleanupTempDir_at. exact HP.
Qed.

Lemma emits_git op : (forall ok, P (EvGit op ok)) -> emits P (OS.git h op).
Proof. intros HP. apply obeys_emits, obeys_git. exact HP. Qed.

Lemma emits_CloneRemote :
  (forall ok, P (EvFs (OpMkdirAll Scratch []) ok)) ->
  (forall ok, P (EvGit GitClone ok)) ->
  (forall ok, P (EvGit GitInit ok)) -> emits P (OS.CloneRemote h).
Proof.
  intros HM HC HI. unfold OS.CloneRemote.
  repeat emits_step; try apply HC;
    [apply emits_update; exact HM|apply emits_git; exact HI].
Qed.

Lemma emits_record c ts isNew msg :
  anyGit P -> emits P (Backup.record h c ts isNew msg).
Proof.
  intros HG. apply obeys_emits, obeys_record; intros; apply HG.
Qed.

Lemma emits_cleanupOnSuccess {A} c (body : M A) :
  (forall ok, P (EvFs (OpRemoveAll Scratch []) ok)) ->
  emits P body -> emits P (Backup.cleanupOnSuccess h c body).
Proof.
  intros HP Hb s s' r E. unfold Backup.cleanupOnSuccess in E.
  destruct (body s) as [s1 r1] eqn:Eb.
  destruct (Hb _ _ _ Eb) as (d1 & T1 & F1).
  destruct r1 as [a|msg|]; try (inversion E; subst; eauto).
  destruct (Config.DeleteTempOnSuccess _); inversion E; subst; eauto.
  destruct (OS.CleanupTempDir h s1) as [s2 r2] eqn:Ec.
  destruct (emits_CleanupTempDir HP _ _ _ Ec) as (d2 & T2 & F2).
  exists (d1 ++ d2). simpl. rewrite T2, T1, app_assoc.
  split; [reflexivity|]. apply Forall_app; auto.
Qed.
End Leaves.

(* ================================================================= *)
(** ** A backup of an empty scope *)

Section EmptyScope.
Variable h : Host.

(** X8: When the scope holds no environment, a backup fetches nothing and
    writes no file, and still records a snapshot: a run that succeeds
    has committed under the bare message
    ["Backup PlainID configuration for:"]. *)
Theorem backup_of_empty_scope_commits (c : Config.Config) (s : State) :
  Config.Envs c = [] ->
  exists d,
    trace (fst (Backup.RunE h c s)) = trace s ++ d /\
    Forall (fun e => isFetchOrWrite e = false) d /\
    (snd (Backup.RunE h c s) = Done tt ->
     In (EvGit (GitCommit "Backup PlainID configuration for:") true) d).
Proof.
  intros HE.
  assert (Hem : emits (fun e => isFetchOrWrite e = false) (Backup.RunE h c)).
  { unfold Backup.RunE.
    apply emits_bind; [apply emits_CreateTempDir; reflexivity|intros _].
    apply emits_cleanupOnSuccess; [reflexivity|].
    apply emits_bind; [|intros r; apply emits_record; intros op ok; reflexivity].
    unfold Backup.synchronize. rewrite HE. simpl.
    apply emits_bind; [apply emits_CloneRemote; reflexivity|intros isNew].
    apply emits_bind;
      [apply emits_wrapErr, emits_git; reflexivity|intros _].
    apply emits_bind; [apply emits_ret|intros m; apply emits_ret]. }
  destruct (Backup.RunE h c s) as [s' r] eqn:E.
  destruct (Hem _ _ _ E) as (d & T & F). exists d. simpl.
  split; [exact T|]. split; [exact F|]. intros ->.
  destruct (RunE_Done h c _ _ E) as (d' & T' & Hc & _).
  rewrite T in T'. apply app_inv_head in T'. subst d'.
  unfold Backup.expectedMessage, Backup.scopePairs in Hc.
  rewrite HE in Hc. exact Hc.
Qed.
End EmptyScope.

Lemma backup_of_empty_scope_commits_witness :
  In (EvGit (GitCommit "Backup PlainID configuration for:") true)
     (trace (fst (Backup.RunE Demo.host
                    (Config.withEnvs (Demo.config false) []) Demo.start))).
Proof.
  destruct (backup_of_empty_scope_commits Demo.host
              (Config.withEnvs (Demo.config false) []) Demo.start eq_refl)
    as (d & T & _ & H).
  change (trace Demo.start ++ d) with d in T. rewrite T.
  apply H. vm_compute. reflexivity.
Defined.

(* ================================================================= *)
(** ** What becomes of the scratch directory *)

Section Scratch.
Variable h : Host.
Variable P : Event -> Prop.
Hypothesis HGet : anyGet P.
Hypothesis HGit : anyGit P.
Hypothesis HFs : forall op ok, op <> OpRemoveAll Scratch [] -> P (EvFs op ok).

Ltac leaf :=
  first [ apply emits_update; intros ok; apply HFs; discriminate
        | apply emits_ReadDirE; intros ok; apply HFs; discriminate
        | apply emits_git; intros ok; apply HGit ].

Lemma emits_removeFilesOnlyF_precise fuel : forall dir,
  emits P (Backup.removeFilesOnlyF h fuel dir).
Proof.
  induction fuel as [|fuel IH]; intros dir; simpl; [apply emits_outOfFuel|].
  apply emits_bind; [leaf|intros l].
  destruct l; [|apply emits_ret|apply emits_fail].
  apply emits_forEach. intros e. destruct (FS.isDir (snd e)); [apply IH|].
  unfold OS.Remove. leaf.
Qed.

Lemma emits_removeFilesOnly_precise dir :
  emits P (Backup.removeFilesOnly h dir).
Proof.
  intros s s' r E. eapply emits_removeFilesOnlyF_precise; exact E.
Qed.

Lemma emits_fetchPlainIDEnvStuff_precise c envDir envID :
  emits P (Backup.fetchPlainIDEnvStuff h c envDir envID).
Proof.
  unfold Backup.fetchPlainIDEnvStuff.
  destruct (Config.FindEnvironment c envID); [|apply emits_fail].
  apply emits_bind.
  { apply emits_forEach. intros identity.
    apply emits_bind;
      [apply emits_wrapErr, obeys_emits, obeys_get; exact HGet|intros t].
    apply emits_wrapErr. unfold OS.WriteFile. leaf. }
  intros _. apply emits_bind;
    [apply emits_wrapErr, obeys_emits, obeys_PAAGroups; exact HGet|intros gs].
  apply emits_forEach. intros g.
  apply emits_bind;
    [apply emits_wrapErr, obeys_emits, obeys_ToJSON|intros j].
  apply emits_wrapErr. unfold OS.WriteFile. leaf.
Qed.

Lemma emits_fetchPlainIDWSStuff_precise c wsDir envID wsID :
  emits P (Backup.fetchPlainIDWSStuff h c wsDir envID wsID).
Proof.
  unfold Backup.fetchPlainIDWSStuff.
  apply emits_bind;
    [apply emits_wrapErr, obeys_emits, obeys_Applications; exact HGet
    |intros apps].
  apply emits_bind;
    [apply emits_wrapErr, obeys_emits, obeys_get; exact HGet|intros ids].
  apply emits_bind.
  { apply emits_forEachIdx. intros i id.
    apply emits_bind;
      [apply emits_wrapErr, obeys_emits, obeys_get; exact HGet|intros t].
    apply emits_wrapErr. unfold OS.WriteFile. leaf. }
  intros _. destruct (Config.FindEnvironment c envID); [|apply emits_fail].
  apply emits_forEach. intros app.
  apply emits_bind; [apply emits_wrapErr; unfold OS.MkdirAll; leaf|intros _].
  apply emits_bind;
    [apply emits_wrapErr, obeys_emits, obeys_AsJSON|intros j].
  apply emits_bind; [apply emits_wrapErr; unfold OS.WriteFile; leaf|intros _].
  apply emits_bind;
    [apply emits_wrapErr, obeys_emits, obeys_AppPolicies; exact HGet
    |intros pols].
  apply emits_bind.
  { apply emits_forEachIdx. intros i pol.
    apply emits_wrapErr. unfold OS.WriteFile. leaf. }
  intros _. apply emits_bind;
    [apply emits_wrapErr, obeys_emits, obeys_get; exact HGet|intros m].
  apply emits_wrapErr. unfold OS.WriteFile. leaf.
Qed.

Lemma emits_clearWorkspace_precise envDir ws :
  emits P (Backup.clearWorkspace h (Backup.wsDirOf envDir ws)).
Proof.
  unfold Backup.clearWorkspace.
  apply emits_bind; [|intros _; apply emits_wrapErr; unfold OS.MkdirAll; leaf].
  apply emits_wrapErr. unfold OS.RemoveAll. apply emits_update.
  intros ok. apply HFs. unfold Backup.wsDirOf. intros E.
  inversion E as [E']. destruct envDir; discriminate.
Qed.

Lemma emits_clearEnvironment_precise envDir :
  emits P (Backup.clearEnvironment h envDir).
Proof.
  unfold Backup.clearEnvironment.
  apply emits_bind; [apply emits_wrapErr; unfold OS.MkdirAll; leaf|intros _].
  apply emits_wrapErr, emits_removeFilesOnly_precise.
Qed.

Lemma emits_processWorkspaces_precise c envDir envID wss : forall msg,
  emits P (Backup.processWorkspaces h c envDir envID wss msg).
Proof.
  induction wss as [|ws rest IH]; intros msg; simpl; [apply emits_ret|].
  apply emits_bind; [apply emits_clearWorkspace_precise|intros _].
  apply emits_bind;
    [apply emits_wrapErr, emits_fetchPlainIDWSStuff_precise|intros _].
  apply IH.
Qed.

Lemma emits_processEnvironments_precise c envs : forall msg,
  emits P (Backup.processEnvironments h c envs msg).
Proof.
  induction envs as [|env rest IH]; intros msg; simpl; [apply emits_ret|].
  apply emits_bind; [|intros m; apply IH].
  unfold Backup.processEnvironment.
  apply emits_bind; [apply emits_clearEnvironment_precise|intros _].
  apply emits_bind;
    [apply emits_wrapErr, emits_fetchPlainIDEnvStuff_precise|intros _].
  apply emits_processWorkspaces_precise.
Qed.

Lemma emits_backup_body c :
  emits P (r <- Backup.synchronize h c ;;
           Backup.record h c (Time.Format (now h)) (fst r) (snd r)).
Proof.
  apply emits_bind; [|intros r; apply emits_record; exact HGit].
  unfold Backup.synchronize.
  apply emits_bind.
  { apply emits_CloneRemote; intros ok; try apply HGit.
    apply HFs. discriminate. }
  intros isNew. apply emits_bind; [apply emits_wrapErr; leaf|intros _].
  apply emits_bind; [apply emits_processEnvironments_precise|intros m].
  apply emits_ret.
Qed.
End Scratch.

Section ScratchPolicy.
Variable h : Host.

Lemma CleanupTempDir_trace s :
  exists ok,
    trace (fst (OS.CleanupTempDir h s))
    = trace s ++ [EvFs (OpRemoveAll Scratch []) ok].
Proof.
  unfold OS.CleanupTempDir. destruct (fsFails h _); eexists; reflexivity.
Qed.

Lemma CreateTempDir_cases s :
  (exists s1, OS.CreateTempDir h s = (s1, Done tt) /\
              trace s1 = trace s ++ [EvFs OpMkdirTemp true]) \/
  (exists s1 msg, OS.CreateTempDir h s = (s1, Fail msg) /\
                  trace s1 = trace s ++ [EvFs OpMkdirTemp false]).
Proof.
  unfold OS.CreateTempDir, wrapErr, bind, log, fail, setTree.
  destruct (fsFails h OpMkdirTemp); simpl; [right|left]; eauto.
Qed.

(** X9: A backup removes its scratch directory in one case only: the run
    has succeeded and [delete-temp-on-success] is set; the removal is
    then the last step.  In every other run, failed or not, no step
    removes the scratch directory. *)
Theorem backup_keeps_scratch_unless_configured
        (c : Config.Config) (s : State) :
  exists d,
    trace (fst (Backup.RunE h c s)) = trace s ++ d /\
    (snd (Backup.RunE h c s) = Done tt ->
     Config.DeleteTempOnSuccess (Config.Git c) = true ->
     exists d0 ok,
       d = d0 ++ [EvFs (OpRemoveAll Scratch []) ok] /\
       Forall (fun e => isCleanup e = false) d0) /\
    (snd (Backup.RunE h c s) <> Done tt \/
     Config.DeleteTempOnSuccess (Config.Git c) = false ->
     Forall (fun e => isCleanup e = false) d).
Proof.
  assert (HB : emits (fun e => isCleanup e = false)
                 (r <- Backup.synchronize h c ;;
                  Backup.record h c (Time.Format (now h)) (fst r) (snd r))).
  { apply emits_backup_body.
    - intros r ok; reflexivity.
    - intros op ok; reflexivity.
    - intros op ok N. destruct op; try reflexivity.
      destruct r; [|reflexivity]. destruct p; [congruence|reflexivity]. }
  set (body := r <- Backup.synchronize h c ;;
               Backup.record h c (Time.Format (now h)) (fst r) (snd r)) in *.
  assert (ER : Backup.RunE h c s =
               match OS.CreateTempDir h s with
               | (s1, Done _) => Backup.cleanupOnSuccess h c body s1
               | (s1, Fail msg) => (s1, Fail msg)
               | (s1, Fuel) => (s1, Fuel)
               end) by reflexivity.
  rewrite ER. clear ER.
  destruct (CreateTempDir_cases s) as [(s1 & E1 & T1)|(s1 & msg & E1 & T1)];
    rewrite E1.
  - unfold Backup.cleanupOnSuccess.
    destruct (body s1) as [s2 r2] eqn:E2.
    destruct (HB _ _ _ E2) as (d2 & T2 & F2).
    assert (F12 : Forall (fun e => isCleanup e = false)
                         (EvFs OpMkdirTemp true :: d2))
      by (constructor; [reflexivity|exact F2]).
    destruct r2 as [[]|msg|].
    + destruct (Config.DeleteTempOnSuccess (Config.Git c)) eqn:D.
      * destruct (CleanupTempDir_trace s2) as [ok Tc].
        exists ((EvFs OpMkdirTemp true :: d2)
                ++ [EvFs (OpRemoveAll Scratch []) ok]).
        cbn [fst snd]. rewrite Tc, T2, T1, <- !app_assoc.
        split; [reflexivity|]. split.
        -- intros _ _. eauto.
        -- intros [N|N]; congruence.
      * exists (EvFs OpMkdirTemp true :: d2). simpl.
        rewrite T2, T1, <- app_assoc. split; [reflexivity|].
        split; [discriminate|auto].
    + exists (EvFs OpMkdirTemp true :: d2). simpl.
      rewrite T2, T1, <- app_assoc. split; [reflexivity|].
      split; [discriminate|auto].
    + exists (EvFs OpMkdirTemp true :: d2). simpl.
      rewrite T2, T1, <- app_assoc. split; [reflexivity|].
      split; [discriminate|auto].
  - exists [EvFs OpMkdirTemp false]. simpl. split; [exact T1|].
    split; [discriminate|]. intros _. constructor; [reflexivity|constructor].
Qed.
End ScratchPolicy.

Lemma bind_run {A B} (m : M A) (k : A -> M B) s :
  bind m k s = match m s with
               | (s', Done a) => k a s'
               | (s', Fail msg) => (s', Fail msg)
               | (s', Fuel) => (s', Fuel)
               end.
Proof. reflexivity. Qed.

Section ScratchRemoved.
Variable h : Host.

Lemma CleanupTempDir_empties s ok :
  trace (fst (OS.CleanupTempDir h s))
  = trace s ++ [EvFs (OpRemoveAll Scratch []) ok] ->
  ok = true -> scratch (fst (OS.CleanupTempDir h s)) = FS.Dir [].
Proof.
  unfold OS.CleanupTempDir. destruct (fsFails h _); simpl; intros T ->.
  - apply app_inv_head in T. discriminate.
  - reflexivity.
Qed.

(** A command that creates the scratch directory and defers its
    removal. *)
Lemma deferred_cleanup {A} (body : M A) s :
  emits (fun _ => True) body ->
  exists d,
    trace (fst ((OS.CreateTempDir h ;;; defer (OS.CleanupTempDir h) body) s))
    = trace s ++ d /\
    (In (EvFs OpMkdirTemp true) d ->
     exists d0 ok,
       d = d0 ++ [EvFs (OpRemoveAll Scratch []) ok] /\
       (ok = true ->
        scratch
          (fst ((OS.CreateTempDir h ;;; defer (OS.CleanupTempDir h) body) s))
        = FS.Dir [])).
Proof.
  intros Hb. unfold bind at 1 2.
  destruct (CreateTempDir_cases h s) as [(s1 & E1 & T1)|(s1 & msg & E1 & T1)];
    rewrite E1.
  - unfold defer. destruct (body s1) as [s2 r2] eqn:E2.
    destruct (Hb _ _ _ E2) as (d2 & T2 & _).
    destruct (CleanupTempDir_trace h s2) as [ok Tc].
    exists ((EvFs OpMkdirTemp true :: d2)
            ++ [EvFs (OpRemoveAll Scratch []) ok]).
    cbn [fst]. rewrite Tc at 1. rewrite T2, T1, <- !app_assoc.
    split; [reflexivity|]. intros _.
    exists (EvFs OpMkdirTemp true :: d2), ok. split; [reflexivity|].
    apply CleanupTempDir_empties. exact Tc.
  - exists [EvFs OpMkdirTemp false]. cbn [fst]. split; [exact T1|].
    intros [H|[]]. discriminate.
Qed.

(** X10: The list command and the restore command remove the scratch
    directory whenever they have created it, whether they then fail or
    not: the removal is the last step of the run, and when it succeeds
    the scratch directory is empty. *)
Theorem list_and_restore_remove_scratch :
  (forall opts s, exists d,
     trace (fst (List_.RunE h opts s)) = trace s ++ d /\
     (In (EvFs OpMkdirTemp true) d ->
      exists d0 ok,
        d = d0 ++ [EvFs (OpRemoveAll Scratch []) ok] /\
        (ok = true -> scratch (fst (List_.RunE h opts s)) = FS.Dir []))) /\
  (forall flags c s, exists d,
     trace (fst (Restore.RunE h flags c s)) = trace s ++ d /\
     (In (EvFs OpMkdirTemp true) d ->
      exists d0 ok,
        d = d0 ++ [EvFs (OpRemoveAll Scratch []) ok] /\
        (ok = true ->
         scratch (fst (Restore.RunE h flags c s)) = FS.Dir []))).
Proof.
  split.
  - intros opts s. unfold List_.RunE. apply deferred_cleanup.
    apply emits_bind.
    { apply emits_wrapErr, obeys_emits, obeys_CloneRemote;
        [intros op ok; exact I|auto..]. }
    intros _. apply emits_bind.
    { intros t t' r E. inversion E; subst.
      destruct (obeys_git h (fun _ => True) GitFetchTags (fun _ => I)
                  t (fst (OS.git h GitFetchTags t))
                  (snd (OS.git h GitFetchTags t)))
        as (d & T & _); [destruct (OS.git h GitFetchTags t); reflexivity|].
      exists d. split; [exact T|]. apply Forall_forall. auto. }
    intros _. apply emits_bind;
      [apply emits_wrapErr, emits_git; auto|intros _; apply emits_ret].
  - intros flags c s. unfold Restore.RunE.
    destruct (negb (String.eqb (Restore.restoreTag flags) "")).
    + rewrite bind_run.
      destruct (wrapErr _ (OS.MkdirAll h Disk (Restore.target flags)) s)
        as [s0 r0] eqn:E0.
      assert (H0 : exists d0, trace s0 = trace s ++ d0 /\
                     Forall (fun e => e <> EvFs OpMkdirTemp true) d0).
      { eapply (emits_wrapErr (fun e => e <> EvFs OpMkdirTemp true));
          [|exact E0].
        unfold OS.MkdirAll. apply emits_update. intros ok. discriminate. }
      destruct H0 as (d0 & T0 & F0).
      destruct r0 as [[]|msg|].
      * destruct (deferred_cleanup (Restore.copyOut h flags c) s0)
          as (d & T & H).
        { apply obeys_emits, obeys_copyOut. intros op ok; exact I. }
        exists (d0 ++ d). rewrite T, T0, app_assoc. split; [reflexivity|].
        intros Hin. apply in_app_or in Hin. destruct Hin as [Hin|Hin].
        -- rewrite Forall_forall in F0. exfalso. exact (F0 _ Hin eq_refl).
        -- destruct (H Hin) as (d1 & ok & -> & Hs).
           exists (d0 ++ d1), ok. split; [apply app_assoc|exact Hs].
      * exists d0. cbn [fst]. split; [exact T0|]. intros Hin.
        rewrite Forall_forall in F0. exfalso. exact (F0 _ Hin eq_refl).
      * exists d0. cbn [fst]. split; [exact T0|]. intros Hin.
        rewrite Forall_forall in F0. exfalso. exact (F0 _ Hin eq_refl).
    + exists []. cbn [fst fail]. rewrite app_nil_r. split; [reflexivity|].
      intros [].
Qed.
End ScratchRemoved.

(* ================================================================= *)
(** ** A dry run and the real run *)

Section DryAndReal.
Variable h : Host.
Variable g : Config.GitConfig.
Variable envs : list Config.Environment.

Let dry := Config.mkConfig g envs true.
Let real := Config.mkConfig g envs false.

Lemma synchronize_dry_real : Backup.synchronize h dry = Backup.synchronize h real.
Proof. reflexivity. Qed.

Lemma git_run op s :
  exists ok,
    trace (fst (OS.git h op s)) = trace s ++ [EvGit op ok] /\
    sameTrees s (fst (OS.git h op s)) /\
    (ok = true -> snd (OS.git h op s) = Done tt) /\
    (ok = false -> isFail (snd (OS.git h op s))).
Proof.
  unfold OS.git. destruct (gitFails h op).
  - exists false. simpl. repeat split; try discriminate.
    intros _. eexists; reflexivity.
  - exists true. simpl. repeat split; try discriminate.
Qed.

Lemma record_dry_real ts isNew msg s :
  (snd (Backup.record h dry ts isNew msg s) <> Done tt ->
   Backup.record h real ts isNew msg s = Backup.record h dry ts isNew msg s) /\
  (snd (Backup.record h dry ts isNew msg s) = Done tt ->
   Backup.record h real ts isNew msg s =
   wrapErr "failed to push changes"
     (OS.git h
        (GitPush
           [Backup.cat ["refs/heads/"; Config.Branch g; ":refs/heads/";
                        Config.Branch g];
            Backup.cat ["refs/tags/"; ts; ":refs/tags/"; ts]]
           isNew))
     (fst (Backup.record h dry ts isNew msg s))).
Proof.
  unfold Backup.record. rewrite !bind_run.
  destruct (wrapErr _ (OS.git h GitWorktree) s) as [s1 [[]| |]];
    [|split; [reflexivity|simpl; discriminate]..].
  rewrite !bind_run.
  destruct (wrapErr _ (OS.git h GitAdd) s1) as [s2 [[]| |]];
    [|split; [reflexivity|simpl; discriminate]..].
  rewrite !bind_run.
  destruct (wrapErr _ (OS.git h (GitCommit msg)) s2) as [s3 [[]| |]];
    [|split; [reflexivity|simpl; discriminate]..].
  rewrite !bind_run.
  change (Config.Branch (Config.Git dry)) with (Config.Branch g).
  change (Config.Branch (Config.Git real)) with (Config.Branch g).
  destruct ((if isNew
             then wrapErr "failed to set branch reference"
                    (OS.git h (GitSetBranch (Config.Branch g)))
             else ret tt) s3) as [s4 [[]| |]];
    [|split; [reflexivity|simpl; discriminate]..].
  rewrite !bind_run.
  destruct (wrapErr _ (OS.git h (GitCreateTag ts _)) s4) as [s5 [[]| |]];
    [|split; [reflexivity|simpl; discriminate]..].
  simpl. split; [congruence|reflexivity].
Qed.

Lemma RunE_run c s :
  Config.DeleteTempOnSuccess (Config.Git c) = false ->
  Backup.RunE h c s =
  match OS.CreateTempDir h s with
  | (s1, Done _) =>
      match Backup.synchronize h c s1 with
      | (s2, Done r) =>
          Backup.record h c (Time.Format (now h)) (fst r) (snd r) s2
      | (s2, Fail msg) => (s2, Fail msg)
      | (s2, Fuel) => (s2, Fuel)
      end
  | (s1, Fail msg) => (s1, Fail msg)
  | (s1, Fuel) => (s1, Fuel)
  end.
Proof.
  intros D. unfold Backup.RunE, Backup.cleanupOnSuccess. rewrite D.
  rewrite bind_run. destruct (OS.CreateTempDir h s) as [s1 [[]| |]];
    try reflexivity.
  rewrite bind_run. destruct (Backup.synchronize h c s1) as [s2 [r| |]];
    try reflexivity.
  destruct (Backup.record h c _ (fst r) (snd r) s2) as [s3 [[]| |]];
    reflexivity.
Qed.

(** X11: With [delete-temp-on-success] off, the real run of a backup does
    what the dry run does and then pushes: when the dry run fails the
    real run fails in the same way, in the same state; when the dry
    run succeeds the real run has the same events followed by the push
    alone, leaves the same trees, and succeeds when the push does. *)
Theorem real_run_is_dry_run_then_push (s : State) :
  Config.DeleteTempOnSuccess g = false ->
  (snd (Backup.RunE h dry s) <> Done tt ->
   Backup.RunE h real s = Backup.RunE h dry s) /\
  (snd (Backup.RunE h dry s) = Done tt ->
   exists refs force ok,
     trace (fst (Backup.RunE h real s))
     = trace (fst (Backup.RunE h dry s)) ++ [EvGit (GitPush refs force) ok] /\
     sameTrees (fst (Backup.RunE h dry s)) (fst (Backup.RunE h real s)) /\
     (ok = true -> snd (Backup.RunE h real s) = Done tt) /\
     (ok = false -> isFail (snd (Backup.RunE h real s)))).
Proof.
  intros D. rewrite (RunE_run dry s D), (RunE_run real s D).
  rewrite <- synchronize_dry_real.
  destruct (OS.CreateTempDir h s) as [s1 [[]|msg|]];
    [|split; [reflexivity|simpl; discriminate]..].
  destruct (Backup.synchronize h dry s1) as [s2 [r|msg|]];
    [|split; [reflexivity|simpl; discriminate]..].
  destruct (record_dry_real (Time.Format (now h)) (fst r) (snd r) s2)
    as [HF HD].
  split; [exact HF|]. intros Hd. rewrite (HD Hd).
  set (sd := fst (Backup.record h dry (Time.Format (now h)) (fst r) (snd r) s2)).
  match goal with
  | |- context [OS.git h ?op] =>
      destruct (git_run op sd) as (ok & T & ST & Hok & Hfail);
      match op with GitPush ?refs ?f => exists refs, f, ok end
  end.
  unfold wrapErr.
  destruct (OS.git h _ sd) as [s3 [[]|msg|]]; simpl in *;
    repeat split; try tauto; try apply ST;
    try (intros _; eexists; reflexivity);
    try (intros ->; specialize (Hok eq_refl); discriminate);
    try (intros ->; destruct (Hfail eq_refl); discriminate).
Qed.
End DryAndReal.

Lemma real_run_is_dry_run_then_push_witness :
  exists refs force ok,
    trace (fst (Backup.RunE Demo.host (Demo.resolved false) Demo.start))
    = trace (fst (Backup.RunE Demo.host (Demo.resolved true) Demo.start))
      ++ [EvGit (GitPush refs force) ok].
Proof.
  destruct (real_run_is_dry_run_then_push Demo.host
              (Config.Git (Demo.config true))
              (Config.Envs (Demo.resolved true)) Demo.start eq_refl)
    as [_ H].
  destruct H as (refs & force & ok & T & _).
  - vm_compute. reflexivity.
  - exists refs, force, ok. exact T.
Defined.

(* ================================================================= *)
(** ** The order of the catalog *)

Section TimeOrder.
Local Open Scope N_scope.

Lemma lexc_opp c k : CompOpp (Time.lexc c k) = Time.lexc (CompOpp c) (CompOpp k).
Proof. destruct c; reflexivity. Qed.

Lemma Time_compare_antisym a b :
  Time.compare b a = CompOpp (Time.compare a b).
Proof.
  unfold Time.compare. rewrite !lexc_opp, <- !N.compare_antisym.
  reflexivity.
Qed.

Ltac level x y z :=
  destruct (N.compare_spec x y), (N.compare_spec y z), (N.compare_spec x z);
  simpl; try (exfalso; lia); try congruence.

(** [compare] is a total order on the times: not after is transitive. *)
Lemma Time_not_after_trans a b c :
  Time.compare c b <> Gt -> Time.compare b a <> Gt -> Time.compare c a <> Gt.
Proof.
  unfold Time.compare.
  level (Time.year c) (Time.year b) (Time.year a).
  level (Time.month c) (Time.month b) (Time.month a).
  level (Time.day c) (Time.day b) (Time.day a).
  level (Time.hour c) (Time.hour b) (Time.hour a).
  level (Time.minute c) (Time.minute b) (Time.minute a).
  level (Time.second c) (Time.second b) (Time.second a).
  level (Time.nsec c) (Time.nsec b) (Time.nsec a).
Qed.
End TimeOrder.

Lemma After_false_iff a b : Time.After a b = false <-> Time.compare a b <> Gt.
Proof.
  unfold Time.After. destruct (Time.compare a b); split; congruence.
Qed.

Lemma After_true_not_after a b : Time.After a b = true -> Time.After b a = false.
Proof.
  unfold Time.After. rewrite (Time_compare_antisym a b).
  destruct (Time.compare a b); simpl; congruence.
Qed.

Section CatalogOrder.
Import List_.

(** [y] is not more recent than [x]. *)
Let notNewer (x y : tagInfo) : Prop := Time.After (Time_ y) (Time_ x) = false.

Lemma notNewer_trans x y z : notNewer x y -> notNewer y z -> notNewer x z.
Proof.
  unfold notNewer. rewrite !After_false_iff. intros H1 H2.
  eapply Time_not_after_trans; eauto.
Qed.

Lemma insertTag_sorted x l :
  StronglySorted notNewer l -> StronglySorted notNewer (insertTag x l).
Proof.
  induction 1 as [|y l Hs IH Hy]; simpl.
  - constructor; constructor.
  - destruct (Time.After (Time_ y) (Time_ x)) eqn:E.
    + constructor; [exact IH|]. apply Forall_forall. intros z Hz.
      apply insertTag_In in Hz. destruct Hz as [->|Hz].
      * apply After_true_not_after. exact E.
      * rewrite Forall_forall in Hy. exact (Hy _ Hz).
    + constructor; [constructor; assumption|].
      constructor; [exact E|]. apply Forall_forall. intros z Hz.
      rewrite Forall_forall in Hy. eapply notNewer_trans; [exact E|].
      exact (Hy _ Hz).
Qed.

Lemma sortTags_sorted l : StronglySorted notNewer (sortTags l).
Proof.
  induction l as [|x l IH]; simpl; [constructor|].
  apply insertTag_sorted. exact IH.
Qed.

Lemma insertTag_perm x l : Permutation (insertTag x l) (x :: l).
Proof.
  induction l as [|y l IH]; simpl; [reflexivity|].
  destruct (Time.After _ _); [|reflexivity].
  rewrite IH. apply perm_swap.
Qed.

Lemma sortTags_perm l : Permutation (sortTags l) l.
Proof.
  induction l as [|x l IH]; simpl; [reflexivity|].
  rewrite insertTag_perm, IH. reflexivity.
Qed.

Lemma StronglySorted_split {A} (R : A -> A -> Prop) n l :
  StronglySorted R l ->
  StronglySorted R (firstn n l) /\
  forall x y, In x (firstn n l) -> In y (skipn n l) -> R x y.
Proof.
  intros H. revert n. induction H as [|a l Hs IH Ha]; intros n.
  - rewrite firstn_nil, skipn_nil. split; [constructor|intros x y []].
  - destruct n as [|n]; simpl.
    + split; [constructor|intros x y []].
    + destruct (IH n) as [S1 S2]. split.
      * constructor; [exact S1|]. apply Forall_forall. intros z Hz.
        rewrite Forall_forall in Ha. apply Ha. eapply firstn_In; eauto.
      * intros x y [<-|Hx] Hy.
        -- rewrite Forall_forall in Ha. apply Ha.
           rewrite <- (firstn_skipn n l). apply in_or_app. right; exact Hy.
        -- apply S2; assumption.
Qed.

(** X12: The list command shows at most ten of the kept snapshots, the most
    recent first, and none of the kept snapshots it leaves out is more
    recent than one it shows; sorting loses and adds nothing. *)
Theorem list_shows_the_ten_most_recent (opts : listOptions)
        (refs : list TagRef) :
  let kept := visitTags opts refs in
  let rest := skipn 10 (sortTags kept) in
  Permutation (shown opts refs ++ rest) kept /\
  List.length (shown opts refs) <= 10 /\
  StronglySorted
    (fun x y => Time.After (Time_ y) (Time_ x) = false) (shown opts refs) /\
  forall x y, In x (shown opts refs) -> In y rest ->
              Time.After (Time_ y) (Time_ x) = false.
Proof.
  intros kept rest. unfold shown. fold kept. split; [|split].
  - unfold rest. rewrite firstn_skipn. apply sortTags_perm.
  - apply firstn_le_length.
  - exact (StronglySorted_split notNewer 10 _ (sortTags_sorted kept)).
Qed.
End CatalogOrder.

(* ================================================================= *)
(** ** The catalog reads what the backup wrote *)

Section MessageRoundTrip.
Import Strings.

Lemma Contains_cons c s sub :
  Contains (String c s) sub = String.prefix sub (String c s) || Contains s sub.
Proof. reflexivity. Qed.

Lemma prefix_space c s :
  String.prefix " " (String c s) = Ascii.eqb c " ".
Proof.
  cbn [String.prefix].
  destruct (Ascii.ascii_dec " " c) as [E|N].
  - subst c. destruct s; reflexivity.
  - symmetry. apply Ascii.eqb_neq. congruence.
Qed.

Lemma no_space_cons c s :
  Contains (String c s) " " = false ->
  Ascii.eqb c " " = false /\ Contains s " " = false.
Proof.
  rewrite Contains_cons, prefix_space. intros H.
  apply orb_false_iff in H. exact H.
Qed.

Lemma no_space_append a b :
  Contains a " " = false -> Contains b " " = false ->
  Contains (String.append a b) " " = false.
Proof.
  induction a as [|c a IH]; intros Ha Hb; [exact Hb|].
  apply no_space_cons in Ha. destruct Ha as [Hc Ha].
  cbn [String.append]. rewrite Contains_cons, prefix_space, Hc, (IH Ha Hb).
  reflexivity.
Qed.

Lemma SplitByte_word w :
  Contains w " " = false -> SplitByte " " w = [w].
Proof.
  induction w as [|c w IH]; intros H; [reflexivity|].
  apply no_space_cons in H. destruct H as [Hc Hw].
  simpl. rewrite Hc, (IH Hw). reflexivity.
Qed.

(** [strings.Split] cuts at the first space after a word. *)
Lemma SplitByte_app w rest :
  Contains w " " = false ->
  SplitByte " " (String.append w (String " " rest))
  = w :: SplitByte " " rest.
Proof.
  induction w as [|c w IH]; intros H; [reflexivity|].
  apply no_space_cons in H. destruct H as [Hc Hw].
  simpl. rewrite Hc, (IH Hw). reflexivity.
Qed.

Lemma substring_all s : String.substring 0 (String.length s) s = s.
Proof. induction s as [|c s IH]; simpl; [|rewrite IH]; reflexivity. Qed.

Lemma pairText_app p rest :
  String.append (pairText p) rest
  = String " " (String.append (String.append "env:" (fst p))
       (String " " (String.append (String.append "ws:" (snd p)) rest))).
Proof.
  unfold pairText. rewrite !append_assoc. reflexivity.
Qed.

(** The words of the text that the workspaces add to a message. *)
Lemma SplitByte_pairs ps : forall w,
  Contains w " " = false ->
  (forall p, In p ps ->
     Contains (fst p) " " = false /\ Contains (snd p) " " = false) ->
  SplitByte " " (String.append w (String.concat "" (map pairText ps)))
  = w :: flat_map (fun p => [String.append "env:" (fst p);
                             String.append "ws:" (snd p)]) ps.
Proof.
  induction ps as [|p ps IH]; intros w Hw Hps.
  - simpl. rewrite append_nil_r. apply SplitByte_word. exact Hw.
  - destruct (Hps p (or_introl eq_refl)) as [H1 H2].
    cbn [map flat_map]. rewrite concat_empty_cons, pairText_app.
    rewrite SplitByte_app by exact Hw.
    rewrite SplitByte_app by (apply no_space_append; [reflexivity|exact H1]).
    rewrite IH.
    + reflexivity.
    + apply no_space_append; [reflexivity|exact H2].
    + intros q Hq. apply Hps. right; exact Hq.
Qed.

Lemma prefix_empty s : String.prefix "" s = true.
Proof. destruct s; reflexivity. Qed.

Lemma env_word x :
  HasPrefix (String.append "env:" x) "env:" = true /\
  TrimPrefix (String.append "env:" x) "env:" = x.
Proof.
  unfold TrimPrefix, HasPrefix. simpl.
  rewrite prefix_empty, Nat.sub_0_r, substring_all. split; reflexivity.
Qed.

Lemma ws_word x :
  HasPrefix (String.append "ws:" x) "env:" = false /\
  HasPrefix (String.append "ws:" x) "ws:" = true /\
  TrimPrefix (String.append "ws:" x) "ws:" = x.
Proof.
  unfold TrimPrefix, HasPrefix. simpl.
  rewrite prefix_empty, Nat.sub_0_r, substring_all. repeat split.
Qed.

Lemma scanParts_pairs ps : forall es ws,
  List_.scanParts
    (flat_map (fun p => [String.append "env:" (fst p);
                         String.append "ws:" (snd p)]) ps) es ws
  = (es ++ map fst ps, ws ++ map snd ps).
Proof.
  induction ps as [|p ps IH]; intros es ws.
  - simpl. rewrite !app_nil_r. reflexivity.
  - destruct (env_word (fst p)) as [E1 E2].
    destruct (ws_word (snd p)) as (W1 & W2 & W3).
    cbn [flat_map app List_.scanParts].
    rewrite E1, E2, W1, W2, W3, IH, <- !app_assoc. reflexivity.
Qed.
End MessageRoundTrip.

Section TagOfARun.
Import Strings.
Variable h : Host.
Variable c : Config.Config.

Lemma obeys_record_tag (P : Event -> Prop) ts isNew msg :
  (forall ok, P (EvGit GitWorktree ok)) ->
  (forall ok, P (EvGit GitAdd ok)) ->
  (forall ok, P (EvGit (GitCommit msg) ok)) ->
  (forall b ok, P (EvGit (GitSetBranch b) ok)) ->
  (forall ok, P (EvGit (GitCreateTag ts
                          (String.append "Backup tag for " msg)) ok)) ->
  (forall r f ok, P (EvGit (GitPush r f) ok)) ->
  obeys P (Backup.record h c ts isNew msg).
Proof.
  intros HW HA HC HB HT HP. unfold Backup.record.
  apply obeys_bind; [apply obeys_wrapErr, obeys_git; auto|intros _].
  apply obeys_bind; [apply obeys_wrapErr, obeys_git; auto|intros _].
  apply obeys_bind; [apply obeys_wrapErr, obeys_git; auto|intros _].
  apply obeys_bind.
  { destruct isNew; [apply obeys_wrapErr, obeys_git; auto|apply obeys_ret]. }
  intros _.
  apply obeys_bind; [apply obeys_wrapErr, obeys_git; auto|intros _].
  destruct (Config.DryRun c) eqn:D; [apply obeys_ret|].
  apply obeys_wrapErr, obeys_git; auto.
Qed.

Lemma RunE_tag :
  obeys (fun e => forall n m ok, e = EvGit (GitCreateTag n m) ok ->
           n = Time.Format (now h) /\
           m = String.append "Backup tag for "
                 (Backup.expectedMessage (Config.Envs c)))
        (Backup.RunE h c).
Proof.
  assert (HFs : anyFs (fun e => forall n m ok,
             e = EvGit (GitCreateTag n m) ok ->
             n = Time.Format (now h) /\
             m = String.append "Backup tag for "
                   (Backup.expectedMessage (Config.Envs c))))
    by (unfold anyFs; intros; discriminate).
  unfold Backup.RunE.
  apply obeys_bind; [apply obeys_CreateTempDir; auto|intros _].
  apply obeys_cleanupOnSuccess; [assumption|].
  apply obeys_bind_val.
  { apply obeys_synchronize; auto; unfold anyGet; intros; discriminate. }
  intros [isNew msg] (s & s1 & E). apply synchronize_msg in E. subst msg.
  apply obeys_record_tag; intros; try discriminate.
  match goal with
  | H : EvGit _ _ = EvGit _ _ |- _ => inversion H; subst; split; reflexivity
  end.
Qed.
End TagOfARun.

Lemma message_words ps :
  (forall p, In p ps ->
     Strings.Contains (fst p) " " = false /\
     Strings.Contains (snd p) " " = false) ->
  Strings.SplitByte " "
    (String.append "Backup tag for "
       (String.append "Backup PlainID configuration for:"
          (String.concat "" (map pairText ps))))
  = ["Backup"; "tag"; "for"; "Backup"; "PlainID"; "configuration"; "for:"]
    ++ flat_map (fun p => [String.append "env:" (fst p);
                           String.append "ws:" (snd p)]) ps.
Proof.
  intros Hps.
  change (String.append "Backup tag for "
            (String.append "Backup PlainID configuration for:" ?x))
    with (String.append "Backup" (String " "
           (String.append "tag" (String " "
             (String.append "for" (String " "
               (String.append "Backup" (String " "
                 (String.append "PlainID" (String " "
                   (String.append "configuration" (String " "
                     (String.append "for:" x))))))))))))).
  rewrite !SplitByte_app by reflexivity.
  rewrite SplitByte_pairs; [reflexivity|reflexivity|exact Hps].
Qed.

Lemma Contains_head s sub :
  String.prefix sub s = true -> Strings.Contains s sub = true.
Proof.
  intros H. destruct s as [|x s].
  - change (Strings.Contains "" sub) with (String.prefix sub "" || false).
    rewrite H. reflexivity.
  - rewrite Contains_cons, H. reflexivity.
Qed.

Lemma prefix_append a b : String.prefix a (String.append a b) = true.
Proof.
  induction a as [|x a IH]; [apply prefix_empty|].
  cbn [String.append String.prefix].
  destruct (Ascii.ascii_dec x x) as [_|N]; [exact IH|congruence].
Qed.

Lemma Contains_append_r a s sub :
  Strings.Contains s sub = true ->
  Strings.Contains (String.append a s) sub = true.
Proof.
  intros H. induction a as [|x a IH]; [exact H|].
  cbn [String.append]. rewrite Contains_cons, IH. apply orb_true_r.
Qed.

Lemma Contains_pairs ps e w :
  In (e, w) ps ->
  Strings.Contains (String.concat "" (map pairText ps))
                   (String.append "env:" e) = true /\
  Strings.Contains (String.concat "" (map pairText ps))
                   (String.append "ws:" w) = true.
Proof.
  intros Hin. apply in_split in Hin. destruct Hin as (l1 & l2 & ->).
  rewrite map_app, concat_empty_app. cbn [map].
  rewrite concat_empty_cons, pairText_app. cbn [fst snd].
  split; apply Contains_append_r.
  - apply (Contains_append_r " "). apply Contains_head.
    apply prefix_append.
  - apply (Contains_append_r " "), Contains_append_r.
    apply (Contains_append_r " "), Contains_head, prefix_append.
Qed.

Section StoredMessage.
Import Strings.

Lemma SplitByte_nonempty sep s : SplitByte sep s <> [].
Proof.
  destruct s as [|c s]; [discriminate|]. simpl.
  destruct (Ascii.eqb c sep); [discriminate|].
  destruct (SplitByte sep s); discriminate.
Qed.

(** [strings.Split] cuts at every separator. *)
Lemma SplitByte_sep sep a b :
  SplitByte sep (String.append a (String sep b))
  = SplitByte sep a ++ SplitByte sep b.
Proof.
  induction a as [|c a IH].
  - simpl. rewrite Ascii.eqb_refl. reflexivity.
  - cbn [String.append SplitByte]. rewrite IH.
    destruct (Ascii.eqb c sep); [reflexivity|].
    pose proof (SplitByte_nonempty sep a) as N.
    destruct (SplitByte sep a); [contradiction|reflexivity].
Qed.

Lemma scanParts_app l1 l2 : forall es ws,
  List_.scanParts (l1 ++ l2) es ws
  = List_.scanParts l2 (fst (List_.scanParts l1 es ws))
                       (snd (List_.scanParts l1 es ws)).
Proof.
  induction l1 as [|x l1 IH]; intros es ws; [reflexivity|].
  cbn [app List_.scanParts].
  destruct (HasPrefix x "env:"); [apply IH|].
  destruct (HasPrefix x "ws:"); apply IH.
Qed.

Lemma concat_cons_more sep x y l :
  String.concat sep (x :: y :: l)
  = String.append x (String.append sep (String.concat sep (y :: l))).
Proof. reflexivity. Qed.

(** What ends the last element ends the joined string. *)
Lemma Join_last sep l : forall x t,
  Join (l ++ [String.append x t]) sep
  = String.append (Join (l ++ [x]) sep) t.
Proof.
  unfold Join. induction l as [|y l IH]; intros x t; [reflexivity|].
  destruct l as [|z l].
  - cbn [app]. rewrite !concat_cons_more. cbn [String.concat].
    rewrite !append_assoc. reflexivity.
  - cbn [app] in *. rewrite !concat_cons_more, IH, !append_assoc.
    reflexivity.
Qed.

Lemma prefix_append_l sub : forall s t,
  String.prefix sub s = true -> String.prefix sub (String.append s t) = true.
Proof.
  induction sub as [|c sub IH]; intros s t H; [apply prefix_empty|].
  destruct s as [|x s]; [discriminate|]. cbn [String.append String.prefix] in *.
  destruct (Ascii.ascii_dec c x); [apply IH; exact H|discriminate].
Qed.

Lemma Contains_append_l s t sub :
  Contains s sub = true -> Contains (String.append s t) sub = true.
Proof.
  induction s as [|x s IH]; intros H.
  - change (Contains "" sub) with (String.prefix sub "" || false) in H.
    rewrite orb_false_r in H. apply Contains_head.
    exact (prefix_append_l sub "" t H).
  - rewrite Contains_cons in H. cbn [String.append]. rewrite Contains_cons.
    apply orb_true_iff in H. apply orb_true_iff. destruct H as [H|H].
    + left. exact (prefix_append_l sub (String x s) t H).
    + right. exact (IH H).
Qed.

Lemma no_space_newline x :
  Contains x " " = false ->
  Contains (String.append x (String "010"%char "")) " " = false.
Proof. intros H. apply no_space_append; [exact H|reflexivity]. Qed.

(** The ids that the catalog reads from the message of a backup as the
    tag object holds it, with its final line break. *)
Lemma scan_stored ps :
  (forall p, In p ps ->
     Contains (fst p) " " = false /\ Contains (snd p) " " = false) ->
  List_.scanParts
    (SplitByte " "
       (String.append
          (String.append "Backup tag for "
             (String.append "Backup PlainID configuration for:"
                (String.concat "" (map pairText ps))))
          (String "010"%char ""))) [] []
  = (map fst ps,
     match ps with
     | [] => []
     | _ :: _ =>
         removelast (map snd ps)
         ++ [String.append (last (map snd ps) "") (String "010"%char "")]
     end).
Proof.
  intros Hps.
  destruct ps as [|p0 ps0]; [reflexivity|].
  destruct (@exists_last _ (p0 :: ps0)) as (ps' & [e x] & Eq);
    [discriminate|].
  rewrite Eq in *. clear Eq p0 ps0.
  assert (Hps' : forall p, In p ps' ->
            Contains (fst p) " " = false /\ Contains (snd p) " " = false).
  { intros p Hp. apply Hps. apply in_or_app. left. exact Hp. }
  destruct (Hps (e, x)) as [He Hx];
    [apply in_or_app; right; left; reflexivity|]. cbn [fst snd] in He, Hx.
  rewrite !map_app. cbn [map fst snd].
  rewrite removelast_last, last_last.
  assert (Em :
    String.append
      (String.append "Backup tag for "
         (String.append "Backup PlainID configuration for:"
            (String.concat "" (map pairText ps' ++ [pairText (e, x)]))))
      (String "010"%char "")
    = String.append
        (String.append
           (String.append "Backup tag for "
              (String.append "Backup PlainID configuration for:"
                 (String.concat "" (map pairText ps'))))
           (String " " (String.append "env:" e)))
        (String " " (String.append "ws:"
                       (String.append x (String "010"%char ""))))).
  { rewrite concat_empty_app, concat_empty_cons.
    change (String.concat "" []) with "". rewrite append_nil_r.
    unfold pairText. cbn [fst snd].
    change (String " " ?y) with (String.append " " y).
    rewrite <- !append_assoc. reflexivity. }
  rewrite Em. clear Em.
  rewrite SplitByte_sep, SplitByte_sep.
  rewrite message_words by exact Hps'.
  rewrite (SplitByte_word (String.append "env:" e))
    by (apply no_space_append; [reflexivity|exact He]).
  rewrite SplitByte_word.
  2:{ apply no_space_append; [reflexivity|].
      apply no_space_newline. exact Hx. }
  rewrite !scanParts_app.
  cbn [app List_.scanParts].
  change (HasPrefix "Backup" "env:") with false.
  change (HasPrefix "Backup" "ws:") with false.
  change (HasPrefix "tag" "env:") with false.
  change (HasPrefix "tag" "ws:") with false.
  change (HasPrefix "for" "env:") with false.
  change (HasPrefix "for" "ws:") with false.
  change (HasPrefix "PlainID" "env:") with false.
  change (HasPrefix "PlainID" "ws:") with false.
  change (HasPrefix "configuration" "env:") with false.
  change (HasPrefix "configuration" "ws:") with false.
  change (HasPrefix "for:" "env:") with false.
  change (HasPrefix "for:" "ws:") with false.
  cbn iota. rewrite scanParts_pairs. cbn [fst snd app].
  destruct (env_word e) as [E1 E2].
  destruct (ws_word (String.append x (String "010"%char "")))
    as (W1 & W2 & W3).
  rewrite E1, E2. cbn iota. rewrite W1, W2, W3. reflexivity.
Qed.
End StoredMessage.

Lemma Join_stored (l : list string) :
  l <> [] ->
  Strings.Join
    (removelast l ++ [String.append (last l "") (String "010"%char "")]) ","
  = String.append (Strings.Join l ",") (String "010"%char "").
Proof.
  intros N. rewrite Join_last.
  rewrite <- (app_removelast_last "" N). reflexivity.
Qed.

(** X13: The catalog lists the tag of a backup with a line break in its
    last workspace id.  The git library stores the message of a tag
    without surrounding white space and ended by a line break; so, for
    a tag that a run of the backup creates at a valid time, for a scope
    whose ids hold no space, the tag object carries the message of the
    run followed by a line break.  The catalog (without a filter, or
    filtered by one of the run's pairs) lists that tag under the time
    of the run truncated to the second, with the environment ids of
    the run's pairs in the order of processing, joined by commas, so
    that an environment id is repeated once for each of its
    workspaces; the workspace ids are joined in the same way, and the
    line break of the message stays at the end of the last one. *)
Theorem catalog_reads_back_backup_tag :
  forall (h : Host) (c : Config.Config) (s s' : State) (r : outcome unit)
         (d : list Event) (n m : string)
         (opts : List_.listOptions) (acc : list List_.tagInfo),
    Time.valid (now h) ->
    (forall p, In p (Backup.scopePairs (Config.Envs c)) ->
       Strings.Contains (fst p) " " = false /\
       Strings.Contains (snd p) " " = false) ->
    Backup.RunE h c s = (s', r) ->
    trace s' = trace s ++ d ->
    In (EvGit (GitCreateTag n m) true) d ->
    List_.filterOn opts = false \/
    In (List_.envID opts, List_.wsID opts)
       (Backup.scopePairs (Config.Envs c)) ->
    let stored := String.append m (String "010"%char "") in
    List_.visitTag opts (mkTagRef n (Some stored)) acc
    = acc ++
      [List_.mkTagInfo n
         (Strings.Join (map fst (Backup.scopePairs (Config.Envs c))) ",")
         (String.append
            (Strings.Join (map snd (Backup.scopePairs (Config.Envs c))) ",")
            (match Backup.scopePairs (Config.Envs c) with
             | [] => ""
             | _ :: _ => String "010"%char ""
             end))
         n (Time.truncSecond (now h)) stored].
Proof.
  intros h c s s' r d n m opts acc Hv Hps E T Hin Hf stored.
  destruct (RunE_tag h c _ _ _ E) as (d' & T' & F & _).
  rewrite T in T'. apply app_inv_head in T'. subst d'.
  rewrite Forall_forall in F.
  destruct (F _ Hin n m true eq_refl) as [-> ->].
  unfold List_.visitTag. cbn [tagName List_.messageOf tagMessage].
  rewrite (Parse_Format _ Hv).
  assert (K : List_.keeps opts stored = true).
  { unfold List_.keeps. destruct Hf as [->|Hp]; [reflexivity|].
    destruct (List_.filterOn opts); [|reflexivity].
    destruct (Contains_pairs _ _ _ Hp) as [K1 K2].
    apply andb_true_iff. unfold stored, Backup.expectedMessage.
    split; apply Contains_append_l, Contains_append_r, Contains_append_r;
      assumption. }
  rewrite K. cbn [negb].
  unfold stored at 1, Backup.expectedMessage at 1.
  change (fun p : string * string =>
            String.append " env:"
              (String.append (fst p) (String.append " ws:" (snd p))))
    with pairText.
  rewrite (scan_stored _ Hps).
  destruct (Backup.scopePairs (Config.Envs c)) as [|p ps] eqn:Eps.
  - cbn [map]. rewrite append_nil_r. reflexivity.
  - rewrite Join_stored by discriminate. reflexivity.
Qed.

Lemma catalog_reads_back_backup_tag_witness :
  List_.visitTag (List_.mkListOptions "e1" "w1")
    (mkTagRef "20230115-120000"
       (Some (String.append
                "Backup tag for Backup PlainID configuration for: env:e1 ws:w1"
                (String "010"%char ""))))
    []
  = [List_.mkTagInfo "20230115-120000" "e1"
       (String.append "w1" (String "010"%char ""))
       "20230115-120000"
       (Time.mk 2023 1 15 12 0 0 0)
       (String.append
          "Backup tag for Backup PlainID configuration for: env:e1 ws:w1"
          (String "010"%char ""))].
Proof.
  apply (catalog_reads_back_backup_tag Demo.host (Demo.resolved false)
           Demo.start
           (fst (Backup.RunE Demo.host (Demo.resolved false) Demo.start))
           (snd (Backup.RunE Demo.host (Demo.resolved false) Demo.start))
           (trace (fst (Backup.RunE Demo.host (Demo.resolved false)
                          Demo.start)))
           "20230115-120000"
           "Backup tag for Backup PlainID configuration for: env:e1 ws:w1"
           (List_.mkListOptions "e1" "w1") []).
  - vm_compute. repeat split; try discriminate; reflexivity.
  - intros p Hp. vm_compute in Hp. destruct Hp as [<-|[]].
    split; reflexivity.
  - apply surjective_pairing.
  - reflexivity.
  - vm_compute. repeat first [left; reflexivity | right].
  - right. vm_compute. left. reflexivity.
Defined.

(* ================================================================= *)
(** ** What a backup leaves alone *)

Section Frames.
Import FS.

Lemma lookup_empty_dir x q : lookup (x :: q) (Dir []) = None.
Proof. reflexivity. Qed.

(** [mkdirAll] leaves alone what lies beside the created path. *)
Lemma mkdirAll_frame p : forall n n' q,
  mkdirAll p n = Some n' -> diverge q p -> lookup q n' = lookup q n.
Proof.
  induction p as [|x p IH]; intros n n' q E [D1 D2]; [discriminate|].
  destruct n as [d0|es]; [discriminate|].
  destruct q as [|z q]; [discriminate|].
  rewrite isPrefix_cons in D1, D2.
  rewrite mkdirAll_cons in E.
  destruct (mkdirAll p _) as [c'|] eqn:Ec; [|discriminate].
  inversion E; subst n'. rewrite !lookup_cons.
  destruct (String.eqb_spec x z) as [<-|Nz].
  - rewrite assoc_put_same. rewrite String.eqb_refl in D1. simpl in D1, D2.
    rewrite (IH _ _ q Ec (conj D1 D2)).
    destruct (assoc x es); [reflexivity|].
    destruct q; [discriminate|reflexivity].
  - rewrite assoc_put_other by exact Nz. reflexivity.
Qed.

(** [writeFile] leaves alone what lies beside the written path. *)
Lemma writeFile_frame p : forall d n n' q,
  writeFile p d n = Some n' -> diverge q p -> lookup q n' = lookup q n.
Proof.
  induction p as [|x p IH]; intros d n n' q E [D1 D2]; [discriminate|].
  destruct n as [d0|es]; [destruct p; simpl in E; discriminate|].
  destruct q as [|z q]; [discriminate|].
  rewrite isPrefix_cons in D1, D2.
  destruct p as [|y p].
  - simpl in E.
    assert (n' = Dir (put x (File d) es)) as ->
      by (destruct (assoc x es) as [[|]|]; inversion E; reflexivity).
    rewrite !lookup_cons.
    destruct (String.eqb_spec x z) as [<-|Nz].
    + simpl in D2. discriminate.
    + rewrite assoc_put_other by exact Nz. reflexivity.
  - rewrite writeFile_deep in E.
    destruct (assoc x es) as [c|] eqn:Ea; [|discriminate].
    destruct (writeFile (y :: p) d c) as [c'|] eqn:Ec; [|discriminate].
    inversion E; subst n'. rewrite !lookup_cons.
    destruct (String.eqb_spec x z) as [<-|Nz].
    + rewrite assoc_put_same, Ea. rewrite String.eqb_refl in D1.
      eapply IH; [exact Ec|]. split; assumption.
    + rewrite assoc_put_other by exact Nz. reflexivity.
Qed.

(** [removeAll] leaves alone what lies beside the removed path. *)
Lemma removeAll_frame p : forall n n' q,
  removeAll p n = Some n' -> diverge q p -> lookup q n' = lookup q n.
Proof.
  induction p as [|x p IH]; intros n n' q E [D1 D2]; [discriminate|].
  destruct n as [d0|es]; [destruct p; simpl in E; discriminate|].
  destruct q as [|z q]; [discriminate|].
  rewrite isPrefix_cons in D1, D2.
  destruct p as [|y p].
  - simpl in E. inversion E; subst n'. rewrite !lookup_cons.
    destruct (String.eqb_spec x z) as [<-|Nz].
    + simpl in D2. discriminate.
    + rewrite assoc_del_other by exact Nz. reflexivity.
  - rewrite removeAll_deep in E.
    destruct (assoc x es) as [c|] eqn:Ea; [|inversion E; reflexivity].
    destruct (removeAll (y :: p) c) as [c'|] eqn:Ec; [|discriminate].
    inversion E; subst n'. rewrite !lookup_cons.
    destruct (String.eqb_spec x z) as [<-|Nz].
    + rewrite assoc_put_same, Ea. rewrite String.eqb_refl in D1.
      eapply IH; [exact Ec|]. split; assumption.
    + rewrite assoc_put_other by exact Nz. reflexivity.
Qed.
End Frames.

Section ServiceKeepsTrees.
Variable h : Host.
Context (R : State -> State -> Prop) `{HR : Steady R}.

Lemma preserves_forEachIdx {A} (xs : list A) body : forall i,
  (forall j x, preserves R (body j x)) ->
  preserves R (forEachIdx i xs body).
Proof.
  induction xs as [|x xs IH]; intros i Hb; simpl.
  - apply preserves_ret; exact _.
  - apply preserves_bind; [exact _|apply Hb|].
    intros _. apply IH. exact Hb.
Qed.

Lemma preserves_collect {A B} (xs : list A) (body : A -> M (list B)) :
  (forall x, preserves R (body x)) -> preserves R (collect xs body).
Proof.
  intros Hb. induction xs as [|x xs IH]; simpl.
  - apply preserves_ret; exact _.
  - apply preserves_bind; [exact _|apply Hb|intros ys].
    apply preserves_bind; [exact _|exact IH|intros zs].
    apply preserves_ret; exact _.
Qed.

Lemma preserves_appInfoPages fuel : forall envID wsID offset acc,
  preserves R (Service.appInfoPages h fuel envID wsID offset acc).
Proof.
  induction fuel as [|fuel IH]; intros envID wsID offset acc; simpl.
  - apply preserves_outOfFuel; exact _.
  - apply preserves_bind; [exact _|apply preserves_get; exact _|].
    intros resp. destruct (Service.stops _ _);
      [apply preserves_ret; exact _|apply IH].
Qed.

Lemma preserves_Applications envID wsID :
  preserves R (Service.Applications h envID wsID).
Proof.
  unfold Service.Applications.
  apply preserves_bind; [exact _|apply preserves_appInfoPages|].
  intros infos. apply preserves_collect. intros info.
  apply preserves_bind; [exact _|apply preserves_get; exact _|].
  intros app. apply preserves_ret; exact _.
Qed.

Lemma preserves_AppPolicies envID wsID appID :
  preserves R (Service.AppPolicies h envID wsID appID).
Proof.
  unfold Service.AppPolicies.
  apply preserves_bind; [exact _|apply preserves_get; exact _|].
  intros pols. apply preserves_collect. intros pol.
  destruct (String.eqb _ _); [apply preserves_ret; exact _|].
  apply preserves_bind; [exact _|apply preserves_get; exact _|].
  intros body. apply preserves_ret; exact _.
Qed.

Lemma preserves_PAAGroups envID :
  preserves R (Service.PAAGroups h envID).
Proof.
  unfold Service.PAAGroups.
  apply preserves_bind;
    [exact _|apply preserves_wrapErr, preserves_get; exact _|].
  intros groups. apply preserves_collect. intros g.
  apply preserves_bind;
    [exact _|apply preserves_wrapErr, preserves_get; exact _|].
  intros sources.
  apply preserves_bind;
    [exact _|apply preserves_wrapErr, preserves_get; exact _|].
  intros views. apply preserves_ret; exact _.
Qed.

Lemma preserves_AsJSON a : preserves R (Service.AsJSON h a).
Proof.
  unfold Service.AsJSON. destruct (Plainid.marshalApp _ _);
    [apply preserves_ret|apply preserves_fail]; exact _.
Qed.

Lemma preserves_ToJSON g : preserves R (Service.ToJSON h g).
Proof.
  unfold Service.ToJSON. destruct (Plainid.marshalPAAGroup _ _);
    [apply preserves_ret|apply preserves_fail]; exact _.
Qed.
End ServiceKeepsTrees.

Section BackupFrame.
Variable h : Host.
Variable c : Config.Config.

Lemma preserves_MkdirAll_besides p :
  preserves (besides p) (OS.MkdirAll h Scratch p).
Proof.
  apply preserves_update; [exact _|].
  intros s n' E. split; [reflexivity|]. simpl. intros q Dq.
  eapply mkdirAll_frame; eauto.
Qed.

Lemma preserves_WriteFile_besides p d :
  preserves (besides p) (OS.WriteFile h Scratch p d).
Proof.
  apply preserves_update; [exact _|].
  intros s n' E. split; [reflexivity|]. simpl. intros q Dq.
  eapply writeFile_frame; eauto.
Qed.

Lemma preserves_RemoveAll_besides p :
  preserves (besides p) (OS.RemoveAll h Scratch p).
Proof.
  apply preserves_update; [exact _|].
  intros s n' E. split; [reflexivity|]. simpl. intros q Dq.
  eapply removeAll_frame; eauto.
Qed.

Lemma preserves_under {A} dir r (m : M A) :
  preserves (besides (dir ++ r)) m -> preserves (besides dir) m.
Proof. apply preserves_weaken. intros s s'. apply besides_under. Qed.

Lemma preserves_write_under dir name d ctx :
  preserves (besides dir)
    (wrapErr ctx (OS.WriteFile h Scratch (dir ++ [name]) d)).
Proof.
  apply preserves_wrapErr; try exact _.
  apply (preserves_under dir [name]), preserves_WriteFile_besides.
Qed.

Lemma preserves_fetchPlainIDEnvStuff envDir envID :
  preserves (besides envDir)
    (Backup.fetchPlainIDEnvStuff h c envDir envID).
Proof.
  unfold Backup.fetchPlainIDEnvStuff.
  destruct (Config.FindEnvironment c envID) as [env|];
    [|apply preserves_fail; exact _].
  apply preserves_bind; [exact _| |intros _].
  { apply preserves_forEach; [exact _|]. intros identity _.
    apply preserves_bind; [exact _| |intros t].
    - apply preserves_wrapErr; try exact _.
      apply preserves_get; exact _.
    - apply preserves_write_under. }
  apply preserves_bind; [exact _| |intros groups].
  { apply preserves_wrapErr; try exact _. apply preserves_PAAGroups; exact _. }
  apply preserves_forEach; [exact _|]. intros g _.
  apply preserves_bind; [exact _| |intros j].
  - apply preserves_wrapErr; try exact _. apply preserves_ToJSON; exact _.
  - apply preserves_write_under.
Qed.

Lemma preserves_fetchPlainIDWSStuff wsDir envID wsID :
  preserves (besides wsDir)
    (Backup.fetchPlainIDWSStuff h c wsDir envID wsID).
Proof.
  unfold Backup.fetchPlainIDWSStuff.
  apply preserves_bind; [exact _| |intros apps].
  { apply preserves_wrapErr; try exact _. apply preserves_Applications; exact _. }
  apply preserves_bind; [exact _| |intros ids].
  { apply preserves_wrapErr; try exact _. apply preserves_get; exact _. }
  apply preserves_bind; [exact _| |intros _].
  { apply preserves_forEachIdx; try exact _. intros i id.
    apply preserves_bind; [exact _| |intros t].
    - apply preserves_wrapErr; try exact _. apply preserves_get; exact _.
    - apply preserves_write_under. }
  destruct (Config.FindEnvironment c envID) as [env|];
    [|apply preserves_fail; exact _].
  apply preserves_forEach; [exact _|]. intros app _.
  apply (preserves_under wsDir [Plainid.AppName app]).
  apply preserves_bind; [exact _| |intros _].
  { apply preserves_wrapErr; try exact _. apply preserves_MkdirAll_besides. }
  apply preserves_bind; [exact _| |intros j].
  { apply preserves_wrapErr; try exact _. apply preserves_AsJSON; exact _. }
  apply preserves_bind; [exact _|apply preserves_write_under|intros _].
  apply preserves_bind; [exact _| |intros policies].
  { apply preserves_wrapErr; try exact _. apply preserves_AppPolicies; exact _. }
  apply preserves_bind; [exact _| |intros _].
  { apply preserves_forEachIdx; try exact _. intros i policy.
    apply preserves_write_under. }
  apply preserves_bind; [exact _| |intros m].
  { apply preserves_wrapErr; try exact _. apply preserves_get; exact _. }
  apply preserves_write_under.
Qed.

Lemma preserves_clearWorkspace wsDir :
  preserves (besides wsDir) (Backup.clearWorkspace h wsDir).
Proof.
  unfold Backup.clearWorkspace.
  apply preserves_bind; [exact _| |intros _];
    (apply preserves_wrapErr; try exact _).
  - apply preserves_RemoveAll_besides.
  - apply preserves_MkdirAll_besides.
Qed.

Lemma preserves_clearEnvironment envDir :
  preserves (besides envDir) (Backup.clearEnvironment h envDir).
Proof.
  unfold Backup.clearEnvironment.
  apply preserves_bind; [exact _| |intros _];
    (apply preserves_wrapErr; try exact _).
  - apply preserves_MkdirAll_besides.
  - intros s s' o E. unfold Backup.removeFilesOnly in E.
    exact (preserves_removeFilesOnlyF_besides h _ _ _ _ _ E).
Qed.

Lemma preserves_processWorkspaces envDir envID wss : forall msg,
  preserves (besides envDir)
    (Backup.processWorkspaces h c envDir envID wss msg).
Proof.
  induction wss as [|ws rest IH]; intros msg; simpl.
  - apply preserves_ret; exact _.
  - apply preserves_bind; [exact _| |intros _].
    { apply (preserves_under envDir [Config.WsName ws]).
      apply preserves_clearWorkspace. }
    apply preserves_bind; [exact _| |intros _; apply IH].
    apply preserves_wrapErr; try exact _.
    apply (preserves_under envDir [Config.WsName ws]).
    apply preserves_fetchPlainIDWSStuff.
Qed.

Lemma preserves_processEnvironment env msg :
  preserves (besides (Backup.envDirOf env))
    (Backup.processEnvironment h c env msg).
Proof.
  unfold Backup.processEnvironment.
  apply preserves_bind; [exact _|apply preserves_clearEnvironment|].
  intros _. apply preserves_bind; [exact _| |intros _].
  - apply preserves_wrapErr; try exact _.
    apply preserves_fetchPlainIDEnvStuff.
  - apply preserves_processWorkspaces.
Qed.
End BackupFrame.

(** X14: A backup leaves alone what lies beside the directories of its
    scope: the loop over the environments, however it ends, does not
    change the disk, and in the clone of the repository every path that
    neither lies in nor above the directory [<name>_<id>] of an
    environment of the scope holds what it held before (a name is one
    path component).  So the directories of other environments and the
    files at the root of the repository are carried over to the commit
    as the clone had them. *)
Theorem backup_changes_only_scope_directories :
  forall (h : Host) (c : Config.Config) (envs : list Config.Environment)
         (msg : string) (s s' : State) (o : outcome string),
    Backup.processEnvironments h c envs msg s = (s', o) ->
    disk s' = disk s /\
    forall q, (forall env, In env envs -> diverge q (Backup.envDirOf env)) ->
              FS.lookup q (scratch s') = FS.lookup q (scratch s).
Proof.
  intros h c envs. induction envs as [|env rest IH]; intros msg s s' o E.
  - inversion E; subst. split; reflexivity.
  - simpl in E. rewrite bind_run in E.
    destruct (Backup.processEnvironment h c env msg s) as [s1 o1] eqn:E1.
    destruct (preserves_processEnvironment h c env msg _ _ _ E1) as [D1 F1].
    assert (Hs1 : disk s1 = disk s /\
              forall q, (forall e, In e (env :: rest) ->
                                   diverge q (Backup.envDirOf e)) ->
                FS.lookup q (scratch s1) = FS.lookup q (scratch s)).
    { split; [exact D1|]. intros q Hq. apply F1, Hq. left; reflexivity. }
    destruct o1 as [msg1| |]; try (inversion E; subst; exact Hs1).
    destruct (IH _ _ _ _ E) as [D2 F2]. split; [congruence|].
    intros q Hq. rewrite F2 by (intros e He; apply Hq; right; exact He).
    apply F1, Hq. left; reflexivity.
Qed.

Lemma backup_changes_only_scope_directories_witness :
  FS.lookup ["staging_e2"; "application.json"]
    (scratch
       (fst (Backup.processEnvironments Demo.host (Demo.resolved false)
               (Config.Envs (Demo.resolved false)) "Backup:"
               (mkState
                  (FS.Dir [("README.md", FS.File "notes");
                           ("staging_e2",
                            FS.Dir [("application.json", FS.File "old")])])
                  (FS.Dir []) []))))
  = Some (FS.File "old").
Proof.
  destruct (backup_changes_only_scope_directories Demo.host
              (Demo.resolved false) (Config.Envs (Demo.resolved false))
              "Backup:"
              (mkState
                 (FS.Dir [("README.md", FS.File "notes");
                          ("staging_e2",
                           FS.Dir [("application.json", FS.File "old")])])
                 (FS.Dir []) [])
              _ _ (surjective_pairing _)) as [_ F].
  rewrite F; [reflexivity|].
  intros env Hin. vm_compute in Hin. destruct Hin as [<-|[]].
  vm_compute. split; reflexivity.
Defined.

(* ================================================================= *)
(** ** What the service returns *)

Section ServiceResults.
Import Plainid.
Variable h : Host.

Lemma get_run {A} r (ans : result A) s s' a :
  Service.get r ans s = (s', Done a) ->
  ans = Ok a /\ scratch s' = scratch s /\ disk s' = disk s /\
  trace s' = trace s ++ [EvGet r true].
Proof.
  destruct ans as [x|msg]; intros E; inversion E; subst; simpl.
  repeat split.
Qed.

Lemma policies_loop envID wsID pols : forall s s' bodies,
  collect pols (fun pol =>
    if String.eqb (PolState pol) "Inactive" then ret []
    else
      body <- Service.get (ReqPolicy envID wsID (PolID pol))
                (getPolicy (api h) envID wsID (PolID pol)) ;;
      ret [body]) s = (s', Done bodies) ->
  Forall2 (fun pol body => getPolicy (api h) envID wsID (PolID pol) = Ok body)
          (filter (fun pol => negb (String.eqb (PolState pol) "Inactive")) pols)
          bodies /\
  trace s' = trace s ++
             map (fun pol => EvGet (ReqPolicy envID wsID (PolID pol)) true)
                 (filter (fun pol => negb (String.eqb (PolState pol) "Inactive"))
                         pols).
Proof.
  induction pols as [|pol pols IH]; intros s s' bodies E.
  - inversion E; subst. simpl. rewrite app_nil_r. split; constructor.
  - cbn [collect] in E. rewrite bind_run in E. cbn [filter].
    destruct (String.eqb (PolState pol) "Inactive").
    + cbn [ret negb] in *. rewrite bind_run in E.
      destruct (collect pols _ s) as [s1 [zs| |]] eqn:Ec; try discriminate.
      inversion E; subst. exact (IH _ _ _ Ec).
    + cbn [negb]. rewrite bind_run in E.
      destruct (Service.get _ _ s) as [s1 [b| |]] eqn:Eg; try discriminate.
      apply get_run in Eg. destruct Eg as (Ea & _ & _ & T1).
      cbn [ret] in E. rewrite bind_run in E.
      destruct (collect pols _ s1) as [s2 [zs| |]] eqn:Ec; try discriminate.
      inversion E; subst. destruct (IH _ _ _ Ec) as [F T2].
      split; [constructor; assumption|].
      rewrite T2, T1, <- app_assoc. reflexivity.
Qed.

Lemma collect_Forall {A B} (P : A -> Prop) (Q : B -> Prop)
      (body : A -> M (list B)) (xs : list A) :
  (forall x s s' ys, P x -> body x s = (s', Done ys) -> Forall Q ys) ->
  Forall P xs ->
  forall s s' r, collect xs body s = (s', Done r) -> Forall Q r.
Proof.
  intros Hb. induction xs as [|x xs IH]; intros HP s s' r E.
  - inversion E; subst. constructor.
  - cbn [collect] in E. rewrite bind_run in E.
    destruct (body x s) as [s1 [ys| |]] eqn:Eb; try discriminate.
    rewrite bind_run in E.
    destruct (collect xs body s1) as [s2 [zs| |]] eqn:Ec; try discriminate.
    inversion E; subst. inversion HP; subst.
    apply Forall_app. split; [eapply Hb; eauto|eapply IH; eauto].
Qed.

Lemma appInfoPages_workspace envID wsID fuel : forall offset acc s s' infos,
  Forall (fun i => InfoWSID i = wsID) acc ->
  Service.appInfoPages h fuel envID wsID offset acc s = (s', Done infos) ->
  Forall (fun i => InfoWSID i = wsID) infos.
Proof.
  induction fuel as [|fuel IH]; intros offset acc s s' infos Hacc E;
    [discriminate|].
  cbn [Service.appInfoPages] in E. rewrite bind_run in E.
  destruct (Service.get _ _ s) as [s1 [resp| |]]; try discriminate.
  assert (Hacc' : Forall (fun i => InfoWSID i = wsID)
            (acc ++ filter (fun app => String.eqb (InfoWSID app) wsID)
                           (Data resp))).
  { apply Forall_app. split; [exact Hacc|].
    apply Forall_forall. intros i Hi. apply filter_In in Hi.
    apply String.eqb_eq. exact (proj2 Hi). }
  destruct (Service.stops _ _).
  - inversion E; subst. exact Hacc'.
  - exact (IH _ _ _ _ _ Hacc' E).
Qed.

End ServiceResults.

(** X15: [Service.AppPolicies], when it succeeds, has asked for the list of
    the policies of the application and then, in the order of that
    list, for the text of every policy whose state is not [Inactive],
    and for no other; it returns these texts in that order. *)
Theorem AppPolicies_skips_inactive :
  forall (h : Host) (envID wsID appID : string) (s s' : State)
         (bodies : list string),
    Service.AppPolicies h envID wsID appID s = (s', Done bodies) ->
    exists pols,
      Plainid.getPolicyList (api h) envID appID = Ok pols /\
      let active :=
        filter (fun pol =>
                  negb (String.eqb (Plainid.PolState pol) "Inactive"))
               (Plainid.PolData pols) in
      Forall2 (fun pol body =>
                 Plainid.getPolicy (api h) envID wsID (Plainid.PolID pol)
                 = Ok body)
              active bodies /\
      trace s' = trace s ++
                 EvGet (Plainid.ReqPolicyList envID appID) true ::
                 map (fun pol =>
                        EvGet (Plainid.ReqPolicy envID wsID
                                 (Plainid.PolID pol)) true)
                     active.
Proof.
  intros h envID wsID appID s s' bodies E.
  unfold Service.AppPolicies in E. rewrite bind_run in E.
  destruct (Service.get _ _ s) as [s1 [pols| |]] eqn:Eg; try discriminate.
  apply get_run in Eg. destruct Eg as (Ea & _ & _ & T1).
  exists pols. split; [exact Ea|].
  destruct (policies_loop h envID wsID _ _ _ _ E) as [F T2].
  split; [exact F|].
  rewrite T2, T1, <- app_assoc. reflexivity.
Qed.

(** X16: [Service.Applications] returns applications of the asked workspace
    only: every application of a successful call carries the workspace
    id of the call, whatever the pages of the environment list. *)
Theorem Applications_of_the_workspace_only :
  forall (h : Host) (envID wsID : string) (s s' : State)
         (apps : list Plainid.Application),
    Service.Applications h envID wsID s = (s', Done apps) ->
    Forall (fun app => Plainid.AppWSID app = wsID) apps.
Proof.
  intros h envID wsID s s' apps E.
  unfold Service.Applications in E. rewrite bind_run in E.
  destruct (Service.appInfoPages _ _ _ _ _ _ s) as [s1 [infos| |]] eqn:Ep;
    try discriminate.
  apply appInfoPages_workspace in Ep; [|constructor].
  revert E. apply collect_Forall with (P := fun i => Plainid.InfoWSID i = wsID);
    [|exact Ep].
  intros info t t' ys Hi Eb. rewrite bind_run in Eb.
  destruct (Service.get _ _ t) as [t1 [app| |]]; try discriminate.
  inversion Eb; subst. constructor; [reflexivity|constructor].
Qed.

Lemma AppPolicies_skips_inactive_witness :
  trace (fst (Service.AppPolicies Demo.hostMixed "e1" "w1" "a1" Demo.start))
  = [EvGet (Plainid.ReqPolicyList "e1" "a1") true;
     EvGet (Plainid.ReqPolicy "e1" "w1" "p1") true;
     EvGet (Plainid.ReqPolicy "e1" "w1" "p3") true].
Proof.
  destruct (AppPolicies_skips_inactive Demo.hostMixed "e1" "w1" "a1"
              Demo.start
              (fst (Service.AppPolicies Demo.hostMixed "e1" "w1" "a1"
                      Demo.start))
              ["package p1"; "package p3"])
    as (pols & Ea & _ & T).
  - vm_compute. reflexivity.
  - rewrite T. vm_compute in Ea. inversion Ea; subst pols. reflexivity.
Defined.

Lemma Applications_of_the_workspace_only_witness :
  Forall (fun app => Plainid.AppWSID app = "w1")
    [Plainid.mkApplication "w1" "a1" "shop" "{}";
     Plainid.mkApplication "w1" "a3" "shop" "{}"].
Proof.
  apply (Applications_of_the_workspace_only Demo.hostMixed "e1" "w1"
           Demo.start
           (fst (Service.Applications Demo.hostMixed "e1" "w1" Demo.start))).
  vm_compute. reflexivity.
Defined.

(* ================================================================= *)
(** ** The copy of a restore without a filter *)

Lemma copyOut_unfiltered h flags c :
  Restore.restoreEnvID flags = "" \/ Restore.restoreWsID flags = "" ->
  Restore.copyOut h flags c
  = wrapErr "failed to copy configuration"
      (Restore.copyDir h [] (Restore.target flags)).
Proof.
  intros H. unfold Restore.copyOut.
  destruct H as [-> | ->]; simpl; [reflexivity|].
  rewrite andb_false_r. reflexivity.
Qed.

(** X17: The copy of a restore that is not filtered by environment and
    workspace always ends, and when it succeeds on a scratch tree with
    unique names it has mirrored that tree below the target: the
    scratch tree is unchanged, every file of it lies at the same path
    below the target with the same content, the files of the disk
    outside the target are what they were, and every file that the
    disk has gained is a file of the scratch tree at its path below
    the target. *)
Theorem unfiltered_restore_mirrors_the_tree :
  forall (h : Host) (flags : Restore.Flags) (c : Config.Config),
    Restore.restoreEnvID flags = "" \/ Restore.restoreWsID flags = "" ->
    ends (Restore.copyOut h flags c) /\
    forall s s',
      FS.wfb (scratch s) = true ->
      Restore.copyOut h flags c s = (s', Done tt) ->
      scratch s' = scratch s /\
      (forall p d,
         FS.lookup p (scratch s) = Some (FS.File d) ->
         FS.lookup (Restore.target flags ++ p) (disk s')
         = Some (FS.File d)) /\
      (forall q d,
         FS.isPrefix (Restore.target flags) q = false ->
         FS.lookup q (disk s) = Some (FS.File d) ->
         FS.lookup q (disk s') = Some (FS.File d)) /\
      (forall q d,
         FS.lookup q (disk s') = Some (FS.File d) ->
         FS.lookup q (disk s) = Some (FS.File d) \/
         exists p, q = Restore.target flags ++ p /\
                   FS.lookup p (scratch s) = Some (FS.File d)).
Proof.
  intros h flags c Hf. rewrite (copyOut_unfiltered h flags c Hf).
  split; [apply ends_wrapErr, ends_copyDir|].
  intros s s' W E. apply wrapErr_Done' in E.
  destruct (preserves_copyDir_outside h _ _ _ _ _ E) as [S1 Hout].
  split; [exact S1|]. split; [|split].
  - intros p d L. exact (copyDir_Done h [] _ _ _ E W p d L).
  - exact Hout.
  - intros q d L.
    destruct (preserves_copyDir_copies h (scratch s) []
                (Restore.target flags) _ _ _ E eq_refl) as [_ F].
    exact (F _ _ L).
Qed.

Lemma unfiltered_restore_mirrors_the_tree_witness :
  FS.lookup ["out"; "prod_e1"; "main"; "shop"; "application.json"]
    (disk (fst (Restore.copyOut Demo.host Demo.flags (Demo.resolved true)
                  (mkState Demo.snapshot (FS.Dir []) []))))
  = Some (FS.File "{}").
Proof.
  destruct (proj2 (unfiltered_restore_mirrors_the_tree Demo.host Demo.flags
                     (Demo.resolved true) (or_introl eq_refl))
              (mkState Demo.snapshot (FS.Dir []) [])
              (fst (Restore.copyOut Demo.host Demo.flags (Demo.resolved true)
                      (mkState Demo.snapshot (FS.Dir []) []))))
    as (_ & Hall & _).
  - reflexivity.
  - vm_compute. reflexivity.
  - apply (Hall ["prod_e1"; "main"; "shop"; "application.json"]).
    reflexivity.
Defined.

(* ================================================================= *)
(** ** What a backup writes for an environment *)

Lemma length_append a b :
  String.length (String.append a b) = String.length a + String.length b.
Proof. induction a as [|x a IH]; simpl; [|rewrite IH]; reflexivity. Qed.

Lemma append_cancel_r s : forall a b,
  String.append a s = String.append b s -> a = b.
Proof.
  induction a as [|x a IH]; intros [|y b] E; simpl in E.
  - reflexivity.
  - apply (f_equal String.length) in E. simpl in E.
    rewrite length_append in E. lia.
  - apply (f_equal String.length) in E. simpl in E.
    rewrite length_append in E. lia.
  - inversion E; subst. f_equal. apply IH. assumption.
Qed.

Lemma identity_file_inj i j :
  Backup.cat ["identity-template-"; i; ".json"]
  = Backup.cat ["identity-template-"; j; ".json"] -> i = j.
Proof.
  unfold Backup.cat. simpl. intros E. inversion E as [E'].
  exact (append_cancel_r _ _ _ E').
Qed.

Lemma identity_file_not_group i g :
  Backup.cat ["identity-template-"; i; ".json"]
  <> Backup.cat ["paa-group_"; g; ".json"].
Proof. unfold Backup.cat. simpl. discriminate. Qed.

Lemma app_last_inj {A} (l : list A) a b : l ++ [a] = l ++ [b] -> a = b.
Proof. intros E. apply app_inv_head in E. inversion E. reflexivity. Qed.

Section EnvironmentFiles.
Variable h : Host.
Variable c : Config.Config.
Variable envDir : FS.path.
Variable envID : string.

(** The file of an identity holds the template the service returns. *)
Let saved (i : string) (s : State) : Prop :=
  exists t,
    Plainid.getIdentityTemplate (api h) envID i = Ok t /\
    FS.lookup (envDir ++ [Backup.cat ["identity-template-"; i; ".json"]])
              (scratch s) = Some (FS.File t).

Lemma WriteFile_run p d ctx s s' :
  wrapErr ctx (OS.WriteFile h Scratch p d) s = (s', Done tt) ->
  FS.lookup p (scratch s') = Some (FS.File d) /\
  forall q d', q <> p -> FS.lookup q (scratch s) = Some (FS.File d') ->
               FS.lookup q (scratch s') = Some (FS.File d').
Proof.
  intros E. apply wrapErr_Done', update_Done in E. simpl in E.
  destruct E as [E _]. split.
  - eapply writeFile_lookup; eauto.
  - intros q d' N L. eapply writeFile_keeps; eauto.
Qed.

Lemma identity_step i s s' :
  (identityTemplates <-
     wrapErr "failed to fetch app identity templates"
       (Service.IdentityTemplates h envID i) ;;
   wrapErr "failed to write identity template"
     (OS.WriteFile h Scratch
        (envDir ++ [Backup.cat ["identity-template-"; i; ".json"]])
        identityTemplates)) s = (s', Done tt) ->
  saved i s' /\ forall j, saved j s -> saved j s'.
Proof.
  intros E. apply bind_Done in E. destruct E as (s1 & t & E1 & E2).
  apply wrapErr_Done' in E1.
  pose proof (preserves_get sameTrees _ _ _ _ _ E1) as [S1 _].
  apply get_Done in E1.
  apply WriteFile_run in E2. destruct E2 as [L K]. rewrite S1 in K.
  split; [exists t; auto|].
  intros j (tj & Aj & Lj).
  destruct (String.eqb_spec i j) as [<-|N].
  - exists t. auto.
  - exists tj. split; [exact Aj|]. apply K; [|exact Lj].
    intros Eq. apply app_last_inj, identity_file_inj in Eq. congruence.
Qed.

Lemma identity_loop l : forall s s',
  forEach l (fun identity =>
    identityTemplates <-
      wrapErr "failed to fetch app identity templates"
        (Service.IdentityTemplates h envID identity) ;;
    wrapErr "failed to write identity template"
      (OS.WriteFile h Scratch
         (envDir ++ [Backup.cat ["identity-template-"; identity; ".json"]])
         identityTemplates)) s = (s', Done tt) ->
  forall i, In i l \/ saved i s -> saved i s'.
Proof.
  induction l as [|x l IH]; intros s s' E i Hi.
  - inversion E; subst. destruct Hi as [[]|Hi]; exact Hi.
  - cbn [forEach] in E. apply bind_Done in E.
    destruct E as (s1 & [] & E1 & E2).
    apply identity_step in E1. destruct E1 as [Hx Hk].
    apply (IH _ _ E2).
    destruct Hi as [[<-|Hi]|Hi]; [right; exact Hx|left; exact Hi|].
    right. apply Hk. exact Hi.
Qed.

Lemma group_loop l : forall s s',
  forEach l (fun paaGroup =>
    paaGroupJSON <- wrapErr "failed to convert PAA group to JSON"
                      (Service.ToJSON h paaGroup) ;;
    wrapErr "failed to write identity template"
      (OS.WriteFile h Scratch
         (envDir ++ [Backup.cat ["paa-group_"; Plainid.GroupID paaGroup;
                                 ".json"]])
         paaGroupJSON)) s = (s', Done tt) ->
  forall i, saved i s -> saved i s'.
Proof.
  induction l as [|g l IH]; intros s s' E i Hi.
  - inversion E; subst. exact Hi.
  - cbn [forEach] in E. apply bind_Done in E.
    destruct E as (s1 & [] & E1 & E2).
    apply (IH _ _ E2).
    apply bind_Done in E1. destruct E1 as (s0 & j & E0 & E1).
    apply wrapErr_Done' in E0.
    pose proof (preserves_ToJSON h sameTrees _ _ _ _ E0) as [S0 _].
    apply WriteFile_run in E1. destruct E1 as [_ K]. rewrite S0 in K.
    destruct Hi as (t & At & Lt). exists t. split; [exact At|].
    apply K; [|exact Lt].
    intros Eq. apply app_last_inj in Eq.
    exact (identity_file_not_group _ _ Eq).
Qed.

(** X18: When the fetch of the environment-level configuration succeeds, the
    environment is one of the configuration and, for each of its
    identities, the file [identity-template-<identity>.json] of the
    environment directory holds the template that the service returns
    for that identity; no later write of the function, for another
    identity or for a PAA group, has replaced it. *)
Theorem backup_saves_identity_templates (s s' : State) :
  Backup.fetchPlainIDEnvStuff h c envDir envID s = (s', Done tt) ->
  exists env,
    Config.FindEnvironment c envID = Some env /\
    forall i, In i (Config.Identities env) ->
      exists t,
        Plainid.getIdentityTemplate (api h) envID i = Ok t /\
        FS.lookup
          (envDir ++ [Backup.cat ["identity-template-"; i; ".json"]])
          (scratch s') = Some (FS.File t).
Proof.
  unfold Backup.fetchPlainIDEnvStuff. intros E.
  destruct (Config.FindEnvironment c envID) as [env|]; [|discriminate].
  exists env. split; [reflexivity|]. intros i Hi.
  apply bind_Done in E. destruct E as (s1 & [] & E1 & E).
  apply bind_Done in E. destruct E as (s2 & groups & E2 & E3).
  apply wrapErr_Done' in E2.
  pose proof (preserves_PAAGroups h sameTrees _ _ _ _ E2) as [S2 _].
  apply (group_loop _ _ _ E3).
  pose proof (identity_loop _ _ _ E1 i (or_introl Hi)) as (t & At & Lt).
  exists t. split; [exact At|]. rewrite S2. exact Lt.
Qed.
End EnvironmentFiles.

Lemma backup_saves_identity_templates_witness :
  FS.lookup ["prod_e1"; "identity-template-User.json"]
    (scratch
       (fst (Backup.fetchPlainIDEnvStuff Demo.host (Demo.resolved false)
               ["prod_e1"] "e1"
               (mkState (FS.Dir [("prod_e1", FS.Dir [])]) (FS.Dir []) []))))
  = Some (FS.File "{}").
Proof.
  destruct (backup_saves_identity_templates Demo.host (Demo.resolved false)
              ["prod_e1"] "e1"
              (mkState (FS.Dir [("prod_e1", FS.Dir [])]) (FS.Dir []) [])
              (fst (Backup.fetchPlainIDEnvStuff Demo.host
                      (Demo.resolved false) ["prod_e1"] "e1"
                      (mkState (FS.Dir [("prod_e1", FS.Dir [])])
                               (FS.Dir []) []))))
    as (env & Ef & Hs).
  - vm_compute. reflexivity.
  - vm_compute in Ef. inversion Ef; subst env.
    destruct (Hs "User" (or_introl eq_refl)) as (t & At & Lt).
    vm_compute in At. inversion At; subst t. exact Lt.
Defined.

(* ================================================================= *)
(** ** What a dry run does *)

Ltac any_event := repeat intro; exact I.

Lemma grows {A} (m : M A) s s' r :
  obeys (fun _ => True) m -> m s = (s', r) ->
  exists d, trace s' = trace s ++ d.
Proof. intros H E. destruct (H _ _ _ E) as (d & T & _). eauto. Qed.

Ltac grow E tac :=
  match type of E with
  | ?m _ = _ =>
      let O := fresh "O" in
      assert (O : obeys (fun _ => True) m) by tac;
      apply (grows _ _ _ _ O) in E
  end.

Section BackupFetches.
Variable h : Host.
Variable c : Config.Config.

(** A listing of the applications that succeeds has asked for the
    first page. *)
Lemma Applications_first_page envID wsID s s' apps :
  Service.Applications h envID wsID s = (s', Done apps) ->
  exists d,
    trace s' = trace s ++ EvGet (Plainid.ReqAppPage envID 50 0) true :: d.
Proof.
  unfold Service.Applications. intros E.
  apply bind_Done in E. destruct E as (s1 & infos & E1 & E2).
  assert (G2 : exists d2, trace s' = trace s1 ++ d2).
  { refine (grows _ _ _ _ _ E2). apply obeys_collect. intros info.
    apply obeys_bind; [apply obeys_get; any_event|intros app].
    apply obeys_ret. }
  destruct G2 as [d2 T2].
  destruct (pageBudget h) as [|fuel]; [discriminate|].
  rewrite appInfoPages_step in E1. cbv zeta in E1.
  destruct (Plainid.getAppPage (api h) envID Service.limit 0)
    as [resp|msg]; [|discriminate].
  destruct (Service.stops 0 resp).
  - inversion E1; subst s1. cbn [trace] in T2.
    exists d2. rewrite T2, <- app_assoc. reflexivity.
  - destruct (grows _ _ _ _
                (obeys_appInfoPages h (fun _ => True) ltac:(any_event)
                   fuel envID wsID _ _) E1) as [d1 T1].
    cbn [trace] in T1. exists (d1 ++ d2).
    rewrite T2, T1, <- !app_assoc. reflexivity.
Qed.

(** The fetch of a workspace that succeeds has listed its applications
    and its asset templates. *)
Lemma fetchPlainIDWSStuff_fetches wsDir envID wsID s s' :
  Backup.fetchPlainIDWSStuff h c wsDir envID wsID s = (s', Done tt) ->
  exists d,
    trace s' = trace s ++ d /\
    In (EvGet (Plainid.ReqAppPage envID 50 0) true) d /\
    In (EvGet (Plainid.ReqAssetTemplateIDs wsID) true) d.
Proof.
  intros E. unfold Backup.fetchPlainIDWSStuff in E.
  apply bind_Done in E. destruct E as (s1 & apps & E1 & E).
  apply bind_Done in E. destruct E as (s2 & ids & E2 & E3).
  apply wrapErr_Done', Applications_first_page in E1.
  destruct E1 as [d1 T1].
  apply wrapErr_Done' in E2. unfold Service.AssetTemplateIDs in E2.
  destruct (Plainid.getAssetTemplateIDs (api h) wsID) as [l|msg];
    [|discriminate].
  rewrite get_Ok in E2. inversion E2; subst s2 ids; clear E2.
  apply bind_Done in E3. destruct E3 as (s3 & [] & E3 & E4).
  match type of E3 with
  | ?m _ = _ => assert (O3 : obeys (fun _ => True) m)
  end.
  { apply obeys_forEachIdx. intros i x.
    apply obeys_bind; [apply obeys_wrapErr, obeys_get; any_event|].
    intros t. apply obeys_wrapErr, obeys_WriteFile. any_event. }
  destruct (grows _ _ _ _ O3 E3) as [d3 T3]. cbn [trace] in T3.
  match type of E4 with
  | ?m _ = _ => assert (O4 : obeys (fun _ => True) m)
  end.
  { destruct (Config.FindEnvironment c envID); [|apply obeys_fail].
    apply obeys_forEach; intro app.
    apply obeys_bind;
      [apply obeys_wrapErr, obeys_MkdirAll; any_event|intros _].
    apply obeys_bind; [apply obeys_wrapErr, obeys_AsJSON|intro].
    apply obeys_bind;
      [apply obeys_wrapErr, obeys_WriteFile; any_event|intros _].
    apply obeys_bind;
      [apply obeys_wrapErr, obeys_AppPolicies; any_event|intro].
    apply obeys_bind.
    { apply obeys_forEachIdx; intros.
      apply obeys_wrapErr, obeys_WriteFile; any_event. }
    intros _.
    apply obeys_bind; [apply obeys_wrapErr, obeys_get; any_event|intro].
    apply obeys_wrapErr, obeys_WriteFile; any_event. }
  destruct (grows _ _ _ _ O4 E4) as [d4 T4].
  exists (EvGet (Plainid.ReqAppPage envID 50 0) true :: d1 ++
          EvGet (Plainid.ReqAssetTemplateIDs wsID) true :: d3 ++ d4).
  split.
  { rewrite T4, T3, T1. repeat (rewrite <- app_assoc; cbn [app]).
    reflexivity. }
  split.
  - left. reflexivity.
  - right. apply in_or_app. right. left. reflexivity.
Qed.
End BackupFetches.

Section ScopeFetched.
Variable h : Host.
Variable c : Config.Config.

(** The requests that open the fetch of the pair [p]. *)
Let fetched (p : string * string) (d : list Event) : Prop :=
  In (EvGet (Plainid.ReqAppPage (fst p) 50 0) true) d /\
  In (EvGet (Plainid.ReqAssetTemplateIDs (snd p)) true) d.

Lemma fetched_app p d1 d d2 : fetched p d -> fetched p (d1 ++ d ++ d2).
Proof.
  intros [H1 H2].
  split; apply in_or_app; right; apply in_or_app; left; assumption.
Qed.

Lemma processWorkspaces_fetches envDir envID wss : forall msg s s' m,
  Backup.processWorkspaces h c envDir envID wss msg s = (s', Done m) ->
  exists d,
    trace s' = trace s ++ d /\
    forall ws, In ws wss -> fetched (envID, Config.WsID ws) d.
Proof.
  induction wss as [|ws rest IH]; intros msg s s' m E.
  - inversion E; subst. exists []. rewrite app_nil_r.
    split; [reflexivity|]. intros ws [].
  - cbn [Backup.processWorkspaces] in E.
    apply bind_Done in E. destruct E as (s1 & [] & E1 & E).
    apply bind_Done in E. destruct E as (s2 & [] & E2 & E3).
    grow E1 ltac:(apply obeys_clearWorkspace; any_event).
    destruct E1 as [d1 T1].
    apply wrapErr_Done', fetchPlainIDWSStuff_fetches in E2.
    destruct E2 as (d2 & T2 & F2).
    destruct (IH _ _ _ _ E3) as (d3 & T3 & F3).
    exists (d1 ++ d2 ++ d3). split.
    + rewrite T3, T2, T1, <- !app_assoc. reflexivity.
    + intros w [<-|Hw].
      * apply fetched_app. exact F2.
      * destruct (F3 w Hw) as [H1 H2].
        split; apply in_or_app; right; apply in_or_app; right; assumption.
Qed.

Lemma processEnvironments_fetches envs : forall msg s s' m,
  Backup.processEnvironments h c envs msg s = (s', Done m) ->
  exists d,
    trace s' = trace s ++ d /\
    forall p, In p (Backup.scopePairs envs) -> fetched p d.
Proof.
  induction envs as [|env rest IH]; intros msg s s' m E.
  - inversion E; subst. exists []. rewrite app_nil_r.
    split; [reflexivity|]. intros p [].
  - cbn [Backup.processEnvironments] in E.
    apply bind_Done in E. destruct E as (s1 & m1 & E1 & E2).
    destruct (IH _ _ _ _ E2) as (d2 & T2 & F2).
    unfold Backup.processEnvironment in E1.
    apply bind_Done in E1. destruct E1 as (s01 & [] & E01 & E1).
    apply bind_Done in E1. destruct E1 as (s02 & [] & E02 & E03).
    grow E01 ltac:(apply obeys_clearEnvironment; any_event).
    destruct E01 as [d01 T01].
    grow E02 ltac:(apply obeys_wrapErr, obeys_fetchPlainIDEnvStuff;
                   any_event).
    destruct E02 as [d02 T02].
    destruct (processWorkspaces_fetches _ _ _ _ _ _ _ E03)
      as (d03 & T03 & F03).
    exists ((d01 ++ d02) ++ d03 ++ d2). split.
    + rewrite T2, T03, T02, T01, <- !app_assoc. reflexivity.
    + intros p Hp. cbn [Backup.scopePairs flat_map] in Hp.
      apply in_app_or in Hp. destruct Hp as [Hp|Hp].
      * apply in_map_iff in Hp. destruct Hp as (ws & <- & Hws).
        apply fetched_app. exact (F03 ws Hws).
      * destruct (F2 p Hp) as [H1 H2].
        split; apply in_or_app; right; apply in_or_app; right; assumption.
Qed.

(** A backup run that succeeds has fetched every pair of its scope,
    committed and tagged. *)
Lemma RunE_fetches s s' :
  Backup.RunE h c s = (s', Done tt) ->
  exists d,
    trace s' = trace s ++ d /\
    (forall p, In p (Backup.scopePairs (Config.Envs c)) -> fetched p d) /\
    In (EvGit (GitCommit (Backup.expectedMessage (Config.Envs c))) true) d /\
    In (EvGit (GitCreateTag (Time.Format (now h))
                 (String.append "Backup tag for "
                    (Backup.expectedMessage (Config.Envs c)))) true) d.
Proof.
  intros E.
  destruct (RunE_Done h c _ _ E) as (d & T & Hc & Ht & _).
  exists d. split; [exact T|]. split; [|split; assumption].
  destruct (RunE_Done_inv h c _ _ E)
    as (s1 & s2 & s3 & isNew & msg & E1 & E2 & E3 & E4).
  grow E1 ltac:(apply obeys_CreateTempDir; any_event).
  destruct E1 as [d1 T1].
  unfold Backup.synchronize in E2.
  apply bind_Done in E2. destruct E2 as (s11 & b & E11 & E2).
  apply bind_Done in E2. destruct E2 as (s12 & [] & E12 & E2).
  apply bind_Done in E2. destruct E2 as (s13 & m13 & E13 & E2).
  inversion E2; subst s13 isNew msg; clear E2.
  grow E11 ltac:(apply obeys_CloneRemote; any_event).
  destruct E11 as [d11 T11].
  grow E12 ltac:(apply obeys_wrapErr, obeys_git; any_event).
  destruct E12 as [d12 T12].
  destruct (processEnvironments_fetches _ _ _ _ _ E13) as (d13 & T13 & F13).
  destruct (record_Done h c _ _ _ _ _ E3) as (d3 & T3 & _).
  assert (T4 : exists d4, trace s' = trace s3 ++ d4).
  { destruct E4 as [->| ->]; [exists []; rewrite app_nil_r; reflexivity|].
    destruct (OS.CleanupTempDir h s3) as [s4 r4] eqn:Ec.
    grow Ec ltac:(apply obeys_CleanupTempDir; any_event). exact Ec. }
  destruct T4 as [d4 T4].
  assert (Ed : d = ((d1 ++ d11) ++ d12) ++ d13 ++ d3 ++ d4).
  { apply (app_inv_head (trace s)). rewrite <- T, T4, T3, T13, T12, T11, T1.
    rewrite <- !app_assoc. reflexivity. }
  intros p Hp. rewrite Ed. apply fetched_app. exact (F13 p Hp).
Qed.
End ScopeFetched.

Section RestoreCopiesNothing.
Variable h : Host.
Variable flags : Restore.Flags.
Variable c : Config.Config.

(** The disk has gained no file. *)
Let same (s s' : State) : Prop :=
  forall q d, FS.lookup q (disk s') = Some (FS.File d) ->
              FS.lookup q (disk s) = Some (FS.File d).

Lemma same_disk s s' : disk s' = disk s -> same s s'.
Proof. intros E q d L. rewrite <- E. exact L. Qed.

Lemma lookup_in_empty p d : FS.lookup p (FS.Dir []) <> Some (FS.File d).
Proof. destruct p; discriminate. Qed.

(** From an empty scratch directory the filtered copy finds no
    environment directory. *)
Lemma filteredCopy_empty s :
  scratch s = FS.Dir [] ->
  disk (fst (Restore.filteredCopy h flags c s)) = disk s.
Proof.
  intros Hs. unfold Restore.filteredCopy. rewrite bind_run.
  destruct (wrapErr _ (OS.ReadDir h Scratch []) s) as [s1 o1] eqn:E1.
  assert (D1 : disk s1 = disk s).
  { unfold wrapErr in E1.
    destruct (OS.ReadDir h Scratch [] s) as [s0 o0] eqn:E0.
    pose proof (preserves_ReadDir sameTrees h _ _ _ _ _ E0) as [_ D0].
    destruct o0; inversion E1; subst; exact D0. }
  destruct o1 as [entries| |]; try exact D1.
  apply wrapErr_Done', ReadDir_Done in E1. destruct E1 as (_ & _ & L).
  cbn [tree] in L. rewrite Hs in L. inversion L; subst entries.
  exact D1.
Qed.

Lemma copyOut_empty s :
  scratch s = FS.Dir [] -> same s (fst (Restore.copyOut h flags c s)).
Proof.
  intros Hs. unfold Restore.copyOut.
  destruct (negb _ && negb _).
  - apply same_disk. apply filteredCopy_empty. exact Hs.
  - destruct (wrapErr _ (Restore.copyDir h [] (Restore.target flags)) s)
      as [s1 o1] eqn:E1. cbn [fst].
    unfold wrapErr in E1.
    destruct (Restore.copyDir h [] (Restore.target flags) s)
      as [s0 o0] eqn:E0.
    assert (s1 = s0) by (destruct o0; inversion E1; reflexivity). subst s1.
    destruct (preserves_copyDir_copies h (FS.Dir []) []
                (Restore.target flags) _ _ _ E0 Hs) as [_ F].
    intros q d L. destruct (F _ _ L) as [L0|(p & _ & Lp)]; [exact L0|].
    exfalso. exact (lookup_in_empty _ _ Lp).
Qed.

Lemma RunE_copies_nothing s : same s (fst (Restore.RunE h flags c s)).
Proof.
  unfold Restore.RunE.
  destruct (negb _); [|apply same_disk; reflexivity].
  rewrite bind_run.
  destruct (wrapErr _ (OS.MkdirAll h Disk (Restore.target flags)) s)
    as [s1 o1] eqn:E1.
  assert (S1 : same s s1).
  { unfold wrapErr in E1.
    destruct (OS.MkdirAll h Disk (Restore.target flags) s)
      as [s0 o0] eqn:E0.
    assert (s1 = s0) by (destruct o0; inversion E1; reflexivity). subst s1.
    destruct (preserves_MkdirAll_copies h (scratch s) (fun _ _ => False)
                _ _ _ _ E0 eq_refl) as [_ F].
    intros q d L. destruct (F _ _ L) as [L0|[]]. exact L0. }
  destruct o1 as [[]| |]; try exact S1.
  rewrite bind_run.
  destruct (OS.CreateTempDir h s1) as [s2 o2] eqn:E2.
  assert (S2 : disk s2 = disk s1 /\ (o2 = Done tt -> scratch s2 = FS.Dir [])).
  { unfold OS.CreateTempDir, wrapErr in E2.
    destruct (fsFails h OpMkdirTemp); inversion E2; subst; cbn; auto.
    split; [reflexivity|discriminate]. }
  destruct S2 as [D2 H2].
  assert (S12 : same s s2) by (intros q d L; apply S1; rewrite <- D2; exact L).
  destruct o2 as [[]| |]; try exact S12.
  unfold defer.
  destruct (Restore.copyOut h flags c s2) as [s3 o3] eqn:E3. cbn [fst].
  pose proof (copyOut_empty s2 (H2 eq_refl)) as S3. rewrite E3 in S3.
  cbn [fst] in S3.
  assert (D4 : disk (fst (OS.CleanupTempDir h s3)) = disk s3).
  { unfold OS.CleanupTempDir. destruct (fsFails h _); reflexivity. }
  intros q d L. rewrite D4 in L. apply S12, S3. exact L.
Qed.

Lemma PreRunE_state s : fst (Restore.PreRunE flags c s) = s.
Proof.
  unfold Restore.PreRunE.
  repeat match goal with
         | |- context [if ?b then _ else _] => destruct b
         end; reflexivity.
Qed.
End RestoreCopiesNothing.

(** No run of the restore command adds a file to the disk: the scratch
    directory it copies from is the empty directory it has made. *)
Lemma Restore_copies_nothing h flags c s q d :
  FS.lookup q (disk (fst (Restore.Command h flags c s))) = Some (FS.File d) ->
  FS.lookup q (disk s) = Some (FS.File d).
Proof.
  unfold Restore.Command. rewrite bind_run.
  destruct (Root.PersistentPreRunE h c s) as [s0 o0] eqn:E0.
  pose proof (preserves_PersistentPreRunE h sameTrees c _ _ _ E0) as [_ D0].
  destruct o0 as [c'| |]; cbn [fst]; try (rewrite D0; auto).
  rewrite bind_run.
  destruct (Restore.PreRunE flags c' s0) as [s1 o1] eqn:E1.
  pose proof (PreRunE_state flags c' s0) as P1. rewrite E1 in P1.
  cbn [fst] in P1. subst s1.
  destruct o1 as [[]| |]; cbn [fst]; try (rewrite D0; auto).
  intros L. apply RunE_copies_nothing in L. rewrite D0 in L. exact L.
Qed.

(** C9 fails on the code, in its half on the restore.  A dry-run backup
    does what the claim says: it issues no push, and when it succeeds
    it has fetched every pair of environment and workspace of the
    resolved scope (the first page of the applications and the list of
    the asset templates at least), committed under the message of that
    scope and created the tag.  A restore, dry or not, sends only the
    requests of the scope resolution: no push, no upload.  But no run
    of the restore writes a file into the destination: every file on
    the disk after the run was there before, because the scratch
    directory that is copied is the empty directory the run has made
    (the defect of C1); the dry-run restore of a tag whose snapshot
    holds files succeeds, having walked the empty scratch directory,
    and leaves the target an empty directory. *)
Theorem dry_run_restore_writes_no_file :
  (forall (h : Host) c s,
     Config.DryRun c = true ->
     exists d,
       trace (fst (Backup.Command h c s)) = trace s ++ d /\
       Forall (fun e => isPush e = false) d /\
       (snd (Backup.Command h c s) = Done tt ->
        exists s0 c',
          Root.PersistentPreRunE h c s = (s0, Done c') /\
          (forall p, In p (Backup.scopePairs (Config.Envs c')) ->
             In (EvGet (Plainid.ReqAppPage (fst p) 50 0) true) d /\
             In (EvGet (Plainid.ReqAssetTemplateIDs (snd p)) true) d) /\
          In (EvGit (GitCommit (Backup.expectedMessage (Config.Envs c')))
                true) d /\
          In (EvGit (GitCreateTag (Time.Format (now h))
                       (String.append "Backup tag for "
                          (Backup.expectedMessage (Config.Envs c'))))
                true) d)) /\
  (forall (h : Host) flags c s,
     exists d,
       trace (fst (Restore.Command h flags c s)) = trace s ++ d /\
       Forall (fun e => isLocalOrInventory e = true) d) /\
  (forall (h : Host) flags c s q d,
     FS.lookup q (disk (fst (Restore.Command h flags c s)))
     = Some (FS.File d) ->
     FS.lookup q (disk s) = Some (FS.File d)) /\
  (let run := Restore.Command Demo.host Demo.flags (Demo.config true)
                              Demo.start in
   Config.DryRun (Demo.config true) = true /\
   remoteSnapshot Demo.host (Restore.restoreTag Demo.flags)
   = Some Demo.snapshot /\
   snd run = Done tt /\
   trace (fst run)
   = [EvGet Plainid.ReqEnvironments true;
      EvGet (Plainid.ReqWorkspaces "e1") true;
      EvGet (Plainid.ReqIdentities "e1") true;
      EvFs (OpMkdirAll Disk ["out"]) true;
      EvFs OpMkdirTemp true;
      EvFs (OpStat Scratch []) true;
      EvFs (OpMkdirAll Disk ["out"]) true;
      EvFs (OpReadDir Scratch []) true;
      EvFs (OpRemoveAll Scratch []) true] /\
   FS.lookup ["out"] (disk (fst run)) = Some (FS.Dir [])).
Proof.
  split; [|split; [|split]].
  - intros h c s D. destruct (Backup.Command h c s) as [s' r] eqn:E.
    destruct (obeys_dry_Command h c D _ _ _ E) as (d & T & F & _).
    exists d. split; [exact T|]. split; [exact F|]. cbn [snd]. intros ->.
    unfold Backup.Command in E. rewrite bind_run in E.
    destruct (Root.PersistentPreRunE h c s) as [s0 [c'| |]] eqn:E0;
      try discriminate.
    exists s0, c'. split; [reflexivity|].
    destruct (RunE_fetches h c' _ _ E) as (d1 & T1 & Hf & Hc & Ht).
    grow E0 ltac:(apply obeys_PersistentPreRunE; any_event).
    destruct E0 as [d0 T0].
    cbn [fst] in T. rewrite T1, T0, <- app_assoc in T.
    apply app_inv_head in T. subst d.
    split; [|split; apply in_or_app; right; assumption].
    intros p Hp. destruct (Hf p Hp) as [H1 H2].
    split; apply in_or_app; right; assumption.
  - intros h flags c s. destruct (Restore.Command h flags c s) as [s' r] eqn:E.
    exact (emits_Restore_Command h flags c _ _ _ E).
  - intros h flags c s q d. apply Restore_copies_nothing.
  - vm_compute. auto.
Qed.
